(** * Hermes2D: selective assembler, DOF assignment and hanging-node constraints

    A shallow embedding of the parts of Hermes2D that number degrees of
    freedom (space_h1.cpp), merge baselists of constrained vertices, derive the
    block structure of a weak formulation (weakform.cpp), cache the sparse
    structure between assembly calls (discrete_problem_selective_assembler.cpp),
    look up essential boundary conditions (essential_boundary_conditions.cpp)
    and drive the Newton loop of a Runge-Kutta step (runge_kutta.cpp).

    Conventions of the embedding.
    - C++ [int] values (DOF numbers, markers, counters that may be negative)
      are [Z]; unsigned indices that are never subtracted are [nat]; the
      [unsigned short] loop counters wrap at 2^16, written out.
    - [Scalar] and [double] quantities are exact rationals [Q], where
      rounding, infinities and NaN are outside the model; the merge of
      baselists is written over the operations of [Scalar], and the Newton
      loop over the comparison of its doubles: both run on exact rationals
      and on IEEE 754 doubles alike.
    - The [int] counters of the DOF passes, of the half-edge parts and of
      the Newton loop wrap at 2^31; a theorem that needs the values to
      stay within [INT_MAX], where the C++ arithmetic is defined, says so.
    - Pointers into an array are offsets ([Z]) from its first element; an
      array under construction is a finite map from offsets to the entries
      written so far, so an absent key is an uninitialised slot.
    - Undefined behaviour (a write outside the allocation, a read of an
      uninitialised slot, a null dereference) is the result [None]. *)

From Stdlib Require Import ZArith QArith Qabs Lia Lqa String Ascii Sorted.
From Stdlib Require Import PrimFloat SpecFloat FloatOps.
From stdpp Require Import base option list gmap numbers sorting.

Local Open Scope Z_scope.

(** ** Part I: the program *)

(** *** Generic helpers *)

(** A loop [for x in l] whose body may fault. *)
Fixpoint foldlM {S A : Type} (f : S -> A -> option S) (s : S) (l : list A) : option S :=
  match l with
  | [] => Some s
  | x :: l' => match f s x with
               | Some s' => foldlM f s' l'
               | None => None
               end
  end.

(** [min->coef * 0.5] *)
Definition half (c : Q) : Q := (c * (1 # 2))%Q.

(** *** int and Scalar *)

(** A 32-bit [int]: the value that the two's complement register holds for
    the mathematical result [x]. *)
Definition INT_MAX : Z := 2147483647.

Definition int_wrap (x : Z) : Z := (x + 2147483648) mod 4294967296 - 2147483648.

(** [x + y], [x - y] and [x * y] on [int]. *)
Definition int_add (x y : Z) : Z := int_wrap (x + y).

Definition int_sub (x y : Z) : Z := int_wrap (x - y).

Definition int_mul (x y : Z) : Z := int_wrap (x * y).

(** What the merge of baselists asks of the template parameter [Scalar]:
    [a + b] and [a * 0.5]. *)
Class Scalar (S : Type) : Type := {
  scalar_add : S -> S -> S;
  scalar_half : S -> S
}.

(** Exact rationals. *)
#[export] Instance Q_Scalar : Scalar Q := {|
  scalar_add := Qplus;
  scalar_half := half
|}.

(** [double]: IEEE 754 binary64 with its rounding. *)
Definition double : Type := PrimFloat.float.

#[export] Instance double_Scalar : Scalar double := {|
  scalar_add := PrimFloat.add;
  scalar_half := fun c => PrimFloat.mul c 0.5%float
|}.

(** The number a double stands for (0 for an infinity or a NaN). *)
Definition double_exact (x : double) : Q :=
  match Prim2SF x with
  | S754_finite s m e => ((if s then -1 else 1) * inject_Z (Z.pos m) * Qpower 2 e)%Q
  | _ => 0%Q
  end.

(** *** space.h data, as far as space_h1.cpp uses it *)

Module BaseComponent.
(** One entry of a baselist: [struct BaseComponent { int dof; Scalar coef; }],
    over the scalar type; [t] is the entry over exact rationals. *)
Record over (Scalar : Type) : Type := make { dof : Z; coef : Scalar }.
Arguments make {Scalar} dof coef.
Arguments dof {Scalar} _.
Arguments coef {Scalar} _.
Abbreviation t := (over Q).
Abbreviation mk d c := (@make Q d%Z c%Q).
End BaseComponent.

Module Node.
(** A mesh node.  [id], [ref], [bnd] and [marker] are its fields;
    [is_constrained_vertex] is the mesh's own predicate on it and
    [has_mid_vertex] stands for
    [mesh->peek_vertex_node(en->p1, en->p2) != nullptr]. *)
Record t : Type := mk {
  id : nat;
  ref : Z;
  bnd : bool;
  marker : Z;
  is_constrained_vertex : bool;
  has_mid_vertex : bool
}.
End Node.

Module NodeData.
(** [Space<Scalar>::NodeData]: [dof] and [n], then the members of the
    union that the modelled functions read or write. *)
Record t : Type := mk {
  dof : Z;
  n : Z;
  vertex_bc_coef : option Q;
  baselist : gmap Z BaseComponent.t;
  ncomponents : Z
}.
End NodeData.

(** *** H1Space<Scalar>::output_component and merge_baselists *)

Module Merge.

Section Locals.
Context {S : Type}.

(** The locals of [merge_baselists] that [output_component] takes by
    reference, with the array [result] they point into. *)
Record state : Type := mk {
  result : gmap Z (BaseComponent.over S);
  max_result : Z;
  current : Z;
  last : option Z;
  edge : option Node.t;
  edge_dofs : option Z
}.

(** What [merge_baselists] hands back: the (possibly reallocated) array
    with its capacity, [ncomponents] and [edge_dofs]. *)
Record output : Type := mk_output {
  out_result : gmap Z (BaseComponent.over S);
  out_capacity : Z;
  out_ncomponents : Z;
  out_edge_dofs : option Z
}.

End Locals.

Arguments state S : clear implicits.
Arguments output S : clear implicits.

Section WithNodeData.
Context {S : Type} {scalar : Scalar S}.

(** [p->dof = .. ; p->coef = ..] for a pointer [p] into the array. *)
Definition store (st : state S) (p : Z) (c : BaseComponent.over S)
  : option (gmap Z (BaseComponent.over S)) :=
  if decide (0 <= p < max_result st) then Some (<[p := c]> (result st)) else None.

(** [this->ndata], indexed by node id. *)
Variable ndata : nat -> NodeData.t.

Definition output_component (st : state S) (min : BaseComponent.over S) : option (state S) :=
  let emit (st : state S) : option (state S) :=
    (* leave space for edge node dofs if they belong in front of the
       current minimum dof *)
    let st1 :=
      match edge st with
      | Some e =>
          if NodeData.dof (ndata (Node.id e)) <=? BaseComponent.dof min then
            {| result := result st; max_result := max_result st;
               current :=
                 (* (reserve space only if the edge dofs are not in the list yet) *)
                 (if NodeData.dof (ndata (Node.id e)) =? BaseComponent.dof min
                  then current st
                  else current st + NodeData.n (ndata (Node.id e)));
               last := last st;
               edge := None;
               edge_dofs := Some (current st) |}
          else st
      | None => st
      end in
    (* output new dof *)
    match store st1 (current st1)
            (BaseComponent.make (BaseComponent.dof min) (scalar_half (BaseComponent.coef min))) with
    | Some r =>
        Some {| result := r; max_result := max_result st1;
                current := current st1 + 1;
                last := Some (current st1);
                edge := edge st1; edge_dofs := edge_dofs st1 |}
    | None => None
    end in
  match last st with
  | Some l =>
      match result st !! l with
      | Some lc =>
          (* if the dof is already in the list, just add half of the other coef *)
          if BaseComponent.dof lc =? BaseComponent.dof min then
            Some {| result :=
                      <[l := BaseComponent.make (BaseComponent.dof lc)
                               (scalar_add (BaseComponent.coef lc)
                                  (scalar_half (BaseComponent.coef min)))]>
                        (result st);
                    max_result := max_result st; current := current st;
                    last := last st; edge := edge st; edge_dofs := edge_dofs st |}
          else emit st
      | None => None
      end
  | None => emit st
  end.

(** The main loop [while (i1 < n1 && i2 < n2)]: [l1] and [l2] are the
    unread parts [l1 + i1 .. l1 + n1) and [l2 + i2 .. l2 + n2); the loop
    hands back what is left of both when it exits. *)
Fixpoint main_loop (l1 : list (BaseComponent.over S)) :
  list (BaseComponent.over S) -> state S ->
  option (state S * list (BaseComponent.over S) * list (BaseComponent.over S)) :=
  fix inner (l2 : list (BaseComponent.over S)) (st : state S) :=
    match l1, l2 with
    | a :: l1', b :: l2' =>
        if BaseComponent.dof a <? BaseComponent.dof b then
          match output_component st a with
          | Some st' => main_loop l1' l2 st'
          | None => None
          end
        else
          match output_component st b with
          | Some st' => inner l2' st'
          | None => None
          end
    | _, _ => Some (st, l1, l2)
    end.

(** [merge_baselists(l1, n1, l2, n2, edge, edge_dofs, ncomponents)]; the
    lists hold the [n1] and [n2] entries the loops may read, and
    [edge_dofs0] is the caller's (uninitialised) [edge_dofs]. *)
Definition merge_baselists (l1 l2 : list (BaseComponent.over S)) (edge : option Node.t)
    (edge_dofs0 : option Z) : option (output S) :=
  let n1 := Z.of_nat (length l1) in
  let n2 := Z.of_nat (length l2) in
  (* estimate the upper bound of the result size *)
  let max_result :=
    match edge with
    | Some e => n1 + n2 + NodeData.n (ndata (Node.id e))
    | None => n1 + n2
    end in
  let st0 := {| result := ∅; max_result := max_result; current := 0;
                last := None; edge := edge; edge_dofs := edge_dofs0 |} in
  match main_loop l1 l2 st0 with
  | Some (st1, r1, r2) =>
      (* finish the longer baselist *)
      match foldlM output_component st1 r1 with
      | Some st2 =>
          match foldlM output_component st2 r2 with
          | Some st3 =>
              (* don't forget to reserve space for edge dofs if we haven't
                 done that already *)
              let '(cur, ed) :=
                match Merge.edge st3 with
                | Some e => (current st3 + NodeData.n (ndata (Node.id e)),
                             Some (current st3))
                | None => (current st3, edge_dofs st3)
                end in
              let ncomponents := cur in
              (* if we produced less components than we expected,
                 reallocate the resulting array *)
              Some {| out_result := result st3;
                      out_capacity :=
                        (if ncomponents <? max_result then ncomponents else max_result);
                      out_ncomponents := ncomponents;
                      out_edge_dofs := ed |}
          | None => None
          end
      | None => None
      end
  | None => None
  end.

(** The components written so far, in array order: the initialised
    slots among [result[0 .. upto)]. *)
Definition written (r : gmap Z (BaseComponent.over S)) (upto : Z) : list (BaseComponent.over S) :=
  omap (fun p => r !! p) (seqZ 0 upto).

Definition emitted (o : output S) : list (BaseComponent.over S) :=
  written (out_result o) (out_ncomponents o).

End WithNodeData.

End Merge.

(** Baselists as the claims speak of them. *)

Definition dofs {S : Type} (l : list (BaseComponent.over S)) : list Z :=
  map BaseComponent.dof l.

(** Sorted ascending by DOF index with no DOF twice. *)
Definition sorted_unique {S : Type} (l : list (BaseComponent.over S)) : Prop :=
  StronglySorted Z.lt (dofs l).

(** The sum of the coefficients, each taken for the number [value] gives
    it. *)
Fixpoint coef_sum {S : Type} (value : S -> Q) (l : list (BaseComponent.over S)) : Q :=
  match l with
  | [] => 0%Q
  | c :: l' => (value (BaseComponent.coef c) + coef_sum value l')%Q
  end.

(** The coefficient a baselist carries for DOF [x], if any. *)
Fixpoint coef_at {S : Type} (l : list (BaseComponent.over S)) (x : Z) : option S :=
  match l with
  | [] => None
  | c :: l' => if BaseComponent.dof c =? x then Some (BaseComponent.coef c) else coef_at l' x
  end.

(** The abstract view of the merge: [acc] holds the components written so
    far, most recent first. *)
Definition emit_abs {S : Type} {scalar : Scalar S}
    (acc : list (BaseComponent.over S)) (m : BaseComponent.over S)
  : list (BaseComponent.over S) :=
  let fresh := BaseComponent.make (BaseComponent.dof m) (scalar_half (BaseComponent.coef m)) in
  match acc with
  | lc :: rest =>
      if BaseComponent.dof lc =? BaseComponent.dof m
      then BaseComponent.make (BaseComponent.dof lc)
             (scalar_add (BaseComponent.coef lc) (scalar_half (BaseComponent.coef m)))
           :: rest
      else fresh :: acc
  | [] => [fresh]
  end.

Fixpoint run_abs {S : Type} {scalar : Scalar S} (l1 : list (BaseComponent.over S)) :
  list (BaseComponent.over S) -> list (BaseComponent.over S) -> list (BaseComponent.over S) :=
  fix inner (l2 acc : list (BaseComponent.over S)) :=
    match l1, l2 with
    | a :: l1', b :: l2' =>
        if BaseComponent.dof a <? BaseComponent.dof b
        then run_abs l1' l2 (emit_abs acc a)
        else inner l2' (emit_abs acc b)
    | _, _ => fold_left emit_abs l2 (fold_left emit_abs l1 acc)
    end.

(** What the claim promises for one DOF, from its coefficients in the two
    inputs, in the arithmetic of the scalar type: the second list's half is
    written first when both have it. *)
Definition merged_coef {S : Type} {scalar : Scalar S} (c1 c2 : option S) : option S :=
  match c1, c2 with
  | Some a, None => Some (scalar_half a)
  | None, Some b => Some (scalar_half b)
  | Some a, Some b => Some (scalar_add (scalar_half b) (scalar_half a))
  | None, None => None
  end.

(** The arithmetic of the scalar type is exact for the numbers that
    [value] gives its members: a sum is the sum, a half is the half. *)
Definition exact_arithmetic {S : Type} {scalar : Scalar S} (value : S -> Q) : Prop :=
  (forall a b, value (scalar_add a b) == value a + value b)%Q /\
  (forall a, value (scalar_half a) == value a * (1 # 2))%Q.

(** The claim's last sentence, for the numbers that [value] gives the
    coefficients: inputs that sum to at most 1 each merge into components
    that sum to at most 1. *)
Definition sum_stays_below_one {S : Type} (value : S -> Q)
    (l1 l2 merged : list (BaseComponent.over S)) : Prop :=
  (coef_sum value l1 <= 1)%Q -> (coef_sum value l2 <= 1)%Q ->
  (coef_sum value merged <= 1)%Q.

(** The claim's arithmetic read in numbers: a DOF of both inputs carries
    half of the one coefficient plus half of the other. *)
Definition halves_added {S : Type} (value : S -> Q)
    (l1 l2 merged : list (BaseComponent.over S)) : Prop :=
  forall x a b c,
    coef_at l1 x = Some a -> coef_at l2 x = Some b -> coef_at merged x = Some c ->
    (value c == value a * (1 # 2) + value b * (1 # 2))%Q.

Definition edge_n (ndata : nat -> NodeData.t) (edge : option Node.t) : Z :=
  match edge with
  | Some e => NodeData.n (ndata (Node.id e))
  | None => 0
  end.

(** *** essential_boundary_conditions.cpp *)

(** How a call ends: it returns, it leaves by an exception (the value is
    the object as the exception leaves it), or it is still running when
    the fuel is spent. *)
Inductive outcome (A : Type) : Type :=
| Returns (a : A)
| Throws (a : A)
| OutOfFuel.
Arguments Returns {A} a.
Arguments Throws {A} a.
Arguments OutOfFuel {A}.

Module EssentialBoundaryCondition.
(** A boundary condition object: [id] stands for the address the
    container stores, [markers] is its [std::vector<std::string> markers]. *)
Record t : Type := mk { id : nat; markers : list string }.
End EssentialBoundaryCondition.

Module EssentialBCs.

Record t : Type := mk {
  all : list EssentialBoundaryCondition.t;
  markers : list string;
  BCs : list EssentialBoundaryCondition.t;
  HermesAnyBC : option EssentialBoundaryCondition.t
}.

(** [unsigned short i]: [i++] wraps at 2^16. *)
Definition ushort_succ (i : Z) : Z := (i + 1) mod 65536.

(** [for (unsigned short i = 0; i < markers.size(); i++)
       if (markers[i] == marker) ...]
    from index [i] on: [Some (Some k)] when the test succeeds at index [k],
    [Some None] when the loop runs to its end, [None] when the fuel is
    spent first.  Both functions below run this loop. *)
Fixpoint scan_markers (fuel : nat) (markers : list string) (marker : string) (i : Z)
  : option (option nat) :=
  match fuel with
  | O => None
  | S fuel' =>
      if i <? Z.of_nat (length markers) then
        match markers !! Z.to_nat i with
        | Some m =>
            if String.eqb m marker then Some (Some (Z.to_nat i))
            else scan_markers fuel' markers marker (ushort_succ i)
        | None => None
        end
      else Some None
  end.

Section WithAny.
(** The wildcard marker string [HERMES_ANY]; its value is set elsewhere in
    the library. *)
Variable HERMES_ANY : string.

(** The locals [hermes_any_set] and [any_set] of [create_marker_cache]. *)
Record cache_locals : Type := mk_locals {
  hermes_any_set : bool;
  any_set : option EssentialBoundaryCondition.t
}.

(** Body of the inner loop of [create_marker_cache], for the marker [it]
    of the condition [bc]. *)
Definition cache_marker (fuel : nat) (bc : EssentialBoundaryCondition.t)
    (st : cache_locals * t) (it : string) : outcome (cache_locals * t) :=
  let '(lo, s) := st in
  if hermes_any_set lo then Throws st
  else if String.eqb it HERMES_ANY then
    match any_set lo with
    | Some _ => Throws st
    | None =>
        Returns ({| hermes_any_set := true; any_set := any_set lo |},
                 {| all := all s; markers := markers s; BCs := BCs s;
                    HermesAnyBC := Some bc |})
    end
  else
    let lo' := {| hermes_any_set := hermes_any_set lo; any_set := Some bc |} in
    match scan_markers fuel (markers s) it 0 with
    | None => OutOfFuel
    | Some (Some _) => Throws (lo', s)
    | Some None =>
        Returns (lo', {| all := all s; markers := markers s ++ [it];
                         BCs := BCs s ++ [bc]; HermesAnyBC := HermesAnyBC s |})
    end.

(** A [for] loop whose body may throw or hang. *)
Fixpoint for_outcome {S A : Type} (body : S -> A -> outcome S) (s : S) (l : list A)
  : outcome S :=
  match l with
  | [] => Returns s
  | x :: l' =>
      match body s x with
      | Returns s' => for_outcome body s' l'
      | Throws s' => Throws s'
      | OutOfFuel => OutOfFuel
      end
  end.

Definition create_marker_cache (fuel : nat) (s : t) : outcome t :=
  let s0 := {| all := all s; markers := []; BCs := []; HermesAnyBC := HermesAnyBC s |} in
  let lo0 := {| hermes_any_set := false; any_set := None |} in
  match for_outcome
          (fun st bc => for_outcome (cache_marker fuel bc) st
                          (EssentialBoundaryCondition.markers bc))
          (lo0, s0) (all s) with
  | Returns (_, s') => Returns s'
  | Throws (_, s') => Throws s'
  | OutOfFuel => OutOfFuel
  end.

Definition add_boundary_conditions (fuel : nat) (s : t)
    (boundary_conditions : list EssentialBoundaryCondition.t) : outcome t :=
  create_marker_cache fuel
    {| all := all s ++ boundary_conditions; markers := [];
       BCs := BCs s; HermesAnyBC := HermesAnyBC s |}.

(** [EssentialBCs()] and [EssentialBCs(essential_bcs)]. *)
Definition empty : t := {| all := []; markers := []; BCs := []; HermesAnyBC := None |}.

Definition construct (fuel : nat) (essential_bcs : list EssentialBoundaryCondition.t)
  : outcome t :=
  add_boundary_conditions fuel empty essential_bcs.

End WithAny.

(** [get_boundary_condition(marker)]: [Some r] when the call returns the
    pointer [r] ([None] being [nullptr]), [None] when the fuel is spent. *)
Definition get_boundary_condition (fuel : nat) (s : t) (marker : string)
  : option (option EssentialBoundaryCondition.t) :=
  match HermesAnyBC s with
  | Some b => Some (Some b)
  | None =>
      match scan_markers fuel (markers s) marker 0 with
      | None => None
      | Some None => Some None
      | Some (Some i) => Some (BCs s !! i)
      end
  end.

End EssentialBCs.

(** *** H1Space<Scalar>::assign_edge_dofs *)

Module Element.
(** A mesh element: [nvert] is [get_nvert()], [vn] and [en] its vertex and
    edge nodes, [marker] its region marker. *)
Record t : Type := mk {
  id : nat;
  nvert : nat;
  vn : list Node.t;
  en : list Node.t;
  marker : Z
}.
End Element.

Module H1Space.

(** The members of the space that the DOF passes read and write. *)
Record t : Type := mk {
  ndata : nat -> NodeData.t;
  next_dof : Z;
  edge_functions_count : Z;
  essential_bcs : option EssentialBCs.t
}.

(** [nd->dof = ..], [nd->n = ..] for [nd = this->ndata + id]. *)
Definition set_dof (ndata : nat -> NodeData.t) (id : nat) (d : Z) : nat -> NodeData.t :=
  fun k =>
    if Nat.eqb k id then
      let nd := ndata id in
      NodeData.mk d (NodeData.n nd) (NodeData.vertex_bc_coef nd)
        (NodeData.baselist nd) (NodeData.ncomponents nd)
    else ndata k.

Definition set_n (ndata : nat -> NodeData.t) (id : nat) (n : Z) : nat -> NodeData.t :=
  fun k =>
    if Nat.eqb k id then
      let nd := ndata id in
      NodeData.mk (NodeData.dof nd) n (NodeData.vertex_bc_coef nd)
        (NodeData.baselist nd) (NodeData.ncomponents nd)
    else ndata k.

Section WithMesh.
(** The sentinels [H2D_UNASSIGNED_DOF] and [H2D_CONSTRAINED_DOF] of
    space.h, the mesh's [boundary_markers_conversion.get_user_marker(..).marker]
    and [get_edge_order_internal]; their bodies are not part of this file. *)
Variable H2D_UNASSIGNED_DOF H2D_CONSTRAINED_DOF : Z.
Variable get_user_marker : Z -> string.
Variable get_edge_order_internal : Node.t -> Z.
Variable get_element_order : nat -> Z.
(** Fuel of every [get_boundary_condition] call. *)
Variable fuel : nat.

(** [nd->dof = next_dof; next_dof += ndofs; edge_functions_count += ndofs;]
    on [int] members. *)
Definition take_dofs (s : t) (id : nat) (ndofs : Z) : t :=
  {| ndata := set_dof (ndata s) id (next_dof s);
     next_dof := int_add (next_dof s) ndofs;
     edge_functions_count := int_add (edge_functions_count s) ndofs;
     essential_bcs := essential_bcs s |}.

Definition mark_constrained_dof (s : t) (id : nat) : t :=
  {| ndata := set_dof (ndata s) id H2D_CONSTRAINED_DOF;
     next_dof := next_dof s;
     edge_functions_count := edge_functions_count s;
     essential_bcs := essential_bcs s |}.

(** Body of the loop over the edges of one element, for [en = e->en[i]];
    [None] when the boundary-condition lookup does not return.  Each
    [else] is attached to the nearest [if], as the compiler does it. *)
Definition assign_edge_node (s : t) (en : Node.t) : option t :=
  let nd := ndata s (Node.id en) in
  if NodeData.dof nd =? H2D_UNASSIGNED_DOF then
    (* If the edge node is not constrained, assign it dofs. *)
    if (Node.ref en >? 1) || Node.bnd en || Node.has_mid_vertex en then
      let ndofs := int_sub (get_edge_order_internal en) 1 in
      let s1 := {| ndata := set_n (ndata s) (Node.id en) ndofs;
                   next_dof := next_dof s;
                   edge_functions_count := edge_functions_count s;
                   essential_bcs := essential_bcs s |} in
      if Node.bnd en then
        match essential_bcs s with
        | Some bcs =>
            match EssentialBCs.get_boundary_condition fuel bcs
                    (get_user_marker (Node.marker en)) with
            | Some (Some _) => Some (mark_constrained_dof s1 (Node.id en))
            | Some None => Some (take_dofs s1 (Node.id en) ndofs)
            | None => None
            end
        | None => Some (take_dofs s1 (Node.id en) ndofs)
        end
      else Some (take_dofs s1 (Node.id en) ndofs)
    else
      (* Constrained edge node. *)
      Some {| ndata := set_n (ndata s) (Node.id en) (-1);
              next_dof := next_dof s;
              edge_functions_count := edge_functions_count s;
              essential_bcs := essential_bcs s |}
  else Some s.

(** The body of [for_all_active_elements]: the loop reads [e->vn[i]] and
    [e->en[i]] for [i < e->get_nvert()]; a missing node is a fault. *)
Definition assign_element_edges (s : t) (e : Element.t) : option t :=
  if get_element_order (Element.id e) >? 0 then
    foldlM (fun s i =>
              match Element.vn e !! i, Element.en e !! i with
              | Some _, Some en => assign_edge_node s en
              | _, _ => None
              end)
           s (seq 0 (Element.nvert e))
  else Some s.

(** [assign_edge_dofs()], over the active elements of the mesh in the
    order [for_all_active_elements] visits them. *)
Definition assign_edge_dofs (s : t) (active_elements : list Element.t) : option t :=
  foldlM assign_element_edges
    {| ndata := ndata s; next_dof := next_dof s; edge_functions_count := 0;
       essential_bcs := essential_bcs s |}
    active_elements.

End WithMesh.

(** *** H1Space<Scalar>::get_vertex_assembly_list *)

(** [al->add_triplet(idx, dof, coef)] appends one triplet. *)
Record triplet : Type := mk_triplet { t_idx : Z; t_dof : Z; t_coef : Q }.

(** [x != (Scalar)0] *)
Definition nonzero (x : Q) : bool := negb (Qeq_bool x 0).

(** [vn = e->vn[iv]], [index = shapeset->get_vertex_index(iv, mode)];
    [None] when a null [vertex_bc_coef] is dereferenced or a baselist slot
    below [ncomponents] was never written. *)
Definition get_vertex_assembly_list (ndata : nat -> NodeData.t) (vn : Node.t)
    (index : Z) (al : list triplet) : option (list triplet) :=
  let nd := ndata (Node.id vn) in
  if negb (Node.is_constrained_vertex vn) then
    (* unconstrained *)
    if NodeData.dof nd >=? 0 then Some (al ++ [mk_triplet index (NodeData.dof nd) 1])
    else
      match NodeData.vertex_bc_coef nd with
      | Some c => Some (al ++ [mk_triplet index (NodeData.dof nd) c])
      | None => None
      end
  else
    (* constrained *)
    foldlM (fun al j =>
              match NodeData.baselist nd !! j with
              | Some c =>
                  if nonzero (BaseComponent.coef c)
                  then Some (al ++ [mk_triplet index (BaseComponent.dof c)
                                      (BaseComponent.coef c)])
                  else Some al
              | None => None
              end)
           al (seqZ 0 (NodeData.ncomponents nd)).

(** *** The baselist of a mid-edge vertex in update_constrained_nodes *)

(** [bl[k]], [nc[k]] for the endpoint [vn[k]]: the stored baselist of a
    constrained vertex, an artificial one-entry list otherwise. *)
Definition endpoint_baselist (ndata : nat -> NodeData.t) (vn : Node.t)
  : option (list BaseComponent.t) :=
  let nd := ndata (Node.id vn) in
  if Node.is_constrained_vertex vn then
    mapM (fun p => NodeData.baselist nd !! p) (seqZ 0 (NodeData.ncomponents nd))
  else
    (* make up an artificial baselist *)
    Some [BaseComponent.mk (NodeData.dof nd)
            (if NodeData.dof nd >=? 0 then 1
             else match NodeData.vertex_bc_coef nd with
                  | Some c => c
                  | None => 0
                  end)].

(** [edge_dofs->dof = nd->dof + k; edge_dofs->coef = ..] for [k < nd->n],
    with [edge_dofs] advancing; a write outside the (reallocated) array is
    a fault. *)
Definition fill_edge_dofs (nd : NodeData.t) (edge_value : Z -> Q)
    (capacity : Z) (edge_dofs : Z) (bl : gmap Z BaseComponent.t)
  : option (gmap Z BaseComponent.t) :=
  foldlM (fun bl k =>
            if decide (0 <= edge_dofs + k < capacity)
            then Some (<[edge_dofs + k := BaseComponent.mk (NodeData.dof nd + k) (edge_value k)]> bl)
            else None)
         bl (seqZ 0 (NodeData.n nd)).

(** Lines 464-500 of space_h1.cpp for one edge of a split element: the
    endpoints [vn0], [vn1], the constraining edge node [en] and
    [edge_value k], the value at the edge midpoint of the edge function of
    order [k + 2].  The result is the [baselist] and [ncomponents] stored
    for the mid-edge vertex. *)
Definition mid_vertex_baselist (ndata : nat -> NodeData.t) (vn0 vn1 en : Node.t)
    (edge_value : Z -> Q) : option (gmap Z BaseComponent.t * Z) :=
  match endpoint_baselist ndata vn0, endpoint_baselist ndata vn1 with
  | Some bl0, Some bl1 =>
      match Merge.merge_baselists ndata bl0 bl1 (Some en) None with
      | Some o =>
          match Merge.out_edge_dofs o with
          | Some ed =>
              match fill_edge_dofs (ndata (Node.id en)) edge_value
                      (Merge.out_capacity o) ed (Merge.out_result o) with
              | Some bl => Some (bl, Merge.out_ncomponents o)
              | None => None
              end
          | None => None
          end
      | None => None
      end
  | _, _ => None
  end.

End H1Space.

(** *** weakform.cpp *)

(** [x < y] and [x > y] on [double]. *)
Definition Qltb (x y : Q) : bool := negb (Qle_bool y x).

Module MatrixForm.
(** [MatrixForm<Scalar>], the base of [MatrixFormVol] and [MatrixFormSurf]:
    [sym] is the symmetry flag (-1 antisymmetric, 0 none, 1 symmetric, as
    [add_matrix_form] checks it). *)
Record t : Type := mk {
  i : nat;
  j : nat;
  sym : Z;
  scaling_factor : Q;
  assembleEverywhere : bool;
  areas_internal : list Z
}.
End MatrixForm.

Module MatrixFormDG.
(** [MatrixFormDG<Scalar>] derives from [Form] directly and has no
    symmetry flag. *)
Record t : Type := mk { i : nat; j : nat; scaling_factor : Q }.
End MatrixFormDG.

Definition HERMES_ANTISYM : Z := -1.
Definition HERMES_NONSYM : Z := 0.
Definition HERMES_SYM : Z := 1.

Module WeakForm.

Record t : Type := mk {
  neq : nat;
  mfvol : list MatrixForm.t;
  mfsurf : list MatrixForm.t;
  mfDG : list MatrixFormDG.t;
  (** only the size of [vfDG] is read here *)
  vfDG_size : nat
}.

(** [is_DG()] *)
Definition is_DG (wf : t) : bool :=
  if (Nat.eqb (length (mfDG wf)) 0) && (Nat.eqb (vfDG_size wf) 0) then false else true.

(** [blocks[r][c] = true]; outside the matrix the C++ write is undefined,
    here it changes nothing. *)
Definition set_block (blocks : list (list bool)) (r c : nat) : list (list bool) :=
  alter (fun row => <[c := true]> row) r blocks.

Section WithEpsilon.
(** [Hermes::HermesSqrtEpsilon], the fixed threshold; its value is set in
    the common library. *)
Variable HermesSqrtEpsilon : Q.

(** [fabs(form->scaling_factor) > Hermes::HermesSqrtEpsilon] *)
Definition above_threshold (scaling_factor : Q) : bool :=
  Qltb HermesSqrtEpsilon (Qabs scaling_factor).

(** [fabs(form->scaling_factor) < Hermes::HermesSqrtEpsilon] *)
Definition below_threshold (scaling_factor : Q) : bool :=
  Qltb (Qabs scaling_factor) HermesSqrtEpsilon.

(** Body of the loop over [mfvol]. *)
Definition mark_vol (blocks : list (list bool)) (f : MatrixForm.t) : list (list bool) :=
  let blocks1 :=
    if above_threshold (MatrixForm.scaling_factor f)
    then set_block blocks (MatrixForm.i f) (MatrixForm.j f)
    else blocks in
  if negb (MatrixForm.sym f =? 0) then
    if above_threshold (MatrixForm.scaling_factor f)
    then set_block blocks1 (MatrixForm.j f) (MatrixForm.i f)
    else blocks1
  else blocks1.

(** Body of the loop over [mfsurf]. *)
Definition mark_surf (blocks : list (list bool)) (f : MatrixForm.t) : list (list bool) :=
  if above_threshold (MatrixForm.scaling_factor f)
  then set_block blocks (MatrixForm.i f) (MatrixForm.j f)
  else blocks.

(** Body of the loop over [mfDG]. *)
Definition mark_DG (blocks : list (list bool)) (f : MatrixFormDG.t) : list (list bool) :=
  if above_threshold (MatrixFormDG.scaling_factor f)
  then set_block blocks (MatrixFormDG.i f) (MatrixFormDG.j f)
  else blocks.

(** The first loop: every row cleared, then its diagonal entry set when
    [force_diagonal_blocks]. *)
Definition initial_blocks (neq : nat) (force_diagonal_blocks : bool) : list (list bool) :=
  map (fun i =>
         let row := replicate neq false in
         if force_diagonal_blocks then <[i := true]> row else row)
      (seq 0 neq).

Definition get_blocks (wf : t) (force_diagonal_blocks : bool) : list (list bool) :=
  let blocks0 := initial_blocks (neq wf) force_diagonal_blocks in
  let blocks1 := fold_left mark_vol (mfvol wf) blocks0 in
  let blocks2 := fold_left mark_surf (mfsurf wf) blocks1 in
  fold_left mark_DG (mfDG wf) blocks2.

End WithEpsilon.

(** [blocks[r][c]] *)
Definition block (blocks : list (list bool)) (r c : nat) : option bool :=
  match blocks !! r with
  | Some row => row !! c
  | None => None
  end.

End WeakForm.

(** *** discrete_problem_selective_assembler.cpp *)

Module Traverse.
(** [Traverse::State]: [e[i]] is the element of component [i] (or null),
    [rep] the representing element, [isurf] the active edge. *)
Record State : Type := mk {
  e : nat -> option Element.t;
  rep : Element.t;
  isurf : nat
}.
End Traverse.

(** Calls into the sparse matrix / vector backend, with the address of the
    object called. *)
Inductive backend_call : Type :=
| mat_zero (mat : nat)
| mat_free (mat : nat)
| mat_prealloc (mat : nat) (ndof : Z)
| mat_pre_add_ij (mat : nat) (row col : Z)
| mat_alloc (mat : nat)
| vec_zero (rhs : nat)
| vec_alloc (rhs : nat) (ndof : Z).

(** A computation that calls the backend and may fault: it extends the
    log of calls made so far and yields a value unless it faulted. *)
Definition Backend (A : Type) : Type := list backend_call -> list backend_call * option A.

Definition backend_ret {A : Type} (a : A) : Backend A := fun log => (log, Some a).

Definition backend_bind {A B : Type} (f : A -> Backend B) (m : Backend A) : Backend B :=
  fun log =>
    let (log', r) := m log in
    match r with
    | Some a => f a log'
    | None => (log', None)
    end.

#[global] Instance Backend_ret : MRet Backend := @backend_ret.
#[global] Instance Backend_bind : MBind Backend := @backend_bind.

Definition call (c : backend_call) : Backend unit := fun log => (log ++ [c], Some tt).

Definition fault {A : Type} : Backend A := fun log => (log, None).

Definition need {A : Type} (o : option A) : Backend A :=
  match o with
  | Some a => mret a
  | None => fault
  end.

Definition when (b : bool) (m : Backend unit) : Backend unit :=
  if b then m else mret tt.

Fixpoint for_each {A : Type} (l : list A) (body : A -> Backend unit) : Backend unit :=
  match l with
  | [] => mret tt
  | x :: l' => body x ;; for_each l' body
  end.

Fixpoint for_fold {A S : Type} (l : list A) (s : S) (body : S -> A -> Backend S) : Backend S :=
  match l with
  | [] => mret s
  | x :: l' => s' ← body s x; for_fold l' s' body
  end.

Module Assembler.

Record t : Type := mk {
  sp_seq : option (list Z);
  spaces_size : nat;
  matrix_structure_reusable : bool;
  previous_mat : option nat;
  vector_structure_reusable : bool;
  previous_rhs : option nat;
  wf : WeakForm.t;
  force_diagonal_blocks : bool;
  block_weights : option (nat -> nat -> Q);
  RK_original_spaces_count : nat
}.

Definition with_matrix_reusable (a : t) (b : bool) : t :=
  {| sp_seq := sp_seq a; spaces_size := spaces_size a;
     matrix_structure_reusable := b; previous_mat := previous_mat a;
     vector_structure_reusable := vector_structure_reusable a;
     previous_rhs := previous_rhs a; wf := wf a;
     force_diagonal_blocks := force_diagonal_blocks a;
     block_weights := block_weights a;
     RK_original_spaces_count := RK_original_spaces_count a |}.

Definition with_vector_reusable (a : t) (b : bool) : t :=
  {| sp_seq := sp_seq a; spaces_size := spaces_size a;
     matrix_structure_reusable := matrix_structure_reusable a;
     previous_mat := previous_mat a;
     vector_structure_reusable := b;
     previous_rhs := previous_rhs a; wf := wf a;
     force_diagonal_blocks := force_diagonal_blocks a;
     block_weights := block_weights a;
     RK_original_spaces_count := RK_original_spaces_count a |}.

Definition with_previous (a : t) (mat rhs : option nat) : t :=
  {| sp_seq := sp_seq a; spaces_size := spaces_size a;
     matrix_structure_reusable := matrix_structure_reusable a;
     previous_mat := mat;
     vector_structure_reusable := vector_structure_reusable a;
     previous_rhs := rhs; wf := wf a;
     force_diagonal_blocks := force_diagonal_blocks a;
     block_weights := block_weights a;
     RK_original_spaces_count := RK_original_spaces_count a |}.

Definition with_sp_seq (a : t) (size : nat) (seq : list Z) : t :=
  {| sp_seq := Some seq; spaces_size := size;
     matrix_structure_reusable := matrix_structure_reusable a;
     previous_mat := previous_mat a;
     vector_structure_reusable := vector_structure_reusable a;
     previous_rhs := previous_rhs a; wf := wf a;
     force_diagonal_blocks := force_diagonal_blocks a;
     block_weights := block_weights a;
     RK_original_spaces_count := RK_original_spaces_count a |}.

(** The constructor: no array of sequence numbers, no space, both flags
    down, no previous matrix or vector.  The members that the base
    classes bring (the weak formulation, [force_diagonal_blocks],
    [block_weights], [RK_original_spaces_count]) are set outside this
    file and given here. *)
Definition construct (wf : WeakForm.t) (force_diagonal_blocks : bool)
    (block_weights : option (nat -> nat -> Q)) (RK_original_spaces_count : nat) : t :=
  {| sp_seq := None; spaces_size := 0;
     matrix_structure_reusable := false; previous_mat := None;
     vector_structure_reusable := false; previous_rhs := None;
     wf := wf; force_diagonal_blocks := force_diagonal_blocks;
     block_weights := block_weights;
     RK_original_spaces_count := RK_original_spaces_count |}.

(** [mat == this->previous_mat] on pointers. *)
Definition same_object (p q : option nat) : bool :=
  match p, q with
  | Some x, Some y => Nat.eqb x y
  | None, None => true
  | _, _ => false
  end.

Definition non_null (p : option nat) : bool :=
  match p with Some _ => true | None => false end.

Section WithSpaces.
Variable HermesSqrtEpsilon : Q.
(** [spaces[i]->get_element_assembly_list(e, &al)]: the DOF numbers
    [al.dof[0 .. al.cnt)] it fills in. *)
Variable get_element_assembly_list : nat -> Element.t -> list Z.
(** [NeighborSearch ns(e, spaces[el]->get_mesh()); ns.set_active_edge(ed);
    ns.get_neighbors()] *)
Variable get_neighbors : nat -> Element.t -> nat -> list Element.t.

(** "Pretend assembling of the element stiffness matrix": the loops over
    [dofs_m] and [dofs_n]. *)
Definition pre_add_block (mat : nat) (dofs_m dofs_n : list Z) : Backend unit :=
  for_each dofs_m (fun di =>
    when (di >=? 0)
      (for_each dofs_n (fun dj =>
         when (dj >=? 0) (call (mat_pre_add_ij mat di dj))))).

(** The same loops of the DG branch, over [am] and the neighbour's [an]. *)
Definition pre_add_neighbor (mat : nat) (blocks_m_el blocks_el_m : bool)
    (am an : list Z) : Backend unit :=
  for_each am (fun di =>
    when (di >=? 0)
      (for_each an (fun dj =>
         when (dj >=? 0)
           (when blocks_m_el (call (mat_pre_add_ij mat di dj)) ;;
            when blocks_el_m (call (mat_pre_add_ij mat dj di)))))).

(** [current_state->e[el]->en[ed]->bnd]; a null element or a missing edge
    node is a fault. *)
Definition edge_is_boundary (cs : Traverse.State) (el ed : nat) : Backend bool :=
  match Traverse.e cs el with
  | Some elem =>
      match Element.en elem !! ed with
      | Some en => mret (Node.bnd en)
      | None => fault
      end
  | None => fault
  end.

(** The branch [if (wf->is_DG() && !wf->mfDG.empty())] for one state. *)
Definition pre_add_DG (a : t) (mat : nat) (blocks : list (list bool))
    (cs : Traverse.State) (al : list (list Z)) : Backend unit :=
  (* Number of edges ( =  number of vertices). *)
  e0 ← need (Traverse.e cs 0%nat);
  let num_edges := Element.nvert e0 in
  (* Get the neighbors. *)
  neighbor_elems ←
    for_fold (seq 0 (spaces_size a)) (∅ : gmap (nat * nat) (list Element.t))
      (fun tbl el =>
         elem ← need (Traverse.e cs el);
         for_fold (seq 0 num_edges) tbl
           (fun tbl ed =>
              bnd ← edge_is_boundary cs el ed;
              mret (if (bnd : bool) then tbl
                    else <[(el, ed) := get_neighbors el elem ed]> tbl)));
  (* Pre-add into the stiffness matrix. *)
  for_each (seq 0 (spaces_size a)) (fun m =>
    for_each (seq 0 (spaces_size a)) (fun el =>
      for_each (seq 0 num_edges) (fun ed =>
        bnd ← edge_is_boundary cs el ed;
        when (negb bnd)
          (neighbors ← need (neighbor_elems !! (el, ed));
           for_each neighbors (fun neigh =>
             b_m_el ← need (WeakForm.block blocks m el);
             b_el_m ← need (WeakForm.block blocks el m);
             when ((b_m_el || b_el_m) && bool_decide (is_Some (Traverse.e cs m)))
               (am ← need (al !! m);
                let an := get_element_assembly_list el neigh in
                pre_add_neighbor mat b_m_el b_el_m am an)))))).

(** "Go through all equation-blocks of the local stiffness matrix." *)
Definition pre_add_local (a : t) (mat : nat) (blocks : list (list bool))
    (cs : Traverse.State) (al : list (list Z)) : Backend unit :=
  if Nat.eqb (spaces_size a) 1 then
    dofs_m ← need (al !! 0%nat);
    b ← need (WeakForm.block blocks 0 0);
    when (b && bool_decide (is_Some (Traverse.e cs 0%nat)))
      (pre_add_block mat dofs_m dofs_m)
  else
    for_each (seq 0 (spaces_size a)) (fun m =>
      dofs_m ← need (al !! m);
      for_each (seq 0 (spaces_size a)) (fun n =>
        b ← need (WeakForm.block blocks m n);
        when (b && bool_decide (is_Some (Traverse.e cs m))
                && bool_decide (is_Some (Traverse.e cs n)))
          (dofs_n ← need (al !! n);
           pre_add_block mat dofs_m dofs_n))).

(** One turn of the loop over the states; [al] lives across the turns. *)
Definition pre_add_state (a : t) (mat : nat) (blocks : list (list bool))
    (al : list (list Z)) (cs : Traverse.State) : Backend (list (list Z)) :=
  (* Obtain assembly lists for the element at all spaces. *)
  let al' :=
    fold_left (fun al i =>
                 match Traverse.e cs i with
                 | Some elem => <[i := get_element_assembly_list i elem]> al
                 | None => al
                 end)
              (seq 0 (spaces_size a)) al in
  when (WeakForm.is_DG (wf a) && negb (Nat.eqb (length (WeakForm.mfDG (wf a))) 0))
    (pre_add_DG a mat blocks cs al') ;;
  pre_add_local a mat blocks cs al' ;;
  mret al'.

(** The branch that creates the matrix from scratch. *)
Definition rebuild_matrix (a : t) (mat : nat) (ndof : Z)
    (states : list Traverse.State) : Backend unit :=
  call (mat_free mat) ;;
  call (mat_prealloc mat ndof) ;;
  let al := replicate (spaces_size a) ([] : list Z) in
  let blocks := WeakForm.get_blocks HermesSqrtEpsilon (wf a) (force_diagonal_blocks a) in
  for_fold states al (pre_add_state a mat blocks) ;;
  call (mat_alloc mat).

(** The four [if] statements of [prepare_sparse_structure], in order;
    [ndof] is [Space::get_num_dofs(spaces)] and [rhs_size] what
    [rhs->get_size()] returns. *)

(** [if (matrix_structure_reusable && mat && mat == this->previous_mat)] *)
Definition zero_reused_matrix (a : t) (mat : option nat) : Backend unit :=
  when (matrix_structure_reusable a && non_null mat && same_object mat (previous_mat a))
    (match mat with Some m => call (mat_zero m) | None => mret tt end).

(** [if (vector_structure_reusable && rhs && rhs == this->previous_rhs)] *)
Definition zero_reused_vector (a : t) (rhs : option nat) (ndof rhs_size : Z) : Backend unit :=
  when (vector_structure_reusable a && non_null rhs && same_object rhs (previous_rhs a))
    (match rhs with
     | Some v => if rhs_size =? 0 then call (vec_alloc v ndof) else call (vec_zero v)
     | None => mret tt
     end).

(** [if ((!matrix_structure_reusable || (mat != this->previous_mat)) && mat)] *)
Definition rebuild_matrix_if_stale (a : t) (mat : option nat) (ndof : Z)
    (states : list Traverse.State) : Backend t :=
  if (negb (matrix_structure_reusable a) || negb (same_object mat (previous_mat a)))
     && non_null mat then
    match mat with
    | Some m =>
        (* Spaces have changed: create the matrix from scratch. *)
        let a1 := with_matrix_reusable a true in
        rebuild_matrix a1 m ndof states ;; mret a1
    | None => mret a
    end
  else mret a.

(** [if ((!vector_structure_reusable || (rhs != this->previous_rhs)) && rhs)] *)
Definition alloc_vector_if_stale (a : t) (rhs : option nat) (ndof : Z) : Backend t :=
  if (negb (vector_structure_reusable a) || negb (same_object rhs (previous_rhs a)))
     && non_null rhs then
    match rhs with
    | Some v => call (vec_alloc v ndof) ;; mret (with_vector_reusable a true)
    | None => mret a
    end
  else mret a.

(** [prepare_sparse_structure(mat, rhs, spaces, states, num_states)] *)
Definition prepare_sparse_structure (a : t) (mat rhs : option nat) (ndof rhs_size : Z)
    (states : list Traverse.State) : Backend (t * bool) :=
  zero_reused_matrix a mat ;;
  zero_reused_vector a rhs ndof rhs_size ;;
  a1 ← rebuild_matrix_if_stale a mat ndof states;
  a2 ← alloc_vector_if_stale a1 rhs ndof;
  mret (with_previous a2 mat rhs, true).

End WithSpaces.

(** [set_spaces(spacesToSet)]: [seqs] holds [spacesToSet[i]->get_seq()];
    reading past its end is a fault. *)
Definition set_spaces (a : t) (seqs : list Z) : option t :=
  match sp_seq a with
  | None =>
      (* Internal variables settings. *)
      Some (with_sp_seq a (length seqs) (replicate (length seqs) (-1)))
  | Some old =>
      foldlM (fun a i =>
                match seqs !! i, sp_seq a ≫= (fun cur => cur !! i), sp_seq a with
                | Some new_sp_seq, Some old_sp_seq, Some cur =>
                    let a' :=
                      if negb (Z.eqb new_sp_seq old_sp_seq)
                      then with_vector_reusable (with_matrix_reusable a false) false
                      else a in
                    Some (with_sp_seq a' (spaces_size a') (<[i := new_sp_seq]> cur))
                | _, _, _ => None
                end)
             a (seq 0 (spaces_size a))
  end.

(** [set_weak_formulation(wf_)] *)
Definition set_weak_formulation (a : t) (wf_ : WeakForm.t) : t :=
  let a' := with_vector_reusable (with_matrix_reusable a false) false in
  {| sp_seq := sp_seq a'; spaces_size := spaces_size a';
     matrix_structure_reusable := matrix_structure_reusable a';
     previous_mat := previous_mat a';
     vector_structure_reusable := vector_structure_reusable a';
     previous_rhs := previous_rhs a'; wf := wf_;
     force_diagonal_blocks := force_diagonal_blocks a';
     block_weights := block_weights a';
     RK_original_spaces_count := RK_original_spaces_count a' |}.

Section FormToBeAssembled.
Variable HermesSqrtEpsilon : Q.

(** [form_to_be_assembled] for a [MatrixForm<Scalar>] and a state *)
Definition form_to_be_assembled_matrix (a : t) (form : MatrixForm.t)
    (current_state : Traverse.State) : bool :=
  if bool_decide (is_Some (Traverse.e current_state (MatrixForm.i form)))
     && bool_decide (is_Some (Traverse.e current_state (MatrixForm.j form))) then
    if WeakForm.below_threshold HermesSqrtEpsilon (MatrixForm.scaling_factor form) then false
    else
      match block_weights a with
      | Some get_A =>
          if WeakForm.below_threshold HermesSqrtEpsilon
               (get_A (MatrixForm.i form / RK_original_spaces_count a)%nat
                      (MatrixForm.j form / RK_original_spaces_count a)%nat)
          then false else true
      | None => true
      end
  else false.

(** [form_to_be_assembled] for a [MatrixFormVol<Scalar>] and a state *)
Definition form_to_be_assembled_vol (a : t) (form : MatrixForm.t)
    (current_state : Traverse.State) : bool :=
  if negb (form_to_be_assembled_matrix a form current_state) then false
  else if MatrixForm.assembleEverywhere form then true
  else
    let this_marker := Element.marker (Traverse.rep current_state) in
    existsb (fun area => area =? this_marker) (MatrixForm.areas_internal form).

End FormToBeAssembled.

End Assembler.

(** *** runge_kutta.cpp: the Newton loop of rk_time_step *)

(** The comparison [x < y] of the type that stands for [double]: that of
    the rationals, a total order, or that of the IEEE 754 doubles, which
    is false as soon as one side is NaN. *)
Class Less (R : Type) : Type := less : R -> R -> bool.

#[export] Instance Q_Less : Less Q := Qltb.

#[export] Instance double_Less : Less double := PrimFloat.ltb.

Module RungeKutta.

(** What the loop computes through its collaborators, by iteration
    number [it]: the residual norm measured in that turn and whether
    [solver->solve()] succeeds in it. *)
Record newton_run_over (R : Type) : Type := make_run {
  residual_norm : Z -> R;
  solve_ok : Z -> bool
}.
Arguments make_run {R} residual_norm solve_ok.
Arguments residual_norm {R} _ _.
Arguments solve_ok {R} _ _.

(** A run with rational residual norms. *)
Abbreviation newton_run := (newton_run_over Q).
Abbreviation mk_run := (@make_run Q).

(** [rk_time_step] either returns a [bool] or ends the program in
    [error(..)]. *)
Inductive result : Type :=
| returned (b : bool)
| fatal_error.

(** The code after the loop, entered by [break] with the counter [it]. *)
Definition after_loop (it newton_max_iter : Z) : result :=
  (* If max number of iterations was exceeded, fail. *)
  if it >=? newton_max_iter then returned false else returned true.

Section OverDouble.
Context {R : Type} {double_less : Less R}.

(** [while (true) { .. }] from the counter value [it], an [int] that
    [it++] advances; [None] when the fuel is spent. *)
Fixpoint newton_loop (fuel : nat) (run : newton_run_over R) (is_linear : bool)
    (newton_tol : R) (newton_max_iter : Z) (newton_max_allowed_residual_norm : R)
    (it : Z) : option result :=
  match fuel with
  | O => None
  | S fuel' =>
      let r := residual_norm run it in
      (* If maximum allowed residual norm is exceeded, fail. *)
      if less newton_max_allowed_residual_norm r then Some (returned false)
      (* If residual norm is within tolerance, or the maximum number
         of iteration has been reached, or the problem is linear, then quit. *)
      else if (less r newton_tol || (it >? newton_max_iter)) && (it >? 1)
      then Some (after_loop it newton_max_iter)
      (* Solve the linear system. *)
      else if negb (solve_ok run it) then Some fatal_error
      (* If the problem is linear, quit. *)
      else if is_linear then Some (after_loop it newton_max_iter)
      (* Increase iteration counter. *)
      else newton_loop fuel' run is_linear newton_tol newton_max_iter
             newton_max_allowed_residual_norm (int_add it 1)
  end.

(** [rk_time_step]: the checks for features that are not implemented,
    then the loop from [it = 1]. *)
Definition rk_time_step (fuel : nat) (solver_is_umfpack : bool) (neq : nat)
    (error_fn_given bt_is_embedded : bool) (run : newton_run_over R) (is_linear : bool)
    (newton_tol : R) (newton_max_iter : Z) (newton_max_allowed_residual_norm : R)
  : option result :=
  if negb solver_is_umfpack then Some fatal_error
  else if (1 <? neq)%nat then Some fatal_error
  else if error_fn_given && negb bt_is_embedded then Some fatal_error
  else newton_loop fuel run is_linear newton_tol newton_max_iter
         newton_max_allowed_residual_norm 1.

End OverDouble.

(** Numbers in the place of the tolerance and of the allowed maximum are
    read as rationals; a double is written with its [%float]. *)
Arguments newton_loop {R double_less} fuel%_nat run is_linear%_bool newton_tol%_Q
  newton_max_iter%_Z newton_max_allowed_residual_norm%_Q it%_Z.
Arguments rk_time_step {R double_less} fuel%_nat solver_is_umfpack%_bool neq%_nat
  error_fn_given%_bool bt_is_embedded%_bool run is_linear%_bool newton_tol%_Q
  newton_max_iter%_Z newton_max_allowed_residual_norm%_Q.

End RungeKutta.

(** *** What the claims say about get_blocks *)

(** An [n x n] matrix. *)
Definition square (n : nat) (blocks : list (list bool)) : Prop :=
  length blocks = n /\ Forall (fun row => length row = n) blocks.

Section BlockSpec.
Variable HermesSqrtEpsilon : Q.

(** A volume form marks block [(r, c)]: directly, or through the
    transposed write that any non-zero symmetry flag triggers. *)
Definition vol_marks (f : MatrixForm.t) (r c : nat) : Prop :=
  WeakForm.above_threshold HermesSqrtEpsilon (MatrixForm.scaling_factor f) = true /\
  ((MatrixForm.i f = r /\ MatrixForm.j f = c) \/
   (MatrixForm.sym f <> 0 /\ MatrixForm.j f = r /\ MatrixForm.i f = c)).

Definition surf_marks (f : MatrixForm.t) (r c : nat) : Prop :=
  WeakForm.above_threshold HermesSqrtEpsilon (MatrixForm.scaling_factor f) = true /\
  MatrixForm.i f = r /\ MatrixForm.j f = c.

Definition DG_marks (f : MatrixFormDG.t) (r c : nat) : Prop :=
  WeakForm.above_threshold HermesSqrtEpsilon (MatrixFormDG.scaling_factor f) = true /\
  MatrixFormDG.i f = r /\ MatrixFormDG.j f = c.

(** When [blocks[r][c]] is true, as the code has it. *)
Definition block_marked (wf : WeakForm.t) (force_diagonal_blocks : bool) (r c : nat) : Prop :=
  (force_diagonal_blocks = true /\ r = c) \/
  (exists f, f ∈ WeakForm.mfvol wf /\ vol_marks f r c) \/
  (exists f, f ∈ WeakForm.mfsurf wf /\ surf_marks f r c) \/
  (exists f, f ∈ WeakForm.mfDG wf /\ DG_marks f r c).

(** When [blocks[r][c]] is true, in the words of claim C5: the diagonal
    when forced, a matrix form of any kind with indices [(r, c)], or a
    symmetric matrix form with indices [(c, r)]; each with a scaling factor
    above the threshold. *)
Definition block_marked_as_claimed (wf : WeakForm.t) (force_diagonal_blocks : bool)
    (r c : nat) : Prop :=
  (force_diagonal_blocks = true /\ r = c) \/
  (exists f, f ∈ WeakForm.mfvol wf ++ WeakForm.mfsurf wf /\ surf_marks f r c) \/
  (exists f, f ∈ WeakForm.mfDG wf /\ DG_marks f r c) \/
  (exists f, f ∈ WeakForm.mfvol wf ++ WeakForm.mfsurf wf /\
             MatrixForm.sym f = HERMES_SYM /\ surf_marks f c r).

End BlockSpec.

(** *** What claim C4 speaks of *)

(** The edge node is unconstrained: referenced more than once, on the
    boundary, or with a vertex node in the middle of its edge. *)
Definition edge_unconstrained (en : Node.t) : bool :=
  (Node.ref en >? 1) || Node.bnd en || Node.has_mid_vertex en.

(** The edge node lies on a boundary marker that carries an essential
    boundary condition: the lookup the code makes returns a condition. *)
Definition on_essential_marker (fuel : nat) (get_user_marker : Z -> string)
    (s : H1Space.t) (en : Node.t) : Prop :=
  Node.bnd en = true /\
  exists bcs bc,
    H1Space.essential_bcs s = Some bcs /\
    EssentialBCs.get_boundary_condition fuel bcs (get_user_marker (Node.marker en))
    = Some (Some bc).

(** It does not: the node is inside the domain, the space has no
    essential conditions, or the lookup returns null. *)
Definition off_essential_marker (fuel : nat) (get_user_marker : Z -> string)
    (s : H1Space.t) (en : Node.t) : Prop :=
  Node.bnd en = false \/
  H1Space.essential_bcs s = None \/
  exists bcs,
    H1Space.essential_bcs s = Some bcs /\
    EssentialBCs.get_boundary_condition fuel bcs (get_user_marker (Node.marker en))
    = Some None.

(** The sum of a list of integers. *)
Definition sumZ (l : list Z) : Z := foldr Z.add 0 l.

(** The data of an edge node after the edge pass has written [dof = d]
    and [n]: the rest as before. *)
Definition numbered_edge (nd0 : NodeData.t) (d n : Z) : NodeData.t :=
  NodeData.mk d n (NodeData.vertex_bc_coef nd0) (NodeData.baselist nd0)
    (NodeData.ncomponents nd0).

(** The edge nodes that the edge pass visits: the first [nvert] edges of
    the active elements of non-zero order. *)
Definition visited_edges (get_element_order : nat -> Z)
    (active_elements : list Element.t) : list Node.t :=
  e ← active_elements;
  if get_element_order (Element.id e) >? 0
  then take (Element.nvert e) (Element.en e) else [].

(** What the edge pass, in the state [s], has done to the space [sp] that
    it started from: the counters agree, the boundary conditions are the
    same; a node has its old data or, if it was unassigned, has been
    written as a constrained edge ([n = -1], still unassigned), as an edge
    on an essential boundary (the constrained sentinel) or with a run of
    [n] DOFs that the pass handed out; no DOF is in two runs. *)
Definition edge_pass_inv (H2D_UNASSIGNED_DOF H2D_CONSTRAINED_DOF : Z)
    (sp s : H1Space.t) : Prop :=
  let nd0 := H1Space.ndata sp in
  let next0 := H1Space.next_dof sp in
  let nd := H1Space.ndata s in
  H1Space.next_dof s = next0 + H1Space.edge_functions_count s /\
  0 <= H1Space.edge_functions_count s /\
  H1Space.essential_bcs s = H1Space.essential_bcs sp /\
  (forall id, nd id = nd0 id \/
              NodeData.dof (nd0 id) = H2D_UNASSIGNED_DOF /\
              exists d n, nd id = numbered_edge (nd0 id) d n /\
                          (d = H2D_UNASSIGNED_DOF /\ n = -1 \/
                           d = H2D_CONSTRAINED_DOF /\ 0 <= n \/
                           next0 <= d /\ 0 <= n /\ d + n <= H1Space.next_dof s)) /\
  (forall id1 id2 d,
     NodeData.dof (nd0 id1) = H2D_UNASSIGNED_DOF ->
     NodeData.dof (nd0 id2) = H2D_UNASSIGNED_DOF ->
     next0 <= NodeData.dof (nd id1) -> next0 <= NodeData.dof (nd id2) ->
     NodeData.dof (nd id1) <= d < NodeData.dof (nd id1) + NodeData.n (nd id1) ->
     NodeData.dof (nd id2) <= d < NodeData.dof (nd id2) + NodeData.n (nd id2) ->
     id1 = id2).

(** The DOFs that the edge nodes of [l] ask for when each is unconstrained
    and numbered on its own: an upper bound of what the pass hands out. *)
Definition edge_budget (get_edge_order_internal : Node.t -> Z) (l : list Node.t) : Z :=
  sumZ (map (fun en => get_edge_order_internal en - 1) l).

(** What the claim says of one visit of the edge node [en], between the
    state [s1] before it and the state [s2] after it. *)
Definition edge_visit_as_claimed (H2D_UNASSIGNED_DOF H2D_CONSTRAINED_DOF : Z)
    (fuel : nat) (get_user_marker : Z -> string) (get_edge_order_internal : Node.t -> Z)
    (s1 : H1Space.t) (en : Node.t) (s2 : H1Space.t) : Prop :=
  let nd1 := H1Space.ndata s1 (Node.id en) in
  let nd2 := H1Space.ndata s2 (Node.id en) in
  (forall k, k <> Node.id en -> H1Space.ndata s2 k = H1Space.ndata s1 k) /\
  (NodeData.dof nd1 <> H2D_UNASSIGNED_DOF -> s2 = s1) /\
  (NodeData.dof nd1 = H2D_UNASSIGNED_DOF ->
   (edge_unconstrained en = true -> on_essential_marker fuel get_user_marker s1 en ->
    NodeData.dof nd2 = H2D_CONSTRAINED_DOF /\
    NodeData.n nd2 = get_edge_order_internal en - 1 /\
    H1Space.next_dof s2 = H1Space.next_dof s1 /\
    H1Space.edge_functions_count s2 = H1Space.edge_functions_count s1) /\
   (edge_unconstrained en = true -> off_essential_marker fuel get_user_marker s1 en ->
    NodeData.dof nd2 = H1Space.next_dof s1 /\
    NodeData.n nd2 = get_edge_order_internal en - 1 /\
    H1Space.next_dof s2 = H1Space.next_dof s1 + (get_edge_order_internal en - 1) /\
    H1Space.edge_functions_count s2
    = H1Space.edge_functions_count s1 + (get_edge_order_internal en - 1)) /\
   (edge_unconstrained en = false ->
    NodeData.dof nd2 = H2D_UNASSIGNED_DOF /\ NodeData.n nd2 = -1 /\
    H1Space.next_dof s2 = H1Space.next_dof s1 /\
    H1Space.edge_functions_count s2 = H1Space.edge_functions_count s1)).

(** A space with one essential condition, on marker "wall"; edge order 3
    everywhere; node 7 not numbered yet. *)
Definition bcs_demo : EssentialBCs.t :=
  EssentialBCs.mk [EssentialBoundaryCondition.mk 0 ["wall"%string]]
    ["wall"%string] [EssentialBoundaryCondition.mk 0 ["wall"%string]] None.

Definition space_demo : H1Space.t :=
  H1Space.mk (fun _ => NodeData.mk (-2) 0 None ∅ 0) 10 0 (Some bcs_demo).

Definition user_marker_demo (m : Z) : string :=
  if m =? 1 then "wall"%string else "free"%string.

Definition wall_edge_demo : Node.t := Node.mk 7 1 true 1 false false.

(** *** What claim C7 speaks of *)

(** A stored baselist (array and [ncomponents]) holds a zero coefficient. *)
Definition stores_zero (stored : gmap Z BaseComponent.t * Z) : Prop :=
  exists p c, 0 <= p < snd stored /\ fst stored !! p = Some c /\
              (BaseComponent.coef c == 0)%Q.

(** The triplet [get_vertex_assembly_list] adds for a stored entry, if
    it adds one. *)
Definition triplet_of (index : Z) (c : BaseComponent.t) : option H1Space.triplet :=
  if H1Space.nonzero (BaseComponent.coef c)
  then Some (H1Space.mk_triplet index (BaseComponent.dof c) (BaseComponent.coef c))
  else None.

(** A hanging vertex between a free vertex (node 0, DOF 3) and a vertex on
    an essential boundary with boundary value 0 (node 1, constrained
    sentinel -1); the constraining edge node (node 2) has one DOF, 10,
    whose edge function is 1/4 at the midpoint. *)
Definition ndata_hanging : nat -> NodeData.t :=
  fun id =>
    match id with
    | O => NodeData.mk 3 1 None ∅ 0
    | S O => NodeData.mk (-1) 1 (Some 0%Q) ∅ 0
    | _ => NodeData.mk 10 1 None ∅ 0
    end.

Definition vn0_hanging : Node.t := Node.mk 0 4 false 0 false false.
Definition vn1_hanging : Node.t := Node.mk 1 4 true 1 false false.
Definition en_hanging : Node.t := Node.mk 2 2 false 0 false true.
Definition edge_value_hanging : Z -> Q := fun _ => (1 # 4)%Q.

(** The hanging vertex itself (node 3), with the baselist just built. *)
Definition mid_hanging : Node.t := Node.mk 3 2 false 0 true false.

Definition ndata_hanging_resolved : nat -> NodeData.t :=
  fun id =>
    match id, H1Space.mid_vertex_baselist ndata_hanging vn0_hanging vn1_hanging
                en_hanging edge_value_hanging with
    | 3%nat, Some (bl, nc) => NodeData.mk (-2) 0 None bl nc
    | _, _ => ndata_hanging id
    end.

(** *** What the claims say about prepare_sparse_structure *)

Definition is_matrix_call (c : backend_call) : bool :=
  match c with
  | vec_zero _ | vec_alloc _ _ => false
  | _ => true
  end.

(** The calls made on sparse matrices, in order. *)
Definition matrix_calls (log : list backend_call) : list backend_call :=
  filter (fun c => is_matrix_call c = true) log.

(** [pre_add_ij] on the matrix [mat] with a row and a column that are not
    negative. *)
Definition nonneg_pre_add (mat : nat) (c : backend_call) : Prop :=
  exists row col, c = mat_pre_add_ij mat row col /\ 0 <= row /\ 0 <= col.

(** No [pre_add_ij] with a negative row or column. *)
Definition no_negative_pre_add (c : backend_call) : Prop :=
  match c with
  | mat_pre_add_ij _ row col => 0 <= row /\ 0 <= col
  | _ => True
  end.

(** The cheap path: of the matrix backend only [zero()] is called. *)
Definition only_zeroed (mat : nat) (run : list backend_call * option (Assembler.t * bool))
  : Prop :=
  matrix_calls (fst run) = [mat_zero mat] /\ is_Some (snd run).

(** The rebuild: [free()], [prealloc(ndof)], then [pre_add_ij] calls, then
    [alloc()] unless the pass faulted on the way. *)
Definition rebuilt (mat : nat) (ndof : Z)
    (run : list backend_call * option (Assembler.t * bool)) : Prop :=
  exists pre_adds,
    Forall (nonneg_pre_add mat) pre_adds /\
    matrix_calls (fst run) =
      mat_free mat :: mat_prealloc mat ndof :: pre_adds
        ++ match snd run with Some _ => [mat_alloc mat] | None => [] end.

(** [set_spaces] meets the sequence numbers it has stored. *)
Definition no_change_seen (a : Assembler.t) (seqs : list Z) : Prop :=
  match Assembler.sp_seq a with
  | Some cur => forall i, (i < Assembler.spaces_size a)%nat -> seqs !! i = cur !! i
  | None => True
  end.

(** [set_spaces] meets a sequence number that differs from the stored one. *)
Definition change_seen (a : Assembler.t) (seqs : list Z) : Prop :=
  exists cur i, Assembler.sp_seq a = Some cur /\
                (i < Assembler.spaces_size a)%nat /\ seqs !! i <> cur !! i.

(** The rebuild from scratch: the calls on the matrix are those of the
    branch that creates it, run on its own, whatever the calls before have
    left in the object. *)
Definition rebuilt_from_scratch (HermesSqrtEpsilon : Q)
    (get_element_assembly_list : nat -> Element.t -> list Z)
    (get_neighbors : nat -> Element.t -> nat -> list Element.t)
    (a : Assembler.t) (mat : nat) (ndof : Z) (states : list Traverse.State)
    (run : list backend_call * option (Assembler.t * bool)) : Prop :=
  rebuilt mat ndof run /\
  matrix_calls (fst run)
  = fst (Assembler.rebuild_matrix HermesSqrtEpsilon get_element_assembly_list get_neighbors
           (Assembler.with_matrix_reusable a true) mat ndof states []).

(** The first half of C2 as the claim words it, for spaces whose sequence
    numbers are [seqs] and never change: once [set_spaces] has been called
    and a call with the matrix [mat] has returned, a call with the same
    matrix only zeroes it, also when [set_spaces] is called again in
    between. *)
Definition reuse_as_claimed (HermesSqrtEpsilon : Q)
    (get_element_assembly_list : nat -> Element.t -> list Z)
    (get_neighbors : nat -> Element.t -> nat -> list Element.t)
    (a : Assembler.t) (seqs : list Z) (mat : nat) : Prop :=
  forall a1 rhs0 ndof0 rs0 states0 a2 b a3,
    Assembler.set_spaces a seqs = Some a1 ->
    snd (Assembler.prepare_sparse_structure HermesSqrtEpsilon get_element_assembly_list
           get_neighbors a1 (Some mat) rhs0 ndof0 rs0 states0 []) = Some (a2, b) ->
    Assembler.set_spaces a2 seqs = Some a3 ->
    forall rhs ndof rs states,
      only_zeroed mat
        (Assembler.prepare_sparse_structure HermesSqrtEpsilon get_element_assembly_list
           get_neighbors a3 (Some mat) rhs ndof rs states []).

(** An assembler for one equation with a single volume form, a state with
    one element, and an assembly list with a constrained DOF in it. *)
Definition assembler_demo : Assembler.t :=
  Assembler.mk None 1 false None false None
    (WeakForm.mk 1 [MatrixForm.mk 0 0 HERMES_NONSYM 1 true []] [] [] 0)
    false None 1.

(** The same assembler as its constructor leaves it, before the first
    [set_spaces]. *)
Definition assembler_new_demo : Assembler.t :=
  Assembler.construct (Assembler.wf assembler_demo) false None 1.

Definition element_demo : Element.t := Element.mk 0 3 [] [] 0.

Definition state_demo : Traverse.State :=
  Traverse.mk (fun _ => Some element_demo) element_demo 0.

Definition asmlist_demo : nat -> Element.t -> list Z := fun _ _ => [-1; 0; 1].

Definition neighbors_demo : nat -> Element.t -> nat -> list Element.t := fun _ _ _ => [].

(** The calls of the cheap path for the objects [mat] and [rhs]. *)
Definition reuse_calls (mat rhs : option nat) (ndof rhs_size : Z) : list backend_call :=
  match mat with Some m => [mat_zero m] | None => [] end
  ++ match rhs with
     | Some v => [if rhs_size =? 0 then vec_alloc v ndof else vec_zero v]
     | None => []
     end.

(** The structure pass meets no fault: the DG branch is not taken, and
    the block matrix has a row and a column for every space. *)
Definition plain_structure_pass (a : Assembler.t) : Prop :=
  WeakForm.is_DG (Assembler.wf a)
  && negb (Nat.eqb (length (WeakForm.mfDG (Assembler.wf a))) 0) = false /\
  (Assembler.spaces_size a <= WeakForm.neq (Assembler.wf a))%nat.

(** *** What claim C9 speaks of *)

(** The condition [bc] lists the marker [m]. *)
Definition lists_marker (m : string) (bc : EssentialBoundaryCondition.t) : bool :=
  existsb (String.eqb m) (EssentialBoundaryCondition.markers bc).

(** The answer the claim gives for [marker], from the registered
    conditions: the one on the wildcard if there is one, otherwise the one
    that lists [marker], otherwise null. *)
Definition claimed_condition (HERMES_ANY : string)
    (registered : list EssentialBoundaryCondition.t) (marker : string)
  : option EssentialBoundaryCondition.t :=
  match find (lists_marker HERMES_ANY) registered with
  | Some bc => Some bc
  | None => find (lists_marker marker) registered
  end.

(** The pairs (condition, marker) in the order [create_marker_cache]
    visits them. *)
Definition marker_pairs (all : list EssentialBoundaryCondition.t)
  : list (EssentialBoundaryCondition.t * string) :=
  flat_map (fun bc => map (fun m => (bc, m)) (EssentialBoundaryCondition.markers bc)) all.

(** A wildcard string for the examples. *)
Definition any_demo : string := "-1234".

(** 65536 distinct two-character markers, all listed by one condition. *)
Definition marker_of_nat (k : nat) : string :=
  String (Ascii.ascii_of_nat (k / 256)) (String (Ascii.ascii_of_nat (k mod 256)) EmptyString).

Definition many_markers : list string := marker_of_nat <$> seq 0 (Z.to_nat 65536).

Definition bc_many : EssentialBoundaryCondition.t :=
  EssentialBoundaryCondition.mk 0 many_markers.

(** A marker that [bc_many] does not list. *)
Definition unlisted_marker : string := "x".

(** *** Concrete inputs used by the examples below *)

Definition ndata_demo : nat -> NodeData.t :=
  fun _ => NodeData.mk 5 2 None ∅ 0.

Definition edge_demo : Node.t := Node.mk 0 2 false 0 false true.

Definition l1_demo : list BaseComponent.t :=
  [BaseComponent.mk 1 (1 # 2); BaseComponent.mk 3 (1 # 2)].

Definition l2_demo : list BaseComponent.t :=
  [BaseComponent.mk 3 1; BaseComponent.mk 7 0].

(** Two baselists of doubles on the DOFs 1 and 2: the coefficients of
    each are the doubles next to 0.4 and 0.6, and to 0.7 and 0.3, and sum
    to 1 exactly. *)
Definition l1_double : list (BaseComponent.over double) :=
  [BaseComponent.make 1 0x1.999999999999ap-2%float;
   BaseComponent.make 2 0x1.3333333333333p-1%float].

Definition l2_double : list (BaseComponent.over double) :=
  [BaseComponent.make 1 0x1.6666666666666p-1%float;
   BaseComponent.make 2 0x1.3333333333334p-2%float].

(** A threshold to run the examples with: 2^-26. *)
Definition eps_demo : Q := 1 # 67108864.

(** One antisymmetric volume form coupling components 0 and 1. *)
Definition wf_antisym : WeakForm.t :=
  WeakForm.mk 2 [MatrixForm.mk 0 1 HERMES_ANTISYM 1 true []] [] [] 0.

(** One symmetric surface form coupling components 0 and 1. *)
Definition wf_surf_sym : WeakForm.t :=
  WeakForm.mk 2 [] [MatrixForm.mk 0 1 HERMES_SYM 1 true []] [] 0.

(** A Newton run whose residual norm is 1 in turns 1 and 2 and 0 from
    turn 3 on, with a solver that always succeeds. *)
Definition run_demo : RungeKutta.newton_run :=
  RungeKutta.mk_run (fun it => if it <? 3 then 1%Q else 0%Q) (fun _ => true).

(** The same run in doubles, and a run whose residual norm is NaN in
    every turn. *)
Definition run_double_demo : RungeKutta.newton_run_over double :=
  RungeKutta.make_run (fun it => if it <? 3 then 1%float else 0%float) (fun _ => true).

Definition run_nan_demo : RungeKutta.newton_run_over double :=
  RungeKutta.make_run (fun _ => PrimFloat.nan) (fun _ => true).

(** *** Vocabulary of the proofs *)

(** Coefficients of one DOF met one after the other. *)
Definition add_opt {S : Type} {scalar : Scalar S} (a b : option S) : option S :=
  match a, b with
  | Some a, Some b => Some (scalar_add a b)
  | Some a, None => Some a
  | None, b => b
  end.

(** [x] is not below the component written last. *)
Definition hd_le {S : Type} (acc : list (BaseComponent.over S)) (x : Z) : Prop :=
  match acc with
  | [] => True
  | c :: _ => BaseComponent.dof c <= x
  end.

(** The components written so far, most recent first, descend strictly. *)
Definition desc {S : Type} (acc : list (BaseComponent.over S)) : Prop :=
  StronglySorted (fun a b => b < a) (dofs acc).

(** Nothing in the unread part [l] lies below the component written last. *)
Definition above {S : Type} (acc l : list (BaseComponent.over S)) : Prop :=
  Forall (fun c => hd_le acc (BaseComponent.dof c)) l.

(** The state of the merge between two calls of [output_component]:
    nothing is written at or after [current], and [last] is the slot just
    before it. *)
Record inv {S : Type} (st : Merge.state S) : Prop := mk_inv {
  inv_cur : 0 <= Merge.current st;
  inv_free : forall p, Merge.current st <= p -> Merge.result st !! p = None;
  inv_last :
    match Merge.last st with
    | None => Merge.current st = 0
    | Some l => l = Merge.current st - 1 /\ 0 <= l /\ is_Some (Merge.result st !! l)
    end
}.

(** Enough of the allocation is left for [k] more components and for the
    block of the edge node, while that block is still to be placed. *)
Definition room {S : Type} (ndata : nat -> NodeData.t) (st : Merge.state S) (k : Z) : Prop :=
  0 <= edge_n ndata (Merge.edge st) /\
  Merge.current st + k + edge_n ndata (Merge.edge st) <= Merge.max_result st.

(** The abstract view of a merge state. *)
Definition acc_of {S : Type} (st : Merge.state S) : list (BaseComponent.over S) :=
  rev (Merge.written (Merge.result st) (Merge.current st)).

(** [m] only appends to the log, and what it appends satisfies [P]. *)
Definition emits {A : Type} (P : backend_call -> Prop) (m : Backend A) : Prop :=
  forall log, exists new, fst (m log) = log ++ new /\ Forall P new.

(** What [m] does to a log is to append what it does to the empty log. *)
Definition appends {A : Type} (m : Backend A) : Prop :=
  forall log, m log = (log ++ fst (m []), snd (m [])).

(** [m] never faults. *)
Definition succeeds {A : Type} (m : Backend A) : Prop :=
  forall log, is_Some (snd (m log)).

(** What the last [if] of [prepare_sparse_structure] does to the object:
    at most it sets the vector flag. *)
Definition vector_step (a a' : Assembler.t) (rhs : option nat) : Prop :=
  (a' = a \/ a' = Assembler.with_vector_reusable a true) /\
  (rhs <> None -> Assembler.vector_structure_reusable a' = true).

(** One turn of the loops of [create_marker_cache], on a pair of
    [marker_pairs]. *)
Definition cache_step (HERMES_ANY : string) (fuel : nat)
    (st : EssentialBCs.cache_locals * EssentialBCs.t)
    (p : EssentialBoundaryCondition.t * string)
  : outcome (EssentialBCs.cache_locals * EssentialBCs.t) :=
  EssentialBCs.cache_marker HERMES_ANY fuel (fst p) st (snd p).

(** *** runge_kutta.cpp: a turn of the Newton loop that is not the last *)

(** In the turn [k] neither exit test fires, the solve succeeds and the
    problem is not linear: the loop goes on to [it++]. *)
Definition turn_goes_on {R : Type} {double_less : Less R}
    (run : RungeKutta.newton_run_over R) (is_linear : bool) (newton_tol : R)
    (newton_max_iter : Z) (newton_max_allowed_residual_norm : R) (k : Z) : bool :=
  negb (less newton_max_allowed_residual_norm (RungeKutta.residual_norm run k))
  && negb ((less (RungeKutta.residual_norm run k) newton_tol || (k >? newton_max_iter))
           && (k >? 1))
  && RungeKutta.solve_ok run k
  && negb is_linear.

(** *** runge_kutta.cpp: the new time level and the temporal error estimate *)

Module ButcherTable.
(** What the step reads of [ButcherTable]: [get_size()], [get_A(i, j)],
    [get_B(j)], [get_B2(j)] and [get_C(i)]. *)
Record t : Type := mk {
  get_size : nat;
  get_A : nat -> nat -> Q;
  get_B : nat -> Q;
  get_B2 : nat -> Q;
  get_C : nat -> Q
}.
End ButcherTable.

Module StageVectors.

(** [for (int j = 0; j < num_stages; j++) acc += w(j) * K_vector[j*ndof + i];]
    from the value [acc]; a read outside [K_vector] is a fault. *)
Definition add_stages (num_stages ndof : nat) (w : nat -> Q) (K_vector : list Q)
    (i : nat) (acc : Q) : option Q :=
  foldlM (fun acc j =>
            match K_vector !! (j * ndof + i)%nat with
            | Some k => Some (acc + w j * k)%Q
            | None => None
            end)
         acc (seq 0 num_stages).

(** "Calculate new time level solution in the stage space
    (u_{n+1} = u_n + h \sum_{j=1}^s b_j k_j)": [coeff_vec] after the loop. *)
Definition new_time_level (time_step : Q) (bt : ButcherTable.t) (ndof : nat)
    (K_vector coeff_vec : list Q) : option (list Q) :=
  mapM (fun i =>
          match coeff_vec !! i with
          | Some c =>
              add_stages (ButcherTable.get_size bt) ndof
                (fun j => time_step * ButcherTable.get_B bt j)%Q K_vector i c
          | None => None
          end)
       (seq 0 ndof).

(** "Use the B2-row in the Butcher's table to calculate the temporal error
    estimate": [coeff_vec] after the loop under [if (error_fn != NULL)]. *)
Definition temporal_error_estimate (time_step : Q) (bt : ButcherTable.t) (ndof : nat)
    (K_vector : list Q) : option (list Q) :=
  mapM (fun i =>
          match add_stages (ButcherTable.get_size bt) ndof
                  (fun j => ButcherTable.get_B bt j - ButcherTable.get_B2 bt j)%Q
                  K_vector i 0 with
          | Some e => Some (e * time_step)%Q
          | None => None
          end)
       (seq 0 ndof).

End StageVectors.

(** The table with the B2-row in the place of the B-row: the second
    method of an embedded pair. *)
Definition second_method (bt : ButcherTable.t) : ButcherTable.t :=
  ButcherTable.mk (ButcherTable.get_size bt) (ButcherTable.get_A bt)
    (ButcherTable.get_B2 bt) (ButcherTable.get_B2 bt) (ButcherTable.get_C bt).

(** A two-stage embedded pair to run the examples with: Heun's method,
    with the explicit Euler weights as its B2-row. *)
Definition bt_demo : ButcherTable.t :=
  ButcherTable.mk 2
    (fun i j => if (Nat.eqb i 1 && Nat.eqb j 0)%bool then 1%Q else 0%Q)
    (fun j => (1 # 2)%Q)
    (fun j => if Nat.eqb j 0 then 1%Q else 0%Q)
    (fun i => if Nat.eqb i 0 then 0%Q else 1%Q).



(** *** discrete_problem_selective_assembler.cpp: vector forms *)

Module VectorForm.
(** [VectorForm<Scalar>], the base of [VectorFormVol] and [VectorFormSurf]. *)
Record t : Type := mk {
  i : nat;
  scaling_factor : Q;
  assembleEverywhere : bool;
  areas_internal : list Z
}.
End VectorForm.

Module FormSelection.

(** [current_state->rep->en[current_state->isurf]->marker]; an edge that
    the representing element does not have is a fault. *)
Definition active_edge_marker (current_state : Traverse.State) : option Z :=
  match Element.en (Traverse.rep current_state) !! Traverse.isurf current_state with
  | Some en => Some (Node.marker en)
  | None => None
  end.

(** [for (ss < form->areas_internal.size())
       if (form->areas_internal[ss] == this_marker) return true;] *)
Definition marker_listed (areas_internal : list Z) (this_marker : Z) : bool :=
  existsb (fun area => area =? this_marker) areas_internal.

Section WithEpsilon.
Variable HermesSqrtEpsilon : Q.

(** [form_to_be_assembled] for a [VectorForm<Scalar>] and a state *)
Definition form_to_be_assembled_vector (form : VectorForm.t)
    (current_state : Traverse.State) : bool :=
  if negb (bool_decide (is_Some (Traverse.e current_state (VectorForm.i form)))) then false
  else if WeakForm.below_threshold HermesSqrtEpsilon (VectorForm.scaling_factor form)
  then false
  else true.

(** [form_to_be_assembled] for a [VectorFormVol<Scalar>] and a state *)
Definition form_to_be_assembled_vector_vol (form : VectorForm.t)
    (current_state : Traverse.State) : bool :=
  if negb (form_to_be_assembled_vector form current_state) then false
  else if VectorForm.assembleEverywhere form then true
  else marker_listed (VectorForm.areas_internal form)
         (Element.marker (Traverse.rep current_state)).

(** [form_to_be_assembled] for a [VectorFormSurf<Scalar>] and a state *)
Definition form_to_be_assembled_vector_surf (form : VectorForm.t)
    (current_state : Traverse.State) : option bool :=
  if negb (form_to_be_assembled_vector form current_state) then Some false
  else
    match active_edge_marker current_state with
    | Some this_marker =>
        if this_marker =? 0 then Some false
        else if VectorForm.assembleEverywhere form then Some true
        else Some (marker_listed (VectorForm.areas_internal form) this_marker)
    | None => None
    end.

End WithEpsilon.

End FormSelection.

(** *** Vocabulary for the calls of prepare_sparse_structure *)

(** The calls made on vectors, in order. *)
Definition vector_calls (log : list backend_call) : list backend_call :=
  filter (fun c => is_matrix_call c = false) log.

(** The positions that one block of the local stiffness matrix can touch:
    every pair of a row DOF and a column DOF that are not negative, rows
    outermost. *)
Definition block_positions (mat : nat) (dofs_m dofs_n : list Z) : list backend_call :=
  row ← filter (fun d => 0 <= d) dofs_m;
  col ← filter (fun d => 0 <= d) dofs_n;
  [mat_pre_add_ij mat row col].

(** The positions of the element of the single component in the state
    [cs], if it has one. *)
Definition state_positions (get_element_assembly_list : nat -> Element.t -> list Z)
    (mat : nat) (cs : Traverse.State) : list backend_call :=
  match Traverse.e cs 0%nat with
  | Some elem =>
      block_positions mat (get_element_assembly_list 0%nat elem)
        (get_element_assembly_list 0%nat elem)
  | None => []
  end.

(** What the first [if] of [prepare_sparse_structure] calls on the
    matrix [mat]. *)
Definition matrix_reuse_calls (a : Assembler.t) (mat : option nat) : list backend_call :=
  match mat with
  | Some m =>
      if Assembler.matrix_structure_reusable a
         && Assembler.same_object mat (Assembler.previous_mat a)
      then [mat_zero m]
      else []
  | None => []
  end.

(** What its second [if] calls on the vector [rhs]. *)
Definition vector_reuse_calls (a : Assembler.t) (rhs : option nat) (ndof rhs_size : Z)
  : list backend_call :=
  match rhs with
  | Some v =>
      if Assembler.vector_structure_reusable a
         && Assembler.same_object rhs (Assembler.previous_rhs a)
      then [if rhs_size =? 0 then vec_alloc v ndof else vec_zero v]
      else []
  | None => []
  end.

(** What its last [if] calls. *)
Definition vector_alloc_calls (a : Assembler.t) (rhs : option nat) (ndof : Z)
  : list backend_call :=
  match rhs with
  | Some v =>
      if negb (Assembler.vector_structure_reusable a)
         || negb (Assembler.same_object rhs (Assembler.previous_rhs a))
      then [vec_alloc v ndof]
      else []
  | None => []
  end.

(** Forms to run the examples with. *)
Definition vform_zero_demo : VectorForm.t := VectorForm.mk 0 0 true [].

Definition mform_demo : MatrixForm.t := MatrixForm.mk 0 0 HERMES_NONSYM 1 true [].

Definition mform_threshold_demo : MatrixForm.t :=
  MatrixForm.mk 0 0 HERMES_NONSYM eps_demo true [].

(** The assembler of the examples once it has its array of sequence
    numbers. *)
Definition assembler_seq_demo : Assembler.t :=
  Assembler.with_sp_seq assembler_demo 1 [-1].

(** The same once [prepare_sparse_structure] has built the structure of
    the matrix 7 and the vector 8. *)
Definition assembler_built_demo : Assembler.t :=
  Assembler.with_previous
    (Assembler.with_vector_reusable
       (Assembler.with_matrix_reusable assembler_seq_demo true) true)
    (Some 7%nat) (Some 8%nat).



(** *** weakform.cpp: registering forms *)

Module Registration.

(** [WeakForm(neq)]: a weak formulation without forms. *)
Definition construct (neq : nat) : WeakForm.t := WeakForm.mk neq [] [] [] 0.

(** [add_matrix_form(MatrixFormVol* form)].  A throw leaves the weak
    formulation as it was.  Of [form->set_weakform(this)] nothing shows in
    the members modelled here. *)
Definition add_matrix_form (wf : WeakForm.t) (form : MatrixForm.t) : outcome WeakForm.t :=
  if (WeakForm.neq wf <=? MatrixForm.i form)%nat || (WeakForm.neq wf <=? MatrixForm.j form)%nat
  then Throws wf
  else if (MatrixForm.sym form <? -1) || (MatrixForm.sym form >? 1) then Throws wf
  else if (MatrixForm.sym form <? 0) && Nat.eqb (MatrixForm.i form) (MatrixForm.j form)
  then Throws wf
  else Returns (WeakForm.mk (WeakForm.neq wf) (WeakForm.mfvol wf ++ [form])
                  (WeakForm.mfsurf wf) (WeakForm.mfDG wf) (WeakForm.vfDG_size wf)).

(** [add_matrix_form_surf(MatrixFormSurf* form)] *)
Definition add_matrix_form_surf (wf : WeakForm.t) (form : MatrixForm.t) : outcome WeakForm.t :=
  if (WeakForm.neq wf <=? MatrixForm.i form)%nat || (WeakForm.neq wf <=? MatrixForm.j form)%nat
  then Throws wf
  else Returns (WeakForm.mk (WeakForm.neq wf) (WeakForm.mfvol wf)
                  (WeakForm.mfsurf wf ++ [form]) (WeakForm.mfDG wf) (WeakForm.vfDG_size wf)).

(** [add_matrix_form_DG(MatrixFormDG* form)] *)
Definition add_matrix_form_DG (wf : WeakForm.t) (form : MatrixFormDG.t) : outcome WeakForm.t :=
  if (WeakForm.neq wf <=? MatrixFormDG.i form)%nat
     || (WeakForm.neq wf <=? MatrixFormDG.j form)%nat
  then Throws wf
  else Returns (WeakForm.mk (WeakForm.neq wf) (WeakForm.mfvol wf)
                  (WeakForm.mfsurf wf) (WeakForm.mfDG wf ++ [form]) (WeakForm.vfDG_size wf)).

(** [add_vector_form_DG(VectorFormDG* form)], for a form of component [i]. *)
Definition add_vector_form_DG (wf : WeakForm.t) (i : nat) : outcome WeakForm.t :=
  if (WeakForm.neq wf <=? i)%nat then Throws wf
  else Returns (WeakForm.mk (WeakForm.neq wf) (WeakForm.mfvol wf)
                  (WeakForm.mfsurf wf) (WeakForm.mfDG wf) (S (WeakForm.vfDG_size wf))).

End Registration.

(** A weak formulation that the constructor and the [add_..] calls that
    returned can have built, for [neq] equations. *)
Inductive registered (neq : nat) : WeakForm.t -> Prop :=
| registered_construct : registered neq (Registration.construct neq)
| registered_vol wf form wf' :
    registered neq wf -> Registration.add_matrix_form wf form = Returns wf' ->
    registered neq wf'
| registered_surf wf form wf' :
    registered neq wf -> Registration.add_matrix_form_surf wf form = Returns wf' ->
    registered neq wf'
| registered_DG wf form wf' :
    registered neq wf -> Registration.add_matrix_form_DG wf form = Returns wf' ->
    registered neq wf'
| registered_vector_DG wf i wf' :
    registered neq wf -> Registration.add_vector_form_DG wf i = Returns wf' ->
    registered neq wf'.

(** The symmetry flag is one of the three values, and an antisymmetric
    form is off the diagonal. *)
Definition sym_flag_valid (form : MatrixForm.t) : Prop :=
  -1 <= MatrixForm.sym form <= 1 /\
  (MatrixForm.sym form < 0 -> MatrixForm.i form <> MatrixForm.j form).

(** *** weakform.cpp: processFormMarkers *)

Module Form.
(** The members of [Form<Scalar>] that [processFormMarkers] reads and
    writes. *)
Record t : Type := mk {
  i : nat;
  areas : list string;
  assembleEverywhere : bool;
  areas_internal : list Z
}.

(** [Form(i)]: assembled nowhere in particular, on the area [HERMES_ANY]. *)
Definition construct (HERMES_ANY : string) (i : nat) : t := mk i [HERMES_ANY] false [].

(** [set_area(area)] and [set_areas(areas)] *)
Definition set_area (form : t) (area : string) : t :=
  mk (i form) [area] (assembleEverywhere form) (areas_internal form).

Definition set_areas (form : t) (areas : list string) : t :=
  mk (i form) areas (assembleEverywhere form) (areas_internal form).

Section WithMarkers.
Variable HERMES_ANY : string.
(** [spaces[form->i]->get_mesh()->get_boundary_markers_conversion()
    .get_internal_marker(area)] when the first argument is true, the
    same through [get_element_markers_conversion()] otherwise; the
    result is the internal marker when it is valid. *)
Variable get_internal_marker : bool -> nat -> string -> option Z.

(** The loop [for (unsigned short marker_i = 0; marker_i < form->areas.size();
    marker_i++)] from [marker_i] on. *)
Fixpoint process_areas (fuel : nat) (surface : bool) (form : t) (marker_i : Z) : outcome t :=
  match fuel with
  | O => OutOfFuel
  | S fuel' =>
      if marker_i <? Z.of_nat (length (areas form)) then
        match areas form !! Z.to_nat marker_i with
        | Some area =>
            if String.eqb area HERMES_ANY then
              Returns (mk (i form) (areas form) true [])
            else
              match get_internal_marker surface (i form) area with
              | Some marker =>
                  process_areas fuel' surface
                    (mk (i form) (areas form) (assembleEverywhere form)
                       (areas_internal form ++ [marker]))
                    (EssentialBCs.ushort_succ marker_i)
              | None => Throws form
              end
        | None => OutOfFuel
        end
      else Returns form
  end.

(** The body of the loop over the forms. *)
Definition process_form (fuel : nat) (surface : bool) (form : t) : outcome t :=
  process_areas fuel surface
    (mk (i form) (areas form) (assembleEverywhere form) []) 0.

(** [processFormMarkers(spaces, surface, forms_to_process)], from the
    form [form_i] on; the list holds the forms that the vector points to,
    each entry an object of its own. *)
Fixpoint processFormMarkers (fuel : nat) (surface : bool) (forms : list t) (form_i : Z)
  : outcome (list t) :=
  match fuel with
  | O => OutOfFuel
  | S fuel' =>
      if form_i <? Z.of_nat (length forms) then
        match forms !! Z.to_nat form_i with
        | Some form =>
            match process_form fuel surface form with
            | Returns form' =>
                processFormMarkers fuel' surface (<[Z.to_nat form_i := form']> forms)
                  (EssentialBCs.ushort_succ form_i)
            | Throws form' => Throws (<[Z.to_nat form_i := form']> forms)
            | OutOfFuel => OutOfFuel
            end
        | None => OutOfFuel
        end
      else Returns forms
  end.

End WithMarkers.

End Form.

(** What a call of [processFormMarkers] that returned has made of a form:
    with [HERMES_ANY] among its areas it is assembled everywhere and has no
    internal markers; otherwise its flag is the one it had and its internal
    markers are those of its areas, in order. *)
Definition processed (HERMES_ANY : string) (get_internal_marker : bool -> nat -> string -> option Z)
    (surface : bool) (form form' : Form.t) : Prop :=
  Form.i form' = Form.i form /\
  Form.areas form' = Form.areas form /\
  if bool_decide (HERMES_ANY ∈ Form.areas form) then
    Form.assembleEverywhere form' = true /\ Form.areas_internal form' = []
  else
    Form.assembleEverywhere form' = Form.assembleEverywhere form /\
    Forall2 (fun area marker => get_internal_marker surface (Form.i form) area = Some marker)
      (Form.areas form) (Form.areas_internal form').

(** A mesh with the one marker "left", internal marker 1, to run the
    examples with. *)
Definition internal_marker_demo (surface : bool) (i : nat) (area : string) : option Z :=
  if String.eqb area "left" then Some 1 else None.

(** A form restricted to "left" that still carries a stale internal
    marker. *)
Definition form_left_demo : Form.t := Form.mk 0 ["left"%string] false [7].



(** *** space_h1.cpp: the vertex pass and the bubble pass *)

Module VertexPass.

(** The space with the counter [vertex_functions_count]. *)
Record t : Type := mk { space : H1Space.t; vertex_functions_count : Z }.

Section WithMesh.
Variable H2D_UNASSIGNED_DOF H2D_CONSTRAINED_DOF : Z.
Variable get_element_order : nat -> Z.

(** Body of the loop over the vertices of one element, for [vn = e->vn[i]];
    [next_dof++] and [vertex_functions_count++] are on [int]. *)
Definition assign_vertex_node (s : t) (vn : Node.t) : t :=
  let sp := space s in
  let nd := H1Space.ndata sp (Node.id vn) in
  if negb (Node.is_constrained_vertex vn) && (NodeData.dof nd =? H2D_UNASSIGNED_DOF) then
    let s1 :=
      if NodeData.n nd =? 0 then
        mk (H1Space.mk (H1Space.set_dof (H1Space.ndata sp) (Node.id vn) H2D_CONSTRAINED_DOF)
              (H1Space.next_dof sp) (H1Space.edge_functions_count sp)
              (H1Space.essential_bcs sp))
           (vertex_functions_count s)
      else
        mk (H1Space.mk (H1Space.set_dof (H1Space.ndata sp) (Node.id vn) (H1Space.next_dof sp))
              (int_add (H1Space.next_dof sp) 1) (H1Space.edge_functions_count sp)
              (H1Space.essential_bcs sp))
           (int_add (vertex_functions_count s) 1) in
    mk (H1Space.mk (H1Space.set_n (H1Space.ndata (space s1)) (Node.id vn) 1)
          (H1Space.next_dof (space s1)) (H1Space.edge_functions_count (space s1))
          (H1Space.essential_bcs (space s1)))
       (vertex_functions_count s1)
  else s.

(** The body of [for_all_active_elements]; a missing vertex node is a
    fault. *)
Definition assign_element_vertices (s : t) (e : Element.t) : option t :=
  if get_element_order (Element.id e) >? 0 then
    foldlM (fun s i =>
              match Element.vn e !! i with
              | Some vn => Some (assign_vertex_node s vn)
              | None => None
              end)
           s (seq 0 (Element.nvert e))
  else Some s.

(** [assign_vertex_dofs()], over the active elements in the order
    [for_all_active_elements] visits them. *)
Definition assign_vertex_dofs (sp : H1Space.t) (active_elements : list Element.t)
  : option t :=
  foldlM assign_element_vertices (mk sp 0) active_elements.

End WithMesh.

End VertexPass.

Module ElementData.
(** [Space<Scalar>::ElementData]: the order of the element, its first
    bubble DOF and the number of its bubble functions. *)
Record t : Type := mk { order : Z; bdof : Z; n : Z }.
End ElementData.

Module BubblePass.

(** What [assign_bubble_dofs] reads and writes. *)
Record t : Type := mk {
  edata : nat -> ElementData.t;
  next_dof : Z;
  bubble_functions_count : Z
}.

Section WithShapeset.
(** [shapeset->get_num_bubbles(ed->order, e->get_mode())] *)
Variable get_num_bubbles : Z -> Element.t -> Z.

(** Body of the loop, for the active element [e]; both [+=] are on [int]. *)
Definition assign_element_bubbles (s : t) (e : Element.t) : t :=
  let ed := edata s (Element.id e) in
  let n := get_num_bubbles (ElementData.order ed) e in
  mk (fun k => if Nat.eqb k (Element.id e)
               then ElementData.mk (ElementData.order ed) (next_dof s) n
               else edata s k)
     (int_add (next_dof s) n)
     (int_add (bubble_functions_count s) n).

(** [assign_bubble_dofs()] *)
Definition assign_bubble_dofs (edata : nat -> ElementData.t) (next_dof : Z)
    (active_elements : list Element.t) : t :=
  fold_left assign_element_bubbles active_elements (mk edata next_dof 0).

End WithShapeset.

End BubblePass.

(** *** space_h1.cpp: constrained edges *)

Module EdgeInfo.
(** [Space<Scalar>::EdgeInfo]: the constraining edge node, the part of
    its edge, the orientation, and the part as an interval. *)
Record t : Type := mk { node : Node.t; part : Z; ori : Z; lo : Q; hi : Q }.
End EdgeInfo.

Module EdgeNodeData.
(** [Space<Scalar>::NodeData] as an edge node uses it: [dof] and [n],
    then the members [edge_bc_proj], [base] and [part] of the unions. *)
Record t : Type := mk {
  dof : Z;
  n : Z;
  edge_bc_proj : option (list Q);
  base : option Node.t;
  part : Z
}.
End EdgeNodeData.

Module ConstrainedEdges.

(** [x ^= ~0] on [int] *)
Definition flip (x : Z) : Z := Z.lxor x (Z.lnot 0).

(** "create edge infos for half-edges": [h0] and [h1] for the edge info
    [ei]; the parts are [int]s, the ends of the interval doubles, which
    hold the midpoint exactly while it has at most 52 binary places. *)
Definition half_edge_infos (ei : EdgeInfo.t) : EdgeInfo.t * EdgeInfo.t :=
  let h0_part := int_mul (int_add (EdgeInfo.part ei) 1) 2 in
  let mid := ((EdgeInfo.lo ei + EdgeInfo.hi ei) / 2)%Q in
  (EdgeInfo.mk (EdgeInfo.node ei) h0_part (EdgeInfo.ori ei) (EdgeInfo.lo ei) mid,
   EdgeInfo.mk (EdgeInfo.node ei) (int_add h0_part 1) (EdgeInfo.ori ei) mid (EdgeInfo.hi ei)).

(** "on non-refined elements all we have to do is update edge nodes lying
    on constrained edges": the loop over the edges of the active element
    [e], with [ei] the four edge infos (null when absent). *)
Definition update_active_element (ndata : nat -> EdgeNodeData.t) (e : Element.t)
    (ei : list (option EdgeInfo.t)) : option (nat -> EdgeNodeData.t) :=
  foldlM (fun ndata i =>
            match ei !! i with
            | Some (Some info) =>
                match Element.en e !! i with
                | Some en =>
                    let nd := ndata (Node.id en) in
                    let part :=
                      if negb (EdgeInfo.ori info =? 0)
                      then flip (EdgeInfo.part info)
                      else EdgeInfo.part info in
                    Some (fun k =>
                            if Nat.eqb k (Node.id en)
                            then EdgeNodeData.mk (EdgeNodeData.dof nd) (EdgeNodeData.n nd)
                                   (EdgeNodeData.edge_bc_proj nd)
                                   (Some (EdgeInfo.node info)) part
                            else ndata k)
                | None => None
                end
            | Some None => Some ndata
            | None => None
            end)
         ndata (seq 0 (Element.nvert e)).

Section WithShapeset.
(** [shapeset->get_edge_index(edge, ori, order, mode)] and
    [shapeset->get_constrained_edge_index(edge, order, ori, part, mode)]
    for the mode of an element, and [e->next_vert(i)]. *)
Variable get_edge_index : nat -> Z -> Z -> Element.t -> Z.
Variable get_constrained_edge_index : nat -> Z -> Z -> Z -> Element.t -> Z.
Variable next_vert : Element.t -> nat -> nat.

(** [get_boundary_assembly_list_internal(e, surf_num, al)]; a null
    [edge_bc_proj] or [base] that is read, and a node that the element
    does not have, are faults. *)
Definition get_boundary_assembly_list_internal (ndata : nat -> EdgeNodeData.t)
    (e : Element.t) (surf_num : nat) (al : list H1Space.triplet)
  : option (list H1Space.triplet) :=
  match Element.en e !! surf_num with
  | Some en =>
      let nd := ndata (Node.id en) in
      if EdgeNodeData.n nd >=? 0 then
        (* unconstrained *)
        if EdgeNodeData.dof nd >=? 0 then
          match Element.vn e !! surf_num, Element.vn e !! next_vert e surf_num with
          | Some v1, Some v2 =>
              let ori := if (Node.id v1 <? Node.id v2)%nat then 0 else 1 in
              Some (al ++ map (fun j =>
                                 H1Space.mk_triplet (get_edge_index surf_num ori (j + 2) e)
                                   (EdgeNodeData.dof nd + j) 1)
                              (seqZ 0 (EdgeNodeData.n nd)))
          | _, _ => None
          end
        else
          foldlM (fun al j =>
                    match EdgeNodeData.edge_bc_proj nd with
                    | Some proj =>
                        match proj !! Z.to_nat (j + 2) with
                        | Some c =>
                            Some (al ++ [H1Space.mk_triplet
                                           (get_edge_index surf_num 0 (j + 2) e) (-1) c])
                        | None => None
                        end
                    | None => None
                    end)
                 al (seqZ 0 (EdgeNodeData.n nd))
      else
        (* constrained *)
        let ori := if EdgeNodeData.part nd <? 0 then 1 else 0 in
        let part :=
          if EdgeNodeData.part nd <? 0 then flip (EdgeNodeData.part nd)
          else EdgeNodeData.part nd in
        match EdgeNodeData.base nd with
        | Some base =>
            let nd := ndata (Node.id base) in
            Some (al ++ map (fun j =>
                               H1Space.mk_triplet
                                 (get_constrained_edge_index surf_num (j + 2) ori part e)
                                 (EdgeNodeData.dof nd + j) 1)
                            (seqZ 0 (EdgeNodeData.n nd)))
        | None => None
        end
  | None => None
  end.

End WithShapeset.

End ConstrainedEdges.

(** *** Vocabulary for the passes over the mesh *)

(** The number of bubble functions of the element [e], for the order
    that [edata] holds for it. *)
Definition bubbles_of (get_num_bubbles : Z -> Element.t -> Z)
    (edata : nat -> ElementData.t) (e : Element.t) : Z :=
  get_num_bubbles (ElementData.order (edata (Element.id e))) e.

(** The edge info reached from [ei] by taking, split after split, the
    first half ([false]) or the second half ([true]) of the edge. *)
Fixpoint descend (path : list bool) (ei : EdgeInfo.t) : EdgeInfo.t :=
  match path with
  | [] => ei
  | second :: path' =>
      descend path'
        (if second then snd (ConstrainedEdges.half_edge_infos ei)
         else fst (ConstrainedEdges.half_edge_infos ei))
  end.

(** The number that the choices of a path spell in binary, first choice
    first. *)
Fixpoint path_index (path : list bool) : Z :=
  match path with
  | [] => 0
  | second :: path' =>
      (if second then 1 else 0) * 2 ^ Z.of_nat (length path') + path_index path'
  end.

(** The data of a vertex node that the vertex pass has given the DOF [d]:
    [dof = d], [n = 1], the rest as before. *)
Definition numbered_vertex (nd0 : NodeData.t) (d : Z) : NodeData.t :=
  NodeData.mk d 1 (NodeData.vertex_bc_coef nd0) (NodeData.baselist nd0)
    (NodeData.ncomponents nd0).

(** The vertex nodes that the vertex pass visits: the first [nvert]
    vertices of the active elements of non-zero order. *)
Definition visited_vertices (get_element_order : nat -> Z)
    (active_elements : list Element.t) : list Node.t :=
  e ← active_elements;
  if get_element_order (Element.id e) >? 0
  then take (Element.nvert e) (Element.vn e) else [].

(** What the vertex pass, in the state [s], has done to the space [sp]
    that it started from: the counters agree; a node has its old data or,
    if it was unassigned, is numbered; the DOFs handed out are all
    different. *)
Definition vertex_pass_inv (H2D_UNASSIGNED_DOF H2D_CONSTRAINED_DOF : Z)
    (sp : H1Space.t) (s : VertexPass.t) : Prop :=
  let nd0 := H1Space.ndata sp in
  let next0 := H1Space.next_dof sp in
  let nd := H1Space.ndata (VertexPass.space s) in
  let next := H1Space.next_dof (VertexPass.space s) in
  next = next0 + VertexPass.vertex_functions_count s /\
  0 <= VertexPass.vertex_functions_count s /\
  (forall id, nd id = nd0 id \/
              NodeData.dof (nd0 id) = H2D_UNASSIGNED_DOF /\
              exists d, (d = H2D_CONSTRAINED_DOF /\ NodeData.n (nd0 id) = 0 \/
                         next0 <= d < next /\ NodeData.n (nd0 id) <> 0) /\
                        nd id = numbered_vertex (nd0 id) d) /\
  (forall id1 id2,
     NodeData.dof (nd0 id1) = H2D_UNASSIGNED_DOF ->
     NodeData.dof (nd0 id2) = H2D_UNASSIGNED_DOF ->
     next0 <= NodeData.dof (nd id1) ->
     NodeData.dof (nd id1) = NodeData.dof (nd id2) -> id1 = id2).

(** *** Examples for the passes *)

(** A triangle with the vertex nodes 0, 1, 2 and the edge nodes 3, 4, 5:
    edge 3 is shared with a neighbour, edge 4 is a constrained edge, edge
    5 lies on the boundary with marker 1. *)
Definition triangle_demo : Element.t :=
  Element.mk 0 3
    [Node.mk 0 2 false 0 false false; Node.mk 1 2 false 0 false false;
     Node.mk 2 2 false 0 false false]
    [Node.mk 3 2 false 0 false false; Node.mk 4 1 false 0 false false;
     Node.mk 5 1 true 1 false false]
    0.

(** A second element, for the bubble pass. *)
Definition quad_demo : Element.t := Element.mk 1 4 [] [] 0.

(** Nothing numbered yet; vertex 2 lies on an essential boundary
    ([n = 0]); the first free DOF is 10. *)
Definition vertex_space_demo : H1Space.t :=
  H1Space.mk (fun id => NodeData.mk (-2) (if Nat.eqb id 2 then 0 else 1) None ∅ 0)
    10 0 (Some bcs_demo).

(** Order 3 in every element, and the bubble count of a triangle. *)
Definition edata_demo : nat -> ElementData.t := fun _ => ElementData.mk 3 0 0.

Definition num_bubbles_demo : Z -> Element.t -> Z :=
  fun order _ => (order - 1) * (order - 2) / 2.

(** The edge node 9 constrains the edge node 4 of the triangle, which
    covers the first quarter of its edge, against its orientation. *)
Definition constraining_edge_demo : Node.t := Node.mk 9 2 false 0 false true.

Definition edge_ndata_demo : nat -> EdgeNodeData.t :=
  fun id => if Nat.eqb id 4 then EdgeNodeData.mk (-2) (-1) None None 0
            else EdgeNodeData.mk 20 2 None None 0.

Definition edge_infos_demo : list (option EdgeInfo.t) :=
  [None; Some (EdgeInfo.mk constraining_edge_demo 2 1 (-1) (-(1 # 2))); None; None].

Definition edge_ndata_updated_demo : nat -> EdgeNodeData.t :=
  fun k => if Nat.eqb k 4
           then EdgeNodeData.mk (-2) (-1) None (Some constraining_edge_demo)
                  (ConstrainedEdges.flip 2)
           else edge_ndata_demo k.

(** Shape function indices for the examples. *)
Definition constrained_edge_index_demo : nat -> Z -> Z -> Z -> Element.t -> Z :=
  fun edge order ori part _ => ((Z.of_nat edge * 100 + order) * 2 + ori) * 100 + part.

Definition edge_index_demo : nat -> Z -> Z -> Element.t -> Z :=
  fun edge ori order _ => (Z.of_nat edge * 100 + order) * 2 + ori.

Definition next_vert_demo : Element.t -> nat -> nat :=
  fun e i => ((i + 1) mod Element.nvert e)%nat.

(** The edge info of a whole constraining edge. *)
Definition whole_edge_demo : EdgeInfo.t := EdgeInfo.mk constraining_edge_demo (-1) 0 (-1) 1.


(** *** The merge of baselists, over every scalar type *)

Section MergeOverScalar.
Context {Sc : Type} {scalar : Scalar Sc}.
Implicit Types (acc l : list (BaseComponent.over Sc)) (c m : BaseComponent.over Sc).

Lemma desc_below acc c x :
  desc (c :: acc) -> BaseComponent.dof c < x -> coef_at (c :: acc) x = None.
Proof.
  intros Hd Hlt. apply StronglySorted_inv in Hd as [_ Hall].
  assert (Hacc : coef_at acc x = None).
  { induction acc as [|d acc IH]; [reflexivity|].
    apply Forall_cons in Hall as [Hd Hall]. simpl.
    destruct (Z.eqb_spec (BaseComponent.dof d) x); [lia|]. now apply IH. }
  simpl. destruct (Z.eqb_spec (BaseComponent.dof c) x); [lia|exact Hacc].
Qed.

Lemma emit_abs_desc acc m :
  desc acc -> hd_le acc (BaseComponent.dof m) ->
  desc (emit_abs acc m) /\
  forall x, BaseComponent.dof m <= x -> hd_le (emit_abs acc m) x.
Proof.
  intros Hd Hle. destruct acc as [|lc rest]; simpl.
  - split; [|intros x Hx; exact Hx].
    repeat constructor.
  - simpl in Hle. destruct (Z.eqb_spec (BaseComponent.dof lc) (BaseComponent.dof m)) as [He|Hne].
    + split; [exact Hd|]. intros x Hx. simpl. lia.
    + split; [|intros x Hx; simpl; lia].
      unfold desc. simpl. constructor; [exact Hd|].
      apply StronglySorted_inv in Hd as [_ Hall].
      constructor; [simpl; lia|].
      eapply Forall_impl; [exact Hall|]. simpl. intros y Hy. lia.
Qed.

Lemma emit_abs_coef acc m x :
  desc acc -> hd_le acc (BaseComponent.dof m) ->
  coef_at (emit_abs acc m) x =
  if BaseComponent.dof m =? x
  then add_opt (coef_at acc x) (Some (scalar_half (BaseComponent.coef m)))
  else coef_at acc x.
Proof.
  intros Hd Hle. destruct acc as [|lc rest].
  - simpl. destruct (BaseComponent.dof m =? x); reflexivity.
  - cbn [emit_abs]. simpl in Hle.
    destruct (Z.eqb_spec (BaseComponent.dof lc) (BaseComponent.dof m)) as [He|Hne].
    + simpl. rewrite <- He.
      destruct (Z.eqb_spec (BaseComponent.dof lc) x); reflexivity.
    + destruct (Z.eqb_spec (BaseComponent.dof m) x) as [Hx|Hx].
      * subst x. rewrite (desc_below rest lc) by (assumption || lia).
        cbn [coef_at BaseComponent.dof BaseComponent.coef].
        rewrite Z.eqb_refl. reflexivity.
      * cbn [coef_at BaseComponent.dof BaseComponent.coef].
        destruct (Z.eqb_spec (BaseComponent.dof m) x); [contradiction|reflexivity].
Qed.

Lemma emit_abs_sum value acc m :
  exact_arithmetic value ->
  (coef_sum value (emit_abs acc m)
   == coef_sum value acc + value (BaseComponent.coef m) * (1 # 2))%Q.
Proof.
  intros [Hadd Hhalf]. destruct acc as [|lc rest]; simpl.
  - rewrite Hhalf. ring.
  - destruct (BaseComponent.dof lc =? BaseComponent.dof m); simpl.
    + rewrite Hadd, Hhalf. ring.
    + rewrite Hhalf. ring.
Qed.

Lemma sorted_unique_inv c l :
  sorted_unique (c :: l) ->
  sorted_unique l /\ Forall (fun d => BaseComponent.dof c < BaseComponent.dof d) l.
Proof.
  unfold sorted_unique, dofs. simpl. intros H.
  apply StronglySorted_inv in H as [Hs Hall]. split; [exact Hs|].
  apply (proj1 (Forall_map _ _ _)) in Hall. exact Hall.
Qed.

Lemma sorted_unique_coef_at_tail c l :
  sorted_unique (c :: l) -> coef_at l (BaseComponent.dof c) = None.
Proof.
  intros H. apply sorted_unique_inv in H as [_ Hall].
  induction l as [|d l IH]; [reflexivity|].
  apply Forall_cons in Hall as [Hd Hall]. simpl.
  destruct (Z.eqb_spec (BaseComponent.dof d) (BaseComponent.dof c)); [lia|auto].
Qed.

Lemma above_coef_at_None l x :
  Forall (fun d => x < BaseComponent.dof d) l -> coef_at l x = None.
Proof.
  induction 1 as [|d l Hd _ IH]; [reflexivity|]. simpl.
  destruct (Z.eqb_spec (BaseComponent.dof d) x); [lia|exact IH].
Qed.

Lemma above_step acc m l :
  Forall (fun d => BaseComponent.dof m <= BaseComponent.dof d) l ->
  desc acc -> hd_le acc (BaseComponent.dof m) ->
  above (emit_abs acc m) l.
Proof.
  intros Hl Hd Hle. destruct (emit_abs_desc acc m Hd Hle) as [_ Hhd].
  unfold above. eapply Forall_impl; [exact Hl|]. intros d Hdm. now apply Hhd.
Qed.

Lemma fold_emit_abs l : forall acc,
  sorted_unique l -> desc acc -> above acc l ->
  desc (fold_left emit_abs l acc) /\
  (forall x, coef_at (fold_left emit_abs l acc) x
             = add_opt (coef_at acc x) (scalar_half <$> coef_at l x)) /\
  (forall value, exact_arithmetic value ->
     (coef_sum value (fold_left emit_abs l acc)
      == coef_sum value acc + coef_sum value l * (1 # 2))%Q).
Proof.
  induction l as [|c l IH]; intros acc Hs Hd Ha.
  - simpl. split; [exact Hd|]. split.
    + intros x. destruct (coef_at acc x); reflexivity.
    + intros value _. simpl. ring.
  - simpl. apply Forall_cons in Ha as [Hc Ha].
    pose proof (sorted_unique_coef_at_tail _ _ Hs) as Htail.
    apply sorted_unique_inv in Hs as [Hs Hall].
    destruct (emit_abs_desc acc c Hd Hc) as [Hd' Hhd'].
    destruct (IH (emit_abs acc c) Hs Hd') as (IH1 & IH2 & IH3).
    { apply above_step; [|assumption..].
      eapply Forall_impl; [exact Hall|]. simpl. intros; lia. }
    split; [exact IH1|]. split.
    + intros x. rewrite IH2, emit_abs_coef by assumption.
      destruct (Z.eqb_spec (BaseComponent.dof c) x) as [Hx|Hx].
      * subst x. rewrite Htail. simpl.
        destruct (coef_at acc (BaseComponent.dof c)); reflexivity.
      * reflexivity.
    + intros value Hex. rewrite (IH3 value Hex), (emit_abs_sum value acc c Hex). simpl. ring.
Qed.

Lemma run_abs_spec l1 : forall l2 acc,
  sorted_unique l1 -> sorted_unique l2 -> desc acc ->
  above acc l1 -> above acc l2 ->
  desc (run_abs l1 l2 acc) /\
  (forall x, coef_at (run_abs l1 l2 acc) x
             = add_opt (add_opt (coef_at acc x) (scalar_half <$> coef_at l2 x))
                       (scalar_half <$> coef_at l1 x)) /\
  (forall value, exact_arithmetic value ->
     (coef_sum value (run_abs l1 l2 acc)
      == coef_sum value acc + (coef_sum value l1 + coef_sum value l2) * (1 # 2))%Q).
Proof.
  induction l1 as [|a l1 IH1].
  - intros l2 acc _ Hs2 Hd _ Ha2.
    assert (Heq : run_abs [] l2 acc = fold_left emit_abs l2 acc) by (destruct l2; reflexivity).
    rewrite Heq. destruct (fold_emit_abs l2 acc Hs2 Hd Ha2) as (F1 & F2 & F3).
    split; [exact F1|]. split.
    + intros x. rewrite F2. simpl.
      destruct (add_opt (coef_at acc x) (scalar_half <$> coef_at l2 x)); reflexivity.
    + intros value Hex. rewrite (F3 value Hex). simpl. ring.
  - induction l2 as [|b l2 IH2]; intros acc Hs1 Hs2 Hd Ha1 Ha2.
    + change (run_abs (a :: l1) [] acc) with (fold_left emit_abs (a :: l1) acc).
      destruct (fold_emit_abs (a :: l1) acc Hs1 Hd Ha1) as (F1 & F2 & F3).
      split; [exact F1|]. split.
      * intros x. rewrite F2. cbn [coef_at fmap option_fmap option_map].
        destruct (coef_at acc x); reflexivity.
      * intros value Hex. rewrite (F3 value Hex). cbn [coef_sum]. ring.
    + change (run_abs (a :: l1) (b :: l2) acc) with
        (if BaseComponent.dof a <? BaseComponent.dof b
         then run_abs l1 (b :: l2) (emit_abs acc a)
         else run_abs (a :: l1) l2 (emit_abs acc b)).
      pose proof (sorted_unique_coef_at_tail _ _ Hs1) as Ht1.
      pose proof (sorted_unique_coef_at_tail _ _ Hs2) as Ht2.
      pose proof (sorted_unique_inv _ _ Hs1) as [Hs1' Hall1].
      pose proof (sorted_unique_inv _ _ Hs2) as [Hs2' Hall2].
      pose proof (Forall_inv Ha1) as Hca. pose proof (Forall_inv Ha2) as Hcb.
      destruct (Z.ltb_spec (BaseComponent.dof a) (BaseComponent.dof b)) as [Hlt|Hge].
      * destruct (emit_abs_desc acc a Hd Hca) as [Hd' _].
        destruct (IH1 (b :: l2) (emit_abs acc a) Hs1' Hs2 Hd') as (R1 & R2 & R3).
        { apply above_step; [|assumption..].
          eapply Forall_impl; [exact Hall1|]. simpl. intros; lia. }
        { apply above_step; [|assumption..].
          constructor; [lia|].
          eapply Forall_impl; [exact Hall2|]. simpl. intros; lia. }
        split; [exact R1|]. split.
        -- intros x. rewrite R2, emit_abs_coef by assumption.
           cbn [coef_at].
           destruct (Z.eqb_spec (BaseComponent.dof a) x) as [Hx|Hx]; [|reflexivity].
           subst x. rewrite Ht1.
           destruct (Z.eqb_spec (BaseComponent.dof b) (BaseComponent.dof a)); [lia|].
           rewrite (above_coef_at_None l2) by
             (eapply Forall_impl; [exact Hall2|]; simpl; intros; lia).
           simpl. destruct (coef_at acc (BaseComponent.dof a)); reflexivity.
        -- intros value Hex. rewrite (R3 value Hex), (emit_abs_sum value acc a Hex).
           cbn [coef_sum]. ring.
      * destruct (emit_abs_desc acc b Hd Hcb) as [Hd' _].
        destruct (IH2 (emit_abs acc b) Hs1 Hs2' Hd') as (R1 & R2 & R3).
        { apply above_step; [|assumption..].
          constructor; [lia|].
          eapply Forall_impl; [exact Hall1|]. simpl. intros; lia. }
        { apply above_step; [|assumption..].
          eapply Forall_impl; [exact Hall2|]. simpl. intros; lia. }
        split; [exact R1|]. split.
        -- intros x. rewrite R2, emit_abs_coef by assumption.
           cbn [coef_at].
           destruct (Z.eqb_spec (BaseComponent.dof b) x) as [Hx|Hx]; [|reflexivity].
           subst x. rewrite Ht2. simpl.
           destruct (coef_at acc (BaseComponent.dof b)); reflexivity.
        -- intros value Hex. rewrite (R3 value Hex), (emit_abs_sum value acc b Hex).
           cbn [coef_sum]. ring.
Qed.

(** *** The array under construction *)

Lemma written_snoc (r : gmap Z (BaseComponent.over Sc)) p :
  0 <= p ->
  Merge.written r (p + 1) =
  Merge.written r p ++ match r !! p with Some c => [c] | None => [] end.
Proof.
  intros Hp. unfold Merge.written.
  rewrite seqZ_app by lia. rewrite omap_app. f_equal.
Qed.

Lemma omap_lookup_ext (r r' : gmap Z (BaseComponent.over Sc)) (l : list Z) :
  (forall p, p ∈ l -> r !! p = r' !! p) ->
  omap (fun p => r !! p) l = omap (fun p => r' !! p) l.
Proof.
  induction l as [|q l IH]; intros Hin; [reflexivity|].
  cbn [omap list_omap]. rewrite (Hin q) by left.
  rewrite IH by (intros p Hp; apply Hin; now right). reflexivity.
Qed.

Lemma omap_lookup_free (r : gmap Z (BaseComponent.over Sc)) (l : list Z) :
  (forall p, p ∈ l -> r !! p = None) ->
  omap (fun p => r !! p) l = [].
Proof.
  induction l as [|q l IH]; intros Hin; [reflexivity|].
  cbn [omap list_omap]. rewrite (Hin q) by left.
  apply IH. intros p Hp. apply Hin. now right.
Qed.

Lemma written_ext (r r' : gmap Z (BaseComponent.over Sc)) n :
  (forall p, 0 <= p < n -> r !! p = r' !! p) ->
  Merge.written r n = Merge.written r' n.
Proof.
  intros H. unfold Merge.written. apply omap_lookup_ext.
  intros p Hp. apply elem_of_seqZ in Hp. apply H. lia.
Qed.

Lemma written_free (r : gmap Z (BaseComponent.over Sc)) a b :
  0 <= a <= b ->
  (forall p, a <= p -> r !! p = None) ->
  Merge.written r b = Merge.written r a.
Proof.
  intros Hab Hfree. unfold Merge.written.
  replace b with (a + (b - a)) by lia.
  rewrite seqZ_app by lia. rewrite omap_app.
  rewrite (omap_lookup_free r (seqZ (0 + a) (b - a))).
  - apply app_nil_r.
  - intros p Hp. apply elem_of_seqZ in Hp. apply Hfree. lia.
Qed.

Lemma output_component_refines ndata st m k :
  inv st -> 0 <= k -> room ndata st (k + 1) ->
  exists st',
    Merge.output_component ndata st m = Some st' /\
    inv st' /\ room ndata st' k /\
    Merge.max_result st' = Merge.max_result st /\
    acc_of st' = emit_abs (acc_of st) m.
Proof.
  intros [Hcur Hfree Hlast] Hk [Hn Hroom].
  (* the path that writes a fresh component *)
  assert (Hemit :
    match acc_of st with
    | lc :: _ => BaseComponent.dof lc <> BaseComponent.dof m
    | [] => True
    end ->
    forall st1,
      Merge.result st1 = Merge.result st ->
      Merge.max_result st1 = Merge.max_result st ->
      Merge.current st <= Merge.current st1 ->
      room ndata st1 (k + 1) ->
      exists st',
        match Merge.store st1 (Merge.current st1)
                (BaseComponent.make (BaseComponent.dof m) (scalar_half (BaseComponent.coef m))) with
        | Some r =>
            Some {| Merge.result := r; Merge.max_result := Merge.max_result st1;
                    Merge.current := Merge.current st1 + 1;
                    Merge.last := Some (Merge.current st1);
                    Merge.edge := Merge.edge st1; Merge.edge_dofs := Merge.edge_dofs st1 |}
        | None => None
        end = Some st' /\
        inv st' /\ room ndata st' k /\
        Merge.max_result st' = Merge.max_result st /\
        acc_of st' = emit_abs (acc_of st) m).
  { intros Hne st1 Hr Hm Hc [Hn1 Hroom1].
    unfold Merge.store. destruct (decide (0 <= Merge.current st1 < Merge.max_result st1)) as [Hin|Hout];
      [|exfalso; lia].
    eexists. split; [reflexivity|]. split; [|split; [|split]].
    - constructor; simpl.
      + lia.
      + intros p Hp. rewrite lookup_insert_ne by lia. rewrite Hr. apply Hfree. lia.
      + split; [lia|]. split; [lia|]. rewrite lookup_insert_eq. eauto.
    - split; simpl; [exact Hn1|lia].
    - simpl. exact Hm.
    - unfold acc_of. simpl. rewrite written_snoc by lia.
      rewrite lookup_insert_eq. rewrite rev_unit.
      rewrite (written_ext _ (Merge.result st)) by
        (intros p Hp; rewrite lookup_insert_ne by lia; now rewrite Hr).
      rewrite (written_free _ (Merge.current st) (Merge.current st1)) by (lia || exact Hfree).
      unfold acc_of in Hne.
      destruct (rev (Merge.written (Merge.result st) (Merge.current st))) as [|lc rest];
        simpl; [reflexivity|].
      destruct (Z.eqb_spec (BaseComponent.dof lc) (BaseComponent.dof m)); [contradiction|reflexivity]. }
  (* reserving the edge block on the way *)
  assert (Hbody :
    match acc_of st with
    | lc :: _ => BaseComponent.dof lc <> BaseComponent.dof m
    | [] => True
    end ->
    exists st',
      (let st1 :=
         match Merge.edge st with
         | Some e =>
             if NodeData.dof (ndata (Node.id e)) <=? BaseComponent.dof m then
               {| Merge.result := Merge.result st; Merge.max_result := Merge.max_result st;
                  Merge.current :=
                    (if NodeData.dof (ndata (Node.id e)) =? BaseComponent.dof m
                     then Merge.current st
                     else Merge.current st + NodeData.n (ndata (Node.id e)));
                  Merge.last := Merge.last st;
                  Merge.edge := None;
                  Merge.edge_dofs := Some (Merge.current st) |}
             else st
         | None => st
         end in
       match Merge.store st1 (Merge.current st1)
               (BaseComponent.make (BaseComponent.dof m) (scalar_half (BaseComponent.coef m))) with
       | Some r =>
           Some {| Merge.result := r; Merge.max_result := Merge.max_result st1;
                   Merge.current := Merge.current st1 + 1;
                   Merge.last := Some (Merge.current st1);
                   Merge.edge := Merge.edge st1; Merge.edge_dofs := Merge.edge_dofs st1 |}
       | None => None
       end) = Some st' /\
      inv st' /\ room ndata st' k /\
      Merge.max_result st' = Merge.max_result st /\
      acc_of st' = emit_abs (acc_of st) m).
  { intros Hne. cbv zeta. unfold room in *.
    destruct (Merge.edge st) as [e|] eqn:He; simpl in Hn, Hroom.
    - destruct (NodeData.dof (ndata (Node.id e)) <=? BaseComponent.dof m).
      + destruct (NodeData.dof (ndata (Node.id e)) =? BaseComponent.dof m);
          apply Hemit; simpl; try reflexivity; try assumption; try lia;
          unfold room; simpl; lia.
      + apply Hemit; try reflexivity; try assumption; try lia.
        unfold room. rewrite He. simpl. lia.
    - apply Hemit; try reflexivity; try assumption; try lia.
      unfold room. rewrite He. simpl. lia. }
  unfold Merge.output_component.
  destruct (Merge.last st) as [l|] eqn:Hl.
  - destruct Hlast as [Hl1 [Hl0 [lc Hlc]]]. rewrite Hlc.
    assert (Hacc : acc_of st = lc :: rev (Merge.written (Merge.result st) l)).
    { unfold acc_of. replace (Merge.current st) with (l + 1) by lia.
      rewrite written_snoc by lia. rewrite Hlc. apply rev_unit. }
    destruct (Z.eqb_spec (BaseComponent.dof lc) (BaseComponent.dof m)) as [Heq|Hne].
    + eexists. split; [reflexivity|]. split; [|split; [|split]].
      * constructor; simpl.
        -- exact Hcur.
        -- intros p Hp. rewrite lookup_insert_ne by lia. now apply Hfree.
        -- split; [exact Hl1|]. split; [exact Hl0|]. rewrite lookup_insert_eq. eauto.
      * split; simpl; [exact Hn|lia].
      * reflexivity.
      * rewrite Hacc. simpl. rewrite (proj2 (Z.eqb_eq _ _) Heq).
        unfold acc_of. simpl. replace (Merge.current st) with (l + 1) by lia.
        rewrite written_snoc by lia. rewrite lookup_insert_eq. rewrite rev_unit.
        f_equal. f_equal. apply written_ext.
        intros p Hp. rewrite lookup_insert_ne by lia. reflexivity.
    + apply Hbody. rewrite Hacc. exact Hne.
  - apply Hbody. unfold acc_of. rewrite Hlast. reflexivity.
Qed.

Ltac close_refines :=
  repeat match goal with |- _ /\ _ => split end;
  try reflexivity; try assumption; try congruence.

Lemma foldlM_output_refines ndata l : forall st k,
  inv st -> 0 <= k -> room ndata st (k + Z.of_nat (length l)) ->
  exists st',
    foldlM (Merge.output_component ndata) st l = Some st' /\
    inv st' /\ room ndata st' k /\
    Merge.max_result st' = Merge.max_result st /\
    acc_of st' = fold_left emit_abs l (acc_of st).
Proof.
  induction l as [|c l IH]; intros st k Hinv Hk Hroom.
  - exists st. replace (k + Z.of_nat (length (@nil (BaseComponent.over Sc)))) with k in Hroom
      by (simpl length; lia). close_refines.
  - cbn [foldlM fold_left].
    destruct (output_component_refines ndata st c (k + Z.of_nat (length l)))
      as (st1 & -> & Hinv1 & Hroom1 & Hmax1 & Hacc1); [assumption|lia| |].
    { replace (k + Z.of_nat (length l) + 1) with (k + Z.of_nat (length (c :: l)))
        by (simpl length; lia). exact Hroom. }
    destruct (IH st1 k Hinv1 Hk Hroom1) as (st2 & -> & Hinv2 & Hroom2 & Hmax2 & Hacc2).
    exists st2. rewrite Hmax2, Hacc2, Hacc1. close_refines.
Qed.

Lemma main_loop_refines ndata l1 : forall l2 st k,
  inv st -> 0 <= k ->
  room ndata st (k + Z.of_nat (length l1) + Z.of_nat (length l2)) ->
  exists st' r1 r2,
    Merge.main_loop ndata l1 l2 st = Some (st', r1, r2) /\
    inv st' /\
    room ndata st' (k + Z.of_nat (length r1) + Z.of_nat (length r2)) /\
    Merge.max_result st' = Merge.max_result st /\
    fold_left emit_abs r2 (fold_left emit_abs r1 (acc_of st')) = run_abs l1 l2 (acc_of st).
Proof.
  induction l1 as [|a l1 IH1].
  - intros l2 st k Hinv Hk Hroom. exists st, [], l2.
    destruct l2; close_refines.
  - induction l2 as [|b l2 IH2]; intros st k Hinv Hk Hroom.
    + exists st, (a :: l1), []. close_refines.
    + change (Merge.main_loop ndata (a :: l1) (b :: l2) st) with
        (if BaseComponent.dof a <? BaseComponent.dof b then
           match Merge.output_component ndata st a with
           | Some st' => Merge.main_loop ndata l1 (b :: l2) st'
           | None => None
           end
         else
           match Merge.output_component ndata st b with
           | Some st' => Merge.main_loop ndata (a :: l1) l2 st'
           | None => None
           end).
      change (run_abs (a :: l1) (b :: l2) (acc_of st)) with
        (if BaseComponent.dof a <? BaseComponent.dof b
         then run_abs l1 (b :: l2) (emit_abs (acc_of st) a)
         else run_abs (a :: l1) l2 (emit_abs (acc_of st) b)).
      simpl length in Hroom.
      destruct (BaseComponent.dof a <? BaseComponent.dof b).
      * destruct (output_component_refines ndata st a
                    (k + Z.of_nat (length l1) + Z.of_nat (length (b :: l2))))
          as (st1 & -> & Hinv1 & Hroom1 & Hmax1 & Hacc1); [assumption|lia| |].
        { simpl length. replace (k + Z.of_nat (length l1) + Z.of_nat (S (length l2)) + 1)
            with (k + Z.of_nat (S (length l1)) + Z.of_nat (S (length l2))) by lia.
          exact Hroom. }
        destruct (IH1 (b :: l2) st1 k Hinv1 Hk Hroom1)
          as (st2 & r1 & r2 & -> & Hinv2 & Hroom2 & Hmax2 & Hacc2).
        exists st2, r1, r2. rewrite Hmax2, Hacc2, Hacc1. close_refines.
      * destruct (output_component_refines ndata st b
                    (k + Z.of_nat (length (a :: l1)) + Z.of_nat (length l2)))
          as (st1 & -> & Hinv1 & Hroom1 & Hmax1 & Hacc1); [assumption|lia| |].
        { simpl length. replace (k + Z.of_nat (S (length l1)) + Z.of_nat (length l2) + 1)
            with (k + Z.of_nat (S (length l1)) + Z.of_nat (S (length l2))) by lia.
          exact Hroom. }
        destruct (IH2 st1 k Hinv1 Hk Hroom1)
          as (st2 & r1 & r2 & -> & Hinv2 & Hroom2 & Hmax2 & Hacc2).
        exists st2, r1, r2. rewrite Hmax2, Hacc2, Hacc1. close_refines.
Qed.

Lemma coef_sum_app value l1 l2 :
  (coef_sum value (l1 ++ l2) == coef_sum value l1 + coef_sum value l2)%Q.
Proof. induction l1 as [|c l1 IH]; simpl; [ring|]. rewrite IH. ring. Qed.

Lemma coef_sum_rev value l : (coef_sum value (rev l) == coef_sum value l)%Q.
Proof.
  induction l as [|c l IH]; simpl; [reflexivity|].
  rewrite coef_sum_app, IH. simpl. ring.
Qed.

Lemma coef_at_app l1 l2 x :
  coef_at (l1 ++ l2) x =
  match coef_at l1 x with Some c => Some c | None => coef_at l2 x end.
Proof.
  induction l1 as [|c l1 IH]; simpl; [reflexivity|].
  destruct (BaseComponent.dof c =? x); [reflexivity|exact IH].
Qed.

Lemma desc_rev acc :
  desc acc ->
  sorted_unique (rev acc) /\ forall x, coef_at (rev acc) x = coef_at acc x.
Proof.
  induction acc as [|c acc IH]; intros Hd.
  - split; [constructor|reflexivity].
  - pose proof Hd as Hd0.
    apply StronglySorted_inv in Hd as [Hd Hall]. destruct (IH Hd) as [IHs IHc].
    split.
    + unfold sorted_unique, dofs in *. simpl. rewrite map_app.
      apply StronglySorted_app_2; [|exact IHs|repeat constructor].
      intros x1 x2 H1 H2. apply list_elem_of_In in H1. rewrite <- in_rev_map in H1 || idtac.
      simpl in H2. apply list_elem_of_singleton in H2. subst x2.
      rewrite Forall_forall in Hall. apply Hall.
      apply list_elem_of_In. rewrite map_rev in H1. apply in_rev in H1. exact H1.
    + intros x. simpl. rewrite coef_at_app, IHc. simpl.
      destruct (Z.eqb_spec (BaseComponent.dof c) x) as [Hx|Hx].
      * subst x. pose proof (desc_below acc c) as Hb.
        assert (Hnone : coef_at acc (BaseComponent.dof c) = None).
        { clear -Hall. induction acc as [|d acc IH]; [reflexivity|].
          apply Forall_cons in Hall as [Hd Hall]. simpl.
          destruct (Z.eqb_spec (BaseComponent.dof d) (BaseComponent.dof c)); [lia|auto]. }
        rewrite Hnone. reflexivity.
      * destruct (coef_at acc x); reflexivity.
Qed.

(** C1 (amended).  For two inputs sorted ascending by DOF without
    duplicates, and an edge node (if any) with a non-negative DOF count,
    [merge_baselists] returns, for every scalar type; the components it
    wrote are sorted ascending by DOF with no DOF twice; a DOF of exactly
    one input carries that input's coefficient times 0.5, a DOF of both
    carries the two products added, product and sum being those of the
    scalar type (for [double], the rounded ones); [ncomponents] is at most
    [n1 + n2] plus the edge node's DOF count; and where the arithmetic of
    the scalar type is exact, inputs whose coefficients sum to at most 1
    each give written (non-edge) coefficients that sum to at most 1. *)
Theorem merge_baselists_sorted_halved ndata l1 l2 edge edge_dofs0 :
  sorted_unique l1 -> sorted_unique l2 ->
  0 <= edge_n ndata edge ->
  exists o,
    Merge.merge_baselists ndata l1 l2 edge edge_dofs0 = Some o /\
    sorted_unique (Merge.emitted o) /\
    (forall x, coef_at (Merge.emitted o) x = merged_coef (coef_at l1 x) (coef_at l2 x)) /\
    Merge.out_ncomponents o
      <= Z.of_nat (length l1) + Z.of_nat (length l2) + edge_n ndata edge /\
    (forall value, exact_arithmetic value ->
       sum_stays_below_one value l1 l2 (Merge.emitted o)).
Proof.
  intros Hs1 Hs2 Hn. unfold Merge.merge_baselists.
  set (mr := match edge with
             | Some e => Z.of_nat (length l1) + Z.of_nat (length l2)
                         + NodeData.n (ndata (Node.id e))
             | None => Z.of_nat (length l1) + Z.of_nat (length l2)
             end).
  assert (Hmr : mr = Z.of_nat (length l1) + Z.of_nat (length l2) + edge_n ndata edge).
  { unfold mr, edge_n. destruct edge; lia. }
  set (st0 := {| Merge.result := ∅; Merge.max_result := mr; Merge.current := 0;
                 Merge.last := None; Merge.edge := edge; Merge.edge_dofs := edge_dofs0 |}).
  assert (Hinv0 : inv st0).
  { constructor; simpl; [lia| |reflexivity]. intros p _. apply lookup_empty. }
  assert (Hacc0 : acc_of st0 = []) by reflexivity.
  destruct (main_loop_refines ndata l1 l2 st0 0 Hinv0)
    as (st1 & r1 & r2 & -> & Hinv1 & Hroom1 & Hmax1 & Hacc1); [lia| |].
  { split; simpl; lia. }
  destruct (foldlM_output_refines ndata r1 st1 (Z.of_nat (length r2)) Hinv1)
    as (st2 & -> & Hinv2 & Hroom2 & Hmax2 & Hacc2); [lia| |].
  { replace (Z.of_nat (length r2) + Z.of_nat (length r1))
      with (0 + Z.of_nat (length r1) + Z.of_nat (length r2)) by lia. exact Hroom1. }
  destruct (foldlM_output_refines ndata r2 st2 0 Hinv2)
    as (st3 & -> & Hinv3 & Hroom3 & Hmax3 & Hacc3); [lia| |].
  { replace (0 + Z.of_nat (length r2)) with (Z.of_nat (length r2)) by lia. exact Hroom2. }
  assert (Hacc : acc_of st3 = run_abs l1 l2 []).
  { rewrite Hacc3, Hacc2, Hacc1, Hacc0. reflexivity. }
  assert (Hmax : Merge.max_result st3 = mr) by (rewrite Hmax3, Hmax2, Hmax1; reflexivity).
  destruct (run_abs_spec l1 l2 [] Hs1 Hs2) as (Hd & Hc & Hsum).
  { constructor. }
  { unfold above. apply Forall_forall. intros; exact I. }
  { unfold above. apply Forall_forall. intros; exact I. }
  destruct (desc_rev _ Hd) as [Hsorted Hcoef].
  destruct Hroom3 as [Hn3 Hroom3]. destruct Hinv3 as [Hcur3 Hfree3 _].
  set (cur := match Merge.edge st3 with
              | Some e => Merge.current st3 + NodeData.n (ndata (Node.id e))
              | None => Merge.current st3
              end).
  assert (Hcur : Merge.current st3 <= cur <= mr).
  { unfold cur, edge_n in *. destruct (Merge.edge st3); lia. }
  assert (Hem : Merge.written (Merge.result st3) cur = rev (run_abs l1 l2 [])).
  { rewrite (written_free _ (Merge.current st3) cur) by (lia || exact Hfree3).
    rewrite <- Hacc. unfold acc_of. symmetry. apply rev_involutive. }
  assert (Hout : exists o,
    (let '(cur', ed) :=
       match Merge.edge st3 with
       | Some e => (Merge.current st3 + NodeData.n (ndata (Node.id e)),
                    Some (Merge.current st3))
       | None => (Merge.current st3, Merge.edge_dofs st3)
       end in
     Some {| Merge.out_result := Merge.result st3;
             Merge.out_capacity := (if cur' <? mr then cur' else mr);
             Merge.out_ncomponents := cur';
             Merge.out_edge_dofs := ed |}) = Some o /\
    Merge.out_result o = Merge.result st3 /\ Merge.out_ncomponents o = cur).
  { unfold cur. destruct (Merge.edge st3); eexists; split; try reflexivity; auto. }
  destruct Hout as (o & -> & Hres & Hnc). exists o. split; [reflexivity|].
  unfold Merge.emitted. rewrite Hres, Hnc, Hem.
  split; [exact Hsorted|]. split; [|split].
  - intros x. rewrite Hcoef, Hc. simpl.
    destruct (coef_at l1 x), (coef_at l2 x); reflexivity.
  - lia.
  - intros value Hex H1 H2. rewrite coef_sum_rev, (Hsum value Hex). simpl. lra.
Qed.

End MergeOverScalar.

(** The merge on a small input, with the block left for the edge node. *)
Example merge_demo :
  (Merge.emitted <$> Merge.merge_baselists ndata_demo l1_demo l2_demo (Some edge_demo) None) =
  Some [BaseComponent.mk 1 (half (1 # 2));
        BaseComponent.mk 3 (half 1 + half (1 # 2))%Q;
        BaseComponent.mk 7 (half 0)].
Proof. vm_compute. reflexivity. Qed.

Example merge_demo_layout :
  (fun o => (Merge.out_ncomponents o, Merge.out_edge_dofs o,
             map (fun p => BaseComponent.dof <$> Merge.out_result o !! p) (seqZ 0 5)))
    <$> Merge.merge_baselists ndata_demo l1_demo l2_demo (Some edge_demo) None =
  Some (5, Some 2, [Some 1; Some 3; None; None; Some 7]).
Proof. vm_compute. reflexivity. Qed.

(** The rationals are a scalar type with exact arithmetic. *)
Lemma rational_arithmetic_exact : exact_arithmetic (fun q : Q => q).
Proof. split; intros; cbn; unfold half; ring. Qed.

(** The same merge on doubles: both DOFs are in both lists, and both
    sums of halves are rounded up. *)
Example merge_double_demo :
  (Merge.emitted <$> Merge.merge_baselists ndata_demo l1_double l2_double None None) =
  Some [BaseComponent.make 1 0x1.199999999999ap-1%float;
        BaseComponent.make 2 0x1.ccccccccccccdp-2%float].
Proof. vm_compute. reflexivity. Qed.

(** C1, as the claim words it, fails on doubles: each input sums to 1
    exactly, the merged coefficients sum to 1 + 2^-54, and the coefficient
    of DOF 1 is not half of the one plus half of the other. *)
Lemma rounded_halves_exceed_one :
  exists o,
    Merge.merge_baselists ndata_demo l1_double l2_double None None = Some o /\
    ~ sum_stays_below_one double_exact l1_double l2_double (Merge.emitted o) /\
    ~ halves_added double_exact l1_double l2_double (Merge.emitted o).
Proof.
  eexists. split; [vm_compute; reflexivity|]. split.
  - intros H.
    assert (H1 : (coef_sum double_exact l1_double <= 1)%Q) by (vm_compute; discriminate).
    assert (H2 : (coef_sum double_exact l2_double <= 1)%Q) by (vm_compute; discriminate).
    specialize (H H1 H2). vm_compute in H. apply H. reflexivity.
  - intros H.
    specialize (H 1 0x1.999999999999ap-2%float 0x1.6666666666666p-1%float
                  0x1.199999999999ap-1%float eq_refl eq_refl eq_refl).
    vm_compute in H. discriminate H.
Qed.

Lemma merge_baselists_sorted_halved_witness :
  sorted_unique l1_demo /\ sorted_unique l2_demo /\
  0 <= edge_n ndata_demo (Some edge_demo) /\
  exists o,
    Merge.merge_baselists ndata_demo l1_demo l2_demo (Some edge_demo) None = Some o /\
    sorted_unique (Merge.emitted o) /\
    (forall x, coef_at (Merge.emitted o) x
               = merged_coef (coef_at l1_demo x) (coef_at l2_demo x)) /\
    Merge.out_ncomponents o
      <= Z.of_nat (length l1_demo) + Z.of_nat (length l2_demo)
         + edge_n ndata_demo (Some edge_demo) /\
    (forall value, exact_arithmetic value ->
       sum_stays_below_one value l1_demo l2_demo (Merge.emitted o)).
Proof.
  assert (H1 : sorted_unique l1_demo)
    by (unfold sorted_unique; simpl; repeat constructor; lia).
  assert (H2 : sorted_unique l2_demo)
    by (unfold sorted_unique; simpl; repeat constructor; lia).
  assert (H3 : 0 <= edge_n ndata_demo (Some edge_demo)) by (simpl; lia).
  split; [exact H1|]. split; [exact H2|]. split; [exact H3|].
  exact (merge_baselists_sorted_halved ndata_demo l1_demo l2_demo (Some edge_demo) None
           H1 H2 H3).
Defined.

(** *** int arithmetic *)

(** A result inside the range of [int] is held as it is. *)
Lemma int_wrap_small (x : Z) : -2147483648 <= x <= INT_MAX -> int_wrap x = x.
Proof.
  unfold int_wrap, INT_MAX. intros H. rewrite Z.mod_small by lia. lia.
Qed.

Lemma int_wrap_range (x : Z) : -2147483648 <= int_wrap x <= INT_MAX.
Proof.
  unfold int_wrap, INT_MAX.
  pose proof (Z.mod_pos_bound (x + 2147483648) 4294967296 ltac:(lia)). lia.
Qed.

(** *** The edge pass of the DOF assignment *)

Lemma foldlM_app {St A : Type} (f : St -> A -> option St) (l1 l2 : list A) : forall s,
  foldlM f s (l1 ++ l2)
  = match foldlM f s l1 with Some s' => foldlM f s' l2 | None => None end.
Proof.
  induction l1 as [|x l1 IH]; intros s; [reflexivity|].
  cbn [app foldlM]. destruct (f s x); [apply IH|reflexivity].
Qed.

(** A loop over [i < n] that reads [vn[i]] and [en[i]] and works on
    [en[i]] is a loop over the first [n] items of [en], when both lists
    have them. *)
Lemma foldlM_edges {St A B : Type} (f : St -> B -> option St) (vn : list A) (en : list B) :
  forall (n a : nat) (s : St),
    (a + n <= length vn)%nat -> (a + n <= length en)%nat ->
    foldlM (fun s i => match vn !! i, en !! i with
                       | Some _, Some x => f s x
                       | _, _ => None
                       end) s (seq a n)
    = foldlM f s (take n (drop a en)).
Proof.
  induction n as [|n IH]; intros a s Hvn Hen; [reflexivity|].
  cbn [seq foldlM].
  destruct (vn !! a) as [v|] eqn:Hv; [|apply lookup_ge_None in Hv; lia].
  destruct (en !! a) as [x|] eqn:Hx; [|apply lookup_ge_None in Hx; lia].
  rewrite (drop_S en x a Hx). cbn [take foldlM].
  destruct (f s x); [|reflexivity]. apply IH; lia.
Qed.

Lemma sumZ_app (l1 l2 : list Z) : sumZ (l1 ++ l2) = sumZ l1 + sumZ l2.
Proof.
  unfold sumZ. induction l1 as [|x l1 IH]; [reflexivity|].
  cbn [app foldr]. rewrite IH. lia.
Qed.

Lemma sumZ_nonneg (l : list Z) : Forall (fun x => 0 <= x) l -> 0 <= sumZ l.
Proof.
  unfold sumZ. induction 1 as [|x l Hx _ IH]; cbn [foldr]; lia.
Qed.

(** An edge node is on an essential marker or off it, never both. *)
Lemma on_off_essential_marker fuel get_user_marker s en :
  on_essential_marker fuel get_user_marker s en ->
  off_essential_marker fuel get_user_marker s en -> False.
Proof.
  intros (Hbnd & bcs & bc & Hbcs & Hget) [Hoff|[Hoff|(bcs' & Hbcs' & Hget')]]; congruence.
Qed.

Section EdgePass.
Variable H2D_UNASSIGNED_DOF H2D_CONSTRAINED_DOF : Z.
Variable get_user_marker : Z -> string.
Variable get_edge_order_internal : Node.t -> Z.
Variable get_element_order : nat -> Z.
Variable fuel : nat.
Variable sp : H1Space.t.

Hypothesis unassigned_negative : H2D_UNASSIGNED_DOF < 0.
Hypothesis constrained_negative : H2D_CONSTRAINED_DOF < 0.
Hypothesis sentinels_differ : H2D_CONSTRAINED_DOF <> H2D_UNASSIGNED_DOF.
Hypothesis first_dof_not_negative : 0 <= H1Space.next_dof sp.
Hypothesis lookups_return :
  forall bcs marker, H1Space.essential_bcs sp = Some bcs ->
    exists r, EssentialBCs.get_boundary_condition fuel bcs marker = Some r.

Local Abbreviation assign_edge_node :=
  (H1Space.assign_edge_node H2D_UNASSIGNED_DOF H2D_CONSTRAINED_DOF get_user_marker
     get_edge_order_internal fuel).
Local Abbreviation edge_inv :=
  (edge_pass_inv H2D_UNASSIGNED_DOF H2D_CONSTRAINED_DOF sp).
Local Abbreviation visit_as_claimed :=
  (edge_visit_as_claimed H2D_UNASSIGNED_DOF H2D_CONSTRAINED_DOF fuel get_user_marker
     get_edge_order_internal).
Local Abbreviation order_fits en := (1 <= get_edge_order_internal en).
Local Abbreviation budget := (edge_budget get_edge_order_internal).
Local Abbreviation nd0 := (H1Space.ndata sp).
Local Abbreviation next0 := (H1Space.next_dof sp).

(** The body of the loop on a node that is still unassigned, while the
    counters stay inside [int]: it returns, and writes one of three
    things. *)
Lemma assign_edge_node_writes (s : H1Space.t) (en : Node.t) :
  H1Space.essential_bcs s = H1Space.essential_bcs sp ->
  NodeData.dof (H1Space.ndata s (Node.id en)) = H2D_UNASSIGNED_DOF ->
  order_fits en ->
  0 <= H1Space.edge_functions_count s <= H1Space.next_dof s ->
  H1Space.next_dof s + (get_edge_order_internal en - 1) <= INT_MAX ->
  exists s' d n,
    assign_edge_node s en = Some s' /\
    H1Space.essential_bcs s' = H1Space.essential_bcs s /\
    (forall k, H1Space.ndata s' k
               = if Nat.eqb k (Node.id en)
                 then numbered_edge (H1Space.ndata s (Node.id en)) d n
                 else H1Space.ndata s k) /\
    (edge_unconstrained en = false /\ d = H2D_UNASSIGNED_DOF /\ n = -1 /\
     H1Space.next_dof s' = H1Space.next_dof s /\
     H1Space.edge_functions_count s' = H1Space.edge_functions_count s
     \/
     edge_unconstrained en = true /\ on_essential_marker fuel get_user_marker s en /\
     d = H2D_CONSTRAINED_DOF /\ n = get_edge_order_internal en - 1 /\
     H1Space.next_dof s' = H1Space.next_dof s /\
     H1Space.edge_functions_count s' = H1Space.edge_functions_count s
     \/
     edge_unconstrained en = true /\ off_essential_marker fuel get_user_marker s en /\
     d = H1Space.next_dof s /\ n = get_edge_order_internal en - 1 /\
     H1Space.next_dof s' = H1Space.next_dof s + n /\
     H1Space.edge_functions_count s' = H1Space.edge_functions_count s + n).
Proof.
  intros Hbcs HU Hord Hcount Hfit.
  unfold H1Space.assign_edge_node. cbv zeta. rewrite HU, Z.eqb_refl.
  fold (edge_unconstrained en).
  assert (Hsub : int_sub (get_edge_order_internal en) 1 = get_edge_order_internal en - 1).
  { unfold int_sub. apply int_wrap_small. unfold INT_MAX in *. lia. }
  rewrite Hsub.
  assert (Hset : forall d n k,
            H1Space.set_dof (H1Space.set_n (H1Space.ndata s) (Node.id en) n) (Node.id en) d k
            = if Nat.eqb k (Node.id en)
              then numbered_edge (H1Space.ndata s (Node.id en)) d n
              else H1Space.ndata s k).
  { intros d n k. unfold H1Space.set_dof, H1Space.set_n.
    destruct (Nat.eqb_spec k (Node.id en)) as [->|Hne]; [|reflexivity].
    rewrite Nat.eqb_refl. reflexivity. }
  (* the three places that take DOFs *)
  assert (Htake : forall ebcs, ebcs = H1Space.essential_bcs s ->
    off_essential_marker fuel get_user_marker s en ->
    edge_unconstrained en = true ->
    exists s' d n,
      Some (H1Space.take_dofs
              {| H1Space.ndata := H1Space.set_n (H1Space.ndata s) (Node.id en)
                                    (get_edge_order_internal en - 1);
                 H1Space.next_dof := H1Space.next_dof s;
                 H1Space.edge_functions_count := H1Space.edge_functions_count s;
                 H1Space.essential_bcs := ebcs |}
              (Node.id en) (get_edge_order_internal en - 1)) = Some s' /\
      H1Space.essential_bcs s' = H1Space.essential_bcs s /\
      (forall k, H1Space.ndata s' k
                 = if Nat.eqb k (Node.id en)
                   then numbered_edge (H1Space.ndata s (Node.id en)) d n
                   else H1Space.ndata s k) /\
      (edge_unconstrained en = false /\ d = H2D_UNASSIGNED_DOF /\ n = -1 /\
       H1Space.next_dof s' = H1Space.next_dof s /\
       H1Space.edge_functions_count s' = H1Space.edge_functions_count s
       \/
       edge_unconstrained en = true /\ on_essential_marker fuel get_user_marker s en /\
       d = H2D_CONSTRAINED_DOF /\ n = get_edge_order_internal en - 1 /\
       H1Space.next_dof s' = H1Space.next_dof s /\
       H1Space.edge_functions_count s' = H1Space.edge_functions_count s
       \/
       edge_unconstrained en = true /\ off_essential_marker fuel get_user_marker s en /\
       d = H1Space.next_dof s /\ n = get_edge_order_internal en - 1 /\
       H1Space.next_dof s' = H1Space.next_dof s + n /\
       H1Space.edge_functions_count s' = H1Space.edge_functions_count s + n)).
  { intros ebcs -> Hoff Hfree. eexists _, _, _. split; [reflexivity|].
    cbn [H1Space.take_dofs H1Space.ndata H1Space.next_dof H1Space.edge_functions_count
           H1Space.essential_bcs].
    split; [reflexivity|]. split; [apply Hset|]. right. right.
    unfold int_add. rewrite !int_wrap_small by (unfold INT_MAX in *; lia). auto 10. }
  destruct (edge_unconstrained en) eqn:Hfree.
  - destruct (Node.bnd en) eqn:Hbnd;
      [|apply Htake; [reflexivity|now left|reflexivity]].
    destruct (H1Space.essential_bcs s) as [bcs|] eqn:Hs;
      [|apply Htake; [reflexivity|right; now left|reflexivity]].
    destruct (lookups_return bcs (get_user_marker (Node.marker en))) as [r Hr];
      [now rewrite <- Hbcs|].
    rewrite Hr. destruct r as [bc|];
      [|apply Htake; [reflexivity|right; right; eauto|reflexivity]].
    eexists _, _, _. split; [reflexivity|].
    cbn [H1Space.mark_constrained_dof H1Space.ndata H1Space.next_dof
           H1Space.edge_functions_count H1Space.essential_bcs].
    split; [reflexivity|]. split; [apply Hset|]. right. left.
    split; [reflexivity|]. split; [|auto].
    split; [exact Hbnd|]. eauto.
  - exists {| H1Space.ndata := H1Space.set_n (H1Space.ndata s) (Node.id en) (-1);
              H1Space.next_dof := H1Space.next_dof s;
              H1Space.edge_functions_count := H1Space.edge_functions_count s;
              H1Space.essential_bcs := H1Space.essential_bcs s |},
      H2D_UNASSIGNED_DOF, (-1).
    split; [reflexivity|]. cbn [H1Space.ndata H1Space.next_dof
      H1Space.edge_functions_count H1Space.essential_bcs].
    split; [reflexivity|]. split; [|left; auto].
    intros k. unfold H1Space.set_n, numbered_edge. rewrite HU.
    destruct (Nat.eqb_spec k (Node.id en)) as [->|Hne]; reflexivity.
Qed.

(** An unassigned node has what it had at the start, but for [dof] and
    [n], and was unassigned at the start. *)
Lemma edge_inv_unassigned (s : H1Space.t) (id : nat) :
  edge_inv s -> NodeData.dof (H1Space.ndata s id) = H2D_UNASSIGNED_DOF ->
  NodeData.dof (nd0 id) = H2D_UNASSIGNED_DOF /\
  forall d n, numbered_edge (H1Space.ndata s id) d n = numbered_edge (nd0 id) d n.
Proof.
  intros (_ & _ & _ & Hform & _) Hd.
  destruct (Hform id) as [H|(H0 & d & n & Heq & _)].
  - rewrite H in Hd |- *. auto.
  - split; [exact H0|]. intros d' n'. rewrite Heq. reflexivity.
Qed.

(** A node of a run lies in the part of the numbers handed out. *)
Lemma edge_inv_run (s : H1Space.t) (id : nat) :
  edge_inv s -> NodeData.dof (nd0 id) = H2D_UNASSIGNED_DOF ->
  next0 <= NodeData.dof (H1Space.ndata s id) ->
  0 <= NodeData.n (H1Space.ndata s id) /\
  NodeData.dof (H1Space.ndata s id) + NodeData.n (H1Space.ndata s id)
  <= H1Space.next_dof s.
Proof.
  intros (_ & _ & _ & Hform & _) H0 Hge.
  destruct (Hform id) as [H|(_ & d & n & Heq & Hcases)].
  - rewrite H, H0 in Hge. lia.
  - rewrite Heq in Hge |- *. cbn in Hge |- *. lia.
Qed.

(** One visit keeps the invariant, does what the claim says, leaves the
    numbered nodes alone and numbers the node if it is unconstrained. *)
Lemma edge_inv_step (s : H1Space.t) (en : Node.t) :
  edge_inv s -> order_fits en ->
  H1Space.next_dof s + (get_edge_order_internal en - 1) <= INT_MAX ->
  exists s',
    assign_edge_node s en = Some s' /\ edge_inv s' /\
    visit_as_claimed s en s' /\
    H1Space.next_dof s <= H1Space.next_dof s'
      <= H1Space.next_dof s + (get_edge_order_internal en - 1) /\
    (forall id, NodeData.dof (H1Space.ndata s id) <> H2D_UNASSIGNED_DOF ->
                H1Space.ndata s' id = H1Space.ndata s id) /\
    (edge_unconstrained en = true ->
     NodeData.dof (H1Space.ndata s' (Node.id en)) <> H2D_UNASSIGNED_DOF).
Proof.
  intros Hinv Hord Hfit.
  destruct (Z.eq_dec (NodeData.dof (H1Space.ndata s (Node.id en))) H2D_UNASSIGNED_DOF)
    as [HU|HU].
  2:{ exists s. unfold H1Space.assign_edge_node. cbv zeta.
      rewrite (proj2 (Z.eqb_neq _ _) HU).
      split; [reflexivity|]. split; [exact Hinv|]. split.
      { split; [reflexivity|]. split; [reflexivity|]. intros; contradiction. }
      split; [lia|]. auto. }
  pose proof (edge_inv_unassigned s (Node.id en) Hinv HU) as [HU0 Hsame].
  pose proof (fun id H1 H2 => edge_inv_run s id Hinv H1 H2) as Hrun.
  destruct Hinv as (Hnext & Hcount & Hbcs & Hform & Hdisj).
  destruct (assign_edge_node_writes s en Hbcs HU Hord ltac:(lia) Hfit)
    as (s' & d & n & Hs' & Hb' & Hnd & Hcases).
  assert (Hself : H1Space.ndata s' (Node.id en) = numbered_edge (nd0 (Node.id en)) d n).
  { rewrite Hnd, Nat.eqb_refl. apply Hsame. }
  assert (Hother : forall k, k <> Node.id en -> H1Space.ndata s' k = H1Space.ndata s k).
  { intros k Hk. rewrite Hnd. destruct (Nat.eqb_spec k (Node.id en)); [contradiction|reflexivity]. }
  assert (Hgrow : H1Space.next_dof s <= H1Space.next_dof s'
                  <= H1Space.next_dof s + (get_edge_order_internal en - 1)) by lia.
  exists s'. split; [exact Hs'|]. split; [|split; [|split; [exact Hgrow|split]]].
  - split; [lia|]. split; [lia|]. split; [congruence|]. split.
    + intros id. destruct (Nat.eq_dec id (Node.id en)) as [->|Hne].
      * right. split; [exact HU0|]. exists d, n. split; [exact Hself|]. lia.
      * rewrite (Hother id Hne).
        destruct (Hform id) as [H|(H0 & d2 & n2 & Heq & Hc)]; [now left|].
        right. split; [exact H0|]. exists d2, n2. split; [exact Heq|]. lia.
    + intros id1 id2 x H1 H2 G1 G2 R1 R2.
      destruct (Nat.eq_dec id1 (Node.id en)) as [E1|N1];
        destruct (Nat.eq_dec id2 (Node.id en)) as [E2|N2]; [congruence| | |].
      * subst id1. rewrite (Hother id2 N2) in G2, R2. rewrite Hself in G1, R1.
        cbn in G1, R1. pose proof (Hrun id2 H2 G2). lia.
      * subst id2. rewrite (Hother id1 N1) in G1, R1. rewrite Hself in G2, R2.
        cbn in G2, R2. pose proof (Hrun id1 H1 G1). lia.
      * rewrite (Hother id1 N1) in G1, R1. rewrite (Hother id2 N2) in G2, R2.
        exact (Hdisj id1 id2 x H1 H2 G1 G2 R1 R2).
  - split; [exact Hother|]. split; [intros; contradiction|]. intros _.
    rewrite Hself. cbn [numbered_edge NodeData.dof NodeData.n].
    destruct Hcases as [(Hf & -> & -> & Hn' & Hc')|[(Hf & Hon & -> & -> & Hn' & Hc')
                                                   |(Hf & Hoff & -> & -> & Hn' & Hc')]].
    + split; [intros; congruence|]. split; [intros; congruence|]. auto.
    + split; [auto|]. split; [|intros; congruence].
      intros _ Hoff. destruct (on_off_essential_marker _ _ _ _ Hon Hoff).
    + split; [|split; [auto|intros; congruence]].
      intros _ Hon. destruct (on_off_essential_marker _ _ _ _ Hon Hoff).
  - intros id Hid. apply Hother. congruence.
  - intros Hfree. rewrite Hself. cbn. rewrite Hfree in Hcases.
    destruct Hcases as [(Hf & _)|[(_ & _ & -> & _)|(_ & _ & -> & _)]];
      [discriminate|exact sentinels_differ|lia].
Qed.

Lemma edge_budget_cons en l : budget (en :: l) = (get_edge_order_internal en - 1) + budget l.
Proof. reflexivity. Qed.

Lemma edge_budget_nonneg l : Forall (fun en => order_fits en) l -> 0 <= budget l.
Proof.
  intros H. apply sumZ_nonneg, Forall_fmap. eapply Forall_impl; [exact H|].
  cbn. intros; lia.
Qed.

Lemma edge_loop : forall (l : list Node.t) (s : H1Space.t),
  edge_inv s -> Forall (fun en => order_fits en) l ->
  H1Space.next_dof s + budget l <= INT_MAX ->
  exists s',
    foldlM assign_edge_node s l = Some s' /\ edge_inv s' /\
    H1Space.next_dof s <= H1Space.next_dof s' <= H1Space.next_dof s + budget l /\
    (forall id, NodeData.dof (H1Space.ndata s id) <> H2D_UNASSIGNED_DOF ->
                H1Space.ndata s' id = H1Space.ndata s id) /\
    (forall en, en ∈ l -> edge_unconstrained en = true ->
                NodeData.dof (H1Space.ndata s' (Node.id en)) <> H2D_UNASSIGNED_DOF).
Proof.
  induction l as [|en l IH]; intros s Hinv Hord Hfit.
  - exists s. split; [reflexivity|]. split; [exact Hinv|]. split; [cbn; lia|].
    split; [reflexivity|]. intros en H. inversion H.
  - apply Forall_cons in Hord as [Hen Hord]. rewrite edge_budget_cons in Hfit.
    pose proof (edge_budget_nonneg l Hord) as Hl.
    destruct (edge_inv_step s en Hinv Hen ltac:(lia))
      as (s1 & Hs1 & Hinv1 & _ & Hgrow1 & Hkeep1 & Hset1).
    destruct (IH s1 Hinv1 Hord ltac:(lia)) as (s' & Hs' & Hinv' & Hgrow' & Hkeep' & Hdone).
    exists s'. cbn [foldlM]. rewrite Hs1. split; [exact Hs'|]. split; [exact Hinv'|].
    split; [rewrite edge_budget_cons; lia|]. split.
    + intros id Hid. rewrite Hkeep'; [now apply Hkeep1|]. rewrite Hkeep1; exact Hid.
    + intros v Hv Hfree. apply elem_of_cons in Hv as [->|Hv]; [|now apply Hdone].
      rewrite Hkeep'; now apply Hset1.
Qed.

(** The pass, cut at one visit. *)
Lemma edge_loop_split (before after : list Node.t) (en : Node.t) (s : H1Space.t) :
  edge_inv s -> Forall (fun en => order_fits en) (before ++ en :: after) ->
  H1Space.next_dof s + budget (before ++ en :: after) <= INT_MAX ->
  exists s1 s2 s',
    foldlM assign_edge_node s before = Some s1 /\
    assign_edge_node s1 en = Some s2 /\
    foldlM assign_edge_node s2 after = Some s' /\
    foldlM assign_edge_node s (before ++ en :: after) = Some s' /\
    edge_inv s1 /\ edge_inv s' /\
    visit_as_claimed s1 en s2 /\
    (NodeData.dof (H1Space.ndata s2 (Node.id en)) <> H2D_UNASSIGNED_DOF ->
     H1Space.ndata s' (Node.id en) = H1Space.ndata s2 (Node.id en)).
Proof.
  intros Hinv Hord Hfit.
  apply Forall_app in Hord as [Hb Hrest]. apply Forall_cons in Hrest as [Hen Ha].
  unfold edge_budget in Hfit. rewrite fmap_app, sumZ_app in Hfit.
  change (sumZ ((fun en => get_edge_order_internal en - 1) <$> before))
    with (budget before) in Hfit.
  change (sumZ ((fun en => get_edge_order_internal en - 1) <$> en :: after))
    with (budget (en :: after)) in Hfit.
  rewrite edge_budget_cons in Hfit.
  pose proof (edge_budget_nonneg before Hb) as Hnb.
  pose proof (edge_budget_nonneg after Ha) as Hna.
  destruct (edge_loop before s Hinv Hb ltac:(lia)) as (s1 & Hs1 & Hinv1 & Hg1 & _).
  destruct (edge_inv_step s1 en Hinv1 Hen ltac:(lia))
    as (s2 & Hs2 & Hinv2 & Hvisit & Hg2 & _).
  destruct (edge_loop after s2 Hinv2 Ha ltac:(lia)) as (s' & Hs' & Hinv' & _ & Hkeep & _).
  exists s1, s2, s'. split; [exact Hs1|]. split; [exact Hs2|]. split; [exact Hs'|].
  split; [rewrite foldlM_app, Hs1; cbn [foldlM]; rewrite Hs2; exact Hs'|].
  split; [exact Hinv1|]. split; [exact Hinv'|]. split; [exact Hvisit|]. apply Hkeep.
Qed.

Lemma edge_pass_loop : forall (active_elements : list Element.t) (s : H1Space.t),
  Forall (fun e => (Element.nvert e <= length (Element.vn e))%nat /\
                   (Element.nvert e <= length (Element.en e))%nat) active_elements ->
  foldlM (H1Space.assign_element_edges H2D_UNASSIGNED_DOF H2D_CONSTRAINED_DOF
            get_user_marker get_edge_order_internal get_element_order fuel)
    s active_elements
  = foldlM assign_edge_node s (visited_edges get_element_order active_elements).
Proof.
  induction active_elements as [|e l IH]; intros s Hwf; [reflexivity|].
  apply Forall_cons in Hwf as [[Hvn Hen] Hl].
  cbn [foldlM]. unfold H1Space.assign_element_edges at 1.
  unfold visited_edges. cbn [mbind list_bind]. fold (visited_edges get_element_order l).
  rewrite foldlM_app.
  destruct (get_element_order (Element.id e) >? 0).
  - rewrite (foldlM_edges assign_edge_node (Element.vn e) (Element.en e)
               (Element.nvert e) 0 s) by lia.
    rewrite drop_0.
    destruct (foldlM assign_edge_node s (take (Element.nvert e) (Element.en e)));
      [apply IH, Hl|reflexivity].
  - cbn [foldlM]. apply IH, Hl.
Qed.

(** The state in which [assign_edge_dofs] enters its loop is in the
    invariant. *)
Lemma edge_inv_start :
  edge_inv {| H1Space.ndata := H1Space.ndata sp; H1Space.next_dof := H1Space.next_dof sp;
              H1Space.edge_functions_count := 0;
              H1Space.essential_bcs := H1Space.essential_bcs sp |}.
Proof.
  split; [cbn; lia|]. split; [cbn; lia|]. split; [reflexivity|].
  split; [intros id; now left|].
  cbn. intros id1 id2 d H1 _ Hge _ _ _. rewrite H1 in Hge. lia.
Qed.

(** C4.  Over elements that have their nodes, with negative sentinels, a
    first free DOF that is not negative, every lookup of a boundary
    condition returning, every edge order at least 1 and the DOFs asked
    for fitting below [INT_MAX], [assign_edge_dofs] returns, and it is the
    chain of the visits of the edges of the active elements of order at
    least 1, in order.  At each visit, with [s1] the state before it:
    - a node that is numbered already is passed over;
    - an unassigned unconstrained node on a marker with an essential
      condition gets the constrained sentinel and [n = edge order - 1],
      and [next_dof] stays;
    - any other unassigned unconstrained node gets [next_dof] as its first
      DOF and [n = edge order - 1], and [next_dof] and
      [edge_functions_count] advance by [n]; these DOFs are new: every run
      that the pass handed out before ends at or below [next_dof];
    - an unassigned constrained node stays unassigned with [n = -1], and
      [next_dof] stays;
    - no other node changes, and a node that has a DOF after its visit has
      the same data when the pass ends. *)
Theorem assign_edge_dofs_edge_by_edge (active_elements : list Element.t) :
  Forall (fun e => (Element.nvert e <= length (Element.vn e))%nat /\
                   (Element.nvert e <= length (Element.en e))%nat) active_elements ->
  Forall (fun en => 1 <= get_edge_order_internal en)
    (visited_edges get_element_order active_elements) ->
  H1Space.next_dof sp
  + edge_budget get_edge_order_internal (visited_edges get_element_order active_elements)
  <= INT_MAX ->
  exists s',
    H1Space.assign_edge_dofs H2D_UNASSIGNED_DOF H2D_CONSTRAINED_DOF get_user_marker
      get_edge_order_internal get_element_order fuel sp active_elements = Some s' /\
    forall before en after,
      visited_edges get_element_order active_elements = before ++ en :: after ->
      exists s1 s2,
        foldlM assign_edge_node
          {| H1Space.ndata := H1Space.ndata sp; H1Space.next_dof := H1Space.next_dof sp;
             H1Space.edge_functions_count := 0;
             H1Space.essential_bcs := H1Space.essential_bcs sp |} before = Some s1 /\
        assign_edge_node s1 en = Some s2 /\
        foldlM assign_edge_node s2 after = Some s' /\
        edge_visit_as_claimed H2D_UNASSIGNED_DOF H2D_CONSTRAINED_DOF fuel get_user_marker
          get_edge_order_internal s1 en s2 /\
        (forall id, NodeData.dof (nd0 id) = H2D_UNASSIGNED_DOF ->
           next0 <= NodeData.dof (H1Space.ndata s1 id) ->
           NodeData.dof (H1Space.ndata s1 id) + NodeData.n (H1Space.ndata s1 id)
           <= H1Space.next_dof s1) /\
        (NodeData.dof (H1Space.ndata s2 (Node.id en)) <> H2D_UNASSIGNED_DOF ->
         H1Space.ndata s' (Node.id en) = H1Space.ndata s2 (Node.id en)).
Proof.
  intros Hwf Hord Hfit. unfold H1Space.assign_edge_dofs.
  rewrite edge_pass_loop by exact Hwf.
  destruct (edge_loop _ _ edge_inv_start Hord Hfit) as (s' & Hs' & _).
  exists s'. split; [exact Hs'|].
  intros before en after Hsplit. rewrite Hsplit in Hord, Hfit, Hs'.
  destruct (edge_loop_split before after en _ edge_inv_start Hord Hfit)
    as (s1 & s2 & s'' & H1 & H2 & H3 & Hall & Hinv1 & _ & Hvisit & Hkeep).
  assert (s'' = s') by congruence. subst s''.
  exists s1, s2. split; [exact H1|]. split; [exact H2|]. split; [exact H3|].
  split; [exact Hvisit|]. split; [|exact Hkeep].
  intros id H0 Hge. apply (edge_inv_run s1 id Hinv1 H0 Hge).
Qed.

(** X23 (edge DOFs).  Under the same conditions, when [assign_edge_dofs]
    returns, [next_dof] has advanced by [edge_functions_count] and is
    still an [int]; a node that had a DOF keeps all its data; a node that
    was unassigned is left alone, or is a constrained edge ([n = -1],
    still unassigned), or has the constrained sentinel, or has a run of
    [n] DOFs inside the numbers that the pass handed out; no DOF lies in
    the runs of two nodes; and no unconstrained edge that the pass visited
    is left unassigned. *)
Theorem assign_edge_dofs_runs_are_disjoint (active_elements : list Element.t) :
  Forall (fun e => (Element.nvert e <= length (Element.vn e))%nat /\
                   (Element.nvert e <= length (Element.en e))%nat) active_elements ->
  Forall (fun en => 1 <= get_edge_order_internal en)
    (visited_edges get_element_order active_elements) ->
  H1Space.next_dof sp
  + edge_budget get_edge_order_internal (visited_edges get_element_order active_elements)
  <= INT_MAX ->
  exists s',
    H1Space.assign_edge_dofs H2D_UNASSIGNED_DOF H2D_CONSTRAINED_DOF get_user_marker
      get_edge_order_internal get_element_order fuel sp active_elements = Some s' /\
    H1Space.next_dof s' = next0 + H1Space.edge_functions_count s' /\
    0 <= H1Space.edge_functions_count s' /\
    H1Space.next_dof s' <= INT_MAX /\
    (forall id, NodeData.dof (nd0 id) <> H2D_UNASSIGNED_DOF ->
                H1Space.ndata s' id = nd0 id) /\
    (forall id, NodeData.dof (nd0 id) = H2D_UNASSIGNED_DOF ->
       H1Space.ndata s' id = nd0 id \/
       exists d n, H1Space.ndata s' id = numbered_edge (nd0 id) d n /\
                   (d = H2D_UNASSIGNED_DOF /\ n = -1 \/
                    d = H2D_CONSTRAINED_DOF /\ 0 <= n \/
                    next0 <= d /\ 0 <= n /\ d + n <= H1Space.next_dof s')) /\
    (forall id1 id2 d,
       NodeData.dof (nd0 id1) = H2D_UNASSIGNED_DOF ->
       NodeData.dof (nd0 id2) = H2D_UNASSIGNED_DOF ->
       next0 <= NodeData.dof (H1Space.ndata s' id1) ->
       next0 <= NodeData.dof (H1Space.ndata s' id2) ->
       NodeData.dof (H1Space.ndata s' id1) <= d
         < NodeData.dof (H1Space.ndata s' id1) + NodeData.n (H1Space.ndata s' id1) ->
       NodeData.dof (H1Space.ndata s' id2) <= d
         < NodeData.dof (H1Space.ndata s' id2) + NodeData.n (H1Space.ndata s' id2) ->
       id1 = id2) /\
    (forall en, en ∈ visited_edges get_element_order active_elements ->
       edge_unconstrained en = true ->
       NodeData.dof (H1Space.ndata s' (Node.id en)) <> H2D_UNASSIGNED_DOF).
Proof.
  intros Hwf Hord Hfit. unfold H1Space.assign_edge_dofs.
  rewrite edge_pass_loop by exact Hwf.
  destruct (edge_loop _ _ edge_inv_start Hord Hfit)
    as (s' & Hs' & (Hnext & Hcount & _ & Hform & Hdisj) & Hgrow & Hkeep & Hdone).
  cbn [H1Space.next_dof H1Space.ndata] in Hgrow, Hkeep.
  exists s'. split; [exact Hs'|]. split; [exact Hnext|]. split; [exact Hcount|].
  split; [lia|]. split; [|split; [|split]].
  - intros id Hid. now apply Hkeep.
  - intros id Hid. destruct (Hform id) as [H|(_ & d & n & Heq & Hc)]; [now left|right].
    exists d, n. auto.
  - exact Hdisj.
  - exact Hdone.
Qed.

End EdgePass.

(** The pass on one triangle: edge 3 is shared with a neighbour and takes
    the DOFs 10 and 11, edge 4 is constrained, edge 5 lies on the marker
    "wall" with its essential condition. *)
Lemma assign_edge_dofs_edge_by_edge_witness :
  (exists s',
     H1Space.assign_edge_dofs (-2) (-1) user_marker_demo (fun _ => 3) (fun _ => 1) 5
       vertex_space_demo [triangle_demo] = Some s' /\
     forall before en after,
       visited_edges (fun _ => 1) [triangle_demo] = before ++ en :: after ->
       exists s1 s2,
         foldlM (H1Space.assign_edge_node (-2) (-1) user_marker_demo (fun _ => 3) 5)
           {| H1Space.ndata := H1Space.ndata vertex_space_demo;
              H1Space.next_dof := H1Space.next_dof vertex_space_demo;
              H1Space.edge_functions_count := 0;
              H1Space.essential_bcs := H1Space.essential_bcs vertex_space_demo |}
           before = Some s1 /\
         H1Space.assign_edge_node (-2) (-1) user_marker_demo (fun _ => 3) 5 s1 en = Some s2 /\
         foldlM (H1Space.assign_edge_node (-2) (-1) user_marker_demo (fun _ => 3) 5)
           s2 after = Some s' /\
         edge_visit_as_claimed (-2) (-1) 5 user_marker_demo (fun _ => 3) s1 en s2 /\
         (forall id, NodeData.dof (H1Space.ndata vertex_space_demo id) = -2 ->
            H1Space.next_dof vertex_space_demo <= NodeData.dof (H1Space.ndata s1 id) ->
            NodeData.dof (H1Space.ndata s1 id) + NodeData.n (H1Space.ndata s1 id)
            <= H1Space.next_dof s1) /\
         (NodeData.dof (H1Space.ndata s2 (Node.id en)) <> -2 ->
          H1Space.ndata s' (Node.id en) = H1Space.ndata s2 (Node.id en))) /\
  match H1Space.assign_edge_dofs (-2) (-1) user_marker_demo (fun _ => 3) (fun _ => 1) 5
          vertex_space_demo [triangle_demo] with
  | Some s' =>
      map (fun id => (NodeData.dof (H1Space.ndata s' id), NodeData.n (H1Space.ndata s' id)))
        [3%nat; 4%nat; 5%nat] = [(10, 2); (-2, -1); (-1, 2)] /\
      H1Space.next_dof s' = 12 /\ H1Space.edge_functions_count s' = 2
  | None => False
  end.
Proof.
  assert (H1 : -2 < 0) by lia.
  assert (H2 : -1 < 0) by lia.
  assert (H3 : -1 <> -2) by lia.
  assert (H4 : 0 <= H1Space.next_dof vertex_space_demo) by (cbn; lia).
  assert (H5 : forall bcs marker,
             H1Space.essential_bcs vertex_space_demo = Some bcs ->
             exists r, EssentialBCs.get_boundary_condition 5 bcs marker = Some r).
  { intros bcs marker [= <-].
    assert (E : EssentialBCs.scan_markers 5 (EssentialBCs.markers bcs_demo) marker 0
                = if String.eqb "wall" marker then Some (Some 0%nat) else Some None)
      by reflexivity.
    unfold EssentialBCs.get_boundary_condition.
    change (EssentialBCs.HermesAnyBC bcs_demo) with (@None EssentialBoundaryCondition.t).
    cbv iota. rewrite E. destruct (String.eqb "wall" marker); eauto. }
  assert (H6 : Forall (fun e => (Element.nvert e <= length (Element.vn e))%nat /\
                                (Element.nvert e <= length (Element.en e))%nat)
                 [triangle_demo]).
  { apply Forall_singleton. cbn. lia. }
  assert (H7 : Forall (fun en : Node.t => 1 <= (fun _ : Node.t => 3) en)
                 (visited_edges (fun _ => 1) [triangle_demo])).
  { apply Forall_forall. intros; lia. }
  assert (H8 : H1Space.next_dof vertex_space_demo
               + edge_budget (fun _ => 3) (visited_edges (fun _ => 1) [triangle_demo])
               <= INT_MAX) by (vm_compute; discriminate).
  split.
  - exact (assign_edge_dofs_edge_by_edge (-2) (-1) user_marker_demo (fun _ => 3)
             (fun _ => 1) 5 vertex_space_demo H1 H2 H3 H4 H5 [triangle_demo] H6 H7 H8).
  - vm_compute. repeat split.
Defined.

(** *** Zero coefficients in baselists *)

(** C7, as the claim words it, fails: the endpoint on an essential
    boundary with boundary value 0 enters the merge with coefficient 0, and
    its half is stored as the first entry of the hanging vertex's
    baselist. *)
Lemma zero_coefficient_is_stored :
  exists stored,
    H1Space.mid_vertex_baselist ndata_hanging vn0_hanging vn1_hanging en_hanging
      edge_value_hanging = Some stored /\
    snd stored = 3 /\
    stores_zero stored.
Proof.
  eexists. split; [vm_compute; reflexivity|]. split; [reflexivity|].
  exists 0, (BaseComponent.mk (-1) (half 0)).
  split; [simpl; lia|]. split; [vm_compute; reflexivity|]. reflexivity.
Qed.

Lemma nonzero_true x : H1Space.nonzero x = true <-> ~ (x == 0)%Q.
Proof.
  unfold H1Space.nonzero. rewrite negb_true_iff. split.
  - intros H Hx. apply Qeq_bool_iff in Hx. congruence.
  - intros H. destruct (Qeq_bool x 0) eqn:E; [|reflexivity].
    apply Qeq_bool_iff in E. contradiction.
Qed.

Lemma triplet_of_nonzero index c t :
  triplet_of index c = Some t ->
  ~ (H1Space.t_coef t == 0)%Q /\ H1Space.t_idx t = index /\
  H1Space.t_dof t = BaseComponent.dof c /\ H1Space.t_coef t = BaseComponent.coef c.
Proof.
  unfold triplet_of. destruct (H1Space.nonzero (BaseComponent.coef c)) eqn:E; [|discriminate].
  intros [= <-]. simpl. apply nonzero_true in E. auto.
Qed.

Lemma traverse_baselist (bl : gmap Z BaseComponent.t) index : forall (ps : list Z) al,
  (forall p, p ∈ ps -> is_Some (bl !! p)) ->
  foldlM (fun al j =>
            match bl !! j with
            | Some c =>
                if H1Space.nonzero (BaseComponent.coef c)
                then Some (al ++ [H1Space.mk_triplet index (BaseComponent.dof c)
                                    (BaseComponent.coef c)])
                else Some al
            | None => None
            end) al ps
  = Some (al ++ omap (fun p => bl !! p ≫= triplet_of index) ps).
Proof.
  induction ps as [|p ps IH]; intros al Hin.
  - simpl. now rewrite app_nil_r.
  - cbn [foldlM omap list_omap]. destruct (Hin p) as [c Hc]; [left|]. rewrite Hc.
    cbn [mbind option_bind]. unfold triplet_of at 1.
    destruct (H1Space.nonzero (BaseComponent.coef c)).
    + rewrite IH by (intros q Hq; apply Hin; now right).
      now rewrite <- app_assoc.
    + apply IH. intros q Hq. apply Hin. now right.
Qed.

(** C7, as the code has it.  Zero coefficients may sit in a stored
    baselist; they are dropped when the list is traversed: for a
    constrained vertex whose [ncomponents] slots are all written,
    [get_vertex_assembly_list] returns, adds the stored entries with a
    non-zero coefficient in order, and so adds no triplet with coefficient
    zero. *)
Theorem vertex_assembly_list_skips_zero (ndata : nat -> NodeData.t) (vn : Node.t)
    (index : Z) (al : list H1Space.triplet) :
  Node.is_constrained_vertex vn = true ->
  (forall p, 0 <= p < NodeData.ncomponents (ndata (Node.id vn)) ->
             is_Some (NodeData.baselist (ndata (Node.id vn)) !! p)) ->
  exists added,
    H1Space.get_vertex_assembly_list ndata vn index al = Some (al ++ added) /\
    added = omap (fun p => NodeData.baselist (ndata (Node.id vn)) !! p ≫= triplet_of index)
                 (seqZ 0 (NodeData.ncomponents (ndata (Node.id vn)))) /\
    Forall (fun t => ~ (H1Space.t_coef t == 0)%Q) added.
Proof.
  intros Hc Hall. eexists. split; [|split; [reflexivity|]].
  - unfold H1Space.get_vertex_assembly_list. rewrite Hc. cbn [negb].
    apply traverse_baselist. intros p Hp. apply elem_of_seqZ in Hp. apply Hall. lia.
  - apply Forall_forall. intros t Ht.
    apply list_elem_of_omap in Ht as (p & _ & Hp).
    destruct (NodeData.baselist (ndata (Node.id vn)) !! p) as [c|]; [|discriminate].
    simpl in Hp. now apply triplet_of_nonzero in Hp.
Qed.

Lemma vertex_assembly_list_skips_zero_witness :
  Node.is_constrained_vertex mid_hanging = true /\
  (forall p, 0 <= p < NodeData.ncomponents (ndata_hanging_resolved (Node.id mid_hanging)) ->
             is_Some (NodeData.baselist (ndata_hanging_resolved (Node.id mid_hanging)) !! p)) /\
  exists added,
    H1Space.get_vertex_assembly_list ndata_hanging_resolved mid_hanging 0 [] = Some ([] ++ added) /\
    added = omap (fun p => NodeData.baselist (ndata_hanging_resolved (Node.id mid_hanging)) !! p
                           ≫= triplet_of 0)
                 (seqZ 0 (NodeData.ncomponents (ndata_hanging_resolved (Node.id mid_hanging)))) /\
    Forall (fun t => ~ (H1Space.t_coef t == 0)%Q) added.
Proof.
  assert (H1 : Node.is_constrained_vertex mid_hanging = true) by reflexivity.
  assert (H2 : forall p,
             0 <= p < NodeData.ncomponents (ndata_hanging_resolved (Node.id mid_hanging)) ->
             is_Some (NodeData.baselist (ndata_hanging_resolved (Node.id mid_hanging)) !! p)).
  { intros p Hp. change (NodeData.ncomponents _) with 3 in Hp.
    assert (Hcases : p = 0 \/ p = 1 \/ p = 2) by lia.
    destruct Hcases as [-> | [-> | ->]]; vm_compute; eauto. }
  split; [exact H1|]. split; [exact H2|].
  exact (vertex_assembly_list_skips_zero ndata_hanging_resolved mid_hanging 0 [] H1 H2).
Defined.

(** On the baselist of the counterexample the traversal keeps the two
    non-zero entries and drops the stored zero. *)
Example vertex_assembly_list_hanging :
  H1Space.get_vertex_assembly_list ndata_hanging_resolved mid_hanging 0 [] =
  Some [H1Space.mk_triplet 0 3 (half 1); H1Space.mk_triplet 0 10 (1 # 4)].
Proof. vm_compute. reflexivity. Qed.

(** *** The block matrix of a weak formulation *)

Lemma block_set_block blocks r' c' r c b :
  WeakForm.block blocks r c = Some b ->
  WeakForm.block (WeakForm.set_block blocks r' c') r c =
  Some (if decide (r = r' /\ c = c') then true else b).
Proof.
  unfold WeakForm.block, WeakForm.set_block. intros H.
  destruct (blocks !! r) as [row|] eqn:Hrow; [|discriminate].
  destruct (decide (r = r')) as [->|Hr].
  - rewrite list_lookup_alter_eq, Hrow. simpl.
    destruct (decide (c = c')) as [->|Hc].
    + rewrite list_lookup_insert_eq by (apply lookup_lt_Some in H; exact H).
      rewrite decide_True by auto. reflexivity.
    + rewrite list_lookup_insert_ne by congruence. rewrite H.
      rewrite decide_False by tauto. reflexivity.
  - rewrite list_lookup_alter_ne by congruence. rewrite Hrow, H.
    rewrite decide_False by tauto. reflexivity.
Qed.

Lemma block_initial neq fdb r c :
  (r < neq)%nat -> (c < neq)%nat ->
  WeakForm.block (WeakForm.initial_blocks neq fdb) r c
  = Some (fdb && bool_decide (r = c)).
Proof.
  intros Hr Hc. unfold WeakForm.block, WeakForm.initial_blocks.
  change (map ?f ?l) with (f <$> l).
  rewrite list_lookup_fmap, lookup_seq_lt by exact Hr. simpl.
  destruct fdb; simpl.
  - destruct (decide (r = c)) as [->|Hne].
    + rewrite list_lookup_insert_eq by (rewrite length_replicate; exact Hc).
      rewrite bool_decide_eq_true_2 by reflexivity. reflexivity.
    + rewrite list_lookup_insert_ne by congruence.
      rewrite lookup_replicate_2 by exact Hc.
      rewrite bool_decide_eq_false_2 by exact Hne. reflexivity.
  - rewrite lookup_replicate_2 by exact Hc. reflexivity.
Qed.


Lemma set_block_square n blocks r c :
  square n blocks -> square n (WeakForm.set_block blocks r c).
Proof.
  intros [Hlen Hrows]. unfold WeakForm.set_block. split.
  - now rewrite length_alter.
  - apply Forall_alter; [exact Hrows|]. intros row _ Hrow. now rewrite length_insert.
Qed.

Lemma initial_blocks_square neq fdb : square neq (WeakForm.initial_blocks neq fdb).
Proof.
  unfold WeakForm.initial_blocks. split.
  - now rewrite length_map, length_seq.
  - apply Forall_forall. intros row Hrow.
    apply list_elem_of_In, in_map_iff in Hrow as (i & <- & _).
    destruct fdb; rewrite ?length_insert; apply length_replicate.
Qed.

Lemma fold_square {F : Type} n (mark : list (list bool) -> F -> list (list bool)) :
  (forall blocks f, square n blocks -> square n (mark blocks f)) ->
  forall (l : list F) blocks, square n blocks -> square n (fold_left mark l blocks).
Proof.
  intros Hmark. induction l as [|f l IH]; intros blocks H; [exact H|].
  simpl. apply IH, Hmark, H.
Qed.

Ltac break_marks :=
  repeat match goal with
  | H : _ /\ _ |- _ => destruct H
  | H : _ \/ _ |- _ => destruct H
  end.

Ltac marks_iff :=
  split; intros; break_marks; subst;
  try discriminate; try contradiction; try congruence; auto 10;
  try (exfalso; match goal with H : ~ _ |- _ => apply H; auto end; fail).

Section BlockFacts.
Variable eps : Q.

Lemma mark_vol_block blocks f r c b :
  WeakForm.block blocks r c = Some b ->
  exists b', WeakForm.block (WeakForm.mark_vol eps blocks f) r c = Some b' /\
             (b' = true <-> b = true \/ vol_marks eps f r c).
Proof.
  intros H. unfold WeakForm.mark_vol, vol_marks.
  destruct (WeakForm.above_threshold eps (MatrixForm.scaling_factor f)) eqn:Ha.
  - destruct (Z.eqb_spec (MatrixForm.sym f) 0) as [Hs|Hs]; cbn [negb].
    + eexists. split; [apply block_set_block; exact H|].
      case_decide; marks_iff.
    + eexists. split.
      { apply block_set_block. apply block_set_block. exact H. }
      repeat case_decide; marks_iff.
  - exists b. destruct (negb (MatrixForm.sym f =? 0)); (split; [exact H|]);
      marks_iff.
Qed.

Lemma mark_surf_block blocks f r c b :
  WeakForm.block blocks r c = Some b ->
  exists b', WeakForm.block (WeakForm.mark_surf eps blocks f) r c = Some b' /\
             (b' = true <-> b = true \/ surf_marks eps f r c).
Proof.
  intros H. unfold WeakForm.mark_surf, surf_marks.
  destruct (WeakForm.above_threshold eps (MatrixForm.scaling_factor f)) eqn:Ha.
  - eexists. split; [apply block_set_block; exact H|].
    case_decide; marks_iff.
  - exists b. split; [exact H|]. marks_iff.
Qed.

Lemma mark_DG_block blocks f r c b :
  WeakForm.block blocks r c = Some b ->
  exists b', WeakForm.block (WeakForm.mark_DG eps blocks f) r c = Some b' /\
             (b' = true <-> b = true \/ DG_marks eps f r c).
Proof.
  intros H. unfold WeakForm.mark_DG, DG_marks.
  destruct (WeakForm.above_threshold eps (MatrixFormDG.scaling_factor f)) eqn:Ha.
  - eexists. split; [apply block_set_block; exact H|].
    case_decide; marks_iff.
  - exists b. split; [exact H|]. marks_iff.
Qed.

Lemma mark_vol_square n blocks f :
  square n blocks -> square n (WeakForm.mark_vol eps blocks f).
Proof.
  intros H. unfold WeakForm.mark_vol.
  destruct (WeakForm.above_threshold eps _), (negb _);
    repeat apply set_block_square; exact H.
Qed.

Lemma mark_surf_square n blocks f :
  square n blocks -> square n (WeakForm.mark_surf eps blocks f).
Proof.
  intros H. unfold WeakForm.mark_surf.
  destruct (WeakForm.above_threshold eps _); [apply set_block_square|]; exact H.
Qed.

Lemma mark_DG_square n blocks f :
  square n blocks -> square n (WeakForm.mark_DG eps blocks f).
Proof.
  intros H. unfold WeakForm.mark_DG.
  destruct (WeakForm.above_threshold eps _); [apply set_block_square|]; exact H.
Qed.

(** A loop over forms, each turn of which can only set entries. *)
Lemma fold_marks {F : Type} (mark : list (list bool) -> F -> list (list bool))
    (marks : F -> nat -> nat -> Prop) (r c : nat) :
  (forall blocks f b, WeakForm.block blocks r c = Some b ->
     exists b', WeakForm.block (mark blocks f) r c = Some b' /\
                (b' = true <-> b = true \/ marks f r c)) ->
  forall (l : list F) blocks b,
    WeakForm.block blocks r c = Some b ->
    exists b', WeakForm.block (fold_left mark l blocks) r c = Some b' /\
               (b' = true <-> b = true \/ exists f, f ∈ l /\ marks f r c).
Proof.
  intros Hstep. induction l as [|f l IH]; intros blocks b H.
  - exists b. split; [exact H|]. split; [auto|].
    intros [Hb|(f & Hf & _)]; [exact Hb|]. inversion Hf.
  - simpl. destruct (Hstep blocks f b H) as (b1 & H1 & Hb1).
    destruct (IH _ _ H1) as (b2 & H2 & Hb2).
    exists b2. split; [exact H2|]. rewrite Hb2, Hb1. split.
    + intros [[Hb|Hm]|(g & Hg & Hm)].
      * now left.
      * right. exists f. split; [left|exact Hm].
      * right. exists g. split; [now right|exact Hm].
    + intros [Hb|(g & Hg & Hm)]; [now left; left|].
      apply elem_of_cons in Hg as [->|Hg]; [left; now right|].
      right. exists g. auto.
Qed.

Lemma get_blocks_entry (wf : WeakForm.t) (fdb : bool) (r c : nat) :
  (r < WeakForm.neq wf)%nat -> (c < WeakForm.neq wf)%nat ->
  exists b, WeakForm.block (WeakForm.get_blocks eps wf fdb) r c = Some b /\
            (b = true <-> block_marked eps wf fdb r c).
Proof.
  intros Hr Hc. unfold WeakForm.get_blocks.
  pose proof (block_initial (WeakForm.neq wf) fdb r c Hr Hc) as H0.
  destruct (fold_marks (WeakForm.mark_vol eps) (vol_marks eps) r c
              (fun blocks f b => mark_vol_block blocks f r c b)
              (WeakForm.mfvol wf) _ _ H0) as (b1 & H1 & Hb1).
  destruct (fold_marks (WeakForm.mark_surf eps) (surf_marks eps) r c
              (fun blocks f b => mark_surf_block blocks f r c b)
              (WeakForm.mfsurf wf) _ _ H1) as (b2 & H2 & Hb2).
  destruct (fold_marks (WeakForm.mark_DG eps) (DG_marks eps) r c
              (fun blocks f b => mark_DG_block blocks f r c b)
              (WeakForm.mfDG wf) _ _ H2) as (b3 & H3 & Hb3).
  exists b3. split; [exact H3|].
  rewrite Hb3, Hb2, Hb1. unfold block_marked.
  rewrite andb_true_iff, bool_decide_eq_true. tauto.
Qed.


Lemma get_blocks_shape (wf : WeakForm.t) (fdb : bool) :
  square (WeakForm.neq wf) (WeakForm.get_blocks eps wf fdb).
Proof.
  unfold WeakForm.get_blocks.
  apply fold_square; [intros; apply mark_DG_square; assumption|].
  apply fold_square; [intros; apply mark_surf_square; assumption|].
  apply fold_square; [intros; apply mark_vol_square; assumption|].
  apply initial_blocks_square.
Qed.

(** C5, as the code has it.  [get_blocks] returns an [neq x neq] matrix in
    which [blocks[r][c]] is true exactly when the diagonal is forced and
    [r = c], or a volume, surface or DG matrix form with scaling factor
    above the threshold has indices [(r, c)], or a volume form with a
    non-zero symmetry flag (symmetric or antisymmetric) and scaling factor
    above the threshold has indices [(c, r)]. *)
Theorem get_blocks_marks (wf : WeakForm.t) (fdb : bool) (r c : nat) :
  (r < WeakForm.neq wf)%nat -> (c < WeakForm.neq wf)%nat ->
  square (WeakForm.neq wf) (WeakForm.get_blocks eps wf fdb) /\
  exists b, WeakForm.block (WeakForm.get_blocks eps wf fdb) r c = Some b /\
            (b = true <-> block_marked eps wf fdb r c).
Proof.
  intros Hr Hc. split; [apply get_blocks_shape|now apply get_blocks_entry].
Qed.

End BlockFacts.

Lemma get_blocks_marks_witness :
  (1 < WeakForm.neq wf_antisym)%nat /\ (0 < WeakForm.neq wf_antisym)%nat /\
  square (WeakForm.neq wf_antisym) (WeakForm.get_blocks eps_demo wf_antisym false) /\
  exists b, WeakForm.block (WeakForm.get_blocks eps_demo wf_antisym false) 1 0 = Some b /\
            (b = true <-> block_marked eps_demo wf_antisym false 1 0).
Proof.
  assert (H1 : (1 < WeakForm.neq wf_antisym)%nat) by (simpl; lia).
  assert (H0 : (0 < WeakForm.neq wf_antisym)%nat) by (simpl; lia).
  split; [exact H1|]. split; [exact H0|].
  exact (get_blocks_marks eps_demo wf_antisym false 1 0 H1 H0).
Defined.

(** C5, as the claim words it, fails on an antisymmetric volume form with
    indices [(0, 1)]: the code sets [blocks[1][0]], yet no form has indices
    [(1, 0)] and no symmetric form has indices [(0, 1)]. *)
Lemma get_blocks_antisym_counterexample :
  WeakForm.block (WeakForm.get_blocks eps_demo wf_antisym false) 1 0 = Some true /\
  ~ block_marked_as_claimed eps_demo wf_antisym false 1 0.
Proof.
  split; [vm_compute; reflexivity|].
  unfold block_marked_as_claimed, wf_antisym, surf_marks, DG_marks. simpl.
  intros [[H _]|[(f & Hf & _ & Hi & Hj)|[(f & Hf & _)|(f & Hf & Hsym & _)]]].
  - discriminate.
  - apply list_elem_of_singleton in Hf. subst f. simpl in Hi. discriminate.
  - inversion Hf.
  - apply list_elem_of_singleton in Hf. subst f. simpl in Hsym. discriminate.
Qed.

(** A symmetric surface form does not mark the transposed block: only
    the loop over the volume forms reads the symmetry flag. *)
Example get_blocks_surface_not_transposed :
  WeakForm.block (WeakForm.get_blocks eps_demo wf_surf_sym false) 0 1 = Some true /\
  WeakForm.block (WeakForm.get_blocks eps_demo wf_surf_sym false) 1 0 = Some false.
Proof. split; vm_compute; reflexivity. Qed.

(** *** Forms scaled to nothing *)

Lemma Qltb_true x y : Qltb x y = true <-> (x < y)%Q.
Proof.
  unfold Qltb. rewrite negb_true_iff. split.
  - intros H. apply Qnot_le_lt. intros Hle. apply Qle_bool_iff in Hle. congruence.
  - intros H. destruct (Qle_bool y x) eqn:E; [|reflexivity].
    apply Qle_bool_iff in E. exfalso. apply (Qlt_not_le _ _ H E).
Qed.

Lemma below_not_above eps sf :
  WeakForm.below_threshold eps sf = true -> WeakForm.above_threshold eps sf = false.
Proof.
  unfold WeakForm.below_threshold, WeakForm.above_threshold. intros H.
  apply Qltb_true in H. destruct (Qltb eps (Qabs sf)) eqn:E; [|reflexivity].
  apply Qltb_true in E. exfalso. apply (Qlt_irrefl eps). now apply Qlt_trans with (Qabs sf).
Qed.

Lemma zero_below eps sf :
  (0 < eps)%Q -> (sf == 0)%Q -> WeakForm.below_threshold eps sf = true.
Proof.
  intros Heps Hsf. unfold WeakForm.below_threshold. apply Qltb_true.
  rewrite Hsf. exact Heps.
Qed.

Lemma mark_vol_below eps blocks f :
  WeakForm.below_threshold eps (MatrixForm.scaling_factor f) = true ->
  WeakForm.mark_vol eps blocks f = blocks.
Proof.
  intros H. unfold WeakForm.mark_vol. rewrite (below_not_above _ _ H).
  destruct (negb (MatrixForm.sym f =? 0)); reflexivity.
Qed.

(** C3.  A matrix volume form whose scaling factor is 0, or of magnitude
    below the threshold, is rejected by [form_to_be_assembled] in every
    traversal state, and [get_blocks] returns the same block matrix with
    the form registered as without it, wherever it stands among the
    volume forms. *)
Theorem zero_scaled_volume_form_is_skipped (eps : Q) (form : MatrixForm.t) :
  (0 < eps)%Q ->
  (MatrixForm.scaling_factor form == 0)%Q \/
  (Qabs (MatrixForm.scaling_factor form) < eps)%Q ->
  (forall a current_state,
     Assembler.form_to_be_assembled_vol eps a form current_state = false) /\
  (forall neq before after mfsurf mfDG vfDG_size force_diagonal_blocks,
     WeakForm.get_blocks eps
       (WeakForm.mk neq (before ++ form :: after) mfsurf mfDG vfDG_size)
       force_diagonal_blocks
     = WeakForm.get_blocks eps
         (WeakForm.mk neq (before ++ after) mfsurf mfDG vfDG_size)
         force_diagonal_blocks).
Proof.
  intros Heps Hsf.
  assert (Hbelow : WeakForm.below_threshold eps (MatrixForm.scaling_factor form) = true).
  { destruct Hsf as [Hz|Hlt]; [now apply zero_below|].
    unfold WeakForm.below_threshold. now apply Qltb_true. }
  split.
  - intros a cs. unfold Assembler.form_to_be_assembled_vol,
      Assembler.form_to_be_assembled_matrix. rewrite Hbelow.
    destruct (bool_decide _ && bool_decide _); reflexivity.
  - intros. unfold WeakForm.get_blocks. cbn [WeakForm.mfvol WeakForm.mfsurf
      WeakForm.mfDG WeakForm.neq].
    rewrite !fold_left_app. cbn [fold_left].
    rewrite (mark_vol_below eps _ form Hbelow). reflexivity.
Qed.

Lemma zero_scaled_volume_form_is_skipped_witness :
  (0 < eps_demo)%Q /\
  ((MatrixForm.scaling_factor (MatrixForm.mk 0 1 HERMES_SYM 0 true []) == 0)%Q \/
   (Qabs (MatrixForm.scaling_factor (MatrixForm.mk 0 1 HERMES_SYM 0 true [])) < eps_demo)%Q) /\
  (forall a current_state,
     Assembler.form_to_be_assembled_vol eps_demo a
       (MatrixForm.mk 0 1 HERMES_SYM 0 true []) current_state = false) /\
  (forall neq before after mfsurf mfDG vfDG_size force_diagonal_blocks,
     WeakForm.get_blocks eps_demo
       (WeakForm.mk neq (before ++ MatrixForm.mk 0 1 HERMES_SYM 0 true [] :: after)
          mfsurf mfDG vfDG_size)
       force_diagonal_blocks
     = WeakForm.get_blocks eps_demo
         (WeakForm.mk neq (before ++ after) mfsurf mfDG vfDG_size)
         force_diagonal_blocks).
Proof.
  assert (H1 : (0 < eps_demo)%Q) by reflexivity.
  assert (H2 : (MatrixForm.scaling_factor (MatrixForm.mk 0 1 HERMES_SYM 0 true []) == 0)%Q \/
               (Qabs (MatrixForm.scaling_factor (MatrixForm.mk 0 1 HERMES_SYM 0 true [])) < eps_demo)%Q)
    by (left; reflexivity).
  split; [exact H1|]. split; [exact H2|].
  exact (zero_scaled_volume_form_is_skipped eps_demo _ H1 H2).
Defined.

(** *** The backend log *)

Lemma emits_ret {A : Type} P (a : A) : emits P (mret a).
Proof. intros log. exists []. split; [symmetry; apply app_nil_r|constructor]. Qed.

Lemma emits_fault {A : Type} P : emits P (@fault A).
Proof. intros log. exists []. split; [symmetry; apply app_nil_r|constructor]. Qed.

Lemma emits_call (P : backend_call -> Prop) c : P c -> emits P (call c).
Proof. intros H log. exists [c]. split; [reflexivity|]. repeat constructor. exact H. Qed.

Lemma emits_need {A : Type} P (o : option A) : emits P (need o).
Proof. destruct o; [apply emits_ret|apply emits_fault]. Qed.

Lemma emits_bind {A B : Type} P (m : Backend A) (f : A -> Backend B) :
  emits P m -> (forall a, emits P (f a)) -> emits P (m ≫= f).
Proof.
  intros Hm Hf log. unfold mbind, Backend_bind, backend_bind.
  destruct (Hm log) as (new1 & E1 & F1). destruct (m log) as [log1 [a|]]; simpl in E1.
  - destruct (Hf a log1) as (new2 & E2 & F2). exists (new1 ++ new2). split.
    + rewrite E2, E1. symmetry. apply app_assoc.
    + apply Forall_app. auto.
  - exists new1. auto.
Qed.

Lemma emits_when P b (m : Backend unit) : emits P m -> emits P (when b m).
Proof. intros H. destruct b; [exact H|apply emits_ret]. Qed.

Lemma emits_for_each {A : Type} P (l : list A) (body : A -> Backend unit) :
  (forall x, emits P (body x)) -> emits P (for_each l body).
Proof.
  intros H. induction l as [|x l IH]; simpl; [apply emits_ret|].
  apply emits_bind; [apply H|]. intros _. exact IH.
Qed.

Lemma emits_for_fold {A S : Type} P (l : list A) (body : S -> A -> Backend S) :
  (forall s x, emits P (body s x)) -> forall s, emits P (for_fold l s body).
Proof.
  intros H. induction l as [|x l IH]; intros s; simpl; [apply emits_ret|].
  apply emits_bind; [apply H|]. intros s'. apply IH.
Qed.

Lemma emits_weaken {A : Type} (P Q : backend_call -> Prop) (m : Backend A) :
  (forall c, P c -> Q c) -> emits P m -> emits Q m.
Proof.
  intros HPQ Hm log. destruct (Hm log) as (new & E & F). exists new. split; [exact E|].
  eapply Forall_impl; [exact F|exact HPQ].
Qed.

Ltac emits_step :=
  first
    [ apply emits_ret
    | apply emits_fault
    | apply emits_need
    | apply emits_when
    | apply emits_for_each; intros ?
    | apply emits_for_fold; intros ? ?
    | apply emits_bind; [|intros ?] ].

Section StructurePass.
Variable eps : Q.
Variable get_element_assembly_list : nat -> Element.t -> list Z.
Variable get_neighbors : nat -> Element.t -> nat -> list Element.t.

Lemma pre_add_block_emits mat dofs_m dofs_n :
  emits (nonneg_pre_add mat) (Assembler.pre_add_block mat dofs_m dofs_n).
Proof.
  unfold Assembler.pre_add_block.
  apply emits_for_each. intros di.
  destruct (Z.geb_spec di 0) as [Hi|Hi]; [|apply emits_ret]. cbn [when].
  apply emits_for_each. intros dj.
  destruct (Z.geb_spec dj 0) as [Hj|Hj]; [|apply emits_ret]. cbn [when].
  apply emits_call. exists di, dj. auto.
Qed.

Lemma pre_add_neighbor_emits mat b1 b2 am an :
  emits (nonneg_pre_add mat) (Assembler.pre_add_neighbor mat b1 b2 am an).
Proof.
  unfold Assembler.pre_add_neighbor.
  apply emits_for_each. intros di.
  destruct (Z.geb_spec di 0) as [Hi|Hi]; [|apply emits_ret]. cbn [when].
  apply emits_for_each. intros dj.
  destruct (Z.geb_spec dj 0) as [Hj|Hj]; [|apply emits_ret]. cbn [when].
  apply emits_bind; [|intros _]; apply emits_when; apply emits_call.
  - exists di, dj. auto.
  - exists dj, di. auto.
Qed.

Lemma edge_is_boundary_emits P cs el ed :
  emits P (Assembler.edge_is_boundary cs el ed).
Proof.
  unfold Assembler.edge_is_boundary.
  destruct (Traverse.e cs el); [|apply emits_fault].
  destruct (Element.en _ !! ed); [apply emits_ret|apply emits_fault].
Qed.

Lemma pre_add_DG_emits a mat blocks cs al :
  emits (nonneg_pre_add mat)
        (Assembler.pre_add_DG get_element_assembly_list get_neighbors a mat blocks cs al).
Proof.
  unfold Assembler.pre_add_DG.
  apply emits_bind; [apply emits_need|intros e0].
  apply emits_bind; [|intros tbl].
  - apply emits_for_fold. intros tbl el.
    apply emits_bind; [apply emits_need|intros elem].
    apply emits_for_fold. intros tbl' ed.
    apply emits_bind; [apply edge_is_boundary_emits|intros bnd]. apply emits_ret.
  - apply emits_for_each. intros m. apply emits_for_each. intros el.
    apply emits_for_each. intros ed.
    apply emits_bind; [apply edge_is_boundary_emits|intros bnd].
    apply emits_when.
    apply emits_bind; [apply emits_need|intros neighbors].
    apply emits_for_each. intros neigh.
    apply emits_bind; [apply emits_need|intros b1].
    apply emits_bind; [apply emits_need|intros b2].
    apply emits_when.
    apply emits_bind; [apply emits_need|intros am].
    apply pre_add_neighbor_emits.
Qed.

Lemma pre_add_local_emits a mat blocks cs al :
  emits (nonneg_pre_add mat) (Assembler.pre_add_local a mat blocks cs al).
Proof.
  unfold Assembler.pre_add_local. destruct (Nat.eqb (Assembler.spaces_size a) 1).
  - apply emits_bind; [apply emits_need|intros dofs_m].
    apply emits_bind; [apply emits_need|intros b].
    apply emits_when. apply pre_add_block_emits.
  - apply emits_for_each. intros m.
    apply emits_bind; [apply emits_need|intros dofs_m].
    apply emits_for_each. intros n.
    apply emits_bind; [apply emits_need|intros b].
    apply emits_when.
    apply emits_bind; [apply emits_need|intros dofs_n].
    apply pre_add_block_emits.
Qed.

Lemma pre_add_state_emits a mat blocks al cs :
  emits (nonneg_pre_add mat)
        (Assembler.pre_add_state get_element_assembly_list get_neighbors a mat blocks al cs).
Proof.
  unfold Assembler.pre_add_state.
  apply emits_bind; [apply emits_when; apply pre_add_DG_emits|intros _].
  apply emits_bind; [apply pre_add_local_emits|intros _]. apply emits_ret.
Qed.

End StructurePass.

(** *** The two paths of prepare_sparse_structure *)

Lemma run_bind {A B : Type} (m : Backend A) (f : A -> Backend B) log :
  (m ≫= f) log =
  match m log with
  | (log', Some a) => f a log'
  | (log', None) => (log', None)
  end.
Proof.
  unfold mbind, Backend_bind, backend_bind. destruct (m log) as [log' [a|]]; reflexivity.
Qed.

Lemma matrix_calls_app l1 l2 :
  matrix_calls (l1 ++ l2) = matrix_calls l1 ++ matrix_calls l2.
Proof. apply filter_app. Qed.

Lemma matrix_calls_cons c l :
  is_matrix_call c = true -> matrix_calls (c :: l) = c :: matrix_calls l.
Proof. intros H. unfold matrix_calls. now rewrite filter_cons_True. Qed.

Lemma matrix_calls_pre_adds mat l :
  Forall (nonneg_pre_add mat) l -> matrix_calls l = l.
Proof.
  induction 1 as [|c l (row & col & -> & _) _ IH]; [reflexivity|].
  unfold matrix_calls in *. rewrite filter_cons_True by reflexivity. now rewrite IH.
Qed.

Lemma pre_adds_no_negative mat l :
  Forall (nonneg_pre_add mat) l -> Forall no_negative_pre_add l.
Proof.
  intros H. eapply Forall_impl; [exact H|]. intros c (row & col & -> & Hc). exact Hc.
Qed.

Ltac norm_log :=
  repeat first [ rewrite <- app_assoc | rewrite app_nil_r | progress simpl app ];
  reflexivity.

Section Paths.
Variable eps : Q.
Variable get_element_assembly_list : nat -> Element.t -> list Z.
Variable get_neighbors : nat -> Element.t -> nat -> list Element.t.

(** The call under study, with the space callbacks of the section. *)
Local Abbreviation prepare_sparse_structure :=
  (Assembler.prepare_sparse_structure eps get_element_assembly_list get_neighbors).


Lemma zero_reused_matrix_run a mat log :
  exists z,
    Assembler.zero_reused_matrix a mat log = (log ++ z, Some tt) /\
    z = match mat with
        | Some m =>
            if Assembler.matrix_structure_reusable a
               && Assembler.same_object mat (Assembler.previous_mat a)
            then [mat_zero m] else []
        | None => []
        end.
Proof.
  unfold Assembler.zero_reused_matrix.
  destruct mat as [m|]; cbn [Assembler.non_null].
  - rewrite andb_true_r.
    destruct (Assembler.matrix_structure_reusable a
              && Assembler.same_object (Some m) (Assembler.previous_mat a)).
    + exists [mat_zero m]. split; reflexivity.
    + exists []. split; [|reflexivity]. cbn. now rewrite app_nil_r.
  - rewrite andb_false_r. exists []. split; [|reflexivity]. cbn. now rewrite app_nil_r.
Qed.

Lemma zero_reused_vector_run a rhs ndof rs log :
  exists v,
    Assembler.zero_reused_vector a rhs ndof rs log = (log ++ v, Some tt) /\
    matrix_calls v = [].
Proof.
  unfold Assembler.zero_reused_vector.
  destruct (Assembler.vector_structure_reusable a && Assembler.non_null rhs
            && Assembler.same_object rhs (Assembler.previous_rhs a)); cbn [when].
  - destruct rhs as [v|].
    + destruct (rs =? 0); eexists; split; reflexivity.
    + exists []. split; [|reflexivity]. cbn. now rewrite app_nil_r.
  - exists []. split; [|reflexivity]. cbn. now rewrite app_nil_r.
Qed.

Lemma alloc_vector_if_stale_run a rhs ndof log :
  exists v a',
    Assembler.alloc_vector_if_stale a rhs ndof log = (log ++ v, Some a') /\
    matrix_calls v = [] /\ vector_step a a' rhs.
Proof.
  unfold Assembler.alloc_vector_if_stale, vector_step.
  destruct rhs as [v|]; cbn [Assembler.non_null].
  - rewrite andb_true_r.
    destruct (negb (Assembler.vector_structure_reusable a)
              || negb (Assembler.same_object (Some v) (Assembler.previous_rhs a))) eqn:E.
    + exists [vec_alloc v ndof], (Assembler.with_vector_reusable a true).
      split; [reflexivity|]. split; [reflexivity|]. split; [now right|reflexivity].
    + exists [], a. split; [cbn; now rewrite app_nil_r|]. split; [reflexivity|].
      split; [now left|]. intros _. apply orb_false_iff in E as [E _].
      now apply negb_false_iff in E.
  - rewrite andb_false_r. exists [], a. split; [cbn; now rewrite app_nil_r|].
    split; [reflexivity|]. split; [now left|]. congruence.
Qed.

Lemma rebuild_matrix_run a m ndof states log :
  exists pre_adds r,
    (Assembler.rebuild_matrix eps get_element_assembly_list get_neighbors) a m ndof states log =
      (log ++ mat_free m :: mat_prealloc m ndof :: pre_adds
           ++ match r with Some _ => [mat_alloc m] | None => [] end, r) /\
    Forall (nonneg_pre_add m) pre_adds.
Proof.
  unfold Assembler.rebuild_matrix.
  rewrite run_bind. cbn [call]. rewrite run_bind. cbn [call]. rewrite run_bind.
  match goal with |- context [for_fold states ?al ?body _] =>
    destruct (emits_for_fold (nonneg_pre_add m) states body
                (fun s x => pre_add_state_emits _ _ a m _ s x) al
                ((log ++ [mat_free m]) ++ [mat_prealloc m ndof])) as (new & E & F);
    destruct (for_fold states al body ((log ++ [mat_free m]) ++ [mat_prealloc m ndof]))
      as [log' [al'|]]
  end; simpl in E; subst log'.
  - exists new, (Some tt). split; [|exact F]. unfold call.
    rewrite <- !app_assoc. reflexivity.
  - exists new, None. split; [|exact F].
    rewrite <- !app_assoc. cbn. now rewrite app_nil_r.
Qed.

(** The outcome of one call, part by part. *)
Lemma prepare_sparse_structure_run a mat rhs ndof rs states :
  exists z v1 mid v2 r,
    prepare_sparse_structure a mat rhs ndof rs states [] = (z ++ v1 ++ mid ++ v2, r) /\
    matrix_calls v1 = [] /\ matrix_calls v2 = [] /\
    z = match mat with
        | Some m =>
            if Assembler.matrix_structure_reusable a
               && Assembler.same_object mat (Assembler.previous_mat a)
            then [mat_zero m] else []
        | None => []
        end /\
    match mat with
    | Some m =>
        if Assembler.matrix_structure_reusable a
           && Assembler.same_object mat (Assembler.previous_mat a)
        then mid = [] /\
             exists a2, r = Some (Assembler.with_previous a2 mat rhs, true) /\
                        vector_step a a2 rhs
        else exists pre_adds,
               Forall (nonneg_pre_add m) pre_adds /\
               mid = mat_free m :: mat_prealloc m ndof :: pre_adds
                       ++ match r with Some _ => [mat_alloc m] | None => [] end /\
               forall res, r = Some res ->
                 exists a2, res = (Assembler.with_previous a2 mat rhs, true) /\
                            vector_step (Assembler.with_matrix_reusable a true) a2 rhs
    | None =>
        mid = [] /\
        exists a2, r = Some (Assembler.with_previous a2 mat rhs, true) /\
                   vector_step a a2 rhs
    end.
Proof.
  unfold Assembler.prepare_sparse_structure.
  destruct (zero_reused_matrix_run a mat []) as (z & Ez & Hz).
  destruct (zero_reused_vector_run a rhs ndof rs ([] ++ z)) as (v1 & Ev1 & Hv1).
  rewrite run_bind, Ez, run_bind, Ev1, run_bind.
  unfold Assembler.rebuild_matrix_if_stale.
  destruct mat as [m|]; cbn [Assembler.non_null].
  - rewrite andb_true_r, <- negb_andb.
    destruct (Assembler.matrix_structure_reusable a
              && Assembler.same_object (Some m) (Assembler.previous_mat a)) eqn:Ereuse;
      cbn [negb].
    + change ((mret a : Backend Assembler.t) (([] ++ z) ++ v1)) with ((([] ++ z) ++ v1), Some a).
      destruct (alloc_vector_if_stale_run a rhs ndof (([] ++ z) ++ v1)) as (v2 & a2 & Ev2 & Hv2 & Hstep).
      rewrite run_bind, Ev2.
      exists z, v1, [], v2, (Some (Assembler.with_previous a2 (Some m) rhs, true)).
      split; [cbn; norm_log|]. repeat (split; [assumption|]).
      split; [reflexivity|]. eauto.
    + rewrite run_bind.
      destruct (rebuild_matrix_run (Assembler.with_matrix_reusable a true) m ndof states
                  (([] ++ z) ++ v1)) as (pre_adds & r & Er & Hpre).
      rewrite Er. destruct r as [[]|].
      * change ((mret (Assembler.with_matrix_reusable a true) : Backend Assembler.t) ?l)
          with (l, Some (Assembler.with_matrix_reusable a true)).
        destruct (alloc_vector_if_stale_run (Assembler.with_matrix_reusable a true) rhs ndof
                    ((([] ++ z) ++ v1) ++ mat_free m :: mat_prealloc m ndof :: pre_adds
                       ++ [mat_alloc m])) as (v2 & a2 & Ev2 & Hv2 & Hstep).
        rewrite run_bind, Ev2.
        exists z, v1, (mat_free m :: mat_prealloc m ndof :: pre_adds ++ [mat_alloc m]), v2,
          (Some (Assembler.with_previous a2 (Some m) rhs, true)).
        split; [cbn; norm_log|]. repeat (split; [assumption|]).
        exists pre_adds. split; [exact Hpre|]. split; [reflexivity|].
        intros res [= <-]. eauto.
      * exists z, v1, (mat_free m :: mat_prealloc m ndof :: pre_adds ++ []), [], None.
        split; [cbn; norm_log|].
        split; [assumption|]. split; [reflexivity|]. split; [assumption|].
        exists pre_adds. split; [exact Hpre|]. split; [reflexivity|]. discriminate.
  - rewrite andb_false_r.
    change ((mret a : Backend Assembler.t) (([] ++ z) ++ v1)) with ((([] ++ z) ++ v1), Some a).
    destruct (alloc_vector_if_stale_run a rhs ndof (([] ++ z) ++ v1)) as (v2 & a2 & Ev2 & Hv2 & Hstep).
    rewrite run_bind, Ev2.
    exists z, v1, [], v2, (Some (Assembler.with_previous a2 None rhs, true)).
    split; [cbn; norm_log|]. repeat (split; [assumption|]).
    split; [reflexivity|]. eauto.
Qed.

End Paths.

(** *** set_spaces and the reuse flags *)

Lemma set_spaces_loop (seqs : list Z) : forall (l : list nat) a a' cur,
  NoDup l ->
  Assembler.sp_seq a = Some cur ->
  foldlM (fun a i =>
            match seqs !! i, Assembler.sp_seq a ≫= (fun cur => cur !! i),
                  Assembler.sp_seq a with
            | Some new_sp_seq, Some old_sp_seq, Some cur =>
                let a' :=
                  if negb (Z.eqb new_sp_seq old_sp_seq)
                  then Assembler.with_vector_reusable
                         (Assembler.with_matrix_reusable a false) false
                  else a in
                Some (Assembler.with_sp_seq a' (Assembler.spaces_size a')
                        (<[i := new_sp_seq]> cur))
            | _, _, _ => None
            end) a l = Some a' ->
  Assembler.previous_mat a' = Assembler.previous_mat a /\
  Assembler.matrix_structure_reusable a' =
    Assembler.matrix_structure_reusable a
    && forallb (fun i => bool_decide (seqs !! i = cur !! i)) l.
Proof.
  induction l as [|i l IH]; intros a a' cur Hnd Hcur Hrun.
  - simpl in Hrun. injection Hrun as <-. simpl. now rewrite andb_true_r.
  - apply NoDup_cons in Hnd as [Hi Hnd]. cbn [foldlM] in Hrun.
    rewrite Hcur in Hrun. cbn [mbind option_bind] in Hrun.
    destruct (seqs !! i) as [new|] eqn:Hnew; [|discriminate].
    destruct (cur !! i) as [old|] eqn:Hold; [|discriminate].
    cbv zeta in Hrun.
    match type of Hrun with foldlM _ ?a1 _ = _ =>
      destruct (IH a1 a' (<[i := new]> cur) Hnd) as [Hp Hm]; [reflexivity|exact Hrun|]
    end.
    assert (Hrest : forallb (fun k => bool_decide (seqs !! k = <[i := new]> cur !! k)) l
                    = forallb (fun k => bool_decide (seqs !! k = cur !! k)) l).
    { clear -Hi. induction l as [|k l IHl]; [reflexivity|].
      apply not_elem_of_cons in Hi as [Hik Hi]. simpl.
      rewrite list_lookup_insert_ne by congruence. now rewrite IHl. }
    rewrite Hrest in Hm. cbn [forallb]. rewrite Hnew, Hold.
    destruct (Z.eqb_spec new old) as [->|Hne]; cbn [negb] in Hp, Hm.
    + rewrite bool_decide_eq_true_2 by reflexivity. split; [exact Hp|exact Hm].
    + rewrite bool_decide_eq_false_2 by congruence.
      split; [exact Hp|]. rewrite Hm. simpl. now rewrite andb_false_r.
Qed.

Lemma set_spaces_no_change a seqs a' :
  Assembler.set_spaces a seqs = Some a' -> no_change_seen a seqs ->
  Assembler.previous_mat a' = Assembler.previous_mat a /\
  Assembler.matrix_structure_reusable a' = Assembler.matrix_structure_reusable a.
Proof.
  unfold Assembler.set_spaces, no_change_seen.
  destruct (Assembler.sp_seq a) as [cur|] eqn:Hcur.
  - intros Hrun Hsame.
    destruct (set_spaces_loop seqs _ a a' cur (NoDup_seq _ _) Hcur Hrun) as [Hp Hm].
    split; [exact Hp|]. rewrite Hm.
    replace (forallb _ _) with true; [apply andb_true_r|].
    symmetry. apply forallb_forall. intros i Hi. apply in_seq in Hi.
    apply bool_decide_eq_true_2. apply Hsame. lia.
  - intros [= <-] _. split; reflexivity.
Qed.

Lemma set_spaces_change a seqs a' :
  Assembler.set_spaces a seqs = Some a' -> change_seen a seqs ->
  Assembler.previous_mat a' = Assembler.previous_mat a /\
  Assembler.matrix_structure_reusable a' = false.
Proof.
  unfold Assembler.set_spaces. intros Hrun (cur & i & Hcur & Hi & Hne).
  rewrite Hcur in Hrun.
  destruct (set_spaces_loop seqs _ a a' cur (NoDup_seq _ _) Hcur Hrun) as [Hp Hm].
  split; [exact Hp|]. rewrite Hm.
  replace (forallb _ _) with false; [apply andb_false_r|].
  symmetry. apply not_true_is_false. intros Hall.
  rewrite forallb_forall in Hall. specialize (Hall i).
  rewrite bool_decide_eq_true in Hall. apply Hne, Hall. apply in_seq. lia.
Qed.

(** *** Claims C2, C6 and C10 *)

Section PrepareSparseStructure.
Variable eps : Q.
Variable get_element_assembly_list : nat -> Element.t -> list Z.
Variable get_neighbors : nat -> Element.t -> nat -> list Element.t.

(** The call under study, with the space callbacks of the section. *)
Local Abbreviation prepare_sparse_structure :=
  (Assembler.prepare_sparse_structure eps get_element_assembly_list get_neighbors).


Lemma same_object_refl p : Assembler.same_object p p = true.
Proof. destruct p; simpl; [apply Nat.eqb_refl|reflexivity]. Qed.

Lemma same_object_Some m p :
  Assembler.same_object (Some m) p = true <-> p = Some m.
Proof.
  destruct p as [q|]; simpl; [|split; discriminate].
  rewrite Nat.eqb_eq. split; congruence.
Qed.

Lemma vector_step_matrix a a2 rhs :
  vector_step a a2 rhs ->
  Assembler.matrix_structure_reusable a2 = Assembler.matrix_structure_reusable a /\
  Assembler.previous_mat a2 = Assembler.previous_mat a.
Proof. intros [[->| ->] _]; split; reflexivity. Qed.

Lemma only_zeroed_when_reusable a m rhs ndof rs states :
  Assembler.matrix_structure_reusable a = true ->
  Assembler.previous_mat a = Some m ->
  only_zeroed m (prepare_sparse_structure a (Some m) rhs ndof rs states []).
Proof.
  intros Hm Hp.
  destruct (prepare_sparse_structure_run eps get_element_assembly_list get_neighbors
              a (Some m) rhs ndof rs states) as (z & v1 & mid & v2 & r & E & Hv1 & Hv2 & Hz & Hmid).
  rewrite Hm, Hp, same_object_refl in Hz, Hmid.
  cbn [andb] in Hz, Hmid. destruct Hmid as (-> & a2 & -> & _). subst z.
  unfold only_zeroed. rewrite E. cbn [fst snd]. split; [|eauto].
  rewrite !matrix_calls_app, Hv1, Hv2. reflexivity.
Qed.

Lemma rebuilt_when_stale a m rhs ndof rs states :
  Assembler.matrix_structure_reusable a = false \/ Assembler.previous_mat a <> Some m ->
  rebuilt m ndof (prepare_sparse_structure a (Some m) rhs ndof rs states []).
Proof.
  intros Hstale.
  destruct (prepare_sparse_structure_run eps get_element_assembly_list get_neighbors
              a (Some m) rhs ndof rs states) as (z & v1 & mid & v2 & r & E & Hv1 & Hv2 & Hz & Hmid).
  fold prepare_sparse_structure in E.
  assert (Hcond : Assembler.matrix_structure_reusable a
                  && Assembler.same_object (Some m) (Assembler.previous_mat a) = false).
  { destruct Hstale as [->|Hne]; [reflexivity|].
    apply andb_false_iff. right. apply not_true_is_false.
    intros Hs. apply same_object_Some in Hs. contradiction. }
  rewrite Hcond in Hz, Hmid. destruct Hmid as (pre_adds & Hpre & -> & _). subst z.
  exists pre_adds. split; [exact Hpre|]. rewrite E. cbn [fst snd].
  rewrite !matrix_calls_app, Hv1, Hv2, app_nil_r.
  rewrite !matrix_calls_cons by reflexivity.
  rewrite ?matrix_calls_app, (matrix_calls_pre_adds m pre_adds Hpre).
  destruct r; reflexivity.
Qed.

(** What a call that returns leaves in the object. *)
Lemma prepare_sparse_structure_returns a mat rhs ndof rs states a' b :
  snd (prepare_sparse_structure a mat rhs ndof rs states []) = Some (a', b) ->
  b = true /\
  Assembler.previous_mat a' = mat /\
  Assembler.previous_rhs a' = rhs /\
  (mat <> None -> Assembler.matrix_structure_reusable a' = true) /\
  (rhs <> None -> Assembler.vector_structure_reusable a' = true).
Proof.
  destruct (prepare_sparse_structure_run eps get_element_assembly_list get_neighbors
              a mat rhs ndof rs states) as (z & v1 & mid & v2 & r & E & Hv1 & Hv2 & Hz & Hmid).
  rewrite E. cbn [snd]. intros ->.
  assert (Hfin : forall a0 a2,
            Some (a', b) = Some (Assembler.with_previous a2 mat rhs, true) ->
            vector_step a0 a2 rhs ->
            (mat <> None -> Assembler.matrix_structure_reusable a0 = true) ->
            b = true /\
            Assembler.previous_mat a' = mat /\
            Assembler.previous_rhs a' = rhs /\
            (mat <> None -> Assembler.matrix_structure_reusable a' = true) /\
            (rhs <> None -> Assembler.vector_structure_reusable a' = true)).
  { intros a0 a2 [= -> ->] Hstep Hmat.
    destruct (vector_step_matrix _ _ _ Hstep) as [Hmr _]. destruct Hstep as [_ Hvr].
    split; [reflexivity|]. split; [reflexivity|]. split; [reflexivity|]. split.
    - intros Hn. cbn. rewrite Hmr. auto.
    - intros Hn. cbn. auto. }
  destruct mat as [m|].
  - destruct (Assembler.matrix_structure_reusable a
              && Assembler.same_object (Some m) (Assembler.previous_mat a)) eqn:Ec.
    + destruct Hmid as (_ & a2 & Hr & Hstep). apply (Hfin a a2 Hr Hstep).
      intros _. now apply andb_true_iff in Ec as [Ec _].
    + destruct Hmid as (pre_adds & _ & _ & Hres).
      destruct (Hres _ eq_refl) as (a2 & Hr & Hstep).
      apply (Hfin _ a2 (f_equal Some Hr) Hstep). reflexivity.
  - destruct Hmid as (_ & a2 & Hr & Hstep). apply (Hfin a a2 Hr Hstep). congruence.
Qed.

(** C6.  Every [pre_add_ij] that [prepare_sparse_structure] issues has a
    row and a column that are not negative, in the loops over the local
    blocks and in the loops over the neighbours across an edge alike, and
    also when the pass stops in a fault. *)
Theorem pre_add_ij_never_negative a mat rhs ndof rs states :
  Forall no_negative_pre_add
         (fst (prepare_sparse_structure a mat rhs ndof rs states [])).
Proof.
  destruct (prepare_sparse_structure_run eps get_element_assembly_list get_neighbors
              a mat rhs ndof rs states) as (z & v1 & mid & v2 & r & E & Hv1 & Hv2 & Hz & Hmid).
  rewrite E. cbn [fst].
  assert (Hvec : forall v, matrix_calls v = [] -> Forall no_negative_pre_add v).
  { intros v Hv. apply Forall_forall. intros c Hc.
    destruct c; try exact I.
    assert (Hin : mat_pre_add_ij mat0 row col ∈ matrix_calls v).
    { unfold matrix_calls. apply list_elem_of_filter. split; [reflexivity|exact Hc]. }
    rewrite Hv in Hin. inversion Hin. }
  apply Forall_app. split; [|apply Forall_app; split; [|apply Forall_app; split]].
  - subst z. destruct mat as [m|]; [|constructor].
    destruct (_ && _); repeat constructor.
  - now apply Hvec.
  - destruct mat as [m|]; [|destruct Hmid as [-> _]; constructor].
    destruct (_ && _).
    + destruct Hmid as [-> _]. constructor.
    + destruct Hmid as (pre_adds & Hpre & -> & _).
      constructor; [exact I|]. constructor; [exact I|]. apply Forall_app. split.
      * now apply (pre_adds_no_negative m).
      * destruct r; repeat constructor.
  - now apply Hvec.
Qed.

End PrepareSparseStructure.

Lemma succeeds_ret {A : Type} (a : A) : succeeds (mret a).
Proof. intros log. cbn. eauto. Qed.

Lemma succeeds_call c : succeeds (call c).
Proof. intros log. cbn. eauto. Qed.

Lemma succeeds_bind {A B : Type} (m : Backend A) (f : A -> Backend B) :
  succeeds m -> (forall a, succeeds (f a)) -> succeeds (m ≫= f).
Proof.
  intros Hm Hf log. rewrite run_bind. destruct (Hm log) as [a Ha].
  destruct (m log) as [log' r]. simpl in Ha. subst r. apply Hf.
Qed.

Lemma succeeds_need_bind {A B : Type} (o : option A) (k : A -> Backend B) a :
  o = Some a -> succeeds (k a) -> succeeds (need o ≫= k).
Proof. intros -> Hk log. rewrite run_bind. cbn. apply Hk. Qed.

Lemma succeeds_when b (m : Backend unit) : succeeds m -> succeeds (when b m).
Proof. destruct b; [auto|intros _; apply succeeds_ret]. Qed.

Lemma succeeds_for_each {A : Type} (l : list A) (body : A -> Backend unit) :
  (forall x, x ∈ l -> succeeds (body x)) -> succeeds (for_each l body).
Proof.
  induction l as [|x l IH]; intros H; simpl; [apply succeeds_ret|].
  apply succeeds_bind; [apply H; left|]. intros _. apply IH.
  intros y Hy. apply H. now right.
Qed.

Lemma succeeds_for_fold {A S : Type} (I : S -> Prop) (l : list A)
    (body : S -> A -> Backend S) :
  (forall s x log, I s -> exists s', snd (body s x log) = Some s' /\ I s') ->
  forall s, I s -> succeeds (for_fold l s body).
Proof.
  intros Hbody. induction l as [|x l IH]; intros s Hs; simpl; [apply succeeds_ret|].
  intros log. rewrite run_bind. destruct (Hbody s x log Hs) as (s' & E & Hs').
  destruct (body s x log) as [log' r]. simpl in E. subst r. now apply IH.
Qed.

Lemma pre_add_block_succeeds mat dofs_m dofs_n :
  succeeds (Assembler.pre_add_block mat dofs_m dofs_n).
Proof.
  unfold Assembler.pre_add_block. apply succeeds_for_each. intros di _.
  apply succeeds_when. apply succeeds_for_each. intros dj _.
  apply succeeds_when. apply succeeds_call.
Qed.

Section NoFault.
Variable eps : Q.
Variable get_element_assembly_list : nat -> Element.t -> list Z.
Variable get_neighbors : nat -> Element.t -> nat -> list Element.t.

Lemma pre_add_local_succeeds a mat cs (al : list (list Z)) :
  length al = Assembler.spaces_size a ->
  (Assembler.spaces_size a <= WeakForm.neq (Assembler.wf a))%nat ->
  succeeds (Assembler.pre_add_local a mat
              (WeakForm.get_blocks eps (Assembler.wf a) (Assembler.force_diagonal_blocks a))
              cs al).
Proof.
  intros Hlen Hneq. unfold Assembler.pre_add_local.
  assert (Hal : forall m, (m < Assembler.spaces_size a)%nat -> exists d, al !! m = Some d).
  { intros m Hm. apply lookup_lt_is_Some. lia. }
  assert (Hblock : forall m n, (m < Assembler.spaces_size a)%nat ->
                               (n < Assembler.spaces_size a)%nat ->
            exists b, WeakForm.block (WeakForm.get_blocks eps (Assembler.wf a)
                                        (Assembler.force_diagonal_blocks a)) m n = Some b).
  { intros m n Hm Hn.
    destruct (get_blocks_entry eps (Assembler.wf a) (Assembler.force_diagonal_blocks a) m n)
      as (b & Hb & _); [lia|lia|]. eauto. }
  destruct (Nat.eqb_spec (Assembler.spaces_size a) 1) as [H1|H1].
  - destruct (Hal 0%nat) as [d Hd]; [lia|].
    destruct (Hblock 0%nat 0%nat) as [b Hb]; [lia|lia|].
    eapply succeeds_need_bind; [exact Hd|].
    eapply succeeds_need_bind; [exact Hb|].
    apply succeeds_when, pre_add_block_succeeds.
  - apply succeeds_for_each. intros m Hm. apply list_elem_of_In, in_seq in Hm.
    destruct (Hal m) as [d Hd]; [lia|].
    eapply succeeds_need_bind; [exact Hd|].
    apply succeeds_for_each. intros n Hn. apply list_elem_of_In, in_seq in Hn.
    destruct (Hblock m n) as [b Hb]; [lia|lia|].
    eapply succeeds_need_bind; [exact Hb|].
    apply succeeds_when.
    destruct (Hal n) as [dn Hdn]; [lia|].
    eapply succeeds_need_bind; [exact Hdn|]. apply pre_add_block_succeeds.
Qed.

Lemma refresh_length (cs : Traverse.State) : forall (l : list nat) (al : list (list Z)),
  length (fold_left (fun al i =>
                       match Traverse.e cs i with
                       | Some elem => <[i := get_element_assembly_list i elem]> al
                       | None => al
                       end) l al) = length al.
Proof.
  induction l as [|i l IH]; intros al; [reflexivity|]. simpl. rewrite IH.
  destruct (Traverse.e cs i); [apply length_insert|reflexivity].
Qed.

Lemma rebuild_matrix_succeeds a m ndof states :
  plain_structure_pass a ->
  succeeds (Assembler.rebuild_matrix eps get_element_assembly_list get_neighbors
              a m ndof states).
Proof.
  intros [Hdg Hneq]. unfold Assembler.rebuild_matrix.
  apply succeeds_bind; [apply succeeds_call|intros _].
  apply succeeds_bind; [apply succeeds_call|intros _].
  apply succeeds_bind; [|intros _; apply succeeds_call].
  apply (succeeds_for_fold (fun al => length al = Assembler.spaces_size a)).
  - intros al cs log Hlen. unfold Assembler.pre_add_state. rewrite Hdg. cbn [when].
    rewrite run_bind. change ((mret tt : Backend unit) log) with (log, Some tt).
    cbv iota beta. rewrite run_bind.
    match goal with |- context [Assembler.pre_add_local a m ?blocks cs ?al'] =>
      assert (Hl : length al' = Assembler.spaces_size a)
        by (rewrite refresh_length; exact Hlen);
      destruct (pre_add_local_succeeds a m cs al' Hl Hneq log) as [u Hu];
      destruct (Assembler.pre_add_local a m blocks cs al' log) as [log' r] eqn:E
    end.
    simpl in Hu. subst r. cbn.
    eexists. split; [reflexivity|]. rewrite refresh_length. exact Hlen.
  - apply length_replicate.
Qed.

Lemma prepare_sparse_structure_succeeds a mat rhs ndof rs states :
  plain_structure_pass a ->
  is_Some (snd (Assembler.prepare_sparse_structure eps get_element_assembly_list
                  get_neighbors a mat rhs ndof rs states [])).
Proof.
  intros Hplain.
  destruct (prepare_sparse_structure_run eps get_element_assembly_list get_neighbors
              a mat rhs ndof rs states) as (z & v1 & mid & v2 & r & E & _ & _ & Hz & _).
  unfold Assembler.prepare_sparse_structure in *.
  destruct (zero_reused_matrix_run a mat []) as (z' & Ez & _).
  destruct (zero_reused_vector_run a rhs ndof rs ([] ++ z')) as (v1' & Ev1 & _).
  rewrite run_bind, Ez, run_bind, Ev1, run_bind.
  assert (Hreb : exists log' a1,
            Assembler.rebuild_matrix_if_stale eps get_element_assembly_list get_neighbors
              a mat ndof states (([] ++ z') ++ v1') = (log', Some a1)).
  { unfold Assembler.rebuild_matrix_if_stale.
    destruct ((negb (Assembler.matrix_structure_reusable a)
               || negb (Assembler.same_object mat (Assembler.previous_mat a)))
              && Assembler.non_null mat); [|cbn; eauto].
    destruct mat as [m|]; [|cbn; eauto].
    rewrite run_bind.
    destruct (rebuild_matrix_succeeds (Assembler.with_matrix_reusable a true) m ndof states
                Hplain (([] ++ z') ++ v1')) as [u Hu].
    destruct (Assembler.rebuild_matrix _ _ _ _ _ _ _ _) as [log' r'].
    simpl in Hu. subst r'. cbn. eauto. }
  destruct Hreb as (log' & a1 & ->).
  destruct (alloc_vector_if_stale_run a1 rhs ndof log') as (v2' & a2 & Ev2 & _).
  rewrite run_bind, Ev2. cbn. eauto.
Qed.

End NoFault.

Section CacheProtocol.
Variable eps : Q.
Variable get_element_assembly_list : nat -> Element.t -> list Z.
Variable get_neighbors : nat -> Element.t -> nat -> list Element.t.

(** The call under study, with the space callbacks of the section. *)
Local Abbreviation prepare_sparse_structure :=
  (Assembler.prepare_sparse_structure eps get_element_assembly_list get_neighbors).


Lemma reuse_run a mat rhs ndof rs states :
  Assembler.previous_mat a = mat ->
  Assembler.previous_rhs a = rhs ->
  (mat <> None -> Assembler.matrix_structure_reusable a = true) ->
  (rhs <> None -> Assembler.vector_structure_reusable a = true) ->
  prepare_sparse_structure a mat rhs ndof rs states []
  = (reuse_calls mat rhs ndof rs, Some (Assembler.with_previous a mat rhs, true)).
Proof.
  intros Hpm Hpr Hm Hv.
  unfold Assembler.prepare_sparse_structure,
    Assembler.zero_reused_matrix, Assembler.zero_reused_vector,
    Assembler.rebuild_matrix_if_stale, Assembler.alloc_vector_if_stale, reuse_calls.
  unfold mbind, Backend_bind, backend_bind, mret, Backend_ret, backend_ret, call, when.
  destruct mat as [m|], rhs as [v|];
    try pose proof (Hm ltac:(discriminate)) as Hm';
    try pose proof (Hv ltac:(discriminate)) as Hv';
    repeat first
      [ rewrite Hm' | rewrite Hv' | rewrite Hpm | rewrite Hpr
      | rewrite same_object_refl | rewrite andb_false_r
      | progress cbn [negb orb andb app Assembler.non_null]
      | progress cbv beta iota ];
    try (destruct (rs =? 0)); reflexivity.
Qed.

(** C10.  Whenever [prepare_sparse_structure] returns, it returns true,
    [previous_mat] and [previous_rhs] are the arguments just passed, the
    matrix (vector) flag is set if the matrix (vector) argument is not
    null, and a call that follows with the same objects makes the calls
    of the cheap path only and leaves the object as it is.  The call does
    return when the structure pass meets no fault. *)
Theorem prepare_sparse_structure_returns_true
    (a : Assembler.t) (mat rhs : option nat) (ndof rs : Z)
    (states : list Traverse.State) :
  (forall a' b,
     snd (prepare_sparse_structure a mat rhs ndof rs states []) = Some (a', b) ->
     b = true /\
     Assembler.previous_mat a' = mat /\
     Assembler.previous_rhs a' = rhs /\
     (mat <> None -> Assembler.matrix_structure_reusable a' = true) /\
     (rhs <> None -> Assembler.vector_structure_reusable a' = true) /\
     (forall ndof' rs' states',
        prepare_sparse_structure a' mat rhs ndof' rs' states' []
        = (reuse_calls mat rhs ndof' rs', Some (a', true)))) /\
  (plain_structure_pass a ->
   is_Some (snd (prepare_sparse_structure a mat rhs ndof rs states []))).
Proof.
  split.
  - intros a' b Hrun.
    pose proof (prepare_sparse_structure_returns eps get_element_assembly_list
                  get_neighbors _ _ _ _ _ _ _ _ Hrun) as (Hb & Hpm & Hpr & Hmr & Hvr).
    repeat (split; [assumption|]).
    intros ndof' rs' states'. rewrite (reuse_run a' mat rhs) by assumption.
    f_equal. f_equal. f_equal. destruct a'. cbn in Hpm, Hpr. subst. reflexivity.
  - apply prepare_sparse_structure_succeeds.
Qed.

End CacheProtocol.

Lemma prepare_sparse_structure_returns_true_witness :
  plain_structure_pass assembler_demo /\
  is_Some (snd (Assembler.prepare_sparse_structure eps_demo asmlist_demo neighbors_demo
                  assembler_demo (Some 7%nat) (Some 8%nat) 3 0 [state_demo] [])).
Proof.
  assert (H : plain_structure_pass assembler_demo).
  { split; [reflexivity|]. simpl. lia. }
  split; [exact H|].
  exact (proj2 (prepare_sparse_structure_returns_true eps_demo asmlist_demo neighbors_demo
                  assembler_demo (Some 7%nat) (Some 8%nat) 3 0 [state_demo]) H).
Defined.

(** The first call on the demo objects rebuilds and registers the four
    positions of the two unconstrained DOFs; the constrained DOF -1 is in
    none of them.  The call after it only zeroes. *)
Example prepare_sparse_structure_demo_log :
  fst (Assembler.prepare_sparse_structure eps_demo asmlist_demo neighbors_demo
         assembler_demo (Some 7%nat) (Some 8%nat) 3 0 [state_demo] [])
  = [mat_free 7; mat_prealloc 7 3;
     mat_pre_add_ij 7 0 0; mat_pre_add_ij 7 0 1;
     mat_pre_add_ij 7 1 0; mat_pre_add_ij 7 1 1;
     mat_alloc 7; vec_alloc 8 3].
Proof. vm_compute. reflexivity. Qed.

(** *** Essential boundary conditions: the marker scan *)

Lemma ushort_succ_small i : 0 <= i < 65535 -> EssentialBCs.ushort_succ i = i + 1.
Proof. intros H. unfold EssentialBCs.ushort_succ. apply Z.mod_small. lia. Qed.

Lemma ushort_succ_range i : 0 <= EssentialBCs.ushort_succ i < 65536.
Proof. unfold EssentialBCs.ushort_succ. apply Z.mod_pos_bound. lia. Qed.

Lemma string_eqb_false (a b : string) : a <> b -> String.eqb a b = false.
Proof. intros H. destruct (String.eqb_spec a b); [contradiction|reflexivity]. Qed.

(** With 65536 markers and none equal to the one sought, the index wraps
    from 65535 to 0 and the loop never ends. *)
Lemma scan_markers_hangs (markers : list string) (marker : string) :
  length markers = Z.to_nat 65536 -> marker ∉ markers ->
  forall fuel i, 0 <= i < 65536 -> EssentialBCs.scan_markers fuel markers marker i = None.
Proof.
  intros Hlen Hnot. induction fuel as [|fuel IH]; intros i Hi; [reflexivity|].
  cbn [EssentialBCs.scan_markers].
  destruct (Z.ltb_spec i (Z.of_nat (length markers))) as [_|Hge]; [|rewrite Hlen in Hge; lia].
  destruct (markers !! Z.to_nat i) as [m|] eqn:Hm; [|reflexivity].
  rewrite string_eqb_false.
  - apply IH, ushort_succ_range.
  - intros ->. apply Hnot. eapply list_elem_of_lookup_2. exact Hm.
Qed.

(** When the loop runs to its end, the marker is not in the list from
    where the loop started, and the list is shorter than 2^16. *)
Lemma scan_markers_end (markers : list string) (marker : string) :
  forall fuel i, 0 <= i < 65536 ->
    EssentialBCs.scan_markers fuel markers marker i = Some None ->
    (Z.of_nat (length markers) < 65536) /\
    forall k m, (Z.to_nat i <= k)%nat -> markers !! k = Some m -> m <> marker.
Proof.
  induction fuel as [|fuel IH]; intros i Hi Hrun; [discriminate|].
  cbn [EssentialBCs.scan_markers] in Hrun.
  destruct (Z.ltb_spec i (Z.of_nat (length markers))) as [Hlt|Hge].
  - destruct (markers !! Z.to_nat i) as [m|] eqn:Hm; [|discriminate].
    destruct (String.eqb_spec m marker) as [->|Hne]; [discriminate|].
    destruct (Z.eq_dec i 65535) as [->|Hi'].
    + destruct (IH _ (ushort_succ_range 65535) Hrun) as [Hlen _]. lia.
    + rewrite ushort_succ_small in Hrun by lia.
      destruct (IH (i + 1) ltac:(lia) Hrun) as [Hlen Hrest].
      split; [exact Hlen|]. intros k m' Hk Hm'.
      destruct (Nat.eq_dec k (Z.to_nat i)) as [->|Hk'].
      * rewrite Hm in Hm'. congruence.
      * apply (Hrest k m'); [lia|exact Hm'].
  - split; [lia|]. intros k m Hk Hm. apply lookup_lt_Some in Hm. lia.
Qed.

(** When the test succeeds, it does so at an index that holds the marker. *)
Lemma scan_markers_found (markers : list string) (marker : string) :
  forall fuel i k,
    EssentialBCs.scan_markers fuel markers marker i = Some (Some k) ->
    markers !! k = Some marker.
Proof.
  induction fuel as [|fuel IH]; intros i k Hrun; [discriminate|].
  cbn [EssentialBCs.scan_markers] in Hrun.
  destruct (i <? Z.of_nat (length markers)); [|discriminate].
  destruct (markers !! Z.to_nat i) as [m|] eqn:Hm; [|discriminate].
  destruct (String.eqb_spec m marker) as [->|Hne].
  - injection Hrun as <-. exact Hm.
  - eapply IH. exact Hrun.
Qed.

(** Below 2^16 markers the loop ends within [length markers + 1] turns. *)
Lemma scan_markers_returns (markers : list string) (marker : string) :
  Z.of_nat (length markers) < 65536 ->
  forall fuel i, 0 <= i <= Z.of_nat (length markers) ->
    (length markers - Z.to_nat i < fuel)%nat ->
    exists r, EssentialBCs.scan_markers fuel markers marker i = Some r.
Proof.
  intros Hlen. induction fuel as [|fuel IH]; intros i Hi Hfuel; [lia|].
  cbn [EssentialBCs.scan_markers].
  destruct (Z.ltb_spec i (Z.of_nat (length markers))) as [Hlt|Hge]; [|eauto].
  destruct (lookup_lt_is_Some_2 markers (Z.to_nat i)) as [m Hm]; [lia|]. rewrite Hm.
  destruct (String.eqb m marker); [eauto|].
  rewrite ushort_succ_small by lia. apply IH; lia.
Qed.

(** *** Essential boundary conditions: registration *)

Section MarkerCache.
Variable ANY : string.
Variable fuel : nat.


Lemma for_outcome_app {S A : Type} (body : S -> A -> outcome S) (l1 l2 : list A) : forall s,
  EssentialBCs.for_outcome body s (l1 ++ l2) =
  match EssentialBCs.for_outcome body s l1 with
  | Returns s' => EssentialBCs.for_outcome body s' l2
  | Throws s' => Throws s'
  | OutOfFuel => OutOfFuel
  end.
Proof.
  induction l1 as [|x l1 IH]; intros s; simpl; [reflexivity|].
  destruct (body s x); [apply IH|reflexivity|reflexivity].
Qed.

(** The two nested loops visit the pairs of [marker_pairs] in order. *)
Lemma nested_loops_flat (all : list EssentialBoundaryCondition.t) : forall st,
  EssentialBCs.for_outcome
    (fun st bc => EssentialBCs.for_outcome (EssentialBCs.cache_marker ANY fuel bc) st
                    (EssentialBoundaryCondition.markers bc)) st all
  = EssentialBCs.for_outcome (cache_step ANY fuel) st (marker_pairs all).
Proof.
  induction all as [|bc all IH]; intros st; [reflexivity|].
  cbn [EssentialBCs.for_outcome marker_pairs flat_map].
  rewrite for_outcome_app.
  assert (Hinner : forall ms st0,
            EssentialBCs.for_outcome (EssentialBCs.cache_marker ANY fuel bc) st0 ms
            = EssentialBCs.for_outcome (cache_step ANY fuel) st0 (map (fun m => (bc, m)) ms)).
  { induction ms as [|m ms IHm]; intros st0; [reflexivity|]. simpl. unfold cache_step at 1. simpl.
    destruct (EssentialBCs.cache_marker ANY fuel bc st0 m); [apply IHm|reflexivity|reflexivity]. }
  rewrite Hinner.
  destruct (EssentialBCs.for_outcome (cache_step ANY fuel) st _); [apply IH|reflexivity|reflexivity].
Qed.

(** A loop that returns either met no wildcard, and then pushed every
    marker after finding it absent, or met the wildcard as its only marker. *)
Lemma cache_loop_returns (ps : list (EssentialBoundaryCondition.t * string)) :
  forall lo s lo' s',
    EssentialBCs.hermes_any_set lo = false ->
    EssentialBCs.for_outcome (cache_step ANY fuel) (lo, s) ps = Returns (lo', s') ->
    (Forall (fun p => snd p <> ANY) ps /\
     EssentialBCs.markers s' = EssentialBCs.markers s ++ map snd ps /\
     EssentialBCs.BCs s' = EssentialBCs.BCs s ++ map fst ps /\
     EssentialBCs.HermesAnyBC s' = EssentialBCs.HermesAnyBC s /\
     EssentialBCs.all s' = EssentialBCs.all s /\
     (NoDup (EssentialBCs.markers s) -> NoDup (EssentialBCs.markers s')))
    \/
    (exists bc, ps = [(bc, ANY)] /\ EssentialBCs.any_set lo = None /\
                EssentialBCs.HermesAnyBC s' = Some bc /\
                EssentialBCs.all s' = EssentialBCs.all s).
Proof.
  induction ps as [|[bc m] ps IH]; intros lo s lo' s' Hany Hrun.
  - simpl in Hrun. injection Hrun as <- <-. left.
    rewrite !app_nil_r. repeat (split; [constructor || reflexivity|]). auto.
  - cbn [EssentialBCs.for_outcome] in Hrun. unfold cache_step at 1 in Hrun.
    cbn [fst snd EssentialBCs.cache_marker] in Hrun. rewrite Hany in Hrun.
    destruct (String.eqb_spec m ANY) as [->|Hne].
    + destruct (EssentialBCs.any_set lo) eqn:Hset; [discriminate|].
      destruct ps as [|[bc2 m2] ps].
      * simpl in Hrun. injection Hrun as <- <-. right. exists bc. auto.
      * cbn [EssentialBCs.for_outcome] in Hrun. unfold cache_step at 1 in Hrun.
        cbn [fst snd EssentialBCs.cache_marker EssentialBCs.hermes_any_set] in Hrun.
        discriminate.
    + destruct (EssentialBCs.scan_markers fuel (EssentialBCs.markers s) m 0)
        as [[k|]|] eqn:Hscan; [discriminate| |discriminate].
      eapply IH in Hrun; [|reflexivity].
      destruct Hrun as [(Hall & Hm & Hb & Ha & Hl & Hnd)|(bc2 & _ & Hset & _)];
        [|discriminate].
      left. cbn [EssentialBCs.markers EssentialBCs.BCs EssentialBCs.HermesAnyBC
                 EssentialBCs.all] in *.
      split; [constructor; [exact Hne|exact Hall]|].
      split; [rewrite Hm, <- app_assoc; reflexivity|].
      split; [rewrite Hb, <- app_assoc; reflexivity|].
      split; [exact Ha|]. split; [exact Hl|].
      intros Hnd0. apply Hnd. apply NoDup_app. split; [exact Hnd0|].
      split; [|apply NoDup_singleton].
      intros x Hx Hx'. apply list_elem_of_singleton in Hx'. subst x.
      destruct (scan_markers_end _ _ _ 0 ltac:(lia) Hscan) as [_ Hnot].
      apply list_elem_of_lookup_1 in Hx as [k Hk].
      apply (Hnot k m); [lia|exact Hk|reflexivity].
Qed.

(** Distinct markers, none of them the wildcard and at most 2^16 of them,
    are registered without exception, given fuel for the longest scan. *)
Lemma cache_loop_succeeds (ps : list (EssentialBoundaryCondition.t * string)) :
  forall lo s,
    EssentialBCs.hermes_any_set lo = false ->
    Forall (fun p => snd p <> ANY) ps ->
    NoDup (EssentialBCs.markers s ++ map snd ps) ->
    Z.of_nat (length (EssentialBCs.markers s)) + Z.of_nat (length ps) <= 65536 ->
    (Z.to_nat 65536 < fuel)%nat ->
    exists lo',
      EssentialBCs.for_outcome (cache_step ANY fuel) (lo, s) ps =
      Returns (lo', {| EssentialBCs.all := EssentialBCs.all s;
                       EssentialBCs.markers := EssentialBCs.markers s ++ map snd ps;
                       EssentialBCs.BCs := EssentialBCs.BCs s ++ map fst ps;
                       EssentialBCs.HermesAnyBC := EssentialBCs.HermesAnyBC s |}).
Proof.
  induction ps as [|[bc m] ps IH]; intros lo s Hany Hall Hnd Hlen Hfuel.
  - exists lo. simpl. rewrite !app_nil_r. destruct s; reflexivity.
  - apply Forall_cons in Hall as [Hne Hall]. simpl in Hne.
    cbn [EssentialBCs.for_outcome]. unfold cache_step at 1.
    cbn [fst snd EssentialBCs.cache_marker]. rewrite Hany.
    rewrite (string_eqb_false m ANY Hne).
    simpl length in Hlen.
    destruct (scan_markers_returns (EssentialBCs.markers s) m ltac:(lia) fuel 0)
      as [r Hr]; [lia|lia|]. rewrite Hr.
    destruct r as [k|].
    + exfalso. apply scan_markers_found in Hr.
      apply NoDup_app in Hnd as (_ & Hdisj & _).
      apply (Hdisj m); [eapply list_elem_of_lookup_2; exact Hr|simpl; left].
    + match goal with |- context [EssentialBCs.for_outcome (cache_step ANY fuel) (?lo1, ?s1) ps] =>
        destruct (IH lo1 s1) as [lo' Hlo']
      end.
      * reflexivity.
      * exact Hall.
      * cbn [EssentialBCs.markers]. rewrite <- app_assoc. exact Hnd.
      * cbn [EssentialBCs.markers]. rewrite length_app. simpl length. lia.
      * exact Hfuel.
      * exists lo'. rewrite Hlo'. cbn [EssentialBCs.markers EssentialBCs.BCs
          EssentialBCs.all EssentialBCs.HermesAnyBC]. simpl map.
        rewrite <- !app_assoc. reflexivity.
Qed.

(** What a constructor call that returns has built. *)
Lemma construct_returns (bcs : list EssentialBoundaryCondition.t) (s : EssentialBCs.t) :
  EssentialBCs.construct ANY fuel bcs = Returns s ->
  (Forall (fun p => snd p <> ANY) (marker_pairs bcs) /\
   EssentialBCs.markers s = map snd (marker_pairs bcs) /\
   EssentialBCs.BCs s = map fst (marker_pairs bcs) /\
   EssentialBCs.HermesAnyBC s = None /\
   NoDup (map snd (marker_pairs bcs)))
  \/
  (exists bc, marker_pairs bcs = [(bc, ANY)] /\ EssentialBCs.HermesAnyBC s = Some bc).
Proof.
  unfold EssentialBCs.construct, EssentialBCs.add_boundary_conditions,
    EssentialBCs.create_marker_cache.
  cbn [EssentialBCs.all EssentialBCs.empty EssentialBCs.HermesAnyBC app].
  rewrite nested_loops_flat.
  destruct (EssentialBCs.for_outcome (cache_step ANY fuel) _ (marker_pairs bcs)) as [[lo' s']| [? ?] |] eqn:Hrun;
    [|discriminate|discriminate].
  intros [= <-].
  apply cache_loop_returns in Hrun; [|reflexivity].
  destruct Hrun as [(Hall & Hm & Hb & Ha & _ & Hnd)|(bc & Hps & _ & Ha & _)].
  - left. cbn in Hm, Hb, Ha, Hnd.
    split; [exact Hall|]. split; [exact Hm|]. split; [exact Hb|]. split; [exact Ha|].
    rewrite <- Hm. apply Hnd. constructor.
  - right. exists bc. auto.
Qed.

End MarkerCache.

(** *** Essential boundary conditions: the lookup *)

Lemma lists_marker_true m bc :
  lists_marker m bc = true <-> m ∈ EssentialBoundaryCondition.markers bc.
Proof.
  unfold lists_marker. rewrite existsb_exists. split.
  - intros (x & Hx & Heq). apply String.eqb_eq in Heq. subst x. now apply list_elem_of_In.
  - intros H. exists m. split; [now apply list_elem_of_In|apply String.eqb_refl].
Qed.

Lemma marker_pairs_cons bc bcs :
  marker_pairs (bc :: bcs) =
  map (fun m => (bc, m)) (EssentialBoundaryCondition.markers bc) ++ marker_pairs bcs.
Proof. reflexivity. Qed.

Lemma snd_marker_pairs_cons bc bcs :
  map snd (marker_pairs (bc :: bcs)) =
  EssentialBoundaryCondition.markers bc ++ map snd (marker_pairs bcs).
Proof.
  rewrite marker_pairs_cons, map_app, map_map. simpl. now rewrite map_id.
Qed.

(** No condition lists a marker that is in no pair. *)
Lemma find_unlisted m bcs :
  m ∉ map snd (marker_pairs bcs) -> find (lists_marker m) bcs = None.
Proof.
  induction bcs as [|bc bcs IH]; intros Hnot; [reflexivity|].
  rewrite snd_marker_pairs_cons in Hnot. apply not_elem_of_app in Hnot as [Hbc Hrest].
  simpl. destruct (lists_marker m bc) eqn:E; [|now apply IH].
  apply lists_marker_true in E. contradiction.
Qed.

(** With no marker listed twice, the condition of a pair is the one
    [find] meets first. *)
Lemma find_listed m bc bcs :
  NoDup (map snd (marker_pairs bcs)) -> (bc, m) ∈ marker_pairs bcs ->
  find (lists_marker m) bcs = Some bc.
Proof.
  induction bcs as [|b bcs IH]; intros Hnd Hin; [inversion Hin|].
  rewrite snd_marker_pairs_cons in Hnd. apply NoDup_app in Hnd as (_ & Hdisj & Hnd).
  rewrite marker_pairs_cons in Hin. apply elem_of_app in Hin as [Hin|Hin].
  - apply list_elem_of_In, in_map_iff in Hin as (m' & Heq & Hm).
    injection Heq as <- <-.
    simpl. rewrite (proj2 (lists_marker_true m' b)); [reflexivity|now apply list_elem_of_In].
  - simpl. destruct (lists_marker m b) eqn:E; [|now apply IH].
    apply lists_marker_true in E. exfalso. apply (Hdisj m E).
    apply list_elem_of_In, in_map_iff. exists (bc, m). split; [reflexivity|].
    now apply list_elem_of_In.
Qed.

Lemma find_single m bc bcs :
  marker_pairs bcs = [(bc, m)] -> find (lists_marker m) bcs = Some bc.
Proof.
  intros H. apply find_listed.
  - rewrite H. simpl. apply NoDup_singleton.
  - rewrite H. left.
Qed.

(** C9, up to the width of the loop counter.  For a container that its
    constructor has built, every answer [get_boundary_condition] returns
    is the one the claim gives; the constructor returns only when the
    wildcard is not mixed with other markers and no marker is listed twice;
    and with fewer than 2^16 markers the lookup does return. *)
Lemma get_boundary_condition_as_claimed (ANY : string) (fuel : nat)
    (bcs : list EssentialBoundaryCondition.t) (s : EssentialBCs.t) (marker : string) :
  EssentialBCs.construct ANY fuel bcs = Returns s ->
  (forall fuel' r,
     EssentialBCs.get_boundary_condition fuel' s marker = Some r ->
     r = claimed_condition ANY bcs marker) /\
  (Z.of_nat (length (EssentialBCs.markers s)) < 65536 ->
   exists r, EssentialBCs.get_boundary_condition
               (S (length (EssentialBCs.markers s))) s marker = Some r) /\
  ((exists bc, marker_pairs bcs = [(bc, ANY)]) \/
   (Forall (fun p => snd p <> ANY) (marker_pairs bcs) /\
    NoDup (map snd (marker_pairs bcs)))).
Proof.
  intros Hc. apply construct_returns in Hc.
  split; [|split].
  - intros fuel' r Hget. unfold EssentialBCs.get_boundary_condition in Hget.
    unfold claimed_condition.
    destruct Hc as [(Hall & Hm & Hb & Ha & Hnd)|(bc & Hps & Ha)].
    + rewrite Ha in Hget.
      rewrite find_unlisted.
      2:{ intros Hin. apply list_elem_of_In, in_map_iff in Hin as (p & Hp & Hin).
          rewrite Forall_forall in Hall. apply (Hall p); [now apply list_elem_of_In|exact Hp]. }
      destruct (EssentialBCs.scan_markers fuel' (EssentialBCs.markers s) marker 0)
        as [[k|]|] eqn:Hscan; [| |discriminate]; injection Hget as <-.
      * apply scan_markers_found in Hscan. rewrite Hm in Hscan. rewrite Hb.
        change (map ?f ?l) with (f <$> l) in *.
        rewrite list_lookup_fmap in Hscan. rewrite list_lookup_fmap.
        destruct (marker_pairs bcs !! k) as [[bc m]|] eqn:Hk; [|discriminate].
        simpl in Hscan. injection Hscan as ->. simpl.
        symmetry. apply find_listed; [exact Hnd|].
        eapply list_elem_of_lookup_2. exact Hk.
      * symmetry. apply find_unlisted. rewrite <- Hm. intros Hin.
        apply list_elem_of_lookup_1 in Hin as [k Hk].
        destruct (scan_markers_end _ _ _ 0 ltac:(lia) Hscan) as [_ Hnot].
        apply (Hnot k marker); [lia|exact Hk|reflexivity].
    + rewrite Ha in Hget. injection Hget as <-.
      now rewrite (find_single _ _ _ Hps).
  - intros Hlen. unfold EssentialBCs.get_boundary_condition.
    destruct (EssentialBCs.HermesAnyBC s); [eauto|].
    destruct (scan_markers_returns (EssentialBCs.markers s) marker Hlen
                (S (length (EssentialBCs.markers s))) 0) as [r Hr]; [lia|lia|].
    rewrite Hr. destruct r; eauto.
  - destruct Hc as [(Hall & _ & _ & _ & Hnd)|(bc & Hps & _)]; [right|left]; eauto.
Qed.

(** *** A container with 2^16 markers *)

Lemma marker_of_nat_inj k k' :
  (k < Z.to_nat 65536)%nat -> (k' < Z.to_nat 65536)%nat ->
  marker_of_nat k = marker_of_nat k' -> k = k'.
Proof.
  intros Hk Hk' H. unfold marker_of_nat in H.
  assert (Hq : Ascii.ascii_of_nat (k / 256) = Ascii.ascii_of_nat (k' / 256)) by congruence.
  assert (Hr : Ascii.ascii_of_nat (k mod 256) = Ascii.ascii_of_nat (k' mod 256)) by congruence.
  apply (f_equal Ascii.nat_of_ascii) in Hq, Hr.
  assert (Hb : forall n, (n < Z.to_nat 65536)%nat -> (n / 256 < 256)%nat).
  { intros n Hn. apply Nat.Div0.div_lt_upper_bound. lia. }
  assert (Hm : forall n, (n mod 256 < 256)%nat).
  { intros n. apply Nat.mod_upper_bound. lia. }
  rewrite !Ascii.nat_ascii_embedding in Hq by auto.
  rewrite !Ascii.nat_ascii_embedding in Hr by auto.
  rewrite (Nat.div_mod_eq k 256), (Nat.div_mod_eq k' 256). congruence.
Qed.

Lemma many_markers_length : length many_markers = Z.to_nat 65536.
Proof. unfold many_markers. now rewrite length_fmap, length_seq. Qed.

Lemma many_markers_two_chars m : m ∈ many_markers -> String.length m = 2%nat.
Proof.
  unfold many_markers. intros H. apply list_elem_of_fmap in H as (k & -> & _).
  reflexivity.
Qed.

Lemma many_markers_NoDup : NoDup many_markers.
Proof.
  unfold many_markers.
  apply NoDup_fmap_2_strong; [|apply NoDup_seq].
  intros k k' Hk Hk' Heq.
  apply list_elem_of_In, in_seq in Hk. apply list_elem_of_In, in_seq in Hk'.
  apply marker_of_nat_inj; [lia|lia|exact Heq].
Qed.

Lemma marker_pairs_bc_many :
  map snd (marker_pairs [bc_many]) = many_markers.
Proof.
  rewrite snd_marker_pairs_cons.
  cbn [marker_pairs flat_map map bc_many EssentialBoundaryCondition.markers].
  apply app_nil_r.
Qed.

(** C9 (the code departs from the claim).  One condition listing 65536
    distinct markers is registered without exception; the container then
    has no wildcard condition, [unlisted_marker] is listed by no condition,
    and the claim's answer for it is null; but the lookup returns nothing,
    whatever fuel it gets: the [unsigned short] index wraps to 0 before it
    can reach [markers.size()]. *)
Theorem get_boundary_condition_never_returns :
  exists s,
    EssentialBCs.construct any_demo (S (Z.to_nat 65536)) [bc_many] = Returns s /\
    EssentialBCs.HermesAnyBC s = None /\
    claimed_condition any_demo [bc_many] unlisted_marker = None /\
    forall fuel, EssentialBCs.get_boundary_condition fuel s unlisted_marker = None.
Proof.
  assert (Hany : Forall (fun p : EssentialBoundaryCondition.t * string => snd p <> any_demo)
                        (marker_pairs [bc_many])).
  { apply Forall_forall. intros [bc m] Hin Heq. simpl in Heq. subst m.
    assert (H : any_demo ∈ map snd (marker_pairs [bc_many])).
    { apply list_elem_of_In, in_map_iff. exists (bc, any_demo). split; [reflexivity|].
      now apply list_elem_of_In. }
    rewrite marker_pairs_bc_many in H. apply many_markers_two_chars in H. discriminate. }
  assert (Hun : unlisted_marker ∉ many_markers).
  { intros H. apply many_markers_two_chars in H. discriminate. }
  destruct (cache_loop_succeeds any_demo (S (Z.to_nat 65536)) (marker_pairs [bc_many])
              {| EssentialBCs.hermes_any_set := false; EssentialBCs.any_set := None |}
              {| EssentialBCs.all := [bc_many]; EssentialBCs.markers := [];
                 EssentialBCs.BCs := []; EssentialBCs.HermesAnyBC := None |})
    as [lo' Hrun].
  - reflexivity.
  - exact Hany.
  - cbn [EssentialBCs.markers app]. rewrite marker_pairs_bc_many. apply many_markers_NoDup.
  - cbn [EssentialBCs.markers]. rewrite <- (length_map snd), marker_pairs_bc_many,
      many_markers_length. cbn [length]. lia.
  - lia.
  - eexists. split; [|split; [|split]].
    + unfold EssentialBCs.construct, EssentialBCs.add_boundary_conditions,
        EssentialBCs.create_marker_cache.
      cbn [EssentialBCs.all EssentialBCs.empty EssentialBCs.HermesAnyBC app].
      rewrite nested_loops_flat, Hrun. reflexivity.
    + reflexivity.
    + unfold claimed_condition. rewrite !find_unlisted; [reflexivity| |].
      * now rewrite marker_pairs_bc_many.
      * rewrite marker_pairs_bc_many. intros H.
        apply many_markers_two_chars in H. discriminate.
    + intros fuel. unfold EssentialBCs.get_boundary_condition.
      cbn [EssentialBCs.HermesAnyBC EssentialBCs.markers app].
      rewrite marker_pairs_bc_many.
      rewrite (scan_markers_hangs many_markers unlisted_marker many_markers_length Hun);
        [reflexivity|lia].
Qed.

(** One marker fewer, and the same lookup returns null as claimed. *)
Example get_boundary_condition_small :
  EssentialBCs.construct any_demo 5 [EssentialBoundaryCondition.mk 0 ["wall"; "inlet"]%string]
  = Returns (EssentialBCs.mk [EssentialBoundaryCondition.mk 0 ["wall"; "inlet"]%string]
               ["wall"; "inlet"]%string
               [EssentialBoundaryCondition.mk 0 ["wall"; "inlet"]%string;
                EssentialBoundaryCondition.mk 0 ["wall"; "inlet"]%string] None) /\
  EssentialBCs.get_boundary_condition 5 bcs_demo "wall" =
    Some (Some (EssentialBoundaryCondition.mk 0 ["wall"%string])) /\
  EssentialBCs.get_boundary_condition 5 bcs_demo unlisted_marker = Some None.
Proof. repeat split; vm_compute; reflexivity. Qed.

(** Mixing the wildcard with a marker, in either order, and listing a
    marker twice end in an exception. *)
Example create_marker_cache_rejects :
  (exists s, EssentialBCs.construct any_demo 5
               [EssentialBoundaryCondition.mk 0 [any_demo];
                EssentialBoundaryCondition.mk 1 ["wall"%string]] = Throws s) /\
  (exists s, EssentialBCs.construct any_demo 5
               [EssentialBoundaryCondition.mk 0 ["wall"%string];
                EssentialBoundaryCondition.mk 1 [any_demo]] = Throws s) /\
  (exists s, EssentialBCs.construct any_demo 5
               [EssentialBoundaryCondition.mk 0 ["wall"%string];
                EssentialBoundaryCondition.mk 1 ["wall"%string]] = Throws s).
Proof. repeat split; eexists; vm_compute; reflexivity. Qed.

(** *** The Newton loop of rk_time_step *)

(** The loop ends: with a budget below [INT_MAX] its counter grows by one
    per turn and the second exit test fires once it is above both
    [newton_max_iter] and 1. *)
Lemma newton_loop_terminates {R : Type} {double_less : Less R}
    (run : RungeKutta.newton_run_over R) is_linear (tol : R) max_iter (max_norm : R) :
  max_iter < INT_MAX ->
  forall fuel it,
    1 <= it -> (Z.to_nat (Z.max max_iter 1 + 1 - it) < fuel)%nat ->
    exists r, RungeKutta.newton_loop fuel run is_linear tol max_iter max_norm it = Some r.
Proof.
  intros Hbudget.
  induction fuel as [|fuel IH]; intros it Hit Hfuel.
  - exfalso. lia.
  - cbn [RungeKutta.newton_loop].
    destruct (less max_norm (RungeKutta.residual_norm run it)); [eauto|].
    destruct (Z.gtb_spec it max_iter) as [Hgt|Hle];
      destruct (Z.gtb_spec it 1) as [Hgt1|Hle1];
      rewrite ?orb_true_r, ?andb_true_r, ?andb_false_r, ?orb_false_r; cbn [andb orb].
    + eauto.
    + destruct (RungeKutta.solve_ok run it); cbn [negb]; [|eauto].
      destruct is_linear; [eauto|].
      unfold int_add. rewrite int_wrap_small by (unfold INT_MAX in *; lia). apply IH; lia.
    + destruct (less (RungeKutta.residual_norm run it) tol); [eauto|].
      destruct (RungeKutta.solve_ok run it); cbn [negb]; [|eauto].
      destruct is_linear; [eauto|].
      unfold int_add. rewrite int_wrap_small by (unfold INT_MAX in *; lia). apply IH; lia.
    + destruct (RungeKutta.solve_ok run it); cbn [negb]; [|eauto].
      destruct is_linear; [eauto|].
      unfold int_add. rewrite int_wrap_small by (unfold INT_MAX in *; lia). apply IH; lia.
Qed.

(** Whenever the loop is left with the counter at [newton_max_iter], the
    step is reported as failed, whatever made the loop stop. *)
Lemma after_loop_at_budget max_iter :
  RungeKutta.after_loop max_iter max_iter = RungeKutta.returned false.
Proof. unfold RungeKutta.after_loop. rewrite (proj2 (Z.geb_le _ _)) by lia. reflexivity. Qed.

(** C8 (the code departs from the claim).  With [newton_max_iter = 3], a
    residual norm of 1 in turns 1 and 2 and of 0, below [newton_tol], in
    turn 3, the loop stops by convergence in turn 3, within the budget,
    yet [rk_time_step] returns false: the test after the loop is
    [it >= newton_max_iter] where the loop itself uses
    [it > newton_max_iter]. *)
Theorem rk_time_step_converged_at_budget_fails :
  RungeKutta.rk_time_step 10 true 1 false false run_demo false (1 # 1000) 3 10
  = Some (RungeKutta.returned false).
Proof. vm_compute. reflexivity. Qed.

(** The same run with one more turn allowed is a success. *)
Example rk_time_step_converged_below_budget :
  RungeKutta.rk_time_step 10 true 1 false false run_demo false (1 # 1000) 4 10
  = Some (RungeKutta.returned true).
Proof. vm_compute. reflexivity. Qed.

(** A linear problem stops after its first solve; with a budget of one
    turn that, too, is reported as failed. *)
Example rk_time_step_linear_budget_one :
  RungeKutta.rk_time_step 10 true 1 false false run_demo true (1 # 1000) 1 10
  = Some (RungeKutta.returned false).
Proof. vm_compute. reflexivity. Qed.

(** ** Part III: further properties of the code *)

(** *** Comparisons on the threshold *)

Lemma Qltb_false x y : Qltb x y = false <-> (y <= x)%Q.
Proof.
  unfold Qltb. rewrite negb_false_iff. apply Qle_bool_iff.
Qed.

(** A rational scaling factor that is neither below the threshold nor
    above it is at the threshold. *)
Lemma neither_below_nor_above eps sf :
  WeakForm.below_threshold eps sf = false -> WeakForm.above_threshold eps sf = false ->
  (Qabs sf == eps)%Q.
Proof.
  unfold WeakForm.below_threshold, WeakForm.above_threshold. intros Hb Ha.
  apply Qltb_false in Hb, Ha. now apply Qle_antisym.
Qed.

(** At the threshold a scaling factor is neither below nor above it. *)
Lemma at_threshold eps sf :
  (Qabs sf == eps)%Q ->
  WeakForm.below_threshold eps sf = false /\ WeakForm.above_threshold eps sf = false.
Proof.
  unfold WeakForm.below_threshold, WeakForm.above_threshold. intros H.
  split; apply Qltb_false; rewrite H; apply Qle_refl.
Qed.


(** *** The Newton loop: what a success report means *)

Section NewtonLoop.
Context {R : Type} {double_less : Less R}.
Variables (run : RungeKutta.newton_run_over R) (is_linear : bool) (tol : R)
  (max_iter : Z) (max_norm : R).

Local Abbreviation newton_loop fuel it :=
  (RungeKutta.newton_loop fuel run is_linear tol max_iter max_norm it).
Local Abbreviation goes_on k := (turn_goes_on run is_linear tol max_iter max_norm k).

(** One turn of the loop: it goes on, or the loop is left with a result
    which, when the result is a success, tells why it was left. *)
Lemma newton_loop_turn (fuel : nat) (it : Z) :
  if goes_on it
  then newton_loop (S fuel) it = newton_loop fuel (int_add it 1)
  else exists r, newton_loop (S fuel) it = Some r /\
       (r = RungeKutta.returned true ->
        it < max_iter /\
        less max_norm (RungeKutta.residual_norm run it) = false /\
        ((is_linear = true /\ RungeKutta.solve_ok run it = true) \/
         (1 < it /\ less (RungeKutta.residual_norm run it) tol = true))).
Proof.
  unfold turn_goes_on. cbn [RungeKutta.newton_loop].
  assert (Hafter : RungeKutta.after_loop it max_iter = RungeKutta.returned true ->
                   it < max_iter).
  { unfold RungeKutta.after_loop. destruct (Z.geb_spec it max_iter); [discriminate|lia]. }
  destruct (less max_norm (RungeKutta.residual_norm run it)) eqn:Emax; cbn [negb andb].
  { eexists. split; [reflexivity|discriminate]. }
  destruct ((less (RungeKutta.residual_norm run it) tol || (it >? max_iter)) && (it >? 1))
    eqn:Ebreak; cbn [negb andb].
  { eexists. split; [reflexivity|]. intros Hr. apply Hafter in Hr.
    apply andb_true_iff in Ebreak as [Ewhy Egt1]. apply Z.gtb_lt in Egt1.
    apply orb_true_iff in Ewhy as [Etol|Eover]; [|apply Z.gtb_lt in Eover; lia].
    split; [exact Hr|]. split; [reflexivity|]. right. split; [lia|exact Etol]. }
  destruct (RungeKutta.solve_ok run it) eqn:Esolve; cbn [negb andb].
  2:{ eexists. split; [reflexivity|discriminate]. }
  destruct is_linear; cbn [negb]; [|reflexivity].
  eexists. split; [reflexivity|]. intros Hr. apply Hafter in Hr. auto.
Qed.

Lemma goes_on_true (k : Z) :
  goes_on k = true ->
  less max_norm (RungeKutta.residual_norm run k) = false /\
  RungeKutta.solve_ok run k = true /\ is_linear = false.
Proof.
  unfold turn_goes_on. intros H.
  apply andb_true_iff in H as [H Hlin]. apply andb_true_iff in H as [H Hsolve].
  apply andb_true_iff in H as [Hmax _].
  apply negb_true_iff in Hmax, Hlin. auto.
Qed.

(** When every turn from 1 to [INT_MAX] goes on, the loop reports no
    success, from whatever counter: below 2 only a failure leaves it. *)
Lemma newton_loop_round_never_true :
  (forall k, 1 <= k <= INT_MAX -> goes_on k = true) ->
  forall fuel it, -2147483648 <= it <= INT_MAX ->
                  newton_loop fuel it <> Some (RungeKutta.returned true).
Proof.
  intros Hround. induction fuel as [|fuel IH]; intros it Hit; [discriminate|].
  pose proof (newton_loop_turn fuel it) as Hturn.
  destruct (goes_on it) eqn:Ego.
  - rewrite Hturn. apply IH, int_wrap_range.
  - destruct Hturn as (r & Hr & Hwhy). rewrite Hr. intros [= ->].
    destruct (Hwhy eq_refl) as (_ & _ & [[Hlin _]|[Hgt _]]).
    + destruct (goes_on_true 1 (Hround 1 ltac:(unfold INT_MAX; lia))) as (_ & _ & Hnl).
      congruence.
    + rewrite Hround in Ego by lia. discriminate.
Qed.

(** A loop entered at turn [it], after turns that all went on, that
    reports success was left at a turn [last] below the budget, after
    turns in which the test for the allowed maximum did not fire and the
    solves succeeded; it was left because the problem is linear, or in a
    turn after the first in which the test for the tolerance fired. *)
Lemma newton_loop_true :
  forall fuel it,
    1 <= it <= INT_MAX ->
    (forall k, 1 <= k < it -> goes_on k = true) ->
    newton_loop fuel it = Some (RungeKutta.returned true) ->
    exists last,
      it <= last < max_iter /\
      (forall k, it <= k <= last ->
                 less max_norm (RungeKutta.residual_norm run k) = false) /\
      (forall k, it <= k < last -> RungeKutta.solve_ok run k = true) /\
      (is_linear = true -> last = it) /\
      ((is_linear = true /\ RungeKutta.solve_ok run last = true) \/
       (1 < last /\ less (RungeKutta.residual_norm run last) tol = true)).
Proof.
  induction fuel as [|fuel IH]; intros it Hit Hbefore Hrun; [discriminate|].
  pose proof (newton_loop_turn fuel it) as Hturn.
  destruct (goes_on it) eqn:Ego.
  - rewrite Hturn in Hrun.
    destruct (goes_on_true it Ego) as (Hmax & Hsolve & Hnl).
    assert (Hhistory : forall k, 1 <= k < it + 1 -> goes_on k = true).
    { intros k Hk. destruct (Z.eq_dec k it) as [->|Hne]; [exact Ego|]. apply Hbefore. lia. }
    destruct (Z.eq_dec it INT_MAX) as [Htop|Hbelow].
    + exfalso. apply (newton_loop_round_never_true) with (fuel := fuel) (it := int_add it 1).
      * intros k Hk. apply Hhistory. lia.
      * apply int_wrap_range.
      * exact Hrun.
    + unfold int_add in Hrun.
      rewrite int_wrap_small in Hrun by (unfold INT_MAX in *; lia).
      apply IH in Hrun as (last & Hlast & Hres & Hsolves & _ & Hwhy);
        [|lia|exact Hhistory].
      exists last. split; [lia|]. split; [|split; [|split]].
      * intros k Hk. destruct (Z.eq_dec k it) as [->|Hne]; [exact Hmax|]. apply Hres. lia.
      * intros k Hk. destruct (Z.eq_dec k it) as [->|Hne]; [exact Hsolve|].
        apply Hsolves. lia.
      * congruence.
      * destruct Hwhy as [(Hlin & _)|Hwhy]; [congruence|]. right. exact Hwhy.
  - destruct Hturn as (r & Hr & Hwhy). rewrite Hr in Hrun. injection Hrun as ->.
    destruct (Hwhy eq_refl) as (Hbudget & Hmax & Hleft).
    exists it. split; [lia|]. split; [|split; [|split]].
    + intros k Hk. assert (k = it) by lia. subst k. exact Hmax.
    + intros k Hk. lia.
    + reflexivity.
    + exact Hleft.
Qed.

End NewtonLoop.

(** X1 (success is sound).  [rk_time_step] returns true only after a Newton
    loop that ended below the iteration budget, in every turn of which the
    test [residual_norm > newton_max_allowed_residual_norm] came out false
    and every solve before the last turn succeeded: for a linear problem
    after the one solve of turn 1, otherwise in a turn [last >= 2] in which
    the test [residual_norm < newton_tol] came out true.  This holds for
    the comparison of the rationals and for that of the doubles, where a
    NaN norm fails both tests. *)
Theorem rk_time_step_true_means_converged {R : Type} {double_less : Less R}
    (fuel : nat) (solver_is_umfpack : bool) (neq : nat) (error_fn_given bt_is_embedded : bool)
    (run : RungeKutta.newton_run_over R) (is_linear : bool) (newton_tol : R)
    (newton_max_iter : Z) (newton_max_allowed_residual_norm : R) :
  RungeKutta.rk_time_step fuel solver_is_umfpack neq error_fn_given bt_is_embedded run
    is_linear newton_tol newton_max_iter newton_max_allowed_residual_norm
  = Some (RungeKutta.returned true) ->
  exists last,
    1 <= last < newton_max_iter /\
    (forall k, 1 <= k <= last ->
       less newton_max_allowed_residual_norm (RungeKutta.residual_norm run k) = false) /\
    (forall k, 1 <= k < last -> RungeKutta.solve_ok run k = true) /\
    if is_linear
    then last = 1 /\ RungeKutta.solve_ok run 1 = true
    else 2 <= last /\ less (RungeKutta.residual_norm run last) newton_tol = true.
Proof.
  unfold RungeKutta.rk_time_step. intros Hrun.
  destruct (negb solver_is_umfpack); [discriminate|].
  destruct (1 <? neq)%nat; [discriminate|].
  destruct (error_fn_given && negb bt_is_embedded); [discriminate|].
  apply newton_loop_true in Hrun as (last & Hlast & Hres & Hsolve & Hlin & Hwhy);
    [|unfold INT_MAX; lia|intros k Hk; lia].
  exists last. split; [exact Hlast|]. split; [exact Hres|]. split; [exact Hsolve|].
  destruct is_linear.
  - specialize (Hlin eq_refl). subst last. split; [reflexivity|].
    destruct Hwhy as [[_ Hok]|[Hgt _]]; [exact Hok|lia].
  - destruct Hwhy as [(Hl & _)|[Hgt Htol]]; [discriminate|]. split; [lia|exact Htol].
Qed.

Lemma rk_time_step_true_means_converged_witness :
  RungeKutta.rk_time_step 10 true 1 false false run_double_demo false
    0x1p-10%float 4 0x1.4p3%float
  = Some (RungeKutta.returned true) /\
  exists last,
    1 <= last < 4 /\
    (forall k, 1 <= k <= last ->
       less 0x1.4p3%float (RungeKutta.residual_norm run_double_demo k) = false) /\
    (forall k, 1 <= k < last -> RungeKutta.solve_ok run_double_demo k = true) /\
    (2 <= last /\ less (RungeKutta.residual_norm run_double_demo last) 0x1p-10%float = true).
Proof.
  assert (H : RungeKutta.rk_time_step 10 true 1 false false run_double_demo false
                0x1p-10%float 4 0x1.4p3%float
              = Some (RungeKutta.returned true)) by (vm_compute; reflexivity).
  split; [exact H|].
  exact (rk_time_step_true_means_converged 10 true 1 false false run_double_demo false
           0x1p-10%float 4 0x1.4p3%float H).
Defined.

(** Over the rationals a test that came out false is the opposite
    inequality: there the residual norms of a successful step are within
    the allowed maximum. *)
Lemma rk_time_step_true_rational_norms
    (fuel : nat) (solver_is_umfpack : bool) (neq : nat) (error_fn_given bt_is_embedded : bool)
    (run : RungeKutta.newton_run) (newton_tol : Q)
    (newton_max_iter : Z) (newton_max_allowed_residual_norm : Q) :
  RungeKutta.rk_time_step fuel solver_is_umfpack neq error_fn_given bt_is_embedded run
    false newton_tol newton_max_iter newton_max_allowed_residual_norm
  = Some (RungeKutta.returned true) ->
  exists last,
    2 <= last < newton_max_iter /\
    (forall k, 1 <= k <= last ->
       (RungeKutta.residual_norm run k <= newton_max_allowed_residual_norm)%Q) /\
    (RungeKutta.residual_norm run last < newton_tol)%Q.
Proof.
  unfold RungeKutta.rk_time_step. intros Hrun.
  destruct (negb solver_is_umfpack); [discriminate|].
  destruct (1 <? neq)%nat; [discriminate|].
  destruct (error_fn_given && negb bt_is_embedded); [discriminate|].
  apply newton_loop_true in Hrun as (last & Hlast & Hres & _ & _ & Hwhy);
    [|unfold INT_MAX; lia|intros k Hk; lia].
  destruct Hwhy as [(Hl & _)|[Hgt Htol]]; [discriminate|].
  exists last. split; [lia|]. split.
  - intros k Hk. apply Qltb_false, Hres, Hk.
  - apply Qltb_true, Htol.
Qed.

(** A linear problem whose residual norm is NaN is reported as solved:
    the NaN passes the test for the allowed maximum. *)
Example rk_time_step_nan_residual_linear :
  RungeKutta.rk_time_step 10 true 1 false false run_nan_demo true
    0x1p-10%float 4 0x1.4p3%float
  = Some (RungeKutta.returned true).
Proof. vm_compute. reflexivity. Qed.

(** X2 (a budget of one turn).  With [newton_max_iter <= 1] no call of
    [rk_time_step] reports success, and with [newton_max_iter <= 2] no call
    for a problem that is not declared linear does: the loop is left in
    turn 1 at the earliest (linear) or turn 2 (otherwise), and the test
    after the loop fails every turn that is not below the budget. *)
Theorem rk_time_step_small_budget_never_succeeds
    (fuel : nat) (solver_is_umfpack : bool) (neq : nat) (error_fn_given bt_is_embedded : bool)
    (run : RungeKutta.newton_run) (is_linear : bool) (newton_tol : Q)
    (newton_max_iter : Z) (newton_max_allowed_residual_norm : Q) :
  newton_max_iter <= 1 \/ (is_linear = false /\ newton_max_iter <= 2) ->
  RungeKutta.rk_time_step fuel solver_is_umfpack neq error_fn_given bt_is_embedded run
    is_linear newton_tol newton_max_iter newton_max_allowed_residual_norm
  <> Some (RungeKutta.returned true).
Proof.
  intros Hbudget Hrun. unfold RungeKutta.rk_time_step in Hrun.
  destruct (negb solver_is_umfpack); [discriminate|].
  destruct (1 <? neq)%nat; [discriminate|].
  destruct (error_fn_given && negb bt_is_embedded); [discriminate|].
  apply newton_loop_true in Hrun as (last & Hlast & _ & _ & _ & Hwhy);
    [|unfold INT_MAX; lia|intros k Hk; lia].
  destruct Hbudget as [Hone|[Hnl Htwo]]; [lia|].
  destruct Hwhy as [[Hl _]|[Hgt _]]; [congruence|lia].
Qed.

Lemma rk_time_step_small_budget_never_succeeds_witness :
  (1 <= 1 \/ (true = false /\ 1 <= 2)) /\
  RungeKutta.rk_time_step 10 true 1 false false run_demo true (1 # 1000) 1 10
  <> Some (RungeKutta.returned true).
Proof.
  assert (H : 1 <= 1 \/ (true = false /\ 1 <= 2)) by (left; lia).
  split; [exact H|].
  exact (rk_time_step_small_budget_never_succeeds 10 true 1 false false run_demo true
           (1 # 1000) 1 10 H).
Defined.

(** X3 (the loop ends).  With a budget [newton_max_iter] below [INT_MAX],
    so that the counter [it] cannot overflow, every call of [rk_time_step]
    comes to an end within [max(newton_max_iter, 1) + 1] turns of the
    Newton loop: by a return or by a fatal error. *)
Theorem rk_time_step_ends {R : Type} {double_less : Less R}
    (fuel : nat) (solver_is_umfpack : bool) (neq : nat) (error_fn_given bt_is_embedded : bool)
    (run : RungeKutta.newton_run_over R) (is_linear : bool) (newton_tol : R)
    (newton_max_iter : Z) (newton_max_allowed_residual_norm : R) :
  newton_max_iter < INT_MAX ->
  (Z.to_nat (Z.max newton_max_iter 1) < fuel)%nat ->
  exists r,
    RungeKutta.rk_time_step fuel solver_is_umfpack neq error_fn_given bt_is_embedded run
      is_linear newton_tol newton_max_iter newton_max_allowed_residual_norm = Some r.
Proof.
  intros Hbudget Hfuel. unfold RungeKutta.rk_time_step.
  destruct (negb solver_is_umfpack); [eauto|].
  destruct (1 <? neq)%nat; [eauto|].
  destruct (error_fn_given && negb bt_is_embedded); [eauto|].
  apply newton_loop_terminates; [exact Hbudget|lia|].
  replace (Z.max newton_max_iter 1 + 1 - 1) with (Z.max newton_max_iter 1) by lia.
  exact Hfuel.
Qed.

Lemma rk_time_step_ends_witness :
  3 < INT_MAX /\ (Z.to_nat (Z.max 3 1) < 4)%nat /\
  RungeKutta.rk_time_step 4 true 1 false false run_demo false (1 # 1000) 3 10
  = Some (RungeKutta.returned false) /\
  exists r, RungeKutta.rk_time_step 4 true 1 false false run_nan_demo false
              0x1p-10%float 3 0x1.4p3%float = Some r.
Proof.
  assert (H0 : 3 < INT_MAX) by (unfold INT_MAX; lia).
  assert (H : (Z.to_nat (Z.max 3 1) < 4)%nat) by (vm_compute; lia).
  split; [exact H0|]. split; [exact H|]. split; [vm_compute; reflexivity|].
  exact (rk_time_step_ends 4 true 1 false false run_nan_demo false
           0x1p-10%float 3 0x1.4p3%float H0 H).
Defined.

(** *** The new time level and the error estimate of an embedded pair *)

(** Three runs of the loop over the stages, for the B-row, the B2-row and
    their difference, keep [e * h == u - u2] between their accumulators. *)
Lemma add_stages_difference (h : Q) (B B2 : nat -> Q) (ndof : nat) (K_vector : list Q) (i : nat) :
  forall (js : list nat) (u u2 e : Q),
    Forall (fun j => (j * ndof + i < length K_vector)%nat) js ->
    (e * h == u - u2)%Q ->
    exists u' u2' e',
      foldlM (fun acc j =>
                match K_vector !! (j * ndof + i)%nat with
                | Some k => Some (acc + (h * B j) * k)%Q
                | None => None
                end) u js = Some u' /\
      foldlM (fun acc j =>
                match K_vector !! (j * ndof + i)%nat with
                | Some k => Some (acc + (h * B2 j) * k)%Q
                | None => None
                end) u2 js = Some u2' /\
      foldlM (fun acc j =>
                match K_vector !! (j * ndof + i)%nat with
                | Some k => Some (acc + (B j - B2 j) * k)%Q
                | None => None
                end) e js = Some e' /\
      (e' * h == u' - u2')%Q.
Proof.
  induction js as [|j js IH]; intros u u2 e Hin Heq.
  - exists u, u2, e. repeat split; assumption.
  - apply Forall_cons in Hin as [Hj Hin]. cbn [foldlM].
    destruct (lookup_lt_is_Some_2 K_vector _ Hj) as [k Hk]. rewrite Hk.
    apply IH; [exact Hin|].
    assert (E : ((e + (B j - B2 j) * k) * h == e * h + (B j - B2 j) * k * h)%Q) by ring.
    rewrite E, Heq. ring.
Qed.

(** X4 (embedded pair).  When [K_vector] holds [num_stages * ndof] entries
    and [coeff_vec] holds [ndof], the three loops read inside their arrays,
    and the temporal error estimate written for [error_fn] is, entry by
    entry, the new time level of the method minus the new time level that
    the B2-row gives from the same stages. *)
Theorem error_estimate_is_difference_of_pair
    (time_step : Q) (bt : ButcherTable.t) (ndof : nat) (K_vector coeff_vec : list Q) :
  length K_vector = (ButcherTable.get_size bt * ndof)%nat ->
  length coeff_vec = ndof ->
  exists u u2 e,
    StageVectors.new_time_level time_step bt ndof K_vector coeff_vec = Some u /\
    StageVectors.new_time_level time_step (second_method bt) ndof K_vector coeff_vec
    = Some u2 /\
    StageVectors.temporal_error_estimate time_step bt ndof K_vector = Some e /\
    length u = ndof /\ length u2 = ndof /\ length e = ndof /\
    forall i ui u2i ei,
      u !! i = Some ui -> u2 !! i = Some u2i -> e !! i = Some ei ->
      (ei == ui - u2i)%Q.
Proof.
  intros HK Hc.
  assert (Hstep : forall i, (i < ndof)%nat ->
            exists c ui u2i ei,
              coeff_vec !! i = Some c /\
              StageVectors.add_stages (ButcherTable.get_size bt) ndof
                (fun j => time_step * ButcherTable.get_B bt j)%Q K_vector i c = Some ui /\
              StageVectors.add_stages (ButcherTable.get_size bt) ndof
                (fun j => time_step * ButcherTable.get_B2 bt j)%Q K_vector i c = Some u2i /\
              StageVectors.add_stages (ButcherTable.get_size bt) ndof
                (fun j => ButcherTable.get_B bt j - ButcherTable.get_B2 bt j)%Q K_vector i 0
              = Some ei /\
              (ei * time_step == ui - u2i)%Q).
  { intros i Hi.
    destruct (lookup_lt_is_Some_2 coeff_vec i) as [c Hci]; [lia|].
    destruct (add_stages_difference time_step (ButcherTable.get_B bt)
                (ButcherTable.get_B2 bt) ndof K_vector i
                (seq 0 (ButcherTable.get_size bt)) c c 0)
      as (ui & u2i & ei & H1 & H2 & H3 & H4).
    - apply Forall_forall. intros j Hj. apply elem_of_seq in Hj. rewrite HK. nia.
    - ring.
    - exists c, ui, u2i, ei. auto. }
  clear HK Hc.
  unfold StageVectors.new_time_level, StageVectors.temporal_error_estimate.
  cbn [second_method ButcherTable.get_size ButcherTable.get_B ButcherTable.get_B2].
  assert (Hall : forall is_, Forall (fun i => (i < ndof)%nat) is_ ->
    exists u u2 e,
      mapM (fun i =>
              match coeff_vec !! i with
              | Some c =>
                  StageVectors.add_stages (ButcherTable.get_size bt) ndof
                    (fun j => time_step * ButcherTable.get_B bt j)%Q K_vector i c
              | None => None
              end) is_ = Some u /\
      mapM (fun i =>
              match coeff_vec !! i with
              | Some c =>
                  StageVectors.add_stages (ButcherTable.get_size bt) ndof
                    (fun j => time_step * ButcherTable.get_B2 bt j)%Q K_vector i c
              | None => None
              end) is_ = Some u2 /\
      mapM (fun i =>
              match StageVectors.add_stages (ButcherTable.get_size bt) ndof
                      (fun j => ButcherTable.get_B bt j - ButcherTable.get_B2 bt j)%Q
                      K_vector i 0 with
              | Some e => Some (e * time_step)%Q
              | None => None
              end) is_ = Some e /\
      length u = length is_ /\ length u2 = length is_ /\ length e = length is_ /\
      forall i ui u2i ei,
        u !! i = Some ui -> u2 !! i = Some u2i -> e !! i = Some ei ->
        (ei == ui - u2i)%Q).
  { induction is_ as [|i is_ IH]; intros Hlt.
    - exists [], [], []. repeat split; try reflexivity. intros i ? ? ? H. inversion H.
    - apply Forall_cons in Hlt as [Hi Hlt].
      destruct (IH Hlt) as (u & u2 & e & E1 & E2 & E3 & L1 & L2 & L3 & Hrel).
      destruct (Hstep i Hi) as (c & ui & u2i & ei & Hc & H1 & H2 & H3 & H4).
      exists (ui :: u), (u2i :: u2), ((ei * time_step)%Q :: e).
      cbn [mapM]. rewrite Hc, H1, H2, H3, E1, E2, E3. cbn.
      repeat split; try (f_equal; assumption).
      intros [|k] a b d; cbn.
      + intros [= <-] [= <-] [= <-]. exact H4.
      + apply Hrel. }
  destruct (Hall (seq 0 ndof)) as (u & u2 & e & E1 & E2 & E3 & L1 & L2 & L3 & Hrel).
  { apply Forall_forall. intros i Hi. apply elem_of_seq in Hi. lia. }
  rewrite length_seq in L1, L2, L3.
  exists u, u2, e. repeat split; assumption.
Qed.

Lemma error_estimate_is_difference_of_pair_witness :
  length [1%Q; 3%Q; 2%Q; 5%Q] = (ButcherTable.get_size bt_demo * 2)%nat /\
  length [10%Q; 20%Q] = 2%nat /\
  exists u u2 e,
    StageVectors.new_time_level (1 # 10) bt_demo 2 [1%Q; 3%Q; 2%Q; 5%Q] [10%Q; 20%Q]
    = Some u /\
    StageVectors.new_time_level (1 # 10) (second_method bt_demo) 2
      [1%Q; 3%Q; 2%Q; 5%Q] [10%Q; 20%Q] = Some u2 /\
    StageVectors.temporal_error_estimate (1 # 10) bt_demo 2 [1%Q; 3%Q; 2%Q; 5%Q] = Some e /\
    length u = 2%nat /\ length u2 = 2%nat /\ length e = 2%nat /\
    forall i ui u2i ei,
      u !! i = Some ui -> u2 !! i = Some u2i -> e !! i = Some ei ->
      (ei == ui - u2i)%Q.
Proof.
  split; [reflexivity|]. split; [reflexivity|].
  exact (error_estimate_is_difference_of_pair (1 # 10) bt_demo 2
           [1%Q; 3%Q; 2%Q; 5%Q] [10%Q; 20%Q] eq_refl eq_refl).
Defined.


(** *** Which forms the assembler selects *)

(** X5 (vector forms scaled to nothing).  A vector form whose scaling
    factor is 0, or of magnitude below the threshold, is assembled in no
    state: not as a volume form, and not as a surface form on any edge. *)
Theorem zero_scaled_vector_form_is_skipped (eps : Q) (form : VectorForm.t) :
  (0 < eps)%Q ->
  (VectorForm.scaling_factor form == 0)%Q \/
  (Qabs (VectorForm.scaling_factor form) < eps)%Q ->
  forall current_state,
    FormSelection.form_to_be_assembled_vector eps form current_state = false /\
    FormSelection.form_to_be_assembled_vector_vol eps form current_state = false /\
    FormSelection.form_to_be_assembled_vector_surf eps form current_state = Some false.
Proof.
  intros Heps Hsf cs.
  assert (Hbelow : WeakForm.below_threshold eps (VectorForm.scaling_factor form) = true).
  { destruct Hsf as [Hz|Hlt]; [now apply zero_below|].
    unfold WeakForm.below_threshold. now apply Qltb_true. }
  assert (Hbase : FormSelection.form_to_be_assembled_vector eps form cs = false).
  { unfold FormSelection.form_to_be_assembled_vector. rewrite Hbelow.
    destruct (negb _); reflexivity. }
  unfold FormSelection.form_to_be_assembled_vector_vol,
    FormSelection.form_to_be_assembled_vector_surf.
  rewrite Hbase. auto.
Qed.

(** What a volume form that is accepted has passed. *)
Lemma form_to_be_assembled_vol_true eps a form cs :
  Assembler.form_to_be_assembled_vol eps a form cs = true ->
  WeakForm.below_threshold eps (MatrixForm.scaling_factor form) = false /\
  is_Some (Traverse.e cs (MatrixForm.i form)) /\
  is_Some (Traverse.e cs (MatrixForm.j form)).
Proof.
  unfold Assembler.form_to_be_assembled_vol, Assembler.form_to_be_assembled_matrix.
  destruct (bool_decide (is_Some (Traverse.e cs (MatrixForm.i form)))) eqn:Ei;
    [|discriminate].
  destruct (bool_decide (is_Some (Traverse.e cs (MatrixForm.j form)))) eqn:Ej;
    [|discriminate].
  cbn [andb].
  destruct (WeakForm.below_threshold eps (MatrixForm.scaling_factor form));
    [discriminate|].
  intros _. apply bool_decide_eq_true in Ei, Ej. auto.
Qed.


(** X7 (at the threshold).  A volume form whose scaling factor has exactly
    the magnitude of the threshold is accepted by [form_to_be_assembled]
    (the test there is [<]) wherever its elements are present, yet
    [get_blocks] does not mark its block (the test there is [>]): alone in
    a weak formulation it leaves its block unmarked. *)
Theorem volume_form_at_threshold (eps : Q) (neq : nat) (a : Assembler.t)
    (form : MatrixForm.t) (current_state : Traverse.State) :
  (Qabs (MatrixForm.scaling_factor form) == eps)%Q ->
  (MatrixForm.i form < neq)%nat -> (MatrixForm.j form < neq)%nat ->
  is_Some (Traverse.e current_state (MatrixForm.i form)) ->
  is_Some (Traverse.e current_state (MatrixForm.j form)) ->
  Assembler.block_weights a = None ->
  MatrixForm.assembleEverywhere form = true ->
  Assembler.form_to_be_assembled_vol eps a form current_state = true /\
  WeakForm.block (WeakForm.get_blocks eps (WeakForm.mk neq [form] [] [] 0) false)
    (MatrixForm.i form) (MatrixForm.j form) = Some false.
Proof.
  intros Heq Hi Hj Hei Hej Hw Hev.
  destruct (at_threshold _ _ Heq) as [Hbelow Habove]. split.
  - unfold Assembler.form_to_be_assembled_vol, Assembler.form_to_be_assembled_matrix.
    rewrite !bool_decide_eq_true_2 by assumption. cbn [andb].
    rewrite Hbelow, Hw, Hev. reflexivity.
  - destruct (get_blocks_entry eps (WeakForm.mk neq [form] [] [] 0) false _ _ Hi Hj)
      as (b & Hblock & Hb).
    rewrite Hblock. f_equal. destruct b; [|reflexivity].
    exfalso. destruct (proj1 Hb eq_refl) as [[H _]|[(f & Hf & Hmark & _)|[(f & Hf & _)|(f & Hf & _)]]].
    + discriminate.
    + cbn in Hf. apply list_elem_of_singleton in Hf. subst f. congruence.
    + cbn in Hf. inversion Hf.
    + cbn in Hf. inversion Hf.
Qed.



Lemma zero_scaled_vector_form_is_skipped_witness :
  (0 < eps_demo)%Q /\
  ((VectorForm.scaling_factor vform_zero_demo == 0)%Q \/
   (Qabs (VectorForm.scaling_factor vform_zero_demo) < eps_demo)%Q) /\
  forall current_state,
    FormSelection.form_to_be_assembled_vector eps_demo vform_zero_demo current_state = false /\
    FormSelection.form_to_be_assembled_vector_vol eps_demo vform_zero_demo current_state
    = false /\
    FormSelection.form_to_be_assembled_vector_surf eps_demo vform_zero_demo current_state
    = Some false.
Proof.
  assert (H1 : (0 < eps_demo)%Q) by reflexivity.
  assert (H2 : (VectorForm.scaling_factor vform_zero_demo == 0)%Q \/
               (Qabs (VectorForm.scaling_factor vform_zero_demo) < eps_demo)%Q)
    by (left; reflexivity).
  split; [exact H1|]. split; [exact H2|].
  exact (zero_scaled_vector_form_is_skipped eps_demo vform_zero_demo H1 H2).
Defined.


Lemma volume_form_at_threshold_witness :
  Assembler.form_to_be_assembled_vol eps_demo assembler_demo mform_threshold_demo state_demo
  = true /\
  WeakForm.block
    (WeakForm.get_blocks eps_demo (WeakForm.mk 1 [mform_threshold_demo] [] [] 0) false)
    (MatrixForm.i mform_threshold_demo) (MatrixForm.j mform_threshold_demo) = Some false.
Proof.
  refine (volume_form_at_threshold eps_demo 1 assembler_demo mform_threshold_demo state_demo
            _ _ _ _ _ _ _).
  - reflexivity.
  - cbn. lia.
  - cbn. lia.
  - cbn. eauto.
  - cbn. eauto.
  - reflexivity.
  - reflexivity.
Defined.


(** *** prepare_sparse_structure: the calls on the vector *)

Lemma vector_calls_app l1 l2 :
  vector_calls (l1 ++ l2) = vector_calls l1 ++ vector_calls l2.
Proof. apply filter_app. Qed.

Lemma vector_calls_pre_adds mat l :
  Forall (nonneg_pre_add mat) l -> vector_calls l = [].
Proof.
  induction 1 as [|c l (row & col & -> & _) _ IH]; [reflexivity|].
  unfold vector_calls in *. rewrite filter_cons_False; [exact IH|]. discriminate.
Qed.

Lemma zero_reused_vector_log a rhs ndof rs log :
  Assembler.zero_reused_vector a rhs ndof rs log
  = (log ++ vector_reuse_calls a rhs ndof rs, Some tt).
Proof.
  unfold Assembler.zero_reused_vector, vector_reuse_calls.
  destruct rhs as [v|]; cbn [Assembler.non_null].
  - rewrite andb_true_r.
    destruct (Assembler.vector_structure_reusable a
              && Assembler.same_object (Some v) (Assembler.previous_rhs a)); cbn [when].
    + destruct (rs =? 0); reflexivity.
    + cbn. now rewrite app_nil_r.
  - rewrite andb_false_r. cbn. now rewrite app_nil_r.
Qed.

Lemma alloc_vector_if_stale_log a rhs ndof log :
  exists a',
    Assembler.alloc_vector_if_stale a rhs ndof log
    = (log ++ vector_alloc_calls a rhs ndof, Some a') /\
    vector_step a a' rhs.
Proof.
  unfold Assembler.alloc_vector_if_stale, vector_alloc_calls, vector_step.
  destruct rhs as [v|]; cbn [Assembler.non_null].
  - rewrite andb_true_r.
    destruct (negb (Assembler.vector_structure_reusable a)
              || negb (Assembler.same_object (Some v) (Assembler.previous_rhs a))) eqn:E.
    + exists (Assembler.with_vector_reusable a true).
      split; [reflexivity|]. split; [now right|reflexivity].
    + exists a. split; [cbn; now rewrite app_nil_r|].
      split; [now left|]. intros _. apply orb_false_iff in E as [E _].
      now apply negb_false_iff in E.
  - rewrite andb_false_r. exists a. split; [cbn; now rewrite app_nil_r|].
    split; [now left|]. congruence.
Qed.

Section VectorPath.
Variable eps : Q.
Variable get_element_assembly_list : nat -> Element.t -> list Z.
Variable get_neighbors : nat -> Element.t -> nat -> list Element.t.

Local Abbreviation prepare_sparse_structure :=
  (Assembler.prepare_sparse_structure eps get_element_assembly_list get_neighbors).

(** The log of one call, with the calls on the vector spelled out: [mid]
    is what the branch that rebuilds the matrix adds. *)
Lemma prepare_sparse_structure_log a mat rhs ndof rs states :
  exists mid r,
    prepare_sparse_structure a mat rhs ndof rs states []
    = (matrix_reuse_calls a mat ++ vector_reuse_calls a rhs ndof rs ++ mid
         ++ match r with Some _ => vector_alloc_calls a rhs ndof | None => [] end, r) /\
    vector_calls (matrix_reuse_calls a mat) = [] /\ vector_calls mid = [] /\
    ((Assembler.matrix_structure_reusable a
      && Assembler.same_object mat (Assembler.previous_mat a) = true \/ mat = None) ->
     mid = [] /\
     exists a2, r = Some (Assembler.with_previous a2 mat rhs, true) /\ vector_step a a2 rhs).
Proof.
  unfold Assembler.prepare_sparse_structure.
  destruct (zero_reused_matrix_run a mat []) as (z & Ez & Hz).
  rewrite run_bind, Ez, run_bind, zero_reused_vector_log, run_bind.
  change (match mat with
          | Some m =>
              if Assembler.matrix_structure_reusable a
                 && Assembler.same_object mat (Assembler.previous_mat a)
              then [mat_zero m] else []
          | None => []
          end) with (matrix_reuse_calls a mat) in Hz. subst z.
  assert (Hzv : vector_calls (matrix_reuse_calls a mat) = []).
  { unfold matrix_reuse_calls. destruct mat as [m|]; [|reflexivity].
    destruct (_ && _); reflexivity. }
  unfold Assembler.rebuild_matrix_if_stale.
  destruct mat as [m|]; cbn [Assembler.non_null].
  - rewrite andb_true_r, <- negb_andb.
    destruct (Assembler.matrix_structure_reusable a
              && Assembler.same_object (Some m) (Assembler.previous_mat a)) eqn:Ereuse;
      cbn [negb].
    + change ((mret a : Backend Assembler.t) ?l) with (l, Some a).
      destruct (alloc_vector_if_stale_log a rhs ndof
                  (([] ++ matrix_reuse_calls a (Some m)) ++ vector_reuse_calls a rhs ndof rs)) as (a2 & Ev2 & Hstep).
      rewrite run_bind, Ev2.
      exists [], (Some (Assembler.with_previous a2 (Some m) rhs, true)).
      split; [cbn; norm_log|]. split; [assumption|]. split; [reflexivity|].
      intros _. split; [reflexivity|]. eauto.
    + rewrite run_bind.
      destruct (rebuild_matrix_run eps get_element_assembly_list get_neighbors
                  (Assembler.with_matrix_reusable a true) m ndof states
                  (([] ++ matrix_reuse_calls a (Some m)) ++ vector_reuse_calls a rhs ndof rs))
        as (pre_adds & r & Er & Hpre).
      rewrite Er. destruct r as [[]|].
      * change ((mret (Assembler.with_matrix_reusable a true) : Backend Assembler.t) ?l)
          with (l, Some (Assembler.with_matrix_reusable a true)).
        destruct (alloc_vector_if_stale_log (Assembler.with_matrix_reusable a true) rhs ndof
                    ((([] ++ matrix_reuse_calls a (Some m)) ++ vector_reuse_calls a rhs ndof rs)
                       ++ mat_free m :: mat_prealloc m ndof :: pre_adds ++ [mat_alloc m]))
          as (a2 & Ev2 & Hstep).
        rewrite run_bind, Ev2.
        exists (mat_free m :: mat_prealloc m ndof :: pre_adds ++ [mat_alloc m]),
          (Some (Assembler.with_previous a2 (Some m) rhs, true)).
        split; [cbn; norm_log|]. split; [assumption|]. split.
        { change (mat_free m :: mat_prealloc m ndof :: pre_adds ++ [mat_alloc m])
            with ([mat_free m; mat_prealloc m ndof] ++ pre_adds ++ [mat_alloc m]).
          rewrite !vector_calls_app, (vector_calls_pre_adds m pre_adds Hpre). reflexivity. }
        intros [H|H]; discriminate.
      * exists (mat_free m :: mat_prealloc m ndof :: pre_adds), None.
        split; [cbn; norm_log|]. split; [assumption|]. split.
        { change (mat_free m :: mat_prealloc m ndof :: pre_adds)
            with ([mat_free m; mat_prealloc m ndof] ++ pre_adds).
          rewrite !vector_calls_app, (vector_calls_pre_adds m pre_adds Hpre). reflexivity. }
        intros [H|H]; discriminate.
  - rewrite andb_false_r.
    change ((mret a : Backend Assembler.t) ?l) with (l, Some a).
    destruct (alloc_vector_if_stale_log a rhs ndof
                (([] ++ matrix_reuse_calls a None) ++ vector_reuse_calls a rhs ndof rs)) as (a2 & Ev2 & Hstep).
    rewrite run_bind, Ev2.
    exists [], (Some (Assembler.with_previous a2 None rhs, true)).
    split; [cbn; norm_log|]. split; [assumption|]. split; [reflexivity|].
    intros _. split; [reflexivity|]. eauto.
Qed.

End VectorPath.


(** *** prepare_sparse_structure: what invalidates the cached structure *)

Section CacheInvalidation.
Variable eps : Q.
Variable get_element_assembly_list : nat -> Element.t -> list Z.
Variable get_neighbors : nat -> Element.t -> nat -> list Element.t.

Local Abbreviation prepare_sparse_structure :=
  (Assembler.prepare_sparse_structure eps get_element_assembly_list get_neighbors).

(** X8 (a new weak formulation).  After [set_weak_formulation] the next
    call of [prepare_sparse_structure] rebuilds the matrix it is given,
    whatever was cached before, and, if it returns, allocates the vector it
    is given afresh and does not zero it. *)
Theorem set_weak_formulation_forces_rebuild (a : Assembler.t) (wf_ : WeakForm.t)
    (m : nat) (rhs : option nat) (ndof rs : Z) (states : list Traverse.State) :
  rebuilt m ndof
    (prepare_sparse_structure (Assembler.set_weak_formulation a wf_)
       (Some m) rhs ndof rs states []) /\
  (is_Some (snd (prepare_sparse_structure (Assembler.set_weak_formulation a wf_)
                   (Some m) rhs ndof rs states [])) ->
   vector_calls (fst (prepare_sparse_structure (Assembler.set_weak_formulation a wf_)
                        (Some m) rhs ndof rs states []))
   = match rhs with Some v => [vec_alloc v ndof] | None => [] end).
Proof.
  split.
  - apply rebuilt_when_stale. left. reflexivity.
  - destruct (prepare_sparse_structure_log eps get_element_assembly_list get_neighbors
                (Assembler.set_weak_formulation a wf_) (Some m) rhs ndof rs states)
      as (mid & r & E & Hz & Hmid & _).
    rewrite E. cbn [fst snd]. intros [res ->].
    rewrite !vector_calls_app, Hz, Hmid.
    unfold vector_reuse_calls, vector_alloc_calls.
    destruct rhs as [v|]; reflexivity.
Qed.

(** X9 (a null matrix in between).  A call with a null matrix returns
    true without touching any matrix, and it forgets the matrix of the call
    before: the next call rebuilds whatever matrix it is given, also the
    one whose structure was up to date. *)
Theorem null_matrix_call_forgets_structure (a : Assembler.t) (rhs : option nat)
    (ndof rs : Z) (states : list Traverse.State) :
  exists a',
    snd (prepare_sparse_structure a None rhs ndof rs states []) = Some (a', true) /\
    matrix_calls (fst (prepare_sparse_structure a None rhs ndof rs states [])) = [] /\
    forall m rhs' ndof' rs' states',
      rebuilt m ndof' (prepare_sparse_structure a' (Some m) rhs' ndof' rs' states' []).
Proof.
  destruct (prepare_sparse_structure_run eps get_element_assembly_list get_neighbors
              a None rhs ndof rs states)
    as (z & v1 & mid & v2 & r & E & Hv1 & Hv2 & Hz & Hmid & a2 & Hr & _).
  subst z mid r. exists (Assembler.with_previous a2 None rhs).
  rewrite E. cbn [fst snd]. split; [reflexivity|]. split.
  - rewrite !matrix_calls_app, Hv1, Hv2. reflexivity.
  - intros m rhs' ndof' rs' states'. apply rebuilt_when_stale. right. discriminate.
Qed.

(** X10 (a new vector).  After a call that returned, a call with the same
    matrix and another vector zeroes the matrix, allocates the new vector,
    and does nothing else: the two caches are independent. *)
Theorem new_vector_leaves_matrix_alone
    (a0 : Assembler.t) (m : nat) (rhs0 : option nat) (ndof0 rs0 : Z)
    (states0 : list Traverse.State) (a1 : Assembler.t) (b : bool)
    (v : nat) (ndof rs : Z) (states : list Traverse.State) :
  snd (prepare_sparse_structure a0 (Some m) rhs0 ndof0 rs0 states0 []) = Some (a1, b) ->
  rhs0 <> Some v ->
  exists a2,
    prepare_sparse_structure a1 (Some m) (Some v) ndof rs states []
    = ([mat_zero m; vec_alloc v ndof], Some (a2, true)).
Proof.
  intros Hrun Hne.
  destruct (prepare_sparse_structure_returns eps get_element_assembly_list get_neighbors
              _ _ _ _ _ _ _ _ Hrun) as (_ & Hpm & Hpr & Hmr & _).
  specialize (Hmr ltac:(discriminate)).
  destruct (prepare_sparse_structure_log eps get_element_assembly_list get_neighbors
              a1 (Some m) (Some v) ndof rs states) as (mid & r & E & _ & _ & Hreuse).
  assert (Hcond : Assembler.matrix_structure_reusable a1
                  && Assembler.same_object (Some m) (Assembler.previous_mat a1) = true).
  { rewrite Hmr, Hpm. apply same_object_refl. }
  destruct (Hreuse (or_introl Hcond)) as (-> & a2 & -> & _).
  exists (Assembler.with_previous a2 (Some m) (Some v)).
  rewrite E. f_equal.
  unfold matrix_reuse_calls, vector_reuse_calls, vector_alloc_calls.
  rewrite Hcond, Hpr.
  assert (Hdiff : Assembler.same_object (Some v) rhs0 = false).
  { destruct rhs0 as [v0|]; [|reflexivity]. cbn.
    apply Nat.eqb_neq. congruence. }
  rewrite Hdiff, andb_false_r, orb_true_r. reflexivity.
Qed.

End CacheInvalidation.


(** *** set_spaces: what it stores *)

(** What the loop of [set_spaces] leaves behind when it returns: the
    sequence numbers of the spaces at the positions it visited, the stored
    ones elsewhere, and the same number of spaces. *)
Lemma set_spaces_loop_stores (seqs : list Z) : forall (l : list nat) a a' cur,
  NoDup l ->
  Assembler.sp_seq a = Some cur ->
  foldlM (fun a i =>
            match seqs !! i, Assembler.sp_seq a ≫= (fun cur => cur !! i),
                  Assembler.sp_seq a with
            | Some new_sp_seq, Some old_sp_seq, Some cur =>
                let a' :=
                  if negb (Z.eqb new_sp_seq old_sp_seq)
                  then Assembler.with_vector_reusable
                         (Assembler.with_matrix_reusable a false) false
                  else a in
                Some (Assembler.with_sp_seq a' (Assembler.spaces_size a')
                        (<[i := new_sp_seq]> cur))
            | _, _, _ => None
            end) a l = Some a' ->
  exists cur',
    Assembler.sp_seq a' = Some cur' /\
    Assembler.spaces_size a' = Assembler.spaces_size a /\
    (forall i, i ∈ l -> exists x, seqs !! i = Some x /\ cur' !! i = Some x) /\
    (forall k, k ∉ l -> cur' !! k = cur !! k).
Proof.
  induction l as [|i l IH]; intros a a' cur Hnd Hcur Hrun.
  - simpl in Hrun. injection Hrun as <-. exists cur.
    split; [exact Hcur|]. split; [reflexivity|]. split; [|reflexivity].
    intros i Hi. inversion Hi.
  - apply NoDup_cons in Hnd as [Hi Hnd]. cbn [foldlM] in Hrun.
    rewrite Hcur in Hrun. cbn [mbind option_bind] in Hrun.
    destruct (seqs !! i) as [new|] eqn:Hnew; [|discriminate].
    destruct (cur !! i) as [old|] eqn:Hold; [|discriminate].
    cbv zeta in Hrun.
    match type of Hrun with foldlM _ ?a1 _ = _ =>
      destruct (IH a1 a' (<[i := new]> cur) Hnd) as (cur' & Hc' & Hs' & Hin & Hout);
        [reflexivity|exact Hrun|]
    end.
    exists cur'. split; [exact Hc'|]. split.
    { rewrite Hs'. destruct (negb (new =? old)); reflexivity. }
    split.
    + intros k Hk. apply elem_of_cons in Hk as [->|Hk]; [|now apply Hin].
      exists new. split; [exact Hnew|]. rewrite (Hout i Hi).
      apply list_lookup_insert_eq. now apply lookup_lt_Some in Hold.
    + intros k Hk. apply not_elem_of_cons in Hk as [Hki Hk].
      rewrite (Hout k Hk). apply list_lookup_insert_ne. congruence.
Qed.

(** Once the stored numbers are those of the spaces, the loop changes
    nothing. *)
Lemma set_spaces_loop_fixed (seqs : list Z) : forall (l : list nat) a cur,
  Assembler.sp_seq a = Some cur ->
  (forall i, i ∈ l -> exists x, seqs !! i = Some x /\ cur !! i = Some x) ->
  foldlM (fun a i =>
            match seqs !! i, Assembler.sp_seq a ≫= (fun cur => cur !! i),
                  Assembler.sp_seq a with
            | Some new_sp_seq, Some old_sp_seq, Some cur =>
                let a' :=
                  if negb (Z.eqb new_sp_seq old_sp_seq)
                  then Assembler.with_vector_reusable
                         (Assembler.with_matrix_reusable a false) false
                  else a in
                Some (Assembler.with_sp_seq a' (Assembler.spaces_size a')
                        (<[i := new_sp_seq]> cur))
            | _, _, _ => None
            end) a l = Some a.
Proof.
  induction l as [|i l IH]; intros a cur Hcur Hsame; [reflexivity|].
  cbn [foldlM]. rewrite Hcur. cbn [mbind option_bind].
  destruct (Hsame i) as (x & Hx & Hcx); [left|]. rewrite Hx, Hcx.
  rewrite Z.eqb_refl. cbn [negb]. cbv zeta.
  rewrite list_insert_id by exact Hcx.
  replace (Assembler.with_sp_seq a (Assembler.spaces_size a) cur) with a.
  - apply (IH a cur Hcur). intros k Hk. apply Hsame. now right.
  - destruct a. cbn in Hcur. subst. reflexivity.
Qed.

(** X11 (set_spaces twice).  Once the assembler has its array of sequence
    numbers, a call of [set_spaces] that returns leaves an assembler on
    which the same call changes nothing: spaces that did not change are
    never taken for changed. *)
Theorem set_spaces_again_changes_nothing (a a1 : Assembler.t) (seqs : list Z) :
  Assembler.sp_seq a <> None ->
  Assembler.set_spaces a seqs = Some a1 ->
  Assembler.set_spaces a1 seqs = Some a1.
Proof.
  unfold Assembler.set_spaces. intros Hsp Hrun.
  destruct (Assembler.sp_seq a) as [cur|] eqn:Hcur; [|contradiction].
  destruct (set_spaces_loop_stores seqs _ a a1 cur (NoDup_seq _ _) Hcur Hrun)
    as (cur' & Hc' & Hs' & Hin & _).
  rewrite Hc', Hs'. apply (set_spaces_loop_fixed seqs _ a1 cur' Hc' Hin).
Qed.

Section FirstCall.
Variable eps : Q.
Variable get_element_assembly_list : nat -> Element.t -> list Z.
Variable get_neighbors : nat -> Element.t -> nat -> list Element.t.

Local Abbreviation prepare_sparse_structure :=
  (Assembler.prepare_sparse_structure eps get_element_assembly_list get_neighbors).

(** [prepare_sparse_structure] leaves the sequence numbers alone. *)
Lemma prepare_keeps_sp_seq a mat rhs ndof rs states a' b :
  snd (prepare_sparse_structure a mat rhs ndof rs states []) = Some (a', b) ->
  Assembler.sp_seq a' = Assembler.sp_seq a /\
  Assembler.spaces_size a' = Assembler.spaces_size a.
Proof.
  destruct (prepare_sparse_structure_run eps get_element_assembly_list get_neighbors
              a mat rhs ndof rs states) as (z & v1 & mid & v2 & r & E & _ & _ & _ & Hmid).
  rewrite E. cbn [snd]. intros ->.
  destruct mat as [m|].
  - destruct (_ && _).
    + destruct Hmid as (_ & a2 & Hr & [[->| ->] _]); injection Hr as -> ->; cbn; auto.
    + destruct Hmid as (pre_adds & _ & _ & Hres).
      destruct (Hres _ eq_refl) as (a2 & Hr & [[->| ->] _]);
        injection Hr as -> ->; cbn; auto.
  - destruct Hmid as (_ & a2 & Hr & [[->| ->] _]); injection Hr as -> ->; cbn; auto.
Qed.

(** X12 (the first set_spaces).  The first call of [set_spaces] stores -1
    for every space instead of its sequence number.  So when the structure
    has been built after it, the second call of [set_spaces], with the very
    same spaces, takes them for changed as soon as one of them has a
    sequence number other than -1, and the matrix is built again. *)
Theorem first_set_spaces_records_nothing
    (a a1 a2 a3 : Assembler.t) (seqs : list Z) (m : nat) (rhs0 : option nat)
    (ndof0 rs0 : Z) (states0 : list Traverse.State) (b : bool) :
  Assembler.sp_seq a = None ->
  Assembler.set_spaces a seqs = Some a1 ->
  snd (prepare_sparse_structure a1 (Some m) rhs0 ndof0 rs0 states0 []) = Some (a2, b) ->
  Assembler.set_spaces a2 seqs = Some a3 ->
  (exists i x, seqs !! i = Some x /\ x <> -1) ->
  Assembler.sp_seq a1 = Some (replicate (length seqs) (-1)) /\
  forall rhs ndof rs states,
    rebuilt m ndof (prepare_sparse_structure a3 (Some m) rhs ndof rs states []).
Proof.
  intros Hnone Hset1 Hrun Hset2 (i & x & Hix & Hx).
  unfold Assembler.set_spaces in Hset1. rewrite Hnone in Hset1.
  injection Hset1 as <-. cbn [Assembler.sp_seq Assembler.with_sp_seq].
  split; [reflexivity|].
  destruct (prepare_keeps_sp_seq _ _ _ _ _ _ _ _ Hrun) as [Hsp Hsz].
  cbn in Hsp, Hsz.
  assert (Hchange : change_seen a2 seqs).
  { exists (replicate (length seqs) (-1)), i.
    split; [exact Hsp|]. apply lookup_lt_Some in Hix as Hlt.
    split; [lia|]. rewrite Hix, lookup_replicate_2 by exact Hlt. congruence. }
  destruct (set_spaces_change _ _ _ Hset2 Hchange) as [_ Hm3].
  intros rhs ndof rs states. apply rebuilt_when_stale. now left.
Qed.

End FirstCall.


(** *** prepare_sparse_structure: the positions one space registers *)

Lemma for_each_columns mat (row : Z) (dofs_n : list Z) : forall log,
  for_each dofs_n (fun dj => when (dj >=? 0) (call (mat_pre_add_ij mat row dj))) log
  = (log ++ (col ← filter (fun d => 0 <= d) dofs_n; [mat_pre_add_ij mat row col]), Some tt).
Proof.
  induction dofs_n as [|d dofs_n IH]; intros log.
  - cbn. now rewrite app_nil_r.
  - cbn [for_each]. rewrite run_bind.
    destruct (Z.geb_spec d 0) as [Hd|Hd]; cbn [when].
    + unfold call at 1. rewrite IH, filter_cons_True by lia.
      cbn. now rewrite <- app_assoc.
    + change ((mret tt : Backend unit) log) with (log, Some tt). cbv iota beta.
      rewrite IH, filter_cons_False by lia. reflexivity.
Qed.

(** The loops over the rows and columns of one block register the
    positions of [block_positions], in that order, and never fault. *)
Lemma pre_add_block_log mat (dofs_m dofs_n : list Z) : forall log,
  Assembler.pre_add_block mat dofs_m dofs_n log
  = (log ++ block_positions mat dofs_m dofs_n, Some tt).
Proof.
  unfold Assembler.pre_add_block, block_positions.
  induction dofs_m as [|d dofs_m IH]; intros log.
  - cbn. now rewrite app_nil_r.
  - cbn [for_each]. rewrite run_bind.
    destruct (Z.geb_spec d 0) as [Hd|Hd]; cbn [when].
    + rewrite for_each_columns. cbv iota beta. rewrite IH, filter_cons_True by lia.
      cbn. now rewrite <- app_assoc.
    + change ((mret tt : Backend unit) log) with (log, Some tt). cbv iota beta.
      rewrite IH, filter_cons_False by lia. reflexivity.
Qed.

Section OneSpace.
Variable eps : Q.
Variable get_element_assembly_list : nat -> Element.t -> list Z.
Variable get_neighbors : nat -> Element.t -> nat -> list Element.t.

Local Abbreviation prepare_sparse_structure :=
  (Assembler.prepare_sparse_structure eps get_element_assembly_list get_neighbors).

(** One turn of the loop over the states, for one space with its block
    marked and no DG form. *)
Lemma pre_add_state_one_space a mat blocks (al : list (list Z)) cs log :
  Assembler.spaces_size a = 1%nat ->
  WeakForm.mfDG (Assembler.wf a) = [] ->
  WeakForm.block blocks 0 0 = Some true ->
  length al = 1%nat ->
  exists al',
    Assembler.pre_add_state get_element_assembly_list get_neighbors a mat blocks al cs log
    = (log ++ state_positions get_element_assembly_list mat cs, Some al') /\
    length al' = 1%nat.
Proof.
  intros Hsize HDG Hblock Hlen.
  unfold Assembler.pre_add_state, state_positions.
  rewrite HDG, Hsize. cbn [length Nat.eqb negb seq fold_left].
  rewrite andb_false_r. cbn [when].
  rewrite run_bind. change ((mret tt : Backend unit) log) with (log, Some tt).
  cbv iota beta. rewrite run_bind.
  unfold Assembler.pre_add_local. rewrite Hsize. cbn [Nat.eqb].
  destruct al as [|d [|? ?]]; try discriminate.
  destruct (Traverse.e cs 0%nat) as [elem|] eqn:He.
  - rewrite run_bind. cbn [list_insert insert list_lookup lookup need].
    change ((mret (get_element_assembly_list 0%nat elem) : Backend (list Z)) log)
      with (log, Some (get_element_assembly_list 0%nat elem)).
    cbv iota beta. rewrite run_bind, Hblock. cbn [need].
    change ((mret true : Backend bool) log) with (log, Some true).
    cbv iota beta.
    rewrite bool_decide_eq_true_2 by eauto. cbn [andb when].
    rewrite pre_add_block_log. eexists. split; reflexivity.
  - rewrite run_bind. cbn [list_lookup lookup need].
    change ((mret d : Backend (list Z)) log) with (log, Some d).
    cbv iota beta. rewrite run_bind, Hblock. cbn [need].
    change ((mret true : Backend bool) log) with (log, Some true).
    cbv iota beta.
    rewrite bool_decide_eq_false_2 by (intros [? H]; discriminate). cbn [andb when].
    change ((mret tt : Backend unit) log) with (log, Some tt).
    cbv iota beta. rewrite app_nil_r. eexists. split; reflexivity.
Qed.

Lemma for_fold_one_space a mat blocks (states : list Traverse.State) :
  Assembler.spaces_size a = 1%nat ->
  WeakForm.mfDG (Assembler.wf a) = [] ->
  WeakForm.block blocks 0 0 = Some true ->
  forall (al : list (list Z)) log,
    length al = 1%nat ->
    exists al',
      for_fold states al
        (Assembler.pre_add_state get_element_assembly_list get_neighbors a mat blocks) log
      = (log ++ flat_map (state_positions get_element_assembly_list mat) states, Some al').
Proof.
  intros Hsize HDG Hblock.
  induction states as [|cs states IH]; intros al log Hlen.
  - exists al. cbn. now rewrite app_nil_r.
  - cbn [for_fold flat_map]. rewrite run_bind.
    destruct (pre_add_state_one_space a mat blocks al cs log Hsize HDG Hblock Hlen)
      as (al1 & E & Hlen1).
    rewrite E. destruct (IH al1 (log ++ state_positions get_element_assembly_list mat cs) Hlen1)
      as (al' & E').
    rewrite E', <- app_assoc. eauto.
Qed.

(** X13 (the pattern of one space).  With one space, no DG form and the
    block [(0, 0)] marked, a call that has to build the matrix returns, and
    what it calls on the matrix is [free()], [prealloc(ndof)], then state
    after state every pair of non-negative DOFs of the element's assembly
    list (all rows, and for each row all columns), then [alloc()]: no
    position that the assembling can touch is left out, and a state
    without an element adds nothing. *)
Theorem one_space_structure_is_complete (a : Assembler.t) (m : nat) (rhs : option nat)
    (ndof rs : Z) (states : list Traverse.State) :
  Assembler.spaces_size a = 1%nat ->
  WeakForm.mfDG (Assembler.wf a) = [] ->
  WeakForm.block
    (WeakForm.get_blocks eps (Assembler.wf a) (Assembler.force_diagonal_blocks a)) 0 0
  = Some true ->
  Assembler.matrix_structure_reusable a = false \/ Assembler.previous_mat a <> Some m ->
  is_Some (snd (prepare_sparse_structure a (Some m) rhs ndof rs states [])) /\
  matrix_calls (fst (prepare_sparse_structure a (Some m) rhs ndof rs states []))
  = [mat_free m; mat_prealloc m ndof]
      ++ flat_map (state_positions get_element_assembly_list m) states
      ++ [mat_alloc m].
Proof.
  intros Hsize HDG Hblock Hstale.
  assert (Hcond : Assembler.matrix_structure_reusable a
                  && Assembler.same_object (Some m) (Assembler.previous_mat a) = false).
  { destruct Hstale as [->|Hne]; [reflexivity|].
    apply andb_false_iff. right. apply not_true_is_false. intros H.
    apply same_object_Some in H. congruence. }
  unfold Assembler.prepare_sparse_structure.
  destruct (zero_reused_matrix_run a (Some m) []) as (z & Ez & Hz).
  rewrite Hcond in Hz. subst z.
  rewrite run_bind, Ez, run_bind, zero_reused_vector_log, run_bind.
  unfold Assembler.rebuild_matrix_if_stale. cbn [Assembler.non_null].
  rewrite andb_true_r, <- negb_andb, Hcond. cbn [negb].
  rewrite run_bind. unfold Assembler.rebuild_matrix.
  rewrite run_bind. cbn [call]. rewrite run_bind. cbn [call]. rewrite run_bind.
  assert (Hsize' : Assembler.spaces_size (Assembler.with_matrix_reusable a true) = 1%nat)
    by exact Hsize.
  assert (HDG' : WeakForm.mfDG (Assembler.wf (Assembler.with_matrix_reusable a true)) = [])
    by exact HDG.
  assert (Hblock' :
            WeakForm.block
              (WeakForm.get_blocks eps (Assembler.wf (Assembler.with_matrix_reusable a true))
                 (Assembler.force_diagonal_blocks (Assembler.with_matrix_reusable a true)))
              0 0 = Some true) by exact Hblock.
  match goal with |- context [for_fold states ?al ?body ?log] =>
    destruct (for_fold_one_space (Assembler.with_matrix_reusable a true) m _ states
                Hsize' HDG' Hblock' al log) as (al' & E);
      [rewrite length_replicate; exact Hsize|]
  end.
  rewrite E. cbn [call].
  change ((mret (Assembler.with_matrix_reusable a true) : Backend Assembler.t) ?l)
    with (l, Some (Assembler.with_matrix_reusable a true)).
  cbv iota beta. rewrite run_bind.
  match goal with |- context [Assembler.alloc_vector_if_stale ?a1 rhs ndof ?log] =>
    destruct (alloc_vector_if_stale_run a1 rhs ndof log) as (v2 & a2 & Ev2 & Hv2 & _)
  end.
  rewrite Ev2. cbv iota beta. unfold mret, Backend_ret, backend_ret. cbn [fst snd].
  split; [eauto|].
  assert (Hv1 : matrix_calls (vector_reuse_calls a rhs ndof rs) = []).
  { unfold vector_reuse_calls. destruct rhs as [v|]; [|reflexivity].
    destruct (Assembler.vector_structure_reusable a && _); [|reflexivity].
    destruct (rs =? 0); reflexivity. }
  rewrite !matrix_calls_app, Hv1, Hv2, app_nil_r. cbn [app].
  rewrite !matrix_calls_cons by reflexivity. f_equal. f_equal.
  assert (Hpos : forall l, matrix_calls (flat_map (state_positions get_element_assembly_list m) l)
                           = flat_map (state_positions get_element_assembly_list m) l).
  { intros l. apply (matrix_calls_pre_adds m). apply Forall_forall. intros c Hc.
    apply list_elem_of_In, in_flat_map in Hc as (cs & _ & Hc).
    unfold state_positions in Hc. destruct (Traverse.e cs 0%nat); [|inversion Hc].
    unfold block_positions in Hc. apply list_elem_of_In in Hc.
    apply list_elem_of_bind in Hc as (row & Hc & Hrow).
    apply list_elem_of_bind in Hc as (col & Hc & Hcol).
    apply list_elem_of_singleton in Hc. subst c.
    apply list_elem_of_filter in Hrow as [Hrow _].
    apply list_elem_of_filter in Hcol as [Hcol _].
    exists row, col. auto. }
  rewrite Hpos. reflexivity.
Qed.

End OneSpace.


(** *** prepare_sparse_structure: reuse and rebuild *)

Lemma appends_ret {A : Type} (a : A) : appends (mret a : Backend A).
Proof. intros log. cbn. now rewrite app_nil_r. Qed.

Lemma appends_fault {A : Type} : appends (@fault A).
Proof. intros log. cbn. now rewrite app_nil_r. Qed.

Lemma appends_call c : appends (call c).
Proof. intros log. reflexivity. Qed.

Lemma appends_need {A : Type} (o : option A) : appends (need o).
Proof. destruct o; [apply appends_ret|apply appends_fault]. Qed.

Lemma appends_bind {A B : Type} (m : Backend A) (f : A -> Backend B) :
  appends m -> (forall a, appends (f a)) -> appends (m ≫= f).
Proof.
  intros Hm Hf log. unfold mbind, Backend_bind, backend_bind.
  rewrite (Hm log). destruct (m []) as [l1 [a|]]; cbn [fst snd].
  - rewrite (Hf a (log ++ l1)), (Hf a l1). cbn [fst snd]. now rewrite app_assoc.
  - reflexivity.
Qed.

Lemma appends_when b (m : Backend unit) : appends m -> appends (when b m).
Proof. intros H. destruct b; [exact H|apply appends_ret]. Qed.

Lemma appends_for_each {A : Type} (l : list A) (body : A -> Backend unit) :
  (forall x, appends (body x)) -> appends (for_each l body).
Proof.
  intros H. induction l as [|x l IH]; cbn [for_each]; [apply appends_ret|].
  apply appends_bind; [apply H|]. intros _. exact IH.
Qed.

Lemma appends_for_fold {A S : Type} (l : list A) (body : S -> A -> Backend S) :
  (forall s x, appends (body s x)) -> forall s, appends (for_fold l s body).
Proof.
  intros H. induction l as [|x l IH]; intros s; cbn [for_fold]; [apply appends_ret|].
  apply appends_bind; [apply H|]. intros s'. apply IH.
Qed.

Ltac appends_step :=
  first
    [ apply appends_ret
    | apply appends_fault
    | apply appends_call
    | apply appends_need
    | apply appends_when
    | apply appends_for_each; intros ?
    | apply appends_for_fold; intros ? ?
    | apply appends_bind; [|intros ?] ].

Section FromScratch.
Variable eps : Q.
Variable get_element_assembly_list : nat -> Element.t -> list Z.
Variable get_neighbors : nat -> Element.t -> nat -> list Element.t.

Local Abbreviation prepare_sparse_structure :=
  (Assembler.prepare_sparse_structure eps get_element_assembly_list get_neighbors).
Local Abbreviation rebuild_matrix :=
  (Assembler.rebuild_matrix eps get_element_assembly_list get_neighbors).
Local Abbreviation from_scratch :=
  (rebuilt_from_scratch eps get_element_assembly_list get_neighbors).

Lemma edge_is_boundary_appends cs el ed : appends (Assembler.edge_is_boundary cs el ed).
Proof.
  unfold Assembler.edge_is_boundary.
  destruct (Traverse.e cs el); [|apply appends_fault].
  destruct (Element.en _ !! ed); [apply appends_ret|apply appends_fault].
Qed.

Lemma pre_add_state_appends a mat blocks al cs :
  appends (Assembler.pre_add_state get_element_assembly_list get_neighbors a mat blocks al cs).
Proof.
  unfold Assembler.pre_add_state, Assembler.pre_add_DG, Assembler.pre_add_local,
    Assembler.pre_add_neighbor, Assembler.pre_add_block.
  destruct (Nat.eqb (Assembler.spaces_size a) 1);
    repeat first [apply edge_is_boundary_appends | appends_step].
Qed.

(** The branch that creates the matrix does the same to every log. *)
Lemma rebuild_matrix_appends a m ndof states : appends (rebuild_matrix a m ndof states).
Proof.
  unfold Assembler.rebuild_matrix.
  repeat first [apply pre_add_state_appends | appends_step].
Qed.

(** Its calls are calls on the matrix. *)
Lemma rebuild_matrix_calls a m ndof states :
  matrix_calls (fst (rebuild_matrix a m ndof states []))
  = fst (rebuild_matrix a m ndof states []).
Proof.
  destruct (rebuild_matrix_run eps get_element_assembly_list get_neighbors a m ndof states [])
    as (pre_adds & r & E & Hpre).
  rewrite E. cbn [fst app].
  rewrite !matrix_calls_cons by reflexivity. f_equal. f_equal.
  rewrite matrix_calls_app, (matrix_calls_pre_adds m pre_adds Hpre).
  destruct r; reflexivity.
Qed.

(** A call on a stale structure rebuilds from scratch. *)
Lemma rebuilt_from_scratch_when_stale a m rhs ndof rs states :
  Assembler.matrix_structure_reusable a = false \/ Assembler.previous_mat a <> Some m ->
  from_scratch a m ndof states (prepare_sparse_structure a (Some m) rhs ndof rs states []).
Proof.
  intros Hstale. split; [now apply rebuilt_when_stale|].
  assert (Hcond : Assembler.matrix_structure_reusable a
                  && Assembler.same_object (Some m) (Assembler.previous_mat a) = false).
  { destruct Hstale as [->|Hne]; [reflexivity|].
    apply andb_false_iff. right. apply not_true_is_false. intros H.
    apply same_object_Some in H. congruence. }
  unfold Assembler.prepare_sparse_structure.
  destruct (zero_reused_matrix_run a (Some m) []) as (z & Ez & Hz).
  rewrite Hcond in Hz. subst z.
  rewrite run_bind, Ez, run_bind, zero_reused_vector_log, run_bind.
  unfold Assembler.rebuild_matrix_if_stale. cbn [Assembler.non_null].
  rewrite andb_true_r, <- negb_andb, Hcond. cbn [negb].
  rewrite run_bind, rebuild_matrix_appends.
  assert (Hv1 : matrix_calls (vector_reuse_calls a rhs ndof rs) = []).
  { unfold vector_reuse_calls. destruct rhs as [v|]; [|reflexivity].
    destruct (Assembler.vector_structure_reusable a && _); [|reflexivity].
    destruct (rs =? 0); reflexivity. }
  destruct (snd (rebuild_matrix (Assembler.with_matrix_reusable a true) m ndof states []))
    as [[]|].
  - change ((mret (Assembler.with_matrix_reusable a true) : Backend Assembler.t) ?l)
      with (l, Some (Assembler.with_matrix_reusable a true)).
    cbv iota beta. rewrite run_bind.
    match goal with |- context [Assembler.alloc_vector_if_stale ?a1 rhs ndof ?log] =>
      destruct (alloc_vector_if_stale_run a1 rhs ndof log) as (v2 & a2 & Ev2 & Hv2 & _)
    end.
    rewrite Ev2. cbv iota beta. unfold mret, Backend_ret, backend_ret. cbn [fst snd].
    rewrite !matrix_calls_app, Hv1, Hv2, app_nil_r. cbn [app].
    apply rebuild_matrix_calls.
  - cbn [fst snd]. rewrite !matrix_calls_app, Hv1. cbn [app].
    apply rebuild_matrix_calls.
Qed.

(** [set_spaces] returns when it has a sequence number to read and one
    to compare it with for each of its spaces. *)
Lemma set_spaces_loop_returns (seqs : list Z) : forall (l : list nat) a cur,
  Assembler.sp_seq a = Some cur ->
  (forall i, i ∈ l -> (i < length seqs)%nat /\ (i < length cur)%nat) ->
  is_Some
    (foldlM (fun a i =>
               match seqs !! i, Assembler.sp_seq a ≫= (fun cur => cur !! i),
                     Assembler.sp_seq a with
               | Some new_sp_seq, Some old_sp_seq, Some cur =>
                   let a' :=
                     if negb (Z.eqb new_sp_seq old_sp_seq)
                     then Assembler.with_vector_reusable
                            (Assembler.with_matrix_reusable a false) false
                     else a in
                   Some (Assembler.with_sp_seq a' (Assembler.spaces_size a')
                           (<[i := new_sp_seq]> cur))
               | _, _, _ => None
               end) a l).
Proof.
  induction l as [|i l IH]; intros a cur Hcur Hin; [cbn; eauto|].
  cbn [foldlM]. rewrite Hcur. cbn [mbind option_bind].
  destruct (Hin i ltac:(left)) as [Hs Hc].
  destruct (lookup_lt_is_Some_2 seqs i Hs) as [new ->].
  destruct (lookup_lt_is_Some_2 cur i Hc) as [old ->].
  cbv zeta. eapply IH; [reflexivity|].
  intros k Hk. rewrite length_insert. apply Hin. now right.
Qed.


End FromScratch.




Lemma new_vector_leaves_matrix_alone_witness :
  exists a1 a2,
    snd (Assembler.prepare_sparse_structure eps_demo asmlist_demo neighbors_demo
           assembler_demo (Some 7%nat) (Some 8%nat) 3 0 [state_demo] []) = Some (a1, true) /\
    Some 8%nat <> Some 9%nat /\
    Assembler.prepare_sparse_structure eps_demo asmlist_demo neighbors_demo
      a1 (Some 7%nat) (Some 9%nat) 3 0 [state_demo] []
    = ([mat_zero 7; vec_alloc 9 3], Some (a2, true)).
Proof.
  assert (Hne : Some 8%nat <> Some 9%nat) by discriminate.
  eexists _.
  refine (let H := _ in
          match new_vector_leaves_matrix_alone eps_demo asmlist_demo neighbors_demo
                  assembler_demo 7%nat (Some 8%nat) 3 0 [state_demo] _ true
                  9%nat 3 0 [state_demo] H Hne with
          | ex_intro _ a2 E => ex_intro _ a2 (conj H (conj Hne E))
          end).
  vm_compute. reflexivity.
Defined.

Lemma set_spaces_again_changes_nothing_witness :
  exists a1,
    Assembler.sp_seq assembler_seq_demo <> None /\
    Assembler.set_spaces assembler_seq_demo [4] = Some a1 /\
    Assembler.set_spaces a1 [4] = Some a1.
Proof.
  assert (H1 : Assembler.sp_seq assembler_seq_demo <> None) by discriminate.
  eexists _.
  refine (let H := _ in
          conj H1 (conj H (set_spaces_again_changes_nothing assembler_seq_demo _ [4] H1 H))).
  vm_compute. reflexivity.
Defined.

Lemma first_set_spaces_records_nothing_witness :
  exists a1 a2 a3,
    Assembler.sp_seq assembler_demo = None /\
    Assembler.set_spaces assembler_demo [4] = Some a1 /\
    snd (Assembler.prepare_sparse_structure eps_demo asmlist_demo neighbors_demo
           a1 (Some 7%nat) (Some 8%nat) 3 0 [state_demo] []) = Some (a2, true) /\
    Assembler.set_spaces a2 [4] = Some a3 /\
    (exists i x, [4] !! i = Some x /\ x <> -1) /\
    Assembler.sp_seq a1 = Some (replicate (length [4]) (-1)) /\
    forall rhs ndof rs states,
      rebuilt 7 ndof
        (Assembler.prepare_sparse_structure eps_demo asmlist_demo neighbors_demo
           a3 (Some 7%nat) rhs ndof rs states []).
Proof.
  assert (H0 : Assembler.sp_seq assembler_demo = None) by reflexivity.
  assert (H4 : exists i x, [4] !! i = Some x /\ x <> -1).
  { exists 0%nat, 4. split; [reflexivity|lia]. }
  assert (H1 : Assembler.set_spaces assembler_demo [4] = Some assembler_seq_demo)
    by reflexivity.
  assert (H2 : snd (Assembler.prepare_sparse_structure eps_demo asmlist_demo neighbors_demo
                      assembler_seq_demo (Some 7%nat) (Some 8%nat) 3 0 [state_demo] [])
               = Some (assembler_built_demo, true)) by (vm_compute; reflexivity).
  assert (H3 : Assembler.set_spaces assembler_built_demo [4]
               = Some (Assembler.with_sp_seq
                         (Assembler.with_vector_reusable
                            (Assembler.with_matrix_reusable assembler_built_demo false) false)
                         1 [4])) by (vm_compute; reflexivity).
  eexists _, _, _.
  exact (conj H0 (conj H1 (conj H2 (conj H3 (conj H4
           (first_set_spaces_records_nothing eps_demo asmlist_demo neighbors_demo
              assembler_demo _ _ _ [4] 7%nat (Some 8%nat) 3 0 [state_demo] true
              H0 H1 H2 H3 H4)))))).
Defined.

Lemma one_space_structure_is_complete_witness :
  is_Some (snd (Assembler.prepare_sparse_structure eps_demo asmlist_demo neighbors_demo
                  assembler_demo (Some 7%nat) (Some 8%nat) 3 0 [state_demo] [])) /\
  matrix_calls (fst (Assembler.prepare_sparse_structure eps_demo asmlist_demo neighbors_demo
                       assembler_demo (Some 7%nat) (Some 8%nat) 3 0 [state_demo] []))
  = [mat_free 7; mat_prealloc 7 3]
      ++ flat_map (state_positions asmlist_demo 7) [state_demo]
      ++ [mat_alloc 7].
Proof.
  refine (one_space_structure_is_complete eps_demo asmlist_demo neighbors_demo
            assembler_demo 7%nat (Some 8%nat) 3 0 [state_demo] _ _ _ _).
  - reflexivity.
  - reflexivity.
  - vm_compute. reflexivity.
  - left. reflexivity.
Defined.


(** *** processFormMarkers *)

Section FormMarkers.
Variable ANY : string.
Variable get_internal_marker : bool -> nat -> string -> option Z.

Local Abbreviation process_areas := (Form.process_areas ANY get_internal_marker).
Local Abbreviation process_form := (Form.process_form ANY get_internal_marker).
Local Abbreviation processFormMarkers := (Form.processFormMarkers ANY get_internal_marker).

(** The loop over the areas never ends by itself on 2^16 areas or more:
    it can only return through [HERMES_ANY]. *)
Lemma process_areas_returns_wrapping surface : forall fuel form k form',
  65536 <= Z.of_nat (length (Form.areas form)) ->
  0 <= k < 65536 ->
  process_areas fuel surface form k = Returns form' ->
  Form.i form' = Form.i form /\ Form.areas form' = Form.areas form /\
  ANY ∈ Form.areas form /\
  Form.assembleEverywhere form' = true /\ Form.areas_internal form' = [].
Proof.
  induction fuel as [|fuel IH]; intros form k form' Hlen Hk Hrun; [discriminate|].
  cbn [Form.process_areas] in Hrun.
  destruct (Z.ltb_spec k (Z.of_nat (length (Form.areas form)))) as [Hlt|Hge]; [|lia].
  destruct (Form.areas form !! Z.to_nat k) as [area|] eqn:Harea; [|discriminate].
  destruct (String.eqb_spec area ANY) as [->|Hne].
  - injection Hrun as <-. cbn. repeat split; try reflexivity.
    eapply list_elem_of_lookup_2. exact Harea.
  - destruct (get_internal_marker surface (Form.i form) area) as [marker|]; [|discriminate].
    apply IH in Hrun; [|exact Hlen|apply ushort_succ_range].
    exact Hrun.
Qed.

(** Below 2^16 areas: what the loop from [k] on has done when it
    returns. *)
Lemma process_areas_returns surface : forall fuel form k form',
  Z.of_nat (length (Form.areas form)) < 65536 ->
  0 <= k ->
  process_areas fuel surface form k = Returns form' ->
  Form.i form' = Form.i form /\ Form.areas form' = Form.areas form /\
  ((ANY ∈ drop (Z.to_nat k) (Form.areas form) /\
    Form.assembleEverywhere form' = true /\ Form.areas_internal form' = []) \/
   ((ANY ∉ drop (Z.to_nat k) (Form.areas form)) /\
    Form.assembleEverywhere form' = Form.assembleEverywhere form /\
    (exists markers,
       Form.areas_internal form' = Form.areas_internal form ++ markers /\
       Forall2 (fun area marker => get_internal_marker surface (Form.i form) area = Some marker)
         (drop (Z.to_nat k) (Form.areas form)) markers))).
Proof.
  induction fuel as [|fuel IH]; intros form k form' Hlen Hk Hrun; [discriminate|].
  cbn [Form.process_areas] in Hrun.
  destruct (Z.ltb_spec k (Z.of_nat (length (Form.areas form)))) as [Hlt|Hge].
  - destruct (Form.areas form !! Z.to_nat k) as [area|] eqn:Harea; [|discriminate].
    rewrite (drop_S _ _ _ Harea).
    destruct (String.eqb_spec area ANY) as [->|Hne].
    + injection Hrun as <-. cbn. split; [reflexivity|]. split; [reflexivity|].
      left. split; [left|auto].
    + destruct (get_internal_marker surface (Form.i form) area) as [marker|] eqn:Hconv;
        [|discriminate].
      rewrite ushort_succ_small in Hrun by lia.
      apply IH in Hrun; [|exact Hlen|lia].
      cbn [Form.i Form.areas Form.assembleEverywhere Form.areas_internal] in Hrun.
      replace (Z.to_nat (k + 1)) with (S (Z.to_nat k)) in Hrun by lia.
      destruct Hrun as (Hi & Ha & Hcases). split; [exact Hi|]. split; [exact Ha|].
      destruct Hcases as [(Hin & Hf & Hint)|(Hnin & Hf & markers & Hint & Hall)].
      * left. split; [now right|auto].
      * right. split; [|split; [exact Hf|]].
        { intros Hin. apply elem_of_cons in Hin as [Heq|Hin]; [congruence|contradiction]. }
        exists (marker :: markers). split.
        { rewrite Hint, <- app_assoc. reflexivity. }
        constructor; assumption.
  - injection Hrun as <-. split; [reflexivity|]. split; [reflexivity|].
    rewrite drop_ge by lia. right. split; [apply not_elem_of_nil|].
    split; [reflexivity|]. exists []. split; [now rewrite app_nil_r|constructor].
Qed.

(** What one turn of the loop over the forms makes of its form. *)
Lemma process_form_processed fuel surface form form' :
  process_form fuel surface form = Returns form' ->
  processed ANY get_internal_marker surface form form'.
Proof.
  unfold Form.process_form, processed. intros Hrun.
  destruct (Z_lt_le_dec (Z.of_nat (length (Form.areas form))) 65536) as [Hlt|Hge].
  - apply process_areas_returns in Hrun; [|exact Hlt|lia].
    cbn [Form.i Form.areas Form.assembleEverywhere Form.areas_internal Z.to_nat drop] in Hrun.
    destruct Hrun as (Hi & Ha & Hcases). split; [exact Hi|]. split; [exact Ha|].
    destruct Hcases as [(Hin & Hf & Hint)|(Hnin & Hf & markers & Hint & Hall)].
    + rewrite bool_decide_eq_true_2 by exact Hin. auto.
    + rewrite bool_decide_eq_false_2 by exact Hnin. split; [exact Hf|].
      rewrite Hint. exact Hall.
  - apply process_areas_returns_wrapping in Hrun; [|exact Hge|lia].
    cbn [Form.i Form.areas] in Hrun. destruct Hrun as (Hi & Ha & Hin & Hf & Hint).
    split; [exact Hi|]. split; [exact Ha|].
    rewrite bool_decide_eq_true_2 by exact Hin. auto.
Qed.

(** Whether the loop over the areas returns does not depend on the flag
    and the internal markers it starts from. *)
Lemma process_areas_returns_again surface : forall fuel i areas flag markers flag' markers' k form,
  process_areas fuel surface (Form.mk i areas flag markers) k = Returns form ->
  exists form',
    process_areas fuel surface (Form.mk i areas flag' markers') k = Returns form'.
Proof.
  induction fuel as [|fuel IH]; intros i areas flag markers flag' markers' k form Hrun;
    [discriminate|].
  cbn [Form.process_areas Form.areas Form.i Form.assembleEverywhere Form.areas_internal]
    in Hrun |- *.
  destruct (k <? Z.of_nat (length areas)); [|eauto].
  destruct (areas !! Z.to_nat k) as [area|]; [|discriminate].
  destruct (String.eqb area ANY); [eauto|].
  destruct (get_internal_marker surface i area) as [marker|]; [|discriminate].
  eapply IH. exact Hrun.
Qed.

(** A form that has been processed is left as it is by a second
    processing. *)
Lemma processed_twice surface form form' form'' :
  processed ANY get_internal_marker surface form form' ->
  processed ANY get_internal_marker surface form' form'' ->
  form'' = form'.
Proof.
  unfold processed. intros (Hi & Ha & H1) (Hi' & Ha' & H2).
  rewrite Ha, Hi in H2.
  destruct form' as [i' areas' flag' markers'], form'' as [i'' areas'' flag'' markers''].
  cbn in *. subst i' areas' i'' areas''.
  destruct (bool_decide (ANY ∈ Form.areas form)).
  - destruct H1 as [-> ->], H2 as [-> ->]. reflexivity.
  - destruct H1 as [_ H1], H2 as [-> H2]. f_equal.
    revert markers'' H2. induction H1 as [|area marker areas markers Hm _ IH];
      intros markers'' H2; inversion H2 as [|? marker2 ? markers2 Hm2 H2']; subst.
    + reflexivity.
    + f_equal; [congruence|]. now apply IH.
Qed.

Lemma process_form_twice fuel surface form form' :
  process_form fuel surface form = Returns form' ->
  process_form fuel surface form' = Returns form'.
Proof.
  intros Hrun. pose proof (process_form_processed _ _ _ _ Hrun) as Hp.
  destruct Hp as (Hi & Ha & _).
  unfold Form.process_form in *. rewrite Hi, Ha.
  destruct (process_areas_returns_again surface _ _ _ _ _
              (Form.assembleEverywhere form') [] _ _ Hrun) as [form'' Hrun'].
  rewrite Hrun'. f_equal.
  apply (processed_twice surface form form' form'').
  - now apply (process_form_processed fuel).
  - apply (process_form_processed fuel). unfold Form.process_form.
    destruct (process_form_processed _ _ _ _ Hrun) as (Hi' & Ha' & _).
    rewrite Hi', Ha'. exact Hrun'.
Qed.

(** The loop over the forms never ends on 2^16 forms or more. *)
Lemma processFormMarkers_wrapping surface : forall fuel forms k forms',
  65536 <= Z.of_nat (length forms) ->
  0 <= k < 65536 ->
  processFormMarkers fuel surface forms k <> Returns forms'.
Proof.
  induction fuel as [|fuel IH]; intros forms k forms' Hlen Hk; [discriminate|].
  cbn [Form.processFormMarkers].
  destruct (Z.ltb_spec k (Z.of_nat (length forms))) as [Hlt|Hge]; [|lia].
  destruct (forms !! Z.to_nat k) as [form|]; [|discriminate].
  destruct (Form.process_form ANY get_internal_marker (S fuel) surface form) as [form'| |];
    try discriminate.
  apply IH; [rewrite length_insert; exact Hlen|apply ushort_succ_range].
Qed.

(** Below 2^16 forms: the loop from the form [k] on leaves the forms
    before [k] alone and processes the others; a second run from [k] on
    changes nothing more. *)
Lemma processFormMarkers_from surface : forall fuel forms k forms',
  Z.of_nat (length forms) < 65536 ->
  0 <= k ->
  processFormMarkers fuel surface forms k = Returns forms' ->
  length forms' = length forms /\
  take (Z.to_nat k) forms' = take (Z.to_nat k) forms /\
  Forall2 (processed ANY get_internal_marker surface)
    (drop (Z.to_nat k) forms) (drop (Z.to_nat k) forms') /\
  processFormMarkers fuel surface forms' k = Returns forms'.
Proof.
  induction fuel as [|fuel IH]; intros forms k forms' Hlen Hk Hrun; [discriminate|].
  cbn [Form.processFormMarkers] in Hrun |- *.
  destruct (Z.ltb_spec k (Z.of_nat (length forms))) as [Hlt|Hge].
  - destruct (forms !! Z.to_nat k) as [form|] eqn:Hform; [|discriminate].
    destruct (Form.process_form ANY get_internal_marker (S fuel) surface form)
      as [form1| |] eqn:Hone; try discriminate.
    rewrite ushort_succ_small in Hrun |- * by lia.
    apply IH in Hrun; [|rewrite length_insert; exact Hlen|lia].
    rewrite length_insert in Hrun.
    replace (Z.to_nat (k + 1)) with (S (Z.to_nat k)) in Hrun by lia.
    destruct Hrun as (Hl & Htake & Hdrop & Hagain).
    assert (Hk' : (Z.to_nat k < length forms)%nat) by lia.
    assert (Hform1 : forms' !! Z.to_nat k = Some form1).
    { rewrite <- (lookup_take_lt forms' (S (Z.to_nat k))) by lia.
      rewrite Htake, lookup_take_lt by lia.
      apply list_lookup_insert_eq. exact Hk'. }
    split; [exact Hl|]. split; [|split].
    + apply (f_equal (take (Z.to_nat k))) in Htake.
      rewrite !take_take in Htake.
      replace (Z.to_nat k `min` S (Z.to_nat k))%nat with (Z.to_nat k) in Htake by lia.
      rewrite Htake. apply take_insert_ge. lia.
    + rewrite (drop_S _ _ _ Hform), (drop_S _ _ _ Hform1).
      constructor; [now apply (process_form_processed (S fuel))|].
      rewrite drop_insert_lt in Hdrop by lia. exact Hdrop.
    + rewrite Hl. destruct (Z.ltb_spec k (Z.of_nat (length forms))); [|lia].
      rewrite Hform1, (process_form_twice _ _ _ _ Hone).
      rewrite list_insert_id by exact Hform1. exact Hagain.
  - injection Hrun as <-. split; [reflexivity|]. split; [reflexivity|].
    split.
    + rewrite drop_ge by lia. constructor.
    + destruct (Z.ltb_spec k (Z.of_nat (length forms))); [lia|reflexivity].
Qed.

(** X14 (what processFormMarkers computes).  When [processFormMarkers]
    returns, every form has kept its component and its areas; a form with
    [HERMES_ANY] among its areas is assembled everywhere and has no
    internal marker; any other form has the internal markers of its areas,
    in order and in place of those it had, and the [assembleEverywhere]
    flag it had before: the flag is never cleared. *)
Theorem processFormMarkers_result (fuel : nat) (surface : bool) (forms forms' : list Form.t) :
  processFormMarkers fuel surface forms 0 = Returns forms' ->
  Forall2 (processed ANY get_internal_marker surface) forms forms'.
Proof.
  intros Hrun.
  destruct (Z_lt_le_dec (Z.of_nat (length forms)) 65536) as [Hlt|Hge].
  - apply processFormMarkers_from in Hrun as (_ & _ & H & _); [exact H|exact Hlt|lia].
  - exfalso. revert Hrun. apply processFormMarkers_wrapping; [exact Hge|lia].
Qed.

(** X15 (processing twice).  A call of [processFormMarkers] that returned
    has left forms on which the same call changes nothing. *)
Theorem processFormMarkers_twice (fuel : nat) (surface : bool) (forms forms' : list Form.t) :
  processFormMarkers fuel surface forms 0 = Returns forms' ->
  processFormMarkers fuel surface forms' 0 = Returns forms'.
Proof.
  intros Hrun.
  destruct (Z_lt_le_dec (Z.of_nat (length forms)) 65536) as [Hlt|Hge].
  - apply processFormMarkers_from in Hrun as (_ & _ & _ & H); [exact H|exact Hlt|lia].
  - exfalso. revert Hrun. apply processFormMarkers_wrapping; [exact Hge|lia].
Qed.

(** X16 (a flag that stays).  A form made by [Form(i)] lists [HERMES_ANY],
    so the first [processFormMarkers] sets its [assembleEverywhere] flag.
    When [set_area] then restricts it to one area with a valid marker, the
    next [processFormMarkers] records that marker and leaves the flag set:
    the form is still assembled everywhere. *)
Theorem assembleEverywhere_outlives_set_area
    (fuel fuel' : nat) (surface : bool) (i : nat) (area : string) (marker : Z)
    (form1 form2 : Form.t) :
  area <> ANY ->
  get_internal_marker surface i area = Some marker ->
  processFormMarkers fuel surface [Form.construct ANY i] 0 = Returns [form1] ->
  processFormMarkers fuel' surface [Form.set_area form1 area] 0 = Returns [form2] ->
  Form.assembleEverywhere form1 = true /\
  Form.assembleEverywhere form2 = true /\
  Form.areas_internal form2 = [marker].
Proof.
  intros Hne Hconv Hrun1 Hrun2.
  apply processFormMarkers_from in Hrun1 as (_ & _ & H1 & _); [|cbn; lia|lia].
  apply processFormMarkers_from in Hrun2 as (_ & _ & H2 & _); [|cbn; lia|lia].
  cbn [Z.to_nat drop] in H1, H2.
  apply Forall2_cons_1 in H1 as [(Hi1 & _ & H1) _].
  apply Forall2_cons_1 in H2 as [(_ & _ & H2) _].
  cbn [Form.construct Form.areas Form.i] in H1, Hi1.
  rewrite bool_decide_eq_true_2 in H1 by left. destruct H1 as [Hf1 _].
  cbn [Form.set_area Form.areas Form.i Form.assembleEverywhere] in H2.
  rewrite bool_decide_eq_false_2 in H2.
  - destruct H2 as [Hf2 Hall]. rewrite Hi1 in Hall.
    split; [exact Hf1|]. split; [congruence|].
    inversion Hall as [|? m ? ms Hm Hrest]; subst. inversion Hrest; subst.
    congruence.
  - intros Hin. apply list_elem_of_singleton in Hin. congruence.
Qed.

End FormMarkers.



Lemma processFormMarkers_result_witness :
  Form.processFormMarkers any_demo internal_marker_demo 5 false [form_left_demo] 0
  = Returns [Form.mk 0 ["left"%string] false [1]] /\
  Forall2 (processed any_demo internal_marker_demo false)
    [form_left_demo] [Form.mk 0 ["left"%string] false [1]].
Proof.
  assert (H : Form.processFormMarkers any_demo internal_marker_demo 5 false
                [form_left_demo] 0
              = Returns [Form.mk 0 ["left"%string] false [1]]) by reflexivity.
  split; [exact H|].
  exact (processFormMarkers_result any_demo internal_marker_demo 5 false _ _ H).
Defined.

Lemma processFormMarkers_twice_witness :
  Form.processFormMarkers any_demo internal_marker_demo 5 false [form_left_demo] 0
  = Returns [Form.mk 0 ["left"%string] false [1]] /\
  Form.processFormMarkers any_demo internal_marker_demo 5 false
    [Form.mk 0 ["left"%string] false [1]] 0
  = Returns [Form.mk 0 ["left"%string] false [1]].
Proof.
  assert (H : Form.processFormMarkers any_demo internal_marker_demo 5 false
                [form_left_demo] 0
              = Returns [Form.mk 0 ["left"%string] false [1]]) by reflexivity.
  split; [exact H|].
  exact (processFormMarkers_twice any_demo internal_marker_demo 5 false _ _ H).
Defined.

Lemma assembleEverywhere_outlives_set_area_witness :
  Form.assembleEverywhere (Form.mk 0 [any_demo] true []) = true /\
  Form.assembleEverywhere (Form.mk 0 ["left"%string] true [1]) = true /\
  Form.areas_internal (Form.mk 0 ["left"%string] true [1]) = [1].
Proof.
  refine (assembleEverywhere_outlives_set_area any_demo internal_marker_demo 5 5 false
            0 "left"%string 1 (Form.mk 0 [any_demo] true [])
            (Form.mk 0 ["left"%string] true [1]) _ _ _ _).
  - discriminate.
  - reflexivity.
  - reflexivity.
  - reflexivity.
Defined.


(** *** Registering forms *)

Lemma leb_false_lt (n k : nat) : (n <=? k)%nat = false -> (k < n)%nat.
Proof. intros H. apply Nat.leb_gt in H. exact H. Qed.

(** What [add_matrix_form] has checked when it returns. *)
Lemma add_matrix_form_returns wf form wf' :
  Registration.add_matrix_form wf form = Returns wf' ->
  (MatrixForm.i form < WeakForm.neq wf)%nat /\
  (MatrixForm.j form < WeakForm.neq wf)%nat /\
  sym_flag_valid form /\
  wf' = WeakForm.mk (WeakForm.neq wf) (WeakForm.mfvol wf ++ [form])
          (WeakForm.mfsurf wf) (WeakForm.mfDG wf) (WeakForm.vfDG_size wf).
Proof.
  unfold Registration.add_matrix_form, sym_flag_valid.
  destruct (WeakForm.neq wf <=? MatrixForm.i form)%nat eqn:Ei; [discriminate|].
  destruct (WeakForm.neq wf <=? MatrixForm.j form)%nat eqn:Ej; [discriminate|].
  cbn [orb].
  destruct (Z.ltb_spec (MatrixForm.sym form) (-1)); [discriminate|].
  destruct (Z.gtb_spec (MatrixForm.sym form) 1); [discriminate|].
  cbn [orb].
  destruct (Z.ltb_spec (MatrixForm.sym form) 0) as [Hneg|Hpos]; cbn [andb].
  - destruct (Nat.eqb_spec (MatrixForm.i form) (MatrixForm.j form)); [discriminate|].
    intros [= <-]. apply leb_false_lt in Ei, Ej.
    repeat split; try assumption; lia.
  - intros [= <-]. apply leb_false_lt in Ei, Ej.
    repeat split; try assumption; lia.
Qed.

Lemma add_matrix_form_surf_returns wf form wf' :
  Registration.add_matrix_form_surf wf form = Returns wf' ->
  (MatrixForm.i form < WeakForm.neq wf)%nat /\
  (MatrixForm.j form < WeakForm.neq wf)%nat /\
  wf' = WeakForm.mk (WeakForm.neq wf) (WeakForm.mfvol wf)
          (WeakForm.mfsurf wf ++ [form]) (WeakForm.mfDG wf) (WeakForm.vfDG_size wf).
Proof.
  unfold Registration.add_matrix_form_surf.
  destruct (WeakForm.neq wf <=? MatrixForm.i form)%nat eqn:Ei; [discriminate|].
  destruct (WeakForm.neq wf <=? MatrixForm.j form)%nat eqn:Ej; [discriminate|].
  intros [= <-]. apply leb_false_lt in Ei, Ej. auto.
Qed.

Lemma add_matrix_form_DG_returns wf form wf' :
  Registration.add_matrix_form_DG wf form = Returns wf' ->
  (MatrixFormDG.i form < WeakForm.neq wf)%nat /\
  (MatrixFormDG.j form < WeakForm.neq wf)%nat /\
  wf' = WeakForm.mk (WeakForm.neq wf) (WeakForm.mfvol wf)
          (WeakForm.mfsurf wf) (WeakForm.mfDG wf ++ [form]) (WeakForm.vfDG_size wf).
Proof.
  unfold Registration.add_matrix_form_DG.
  destruct (WeakForm.neq wf <=? MatrixFormDG.i form)%nat eqn:Ei; [discriminate|].
  destruct (WeakForm.neq wf <=? MatrixFormDG.j form)%nat eqn:Ej; [discriminate|].
  intros [= <-]. apply leb_false_lt in Ei, Ej. auto.
Qed.

Lemma add_vector_form_DG_returns wf i wf' :
  Registration.add_vector_form_DG wf i = Returns wf' ->
  wf' = WeakForm.mk (WeakForm.neq wf) (WeakForm.mfvol wf)
          (WeakForm.mfsurf wf) (WeakForm.mfDG wf) (S (WeakForm.vfDG_size wf)).
Proof.
  unfold Registration.add_vector_form_DG.
  destruct (WeakForm.neq wf <=? i)%nat; [discriminate|]. now intros [= <-].
Qed.

(** The calls that returned have let in only forms with equation numbers
    below [neq] and, among the volume forms, valid symmetry flags. *)
Lemma registered_in_range neq wf :
  registered neq wf ->
  WeakForm.neq wf = neq /\
  Forall (fun f => (MatrixForm.i f < neq)%nat /\ (MatrixForm.j f < neq)%nat /\
                   sym_flag_valid f) (WeakForm.mfvol wf) /\
  Forall (fun f => (MatrixForm.i f < neq)%nat /\ (MatrixForm.j f < neq)%nat)
         (WeakForm.mfsurf wf) /\
  Forall (fun f => (MatrixFormDG.i f < neq)%nat /\ (MatrixFormDG.j f < neq)%nat)
         (WeakForm.mfDG wf).
Proof.
  induction 1 as [|wf form wf' _ (Hn & Hv & Hs & Hd) Hadd
                  |wf form wf' _ (Hn & Hv & Hs & Hd) Hadd
                  |wf form wf' _ (Hn & Hv & Hs & Hd) Hadd
                  |wf i wf' _ (Hn & Hv & Hs & Hd) Hadd].
  - cbn. repeat split; constructor.
  - apply add_matrix_form_returns in Hadd as (Hi & Hj & Hsym & ->). cbn.
    rewrite Hn in Hi, Hj. repeat split; try assumption.
    apply Forall_app. split; [exact Hv|]. apply Forall_singleton; auto.
  - apply add_matrix_form_surf_returns in Hadd as (Hi & Hj & ->). cbn.
    rewrite Hn in Hi, Hj. repeat split; try assumption.
    apply Forall_app. split; [exact Hs|]. apply Forall_singleton; auto.
  - apply add_matrix_form_DG_returns in Hadd as (Hi & Hj & ->). cbn.
    rewrite Hn in Hi, Hj. repeat split; try assumption.
    apply Forall_app. split; [exact Hd|]. apply Forall_singleton; auto.
  - apply add_vector_form_DG_returns in Hadd as ->. cbn. auto.
Qed.

(** X17 (no form is lost).  In a weak formulation built by the constructor
    and [add_..] calls that returned, every matrix form has equation
    numbers below [neq], every volume form a symmetry flag among -1, 0, 1
    that is negative only off the diagonal, and so every form with a
    scaling factor above the threshold finds its block marked by
    [get_blocks]: the block [(i, j)], and for a volume form with a non-zero
    flag the block [(j, i)] too. *)
Theorem registered_forms_mark_their_blocks (eps : Q) (neq : nat) (wf : WeakForm.t)
    (force_diagonal_blocks : bool) :
  registered neq wf ->
  WeakForm.neq wf = neq /\
  (forall f, f ∈ WeakForm.mfvol wf ->
     (MatrixForm.i f < neq)%nat /\ (MatrixForm.j f < neq)%nat /\ sym_flag_valid f /\
     (WeakForm.above_threshold eps (MatrixForm.scaling_factor f) = true ->
      WeakForm.block (WeakForm.get_blocks eps wf force_diagonal_blocks)
        (MatrixForm.i f) (MatrixForm.j f) = Some true /\
      (MatrixForm.sym f <> 0 ->
       WeakForm.block (WeakForm.get_blocks eps wf force_diagonal_blocks)
         (MatrixForm.j f) (MatrixForm.i f) = Some true))) /\
  (forall f, f ∈ WeakForm.mfsurf wf ->
     (MatrixForm.i f < neq)%nat /\ (MatrixForm.j f < neq)%nat /\
     (WeakForm.above_threshold eps (MatrixForm.scaling_factor f) = true ->
      WeakForm.block (WeakForm.get_blocks eps wf force_diagonal_blocks)
        (MatrixForm.i f) (MatrixForm.j f) = Some true)) /\
  (forall f, f ∈ WeakForm.mfDG wf ->
     (MatrixFormDG.i f < neq)%nat /\ (MatrixFormDG.j f < neq)%nat /\
     (WeakForm.above_threshold eps (MatrixFormDG.scaling_factor f) = true ->
      WeakForm.block (WeakForm.get_blocks eps wf force_diagonal_blocks)
        (MatrixFormDG.i f) (MatrixFormDG.j f) = Some true)).
Proof.
  intros Hreg. destruct (registered_in_range neq wf Hreg) as (Hn & Hv & Hs & Hd).
  assert (Hmarked : forall r c, (r < neq)%nat -> (c < neq)%nat ->
            block_marked eps wf force_diagonal_blocks r c ->
            WeakForm.block (WeakForm.get_blocks eps wf force_diagonal_blocks) r c
            = Some true).
  { intros r c Hr Hc Hm. rewrite <- Hn in Hr, Hc.
    destruct (get_blocks_entry eps wf force_diagonal_blocks r c Hr Hc) as (b & Hb & Hiff).
    rewrite Hb. f_equal. now apply Hiff. }
  split; [exact Hn|]. split; [|split].
  - intros f Hf. rewrite Forall_forall in Hv. destruct (Hv f Hf) as (Hi & Hj & Hsym).
    repeat (split; [assumption|]). intros Habove. split.
    + apply Hmarked; [assumption..|]. right. left. exists f.
      split; [exact Hf|]. split; [exact Habove|]. left. auto.
    + intros Hnz. apply Hmarked; [assumption..|]. right. left. exists f.
      split; [exact Hf|]. split; [exact Habove|]. right. auto.
  - intros f Hf. rewrite Forall_forall in Hs. destruct (Hs f Hf) as (Hi & Hj).
    repeat (split; [assumption|]). intros Habove.
    apply Hmarked; [assumption..|]. right. right. left. exists f.
    split; [exact Hf|]. split; [exact Habove|]. auto.
  - intros f Hf. rewrite Forall_forall in Hd. destruct (Hd f Hf) as (Hi & Hj).
    repeat (split; [assumption|]). intros Habove.
    apply Hmarked; [assumption..|]. right. right. right. exists f.
    split; [exact Hf|]. split; [exact Habove|]. auto.
Qed.

(** A marked block has a row and a column inside the matrix. *)
Lemma block_in_range eps wf fdb r c b :
  WeakForm.block (WeakForm.get_blocks eps wf fdb) r c = Some b ->
  (r < WeakForm.neq wf)%nat /\ (c < WeakForm.neq wf)%nat.
Proof.
  destruct (get_blocks_shape eps wf fdb) as [Hlen Hrows].
  unfold WeakForm.block.
  destruct (WeakForm.get_blocks eps wf fdb !! r) as [row|] eqn:Hrow; [|discriminate].
  intros Hc. split.
  - apply lookup_lt_Some in Hrow. lia.
  - apply lookup_lt_Some in Hc. rewrite Forall_forall in Hrows.
    rewrite <- (Hrows row); [exact Hc|]. eapply list_elem_of_lookup_2. exact Hrow.
Qed.

(** More forms, more marked blocks. *)
Lemma get_blocks_grows eps wf wf' fdb r c :
  WeakForm.neq wf' = WeakForm.neq wf ->
  WeakForm.mfvol wf ⊆ WeakForm.mfvol wf' ->
  WeakForm.mfsurf wf ⊆ WeakForm.mfsurf wf' ->
  WeakForm.mfDG wf ⊆ WeakForm.mfDG wf' ->
  WeakForm.block (WeakForm.get_blocks eps wf fdb) r c = Some true ->
  WeakForm.block (WeakForm.get_blocks eps wf' fdb) r c = Some true.
Proof.
  intros Hn Hv Hs Hd Hb.
  destruct (block_in_range _ _ _ _ _ _ Hb) as [Hr Hc].
  destruct (get_blocks_entry eps wf fdb r c Hr Hc) as (b & Hb1 & Hiff).
  rewrite Hb in Hb1. injection Hb1 as <-.
  rewrite <- Hn in Hr, Hc.
  destruct (get_blocks_entry eps wf' fdb r c Hr Hc) as (b' & Hb' & Hiff').
  rewrite Hb'. f_equal. apply Hiff'.
  destruct (proj1 Hiff eq_refl) as [H|[(f & Hf & H)|[(f & Hf & H)|(f & Hf & H)]]].
  - left. exact H.
  - right. left. exists f. split; [now apply Hv|exact H].
  - right. right. left. exists f. split; [now apply Hs|exact H].
  - right. right. right. exists f. split; [now apply Hd|exact H].
Qed.

(** X18 (registering never unmarks).  Whatever [add_..] call returns, every
    block that [get_blocks] marked before the call is marked after it. *)
Theorem adding_a_form_keeps_blocks (eps : Q) (wf wf' : WeakForm.t)
    (force_diagonal_blocks : bool) (r c : nat) :
  (exists form, Registration.add_matrix_form wf form = Returns wf') \/
  (exists form, Registration.add_matrix_form_surf wf form = Returns wf') \/
  (exists form, Registration.add_matrix_form_DG wf form = Returns wf') \/
  (exists i, Registration.add_vector_form_DG wf i = Returns wf') ->
  WeakForm.block (WeakForm.get_blocks eps wf force_diagonal_blocks) r c = Some true ->
  WeakForm.block (WeakForm.get_blocks eps wf' force_diagonal_blocks) r c = Some true.
Proof.
  intros [[form H]|[[form H]|[[form H]|[i H]]]].
  - apply add_matrix_form_returns in H as (_ & _ & _ & ->).
    apply get_blocks_grows; cbn; try reflexivity. apply sublist_subseteq, sublist_inserts_r. reflexivity.
  - apply add_matrix_form_surf_returns in H as (_ & _ & ->).
    apply get_blocks_grows; cbn; try reflexivity. apply sublist_subseteq, sublist_inserts_r. reflexivity.
  - apply add_matrix_form_DG_returns in H as (_ & _ & ->).
    apply get_blocks_grows; cbn; try reflexivity. apply sublist_subseteq, sublist_inserts_r. reflexivity.
  - apply add_vector_form_DG_returns in H as ->.
    apply get_blocks_grows; cbn; reflexivity.
Qed.



Lemma registered_forms_mark_their_blocks_witness :
  registered 2 wf_antisym /\
  WeakForm.block (WeakForm.get_blocks eps_demo wf_antisym false) 1 0 = Some true.
Proof.
  assert (H : registered 2 wf_antisym).
  { apply (registered_vol 2 (Registration.construct 2)
             (MatrixForm.mk 0 1 HERMES_ANTISYM 1 true []));
      [apply registered_construct|reflexivity]. }
  split; [exact H|].
  refine (proj2 (proj2 (proj2 (proj2 (proj1 (proj2
            (registered_forms_mark_their_blocks eps_demo 2 wf_antisym false H))
            (MatrixForm.mk 0 1 HERMES_ANTISYM 1 true []) _))) _) _).
  - apply list_elem_of_here.
  - reflexivity.
  - discriminate.
Defined.

Lemma adding_a_form_keeps_blocks_witness :
  WeakForm.block
    (WeakForm.get_blocks eps_demo
       (WeakForm.mk 2 [MatrixForm.mk 0 1 HERMES_ANTISYM 1 true []]
          [MatrixForm.mk 1 1 HERMES_NONSYM 1 true []] [] 0) false) 1 0
  = Some true.
Proof.
  refine (adding_a_form_keeps_blocks eps_demo wf_antisym _ false 1 0 _ _).
  - right. left. exists (MatrixForm.mk 1 1 HERMES_NONSYM 1 true []). reflexivity.
  - vm_compute. reflexivity.
Defined.


(** *** The bubble pass *)

Section Bubbles.
Variable get_num_bubbles : Z -> Element.t -> Z.

Local Abbreviation assign_element_bubbles := (BubblePass.assign_element_bubbles get_num_bubbles).

Lemma bubble_loop (edata0 : nat -> ElementData.t) : forall (l : list Element.t) s,
  NoDup (map Element.id l) ->
  (forall e, e ∈ l -> BubblePass.edata s (Element.id e) = edata0 (Element.id e)) ->
  Forall (fun e => 0 <= bubbles_of get_num_bubbles edata0 e) l ->
  0 <= BubblePass.bubble_functions_count s <= BubblePass.next_dof s ->
  BubblePass.next_dof s + sumZ (map (bubbles_of get_num_bubbles edata0) l) <= INT_MAX ->
  let s' := fold_left assign_element_bubbles l s in
  BubblePass.next_dof s' = BubblePass.next_dof s + sumZ (map (bubbles_of get_num_bubbles edata0) l) /\
  BubblePass.bubble_functions_count s'
  = BubblePass.bubble_functions_count s + sumZ (map (bubbles_of get_num_bubbles edata0) l) /\
  (forall k e, l !! k = Some e ->
     BubblePass.edata s' (Element.id e)
     = ElementData.mk (ElementData.order (edata0 (Element.id e)))
         (BubblePass.next_dof s + sumZ (map (bubbles_of get_num_bubbles edata0) (take k l)))
         (bubbles_of get_num_bubbles edata0 e)) /\
  (forall id, id ∉ map Element.id l -> BubblePass.edata s' id = BubblePass.edata s id).
Proof.
  induction l as [|e l IH]; intros s Hnd Hsame Hpos Hcount Hfit.
  - cbn. repeat split; try lia. intros k e H. inversion H.
  - cbn [map] in Hnd. apply NoDup_cons in Hnd as [Hfresh Hnd].
    apply Forall_cons in Hpos as [He Hpos].
    cbn [fold_left map sumZ foldr] in Hfit |- *.
    fold (sumZ (map (bubbles_of get_num_bubbles edata0) l)) in Hfit |- *.
    assert (Hrest : 0 <= sumZ (map (bubbles_of get_num_bubbles edata0) l))
      by (apply sumZ_nonneg, List.Forall_map; exact Hpos).
    assert (Horder : BubblePass.edata s (Element.id e) = edata0 (Element.id e))
      by (apply Hsame; left).
    assert (Hstep : BubblePass.next_dof (assign_element_bubbles s e)
                    = BubblePass.next_dof s + bubbles_of get_num_bubbles edata0 e /\
                    BubblePass.bubble_functions_count (assign_element_bubbles s e)
                    = BubblePass.bubble_functions_count s
                      + bubbles_of get_num_bubbles edata0 e).
    { cbn [BubblePass.assign_element_bubbles BubblePass.next_dof
             BubblePass.bubble_functions_count]. rewrite Horder.
      change (get_num_bubbles (ElementData.order (edata0 (Element.id e))) e)
        with (bubbles_of get_num_bubbles edata0 e).
      unfold int_add. rewrite !int_wrap_small by (unfold INT_MAX in *; lia). auto. }
    destruct Hstep as [Hn1 Hc1].
    specialize (IH (assign_element_bubbles s e) Hnd).
    assert (Hsame' : forall e', e' ∈ l ->
              BubblePass.edata (assign_element_bubbles s e) (Element.id e')
              = edata0 (Element.id e')).
    { intros e' He'. cbn.
      destruct (Nat.eqb_spec (Element.id e') (Element.id e)) as [Heq|Hne].
      - exfalso. apply Hfresh. rewrite <- Heq. apply list_elem_of_fmap. eauto.
      - apply Hsame. now right. }
    destruct (IH Hsame' Hpos ltac:(lia) ltac:(lia)) as (Hn & Hc & Hk & Hout). clear IH.
    rewrite Hn1 in Hn, Hk. rewrite Hc1 in Hc.
    split; [rewrite Hn; lia|]. split; [rewrite Hc; lia|]. split.
    + intros [|k] e' Hl; cbn in Hl.
      * injection Hl as <-. rewrite (Hout _ Hfresh). cbn.
        rewrite Nat.eqb_refl, Horder. cbn. unfold bubbles_of. f_equal; lia.
      * rewrite (Hk k e' Hl). cbn [take map sumZ foldr].
        fold (sumZ (map (bubbles_of get_num_bubbles edata0) (take k l))). f_equal; lia.
    + intros id Hid. cbn [map] in Hid. apply not_elem_of_cons in Hid as [Hne Hid].
      rewrite (Hout id Hid). cbn.
      destruct (Nat.eqb_spec id (Element.id e)); [contradiction|reflexivity].
Qed.

(** X19 (bubble DOFs).  Over active elements that are all different,
    with a first free DOF and bubble counts that are not negative and a
    total that fits below [INT_MAX], [assign_bubble_dofs] hands out the
    bubble DOFs in one run without gaps: the element in position [k] gets
    as [bdof] the first free DOF plus the numbers of bubble functions of
    the elements before it, and as [n] its own number; [next_dof] and
    [bubble_functions_count] advance by the sum over all elements; its
    order and the data of other elements are not touched. *)
Theorem assign_bubble_dofs_contiguous (edata : nat -> ElementData.t) (next_dof : Z)
    (active_elements : list Element.t) :
  NoDup (map Element.id active_elements) ->
  0 <= next_dof ->
  Forall (fun e => 0 <= bubbles_of get_num_bubbles edata e) active_elements ->
  next_dof + sumZ (map (bubbles_of get_num_bubbles edata) active_elements) <= INT_MAX ->
  BubblePass.next_dof
    (BubblePass.assign_bubble_dofs get_num_bubbles edata next_dof active_elements)
  = next_dof + sumZ (map (bubbles_of get_num_bubbles edata) active_elements) /\
  BubblePass.bubble_functions_count
    (BubblePass.assign_bubble_dofs get_num_bubbles edata next_dof active_elements)
  = sumZ (map (bubbles_of get_num_bubbles edata) active_elements) /\
  (forall k e, active_elements !! k = Some e ->
     BubblePass.edata
       (BubblePass.assign_bubble_dofs get_num_bubbles edata next_dof active_elements)
       (Element.id e)
     = ElementData.mk (ElementData.order (edata (Element.id e)))
         (next_dof + sumZ (map (bubbles_of get_num_bubbles edata) (take k active_elements)))
         (bubbles_of get_num_bubbles edata e)) /\
  (forall id, id ∉ map Element.id active_elements ->
     BubblePass.edata
       (BubblePass.assign_bubble_dofs get_num_bubbles edata next_dof active_elements) id
     = edata id).
Proof.
  intros Hnd Hfirst Hpos Hfit. unfold BubblePass.assign_bubble_dofs.
  destruct (bubble_loop edata active_elements (BubblePass.mk edata next_dof 0) Hnd)
    as (Hn & Hc & Hk & Hout); [reflexivity|exact Hpos|cbn; lia|exact Hfit|].
  cbn [BubblePass.next_dof BubblePass.bubble_functions_count BubblePass.edata] in *.
  repeat split; assumption.
Qed.

End Bubbles.

(** *** Constrained edges: parts and orientation *)

Lemma flip_spec x : ConstrainedEdges.flip x = - x - 1.
Proof.
  unfold ConstrainedEdges.flip. change (Z.lnot 0) with (-1).
  rewrite Z.lxor_m1_r. unfold Z.lnot. lia.
Qed.

(** What the loop over the edges of an active element stores for the
    edge [i], when no later edge shares its node. *)
Lemma update_active_element_loop (e : Element.t) (ei : list (option EdgeInfo.t)) :
  forall (l : list nat) ndata ndata',
    foldlM (fun ndata i =>
              match ei !! i with
              | Some (Some info) =>
                  match Element.en e !! i with
                  | Some en =>
                      let nd := ndata (Node.id en) in
                      let part :=
                        if negb (EdgeInfo.ori info =? 0)
                        then ConstrainedEdges.flip (EdgeInfo.part info)
                        else EdgeInfo.part info in
                      Some (fun k =>
                              if Nat.eqb k (Node.id en)
                              then EdgeNodeData.mk (EdgeNodeData.dof nd) (EdgeNodeData.n nd)
                                     (EdgeNodeData.edge_bc_proj nd)
                                     (Some (EdgeInfo.node info)) part
                              else ndata k)
                  | None => None
                  end
              | Some None => Some ndata
              | None => None
              end) ndata l = Some ndata' ->
    (forall k, (forall i en, i ∈ l -> Element.en e !! i = Some en -> Node.id en <> k) ->
               ndata' k = ndata k) /\
    (forall i en info,
       i ∈ l -> Element.en e !! i = Some en -> ei !! i = Some (Some info) ->
       (forall i' en', i' ∈ l -> i' <> i -> Element.en e !! i' = Some en' ->
                       Node.id en' <> Node.id en) ->
       EdgeNodeData.dof (ndata' (Node.id en)) = EdgeNodeData.dof (ndata (Node.id en)) /\
       EdgeNodeData.n (ndata' (Node.id en)) = EdgeNodeData.n (ndata (Node.id en)) /\
       EdgeNodeData.base (ndata' (Node.id en)) = Some (EdgeInfo.node info) /\
       EdgeNodeData.part (ndata' (Node.id en))
       = if negb (EdgeInfo.ori info =? 0)
         then ConstrainedEdges.flip (EdgeInfo.part info)
         else EdgeInfo.part info).
Proof.
  induction l as [|i0 l IH]; intros ndata ndata' Hrun.
  - injection Hrun as <-. split; [reflexivity|]. intros i en info Hi. inversion Hi.
  - cbn [foldlM] in Hrun.
    destruct (ei !! i0) as [[info0|]|] eqn:Hei0; [| |discriminate].
    + destruct (Element.en e !! i0) as [en0|] eqn:Hen0; [|discriminate].
      cbv zeta in Hrun. apply IH in Hrun as [Hframe Hset]. split.
      * intros k Hk. rewrite Hframe.
        -- destruct (Nat.eqb_spec k (Node.id en0)) as [->|_]; [|reflexivity].
           exfalso. apply (Hk i0 en0); [left|exact Hen0|reflexivity].
        -- intros i en Hi Hen. apply (Hk i en); [now right|exact Hen].
      * intros i en info Hi Hen Hinfo Hothers.
        apply elem_of_cons in Hi as [->|Hi].
        -- rewrite Hen0 in Hen. injection Hen as ->.
           rewrite Hei0 in Hinfo. injection Hinfo as ->.
           destruct (decide (i0 ∈ l)) as [Hin|Hnin].
           ++ destruct (Hset i0 en info Hin Hen0 Hei0) as (H1 & H2 & H3 & H4).
              { intros i' en' Hi' Hne Hen'. apply (Hothers i' en'); [now right|exact Hne|exact Hen']. }
              rewrite H1, H2, H3, H4. cbn. rewrite Nat.eqb_refl. cbn. auto.
           ++ rewrite Hframe.
              { rewrite Nat.eqb_refl. cbn. auto. }
              intros i en' Hi Hen'. apply (Hothers i en'); [now right| |exact Hen'].
              intros ->. contradiction.
        -- destruct (Hset i en info Hi Hen Hinfo) as (H1 & H2 & H3 & H4).
           { intros i' en' Hi' Hne Hen'. apply (Hothers i' en'); [now right|exact Hne|exact Hen']. }
           rewrite H1, H2, H3, H4.
           destruct (decide (i = i0)) as [->|Hne].
           ++ rewrite Hen0 in Hen. injection Hen as ->. rewrite Nat.eqb_refl. cbn. auto.
           ++ destruct (Nat.eqb_spec (Node.id en) (Node.id en0)) as [Heq|_]; [|auto].
              exfalso. apply (Hothers i0 en0); [left|congruence|exact Hen0|congruence].
    + apply IH in Hrun as [Hframe Hset]. split.
      * intros k Hk. apply Hframe. intros i en Hi Hen. apply (Hk i en); [now right|exact Hen].
      * intros i en info Hi Hen Hinfo Hothers.
        apply elem_of_cons in Hi as [->|Hi]; [congruence|].
        apply (Hset i en info Hi Hen Hinfo).
        intros i' en' Hi' Hne Hen'. apply (Hothers i' en'); [now right|exact Hne|exact Hen'].
Qed.

Section PartRoundTrip.
Variable get_edge_index : nat -> Z -> Z -> Element.t -> Z.
Variable get_constrained_edge_index : nat -> Z -> Z -> Z -> Element.t -> Z.
Variable next_vert : Element.t -> nat -> nat.

(** X20 (part and orientation).  [update_constrained_nodes] stores the
    orientation of a constrained edge in the sign of its part number;
    [get_boundary_assembly_list_internal] reads both back.  For an edge
    info with a part number that is not negative and an orientation 0 or
    1, on an edge whose node is constrained ([n < 0]) and is the node of no
    other edge of the element, the triplets added carry the constrained
    edge indices of exactly that part and that orientation, with the DOFs
    of the constraining node and coefficient 1. *)
Theorem constrained_edge_part_round_trip
    (ndata ndata' : nat -> EdgeNodeData.t) (e : Element.t)
    (ei : list (option EdgeInfo.t)) (i : nat) (en : Node.t) (info : EdgeInfo.t)
    (al : list H1Space.triplet) :
  ConstrainedEdges.update_active_element ndata e ei = Some ndata' ->
  (i < Element.nvert e)%nat ->
  Element.en e !! i = Some en ->
  ei !! i = Some (Some info) ->
  (forall i' en', i' <> i -> Element.en e !! i' = Some en' -> Node.id en' <> Node.id en) ->
  0 <= EdgeInfo.part info ->
  EdgeInfo.ori info = 0 \/ EdgeInfo.ori info = 1 ->
  EdgeNodeData.n (ndata (Node.id en)) < 0 ->
  ConstrainedEdges.get_boundary_assembly_list_internal get_edge_index
    get_constrained_edge_index next_vert ndata' e i al
  = Some (al ++ map (fun j =>
                       H1Space.mk_triplet
                         (get_constrained_edge_index i (j + 2) (EdgeInfo.ori info)
                            (EdgeInfo.part info) e)
                         (EdgeNodeData.dof (ndata' (Node.id (EdgeInfo.node info))) + j) 1)
                    (seqZ 0 (EdgeNodeData.n (ndata' (Node.id (EdgeInfo.node info)))))).
Proof.
  intros Hrun Hi Hen Hinfo Hothers Hpart Hori Hn.
  unfold ConstrainedEdges.update_active_element in Hrun.
  apply update_active_element_loop in Hrun as [_ Hset].
  destruct (Hset i en info) as (_ & Hn' & Hbase & Hp); try assumption.
  { apply elem_of_seq. lia. }
  { intros i' en' _ Hne Hen'. apply (Hothers i' en'); assumption. }
  unfold ConstrainedEdges.get_boundary_assembly_list_internal.
  rewrite Hen. cbv zeta. rewrite Hn'.
  destruct (Z.geb_spec (EdgeNodeData.n (ndata (Node.id en))) 0); [lia|].
  rewrite Hbase, Hp.
  destruct Hori as [-> | ->]; cbn [Z.eqb negb].
  - destruct (Z.ltb_spec (EdgeInfo.part info) 0); [lia|]. reflexivity.
  - rewrite flip_spec.
    destruct (Z.ltb_spec (- EdgeInfo.part info - 1) 0); [|lia].
    rewrite flip_spec.
    replace (- (- EdgeInfo.part info - 1) - 1) with (EdgeInfo.part info) by lia.
    reflexivity.
Qed.

End PartRoundTrip.

(** *** Half edges *)

Lemma inject_Z_pow2_S (d : nat) :
  (inject_Z (2 ^ Z.of_nat (S d)) == 2 * inject_Z (2 ^ Z.of_nat d))%Q.
Proof.
  rewrite Nat2Z.inj_succ, Z.pow_succ_r by lia.
  rewrite inject_Z_mult. reflexivity.
Qed.

Lemma inject_Z_pow2_pos (d : nat) : (0 < inject_Z (2 ^ Z.of_nat d))%Q.
Proof.
  change 0%Q with (inject_Z 0). rewrite <- Zlt_Qlt. apply Z.pow_pos_nonneg; lia.
Qed.

(** Part number and interval of the edge info at the end of a path, while
    the part numbers stay in the range of [int]. *)
Lemma descend_spec : forall (path : list bool) (ei : EdgeInfo.t),
  -1 <= EdgeInfo.part ei ->
  (EdgeInfo.part ei + 3) * 2 ^ Z.of_nat (length path) <= INT_MAX + 3 ->
  EdgeInfo.part (descend path ei) + 2
  = (EdgeInfo.part ei + 2) * 2 ^ Z.of_nat (length path) + path_index path /\
  (EdgeInfo.lo (descend path ei)
   == EdgeInfo.lo ei
      + (EdgeInfo.hi ei - EdgeInfo.lo ei) * inject_Z (path_index path)
        / inject_Z (2 ^ Z.of_nat (length path)))%Q /\
  (EdgeInfo.hi (descend path ei) - EdgeInfo.lo (descend path ei)
   == (EdgeInfo.hi ei - EdgeInfo.lo ei) / inject_Z (2 ^ Z.of_nat (length path)))%Q /\
  EdgeInfo.node (descend path ei) = EdgeInfo.node ei /\
  EdgeInfo.ori (descend path ei) = EdgeInfo.ori ei.
Proof.
  induction path as [|second path IH]; intros ei Hlow Hfit.
  - cbn [descend length path_index].
    change (inject_Z (2 ^ Z.of_nat 0)) with 1%Q. change (2 ^ Z.of_nat 0) with 1.
    change (inject_Z 0) with 0%Q.
    split; [lia|]. split; [|split; [|auto]]; field.
  - cbn [descend length path_index].
    cbn [length] in Hfit. rewrite Nat2Z.inj_succ, Z.pow_succ_r in Hfit by lia.
    assert (Hpow2 : 0 < 2 ^ Z.of_nat (length path)) by (apply Z.pow_pos_nonneg; lia).
    pose proof (inject_Z_pow2_pos (length path)) as Hpos.
    pose proof (inject_Z_pow2_S (length path)) as Hpow.
    assert (Hnz : ~ (inject_Z (2 ^ Z.of_nat (length path)) == 0)%Q).
    { intros H. rewrite H in Hpos. apply (Qlt_irrefl 0), Hpos. }
    assert (Hroom : 2 * EdgeInfo.part ei + 3 <= INT_MAX) by (unfold INT_MAX in *; nia).
    assert (Hh0 : int_mul (int_add (EdgeInfo.part ei) 1) 2 = 2 * EdgeInfo.part ei + 2).
    { unfold int_mul, int_add.
      rewrite (int_wrap_small (EdgeInfo.part ei + 1)) by (unfold INT_MAX in *; lia).
      rewrite int_wrap_small by (unfold INT_MAX in *; lia). lia. }
    assert (Hh1 : int_add (int_mul (int_add (EdgeInfo.part ei) 1) 2) 1
                  = 2 * EdgeInfo.part ei + 3).
    { rewrite Hh0. unfold int_add.
      rewrite int_wrap_small by (unfold INT_MAX in *; lia). lia. }
    destruct (IH (if second
                  then snd (ConstrainedEdges.half_edge_infos ei)
                  else fst (ConstrainedEdges.half_edge_infos ei)))
      as (Hp & Hlo & Hw & Hnode & Hori).
    { destruct second; cbn [ConstrainedEdges.half_edge_infos fst snd EdgeInfo.part];
        rewrite ?Hh1, ?Hh0; lia. }
    { destruct second; cbn [ConstrainedEdges.half_edge_infos fst snd EdgeInfo.part];
        rewrite ?Hh1, ?Hh0; unfold INT_MAX in *; nia. }
    split; [|split; [|split; [|split]]].
    + rewrite Hp, Nat2Z.inj_succ, Z.pow_succ_r by lia.
      destruct second; cbn [ConstrainedEdges.half_edge_infos fst snd EdgeInfo.part];
        rewrite ?Hh1, ?Hh0; lia.
    + rewrite Hlo, Hpow.
      destruct second; cbn [ConstrainedEdges.half_edge_infos fst snd EdgeInfo.lo EdgeInfo.hi];
        rewrite inject_Z_plus, inject_Z_mult.
      * change (inject_Z 1) with 1%Q. field. exact Hnz.
      * change (inject_Z 0) with 0%Q. field. exact Hnz.
    + rewrite Hw, Hpow.
      destruct second; cbn [ConstrainedEdges.half_edge_infos fst snd EdgeInfo.lo EdgeInfo.hi];
        field; exact Hnz.
    + rewrite Hnode. now destruct second.
    + rewrite Hori. now destruct second.
Qed.

Lemma path_index_range (p : list bool) : 0 <= path_index p < 2 ^ Z.of_nat (length p).
Proof.
  induction p as [|b p IHp]; [cbn; lia|].
  cbn [path_index length]. rewrite Nat2Z.inj_succ, Z.pow_succ_r by lia.
  destruct b; lia.
Qed.

Lemma pow2_depth_fits (d : nat) : (d <= 30)%nat -> 2 * 2 ^ Z.of_nat d <= INT_MAX + 1.
Proof.
  intros Hd.
  assert (2 ^ Z.of_nat d <= 2 ^ 30) by (apply Z.pow_le_mono_r; lia).
  change (2 ^ 30) with 1073741824 in *. unfold INT_MAX. lia.
Qed.

(** X21 (half edges).  From the edge info that [update_constrained_nodes]
    makes for a split edge (part number -1, interval [-1, 1]), [d] splits
    into halves, [d] at most 30 so that the part numbers stay below
    [INT_MAX] and the ends of the intervals are exact in a double, lead to
    the part number [2^d + k - 2] for the [k]-th of the [2^d] pieces,
    counted from the low end, with the interval
    [[-1 + 2k/2^d, -1 + 2(k+1)/2^d]], the same node and the same
    orientation: the part number alone tells the piece, it is never
    negative once the edge is split, and no two pieces at most 30 splits
    deep share it. *)
Theorem half_edge_parts_number_the_pieces (path : list bool) (ei : EdgeInfo.t) :
  EdgeInfo.part ei = -1 ->
  (EdgeInfo.lo ei == -1)%Q -> (EdgeInfo.hi ei == 1)%Q ->
  (length path <= 30)%nat ->
  0 <= path_index path < 2 ^ Z.of_nat (length path) /\
  EdgeInfo.part (descend path ei) = 2 ^ Z.of_nat (length path) + path_index path - 2 /\
  EdgeInfo.part (descend path ei) <= INT_MAX - 2 /\
  (path <> [] -> 0 <= EdgeInfo.part (descend path ei)) /\
  (EdgeInfo.lo (descend path ei)
   == -1 + 2 * inject_Z (path_index path) / inject_Z (2 ^ Z.of_nat (length path)))%Q /\
  (EdgeInfo.hi (descend path ei)
   == -1 + 2 * inject_Z (path_index path + 1) / inject_Z (2 ^ Z.of_nat (length path)))%Q /\
  EdgeInfo.node (descend path ei) = EdgeInfo.node ei /\
  EdgeInfo.ori (descend path ei) = EdgeInfo.ori ei /\
  (forall path', (length path' <= 30)%nat ->
                 EdgeInfo.part (descend path' ei) = EdgeInfo.part (descend path ei) ->
                 path' = path).
Proof.
  intros Hpart Hlo Hhi Hdepth.
  pose proof path_index_range as Hindex.
  assert (Hparts : forall p, (length p <= 30)%nat ->
                             EdgeInfo.part (descend p ei)
                             = 2 ^ Z.of_nat (length p) + path_index p - 2).
  { intros p Hp30. destruct (descend_spec p ei) as (Hp & _).
    - lia.
    - rewrite Hpart. pose proof (pow2_depth_fits _ Hp30). lia.
    - rewrite Hpart in Hp. lia. }
  destruct (descend_spec path ei) as (_ & Hl & Hw & Hnode & Hori).
  { lia. }
  { rewrite Hpart. pose proof (pow2_depth_fits _ Hdepth). lia. }
  pose proof (inject_Z_pow2_pos (length path)) as Hpos.
  assert (Hnz : ~ (inject_Z (2 ^ Z.of_nat (length path)) == 0)%Q).
  { intros H. rewrite H in Hpos. apply (Qlt_irrefl 0), Hpos. }
  split; [apply Hindex|]. split; [now apply Hparts|]. split.
  { rewrite Hparts by exact Hdepth. pose proof (Hindex path).
    pose proof (pow2_depth_fits (length path) Hdepth). lia. }
  split.
  { intros Hne. rewrite Hparts by exact Hdepth. destruct path as [|b p]; [contradiction|].
    pose proof (Hindex (b :: p)) as Hi. cbn [length] in *.
    rewrite Nat2Z.inj_succ, Z.pow_succ_r by lia.
    assert (0 < 2 ^ Z.of_nat (length p)) by (apply Z.pow_pos_nonneg; lia). lia. }
  split; [|split; [|split; [exact Hnode|split; [exact Hori|]]]].
  - rewrite Hl, Hlo, Hhi. field. exact Hnz.
  - assert (E : (EdgeInfo.hi (descend path ei)
                 == EdgeInfo.lo (descend path ei)
                    + (EdgeInfo.hi (descend path ei) - EdgeInfo.lo (descend path ei)))%Q)
      by ring.
    rewrite E, Hw, Hl, Hlo, Hhi, inject_Z_plus. change (inject_Z 1) with 1%Q.
    field. exact Hnz.
  - (* equal part numbers: equal lengths, then equal indices, then equal paths *)
    intros path' Hdepth' Heq. rewrite !Hparts in Heq by assumption.
    assert (Hlen : length path' = length path).
    { pose proof (Hindex path) as H1. pose proof (Hindex path') as H2.
      destruct (Nat.lt_trichotomy (length path') (length path)) as [Hlt|[Heq'|Hgt]];
        [exfalso|exact Heq'|exfalso].
      - assert (2 ^ Z.of_nat (S (length path')) <= 2 ^ Z.of_nat (length path))
          by (apply Z.pow_le_mono_r; lia).
        rewrite Nat2Z.inj_succ, Z.pow_succ_r in H by lia. lia.
      - assert (2 ^ Z.of_nat (S (length path)) <= 2 ^ Z.of_nat (length path'))
          by (apply Z.pow_le_mono_r; lia).
        rewrite Nat2Z.inj_succ, Z.pow_succ_r in H by lia. lia. }
    rewrite Hlen in Heq. assert (Hidx : path_index path' = path_index path) by lia.
    clear -Hlen Hidx Hindex. revert path' Hlen Hidx.
    induction path as [|b p IHp]; intros [|b' p'] Hlen Hidx; try discriminate; [reflexivity|].
    cbn [length] in Hlen. injection Hlen as Hlen.
    cbn [path_index] in Hidx. rewrite Hlen in Hidx.
    pose proof (Hindex p) as H1. pose proof (Hindex p') as H2. rewrite Hlen in H2.
    assert (b' = b /\ path_index p' = path_index p) as [-> Hi].
    { destruct b, b'; split; try reflexivity; lia. }
    f_equal. now apply IHp.
Qed.

(** One split more and the part number leaves the range of [int]: the
    bound of 30 splits cannot be raised. *)
Example half_edge_part_wraps_at_depth_31 :
  EdgeInfo.part (descend (repeat true 31) whole_edge_demo) < 0.
Proof. vm_compute. reflexivity. Qed.

(** *** The vertex pass *)

(** A loop over [i < n] that reads [l[i]] is a loop over the first [n]
    items of [l], when [l] has them. *)
Lemma foldlM_lookup {St A : Type} (f : St -> A -> St) (l : list A) :
  forall (n a : nat) (s : St),
    (a + n <= length l)%nat ->
    foldlM (fun s i => match l !! i with Some x => Some (f s x) | None => None end)
      s (seq a n)
    = Some (fold_left f (take n (drop a l)) s).
Proof.
  induction n as [|n IH]; intros a s Hlen; [reflexivity|].
  cbn [seq foldlM].
  destruct (l !! a) as [x|] eqn:Hx.
  - rewrite (IH (S a)) by lia. f_equal.
    rewrite (drop_S l x a Hx). reflexivity.
  - apply lookup_ge_None in Hx. lia.
Qed.

Section VertexNumbers.
Variable H2D_UNASSIGNED_DOF H2D_CONSTRAINED_DOF : Z.
Variable get_element_order : nat -> Z.
Variable sp : H1Space.t.

Hypothesis unassigned_negative : H2D_UNASSIGNED_DOF < 0.
Hypothesis constrained_negative : H2D_CONSTRAINED_DOF < 0.
Hypothesis sentinels_differ : H2D_CONSTRAINED_DOF <> H2D_UNASSIGNED_DOF.
Hypothesis first_dof_not_negative : 0 <= H1Space.next_dof sp.

Local Abbreviation assign_vertex_node :=
  (VertexPass.assign_vertex_node H2D_UNASSIGNED_DOF H2D_CONSTRAINED_DOF).
Local Abbreviation nd0 := (H1Space.ndata sp).
Local Abbreviation next0 := (H1Space.next_dof sp).
Local Abbreviation nd_of s := (H1Space.ndata (VertexPass.space s)).
Local Abbreviation next_of s := (H1Space.next_dof (VertexPass.space s)).

Local Abbreviation vertex_inv :=
  (vertex_pass_inv H2D_UNASSIGNED_DOF H2D_CONSTRAINED_DOF sp).

(** The body of the loop, case by case, while the counters have room. *)
Lemma assign_vertex_node_cases (s : VertexPass.t) (vn : Node.t) :
  0 <= VertexPass.vertex_functions_count s <= next_of s -> next_of s < INT_MAX ->
  let nd := nd_of s (Node.id vn) in
  if negb (Node.is_constrained_vertex vn) && (NodeData.dof nd =? H2D_UNASSIGNED_DOF) then
    NodeData.dof nd = H2D_UNASSIGNED_DOF /\
    (forall k, nd_of (assign_vertex_node s vn) k
               = if Nat.eqb k (Node.id vn)
                 then numbered_vertex nd (if NodeData.n nd =? 0 then H2D_CONSTRAINED_DOF
                                          else next_of s)
                 else nd_of s k) /\
    next_of (assign_vertex_node s vn) = next_of s + (if NodeData.n nd =? 0 then 0 else 1) /\
    VertexPass.vertex_functions_count (assign_vertex_node s vn)
    = VertexPass.vertex_functions_count s + (if NodeData.n nd =? 0 then 0 else 1)
  else assign_vertex_node s vn = s.
Proof.
  intros Hcount Hroom. cbv zeta. unfold VertexPass.assign_vertex_node.
  destruct (negb (Node.is_constrained_vertex vn)
            && (NodeData.dof (nd_of s (Node.id vn)) =? H2D_UNASSIGNED_DOF)) eqn:Hc;
    [|reflexivity].
  apply andb_true_iff in Hc as [_ Hd]. apply Z.eqb_eq in Hd.
  split; [exact Hd|].
  destruct (NodeData.n (nd_of s (Node.id vn)) =? 0) eqn:Hn; cbn;
    unfold int_add; rewrite ?int_wrap_small by (unfold INT_MAX in *; lia).
  - split; [|split; lia]. intros k. unfold H1Space.set_n, H1Space.set_dof.
    destruct (Nat.eqb_spec k (Node.id vn)) as [->|Hne]; [|reflexivity].
    rewrite Nat.eqb_refl. reflexivity.
  - split; [|split; lia]. intros k. unfold H1Space.set_n, H1Space.set_dof.
    destruct (Nat.eqb_spec k (Node.id vn)) as [->|Hne]; [|reflexivity].
    rewrite Nat.eqb_refl. reflexivity.
Qed.

Lemma vertex_inv_unassigned (s : VertexPass.t) (id : nat) :
  vertex_inv s -> NodeData.dof (nd_of s id) = H2D_UNASSIGNED_DOF ->
  nd_of s id = nd0 id.
Proof.
  intros (Hnext & Hcount & Hform & _) Hd.
  destruct (Hform id) as [H|(_ & d & Hd' & Heq)]; [exact H|].
  rewrite Heq in Hd. cbn in Hd. subst d. lia.
Qed.

Lemma vertex_inv_dof (s : VertexPass.t) (id : nat) :
  vertex_inv s -> NodeData.dof (nd0 id) = H2D_UNASSIGNED_DOF ->
  NodeData.dof (nd_of s id) < next_of s.
Proof.
  intros (Hnext & Hcount & Hform & _) Hd.
  destruct (Hform id) as [H|(_ & d & Hd' & Heq)].
  - rewrite H, Hd. lia.
  - rewrite Heq. cbn. lia.
Qed.

Lemma vertex_inv_counters (s : VertexPass.t) :
  vertex_inv s -> 0 <= VertexPass.vertex_functions_count s <= next_of s.
Proof. intros (Hnext & Hcount & _). lia. Qed.

Lemma vertex_inv_step (s : VertexPass.t) (vn : Node.t) :
  vertex_inv s -> next_of s < INT_MAX ->
  vertex_inv (assign_vertex_node s vn) /\
  next_of s <= next_of (assign_vertex_node s vn) <= next_of s + 1.
Proof.
  intros Hinv Hroom.
  pose proof (assign_vertex_node_cases s vn (vertex_inv_counters s Hinv) Hroom) as Hcases.
  cbv zeta in Hcases.
  destruct (negb (Node.is_constrained_vertex vn)
            && (NodeData.dof (nd_of s (Node.id vn)) =? H2D_UNASSIGNED_DOF));
    [|rewrite Hcases; split; [exact Hinv|lia]].
  destruct Hcases as (HU & Hnd & Hnext' & Hcount').
  pose proof (vertex_inv_unassigned s (Node.id vn) Hinv HU) as Hsame.
  pose proof (fun id H => vertex_inv_dof s id Hinv H) as Hbelow.
  destruct Hinv as (Hnext & Hcount & Hform & Hinj).
  rewrite Hsame in HU, Hnd, Hnext', Hcount'.
  assert (Hstep : 0 <= (if NodeData.n (nd0 (Node.id vn)) =? 0 then 0 else 1) <= 1)
    by (destruct (NodeData.n (nd0 (Node.id vn)) =? 0); lia).
  assert (Hnew : forall k, k <> Node.id vn ->
            nd_of (assign_vertex_node s vn) k = nd_of s k).
  { intros k Hk. rewrite Hnd. destruct (Nat.eqb_spec k (Node.id vn)); [contradiction|reflexivity]. }
  assert (Hself : nd_of (assign_vertex_node s vn) (Node.id vn)
                  = numbered_vertex (nd0 (Node.id vn))
                      (if NodeData.n (nd0 (Node.id vn)) =? 0
                       then H2D_CONSTRAINED_DOF else next_of s)).
  { rewrite Hnd, Nat.eqb_refl. reflexivity. }
  assert (Hselfdof : NodeData.dof (nd_of (assign_vertex_node s vn) (Node.id vn)) < next0 \/
                     NodeData.dof (nd_of (assign_vertex_node s vn) (Node.id vn)) = next_of s).
  { rewrite Hself. cbn. destruct (NodeData.n (nd0 (Node.id vn)) =? 0); [left; lia|now right]. }
  split; [|lia]. split; [lia|]. split; [lia|]. split.
  - intros id. destruct (Nat.eq_dec id (Node.id vn)) as [->|Hne].
    + right. split; [exact HU|]. eexists. split; [|exact Hself].
      destruct (Z.eqb_spec (NodeData.n (nd0 (Node.id vn))) 0); [left; auto|right; split; [lia|auto]].
    + rewrite (Hnew id Hne). destruct (Hform id) as [H|(H1 & d & Hd & Heq)]; [now left|].
      right. split; [exact H1|]. exists d. split; [|exact Heq].
      destruct Hd as [Hd|[Hd Hn]]; [now left|right; split; [lia|exact Hn]].
  - intros id1 id2 H1 H2 Hge Heq.
    destruct (Nat.eq_dec id1 (Node.id vn)) as [E1|N1];
      destruct (Nat.eq_dec id2 (Node.id vn)) as [E2|N2]; [congruence| | |].
    + subst id1. rewrite (Hnew id2 N2) in Heq. pose proof (Hbelow id2 H2). lia.
    + subst id2. rewrite (Hnew id1 N1) in Heq, Hge. pose proof (Hbelow id1 H1). lia.
    + rewrite (Hnew id1 N1) in Heq, Hge. rewrite (Hnew id2 N2) in Heq.
      now apply Hinj.
Qed.

(** A node that has a DOF keeps its data, and the node visited has one
    afterwards unless it is a constrained vertex. *)
Lemma assign_vertex_node_settles (s : VertexPass.t) (vn : Node.t) :
  vertex_inv s -> next_of s < INT_MAX ->
  (forall id, NodeData.dof (nd_of s id) <> H2D_UNASSIGNED_DOF ->
              nd_of (assign_vertex_node s vn) id = nd_of s id) /\
  (Node.is_constrained_vertex vn = false ->
   NodeData.dof (nd_of (assign_vertex_node s vn) (Node.id vn)) <> H2D_UNASSIGNED_DOF).
Proof.
  intros Hinv Hroom.
  pose proof (assign_vertex_node_cases s vn (vertex_inv_counters s Hinv) Hroom) as Hcases.
  cbv zeta in Hcases.
  destruct (negb (Node.is_constrained_vertex vn)
            && (NodeData.dof (nd_of s (Node.id vn)) =? H2D_UNASSIGNED_DOF)) eqn:Hc.
  - destruct Hcases as (HU & Hnd & _). split.
    + intros id Hid. rewrite Hnd.
      destruct (Nat.eqb_spec id (Node.id vn)) as [->|_]; [contradiction|reflexivity].
    + intros _. rewrite Hnd, Nat.eqb_refl. cbn.
      destruct Hinv as (Hnext & Hcount & _).
      destruct (NodeData.n (nd_of s (Node.id vn)) =? 0); lia.
  - rewrite Hcases. split; [reflexivity|]. intros Hfree. rewrite Hfree in Hc. cbn in Hc.
    apply Z.eqb_neq in Hc. exact Hc.
Qed.

Lemma vertex_loop : forall (l : list Node.t) (s : VertexPass.t),
  vertex_inv s -> next_of s + Z.of_nat (length l) <= INT_MAX ->
  vertex_inv (fold_left assign_vertex_node l s) /\
  next_of (fold_left assign_vertex_node l s) <= next_of s + Z.of_nat (length l) /\
  (forall id, NodeData.dof (nd_of s id) <> H2D_UNASSIGNED_DOF ->
              nd_of (fold_left assign_vertex_node l s) id = nd_of s id) /\
  (forall vn, vn ∈ l -> Node.is_constrained_vertex vn = false ->
              NodeData.dof (nd_of (fold_left assign_vertex_node l s) (Node.id vn))
              <> H2D_UNASSIGNED_DOF).
Proof.
  induction l as [|vn l IH]; intros s Hinv Hfit.
  - cbn. split; [exact Hinv|]. split; [lia|]. split; [reflexivity|]. intros vn H. inversion H.
  - cbn [fold_left]. cbn [length] in Hfit |- *.
    destruct (assign_vertex_node_settles s vn Hinv ltac:(lia)) as [Hkeep Hset].
    destruct (vertex_inv_step s vn Hinv ltac:(lia)) as [Hinv1 Hnext1].
    destruct (IH _ Hinv1 ltac:(lia)) as (Hinv' & Hnext' & Hkeep' & Hdone).
    split; [exact Hinv'|]. split; [lia|]. split.
    + intros id Hid. rewrite Hkeep'; [now apply Hkeep|]. rewrite Hkeep; exact Hid.
    + intros v Hv Hfree. apply elem_of_cons in Hv as [->|Hv]; [|now apply Hdone].
      rewrite Hkeep'; now apply Hset.
Qed.

Lemma vertex_pass_loop : forall (active_elements : list Element.t) (s : VertexPass.t),
  Forall (fun e => (Element.nvert e <= length (Element.vn e))%nat) active_elements ->
  foldlM (VertexPass.assign_element_vertices H2D_UNASSIGNED_DOF H2D_CONSTRAINED_DOF
            get_element_order) s active_elements
  = Some (fold_left assign_vertex_node (visited_vertices get_element_order active_elements) s).
Proof.
  induction active_elements as [|e l IH]; intros s Hwf; [reflexivity|].
  apply Forall_cons in Hwf as [He Hl].
  cbn [foldlM]. unfold VertexPass.assign_element_vertices at 1.
  unfold visited_vertices. cbn [mbind list_bind]. fold (visited_vertices get_element_order l).
  rewrite fold_left_app.
  destruct (get_element_order (Element.id e) >? 0).
  - rewrite (foldlM_lookup assign_vertex_node (Element.vn e) (Element.nvert e) 0 s) by lia.
    rewrite drop_0. apply IH, Hl.
  - cbn [fold_left]. apply IH, Hl.
Qed.

(** X22 (vertex DOFs).  With negative sentinels different from each
    other and a first free DOF that is not negative, over elements that
    have their vertices and few enough of them for [next_dof] to stay
    within [INT_MAX], [assign_vertex_dofs] returns; [next_dof] has
    advanced by
    [vertex_functions_count]; a node that had a DOF keeps all its data; a
    node that was unassigned is left alone or has [n = 1] and either the
    constrained sentinel (when its [n] was 0) or a DOF from the run that
    the pass handed out; no two nodes share a DOF of that run; and no
    unconstrained vertex that the pass visited is left unassigned. *)
Theorem assign_vertex_dofs_numbers_each_vertex_once (active_elements : list Element.t) :
  Forall (fun e => (Element.nvert e <= length (Element.vn e))%nat) active_elements ->
  next0 + Z.of_nat (length (visited_vertices get_element_order active_elements)) <= INT_MAX ->
  exists s',
    VertexPass.assign_vertex_dofs H2D_UNASSIGNED_DOF H2D_CONSTRAINED_DOF
      get_element_order sp active_elements = Some s' /\
    next_of s' = next0 + VertexPass.vertex_functions_count s' /\
    0 <= VertexPass.vertex_functions_count s' /\
    next_of s' <= INT_MAX /\
    (forall id, NodeData.dof (nd0 id) <> H2D_UNASSIGNED_DOF -> nd_of s' id = nd0 id) /\
    (forall id, NodeData.dof (nd0 id) = H2D_UNASSIGNED_DOF ->
       nd_of s' id = nd0 id \/
       (NodeData.n (nd0 id) = 0 /\
        nd_of s' id = numbered_vertex (nd0 id) H2D_CONSTRAINED_DOF) \/
       (NodeData.n (nd0 id) <> 0 /\
        exists d, next0 <= d < next_of s' /\ nd_of s' id = numbered_vertex (nd0 id) d)) /\
    (forall id1 id2,
       NodeData.dof (nd0 id1) = H2D_UNASSIGNED_DOF ->
       NodeData.dof (nd0 id2) = H2D_UNASSIGNED_DOF ->
       next0 <= NodeData.dof (nd_of s' id1) ->
       NodeData.dof (nd_of s' id1) = NodeData.dof (nd_of s' id2) -> id1 = id2) /\
    (forall vn, vn ∈ visited_vertices get_element_order active_elements ->
       Node.is_constrained_vertex vn = false ->
       NodeData.dof (nd_of s' (Node.id vn)) <> H2D_UNASSIGNED_DOF).
Proof.
  intros Hwf Hfit. eexists. split.
  { unfold VertexPass.assign_vertex_dofs. apply vertex_pass_loop, Hwf. }
  assert (Hinit : vertex_inv (VertexPass.mk sp 0)).
  { split; [cbn; lia|]. split; [cbn; lia|]. split; [intros id; now left|].
    cbn. intros id1 id2 H1 _ Hge _. rewrite H1 in Hge. lia. }
  destruct (vertex_loop (visited_vertices get_element_order active_elements) _ Hinit Hfit)
    as ((Hnext & Hcount & Hform & Hinj) & Hroom & Hkeep & Hdone).
  cbn [VertexPass.space] in Hroom.
  split; [exact Hnext|]. split; [exact Hcount|]. split; [lia|]. split; [|split; [|split]].
  - intros id Hid. now apply Hkeep.
  - intros id Hid. destruct (Hform id) as [H|(_ & d & [[-> Hn]|[Hd Hn]] & Heq)]; [now left|right..].
    + left. auto.
    + right. split; [exact Hn|]. exists d. auto.
  - exact Hinj.
  - exact Hdone.
Qed.

End VertexNumbers.


Lemma assign_bubble_dofs_contiguous_witness :
  NoDup (map Element.id [triangle_demo; quad_demo]) /\
  sumZ (map (bubbles_of num_bubbles_demo edata_demo) [triangle_demo; quad_demo]) = 2 /\
  BubblePass.next_dof
    (BubblePass.assign_bubble_dofs num_bubbles_demo edata_demo 10 [triangle_demo; quad_demo])
  = 10 + sumZ (map (bubbles_of num_bubbles_demo edata_demo) [triangle_demo; quad_demo]) /\
  ElementData.bdof
    (BubblePass.edata
       (BubblePass.assign_bubble_dofs num_bubbles_demo edata_demo 10
          [triangle_demo; quad_demo])
       (Element.id quad_demo))
  = 11.
Proof.
  assert (H : NoDup (map Element.id [triangle_demo; quad_demo])).
  { cbn. apply NoDup_cons. split; [|apply NoDup_singleton].
    intros Hin. apply list_elem_of_singleton in Hin. discriminate. }
  assert (H0 : 0 <= 10) by lia.
  assert (H1 : Forall (fun e => 0 <= bubbles_of num_bubbles_demo edata_demo e)
                 [triangle_demo; quad_demo]).
  { repeat apply Forall_cons_2; [vm_compute; discriminate..|apply Forall_nil_2]. }
  assert (H2 : 10 + sumZ (map (bubbles_of num_bubbles_demo edata_demo)
                            [triangle_demo; quad_demo]) <= INT_MAX)
    by (vm_compute; discriminate).
  split; [exact H|]. split; [reflexivity|].
  destruct (assign_bubble_dofs_contiguous num_bubbles_demo edata_demo 10
              [triangle_demo; quad_demo] H H0 H1 H2) as (Hn & _ & Hk & _).
  split; [exact Hn|].
  rewrite (Hk 1%nat quad_demo eq_refl). reflexivity.
Defined.

Lemma constrained_edge_part_round_trip_witness :
  ConstrainedEdges.update_active_element edge_ndata_demo triangle_demo edge_infos_demo
  = Some edge_ndata_updated_demo /\
  ConstrainedEdges.get_boundary_assembly_list_internal edge_index_demo
    constrained_edge_index_demo next_vert_demo edge_ndata_updated_demo triangle_demo 1 []
  = Some ([] ++ map (fun j =>
                       H1Space.mk_triplet
                         (constrained_edge_index_demo 1 (j + 2) 1 2 triangle_demo)
                         (20 + j) 1)
                  (seqZ 0 2)).
Proof.
  assert (H : ConstrainedEdges.update_active_element edge_ndata_demo triangle_demo
                edge_infos_demo = Some edge_ndata_updated_demo) by reflexivity.
  split; [exact H|].
  refine (constrained_edge_part_round_trip edge_index_demo constrained_edge_index_demo
            next_vert_demo edge_ndata_demo edge_ndata_updated_demo triangle_demo
            edge_infos_demo 1 (Node.mk 4 1 false 0 false false)
            (EdgeInfo.mk constraining_edge_demo 2 1 (-1) (-(1 # 2))) [] H _ _ _ _ _ _ _).
  - cbn. lia.
  - reflexivity.
  - reflexivity.
  - intros [|[|[|i']]] en' Hne Hen'; cbn in Hen'; try discriminate.
    + injection Hen' as <-. cbn. lia.
    + contradiction.
    + injection Hen' as <-. cbn. lia.
  - cbn. lia.
  - right. reflexivity.
  - cbn. lia.
Defined.

Lemma half_edge_parts_number_the_pieces_witness :
  path_index [true; false] = 2 /\
  EdgeInfo.part (descend [true; false] whole_edge_demo)
  = 2 ^ Z.of_nat (length [true; false]) + path_index [true; false] - 2 /\
  EdgeInfo.part (descend [true; false] whole_edge_demo) = 4 /\
  (EdgeInfo.lo (descend [true; false] whole_edge_demo) == 0)%Q /\
  (EdgeInfo.hi (descend [true; false] whole_edge_demo) == 1 # 2)%Q.
Proof.
  assert (H1 : EdgeInfo.part whole_edge_demo = -1) by reflexivity.
  assert (H2 : (EdgeInfo.lo whole_edge_demo == -1)%Q) by reflexivity.
  assert (H3 : (EdgeInfo.hi whole_edge_demo == 1)%Q) by reflexivity.
  assert (H4 : (length [true; false] <= 30)%nat) by (cbn; lia).
  destruct (half_edge_parts_number_the_pieces [true; false] whole_edge_demo H1 H2 H3 H4)
    as (_ & Hp & _ & _ & Hlo & Hhi & _).
  split; [reflexivity|]. split; [exact Hp|]. split; [rewrite Hp; reflexivity|].
  split; [rewrite Hlo; reflexivity|rewrite Hhi; reflexivity].
Defined.

Lemma assign_vertex_dofs_numbers_each_vertex_once_witness :
  exists s',
    VertexPass.assign_vertex_dofs (-2) (-1) (fun _ => 1) vertex_space_demo [triangle_demo]
    = Some s' /\
    H1Space.next_dof (VertexPass.space s')
    = H1Space.next_dof vertex_space_demo + VertexPass.vertex_functions_count s' /\
    H1Space.next_dof (VertexPass.space s') <= INT_MAX.
Proof.
  assert (H1 : -2 < 0) by lia.
  assert (H2 : -1 < 0) by lia.
  assert (H3 : -1 <> -2) by lia.
  assert (H4 : 0 <= H1Space.next_dof vertex_space_demo) by (cbn; lia).
  assert (H5 : Forall (fun e => (Element.nvert e <= length (Element.vn e))%nat)
                 [triangle_demo]).
  { apply Forall_singleton. cbn. lia. }
  assert (H6 : H1Space.next_dof vertex_space_demo
               + Z.of_nat (length (visited_vertices (fun _ => 1) [triangle_demo]))
               <= INT_MAX) by (vm_compute; discriminate).
  destruct (assign_vertex_dofs_numbers_each_vertex_once (-2) (-1) (fun _ => 1)
              vertex_space_demo H1 H2 H3 H4 [triangle_demo] H5 H6)
    as (s' & Hs' & Hn & _ & Hmax & _).
  exists s'. split; [exact Hs'|]. split; [exact Hn|exact Hmax].
Defined.

Lemma assign_edge_dofs_runs_are_disjoint_witness :
  exists s',
    H1Space.assign_edge_dofs (-2) (-1) user_marker_demo (fun _ => 3) (fun _ => 1) 5
      vertex_space_demo [triangle_demo] = Some s' /\
    H1Space.next_dof s'
    = H1Space.next_dof vertex_space_demo + H1Space.edge_functions_count s' /\
    H1Space.next_dof s' <= INT_MAX.
Proof.
  assert (H1 : -2 < 0) by lia.
  assert (H2 : -1 < 0) by lia.
  assert (H3 : -1 <> -2) by lia.
  assert (H4 : 0 <= H1Space.next_dof vertex_space_demo) by (cbn; lia).
  assert (H5 : forall bcs marker,
             H1Space.essential_bcs vertex_space_demo = Some bcs ->
             exists r, EssentialBCs.get_boundary_condition 5 bcs marker = Some r).
  { intros bcs marker [= <-].
    assert (E : EssentialBCs.scan_markers 5 (EssentialBCs.markers bcs_demo) marker 0
                = if String.eqb "wall" marker then Some (Some 0%nat) else Some None)
      by reflexivity.
    unfold EssentialBCs.get_boundary_condition.
    change (EssentialBCs.HermesAnyBC bcs_demo) with (@None EssentialBoundaryCondition.t).
    cbv iota. rewrite E. destruct (String.eqb "wall" marker); eauto. }
  assert (H6 : Forall (fun e => (Element.nvert e <= length (Element.vn e))%nat /\
                                (Element.nvert e <= length (Element.en e))%nat)
                 [triangle_demo]).
  { apply Forall_singleton. cbn. lia. }
  assert (H7 : Forall (fun en : Node.t => 1 <= (fun _ : Node.t => 3) en)
                 (visited_edges (fun _ => 1) [triangle_demo])).
  { apply Forall_forall. intros; lia. }
  assert (H8 : H1Space.next_dof vertex_space_demo
               + edge_budget (fun _ => 3) (visited_edges (fun _ => 1) [triangle_demo])
               <= INT_MAX) by (vm_compute; discriminate).
  destruct (assign_edge_dofs_runs_are_disjoint (-2) (-1) user_marker_demo (fun _ => 3)
              (fun _ => 1) 5 vertex_space_demo H1 H2 H3 H4 H5 [triangle_demo] H6 H7 H8)
    as (s' & Hs' & Hn & _ & Hmax & _).
  exists s'. split; [exact Hs'|]. split; [exact Hn|exact Hmax].
Defined.

(** *** Adding boundary conditions to a container *)

Lemma marker_pairs_app (l1 l2 : list EssentialBoundaryCondition.t) :
  marker_pairs (l1 ++ l2) = marker_pairs l1 ++ marker_pairs l2.
Proof. unfold marker_pairs. apply flat_map_app. Qed.

(** The loops of [create_marker_cache] never touch [all]. *)
Lemma cache_loop_keeps_all (ANY : string) (fuel : nat)
    (ps : list (EssentialBoundaryCondition.t * string)) :
  forall lo s lo' s',
    EssentialBCs.for_outcome (cache_step ANY fuel) (lo, s) ps = Returns (lo', s') \/
    EssentialBCs.for_outcome (cache_step ANY fuel) (lo, s) ps = Throws (lo', s') ->
    EssentialBCs.all s' = EssentialBCs.all s.
Proof.
  induction ps as [|[bc m] ps IH]; intros lo s lo' s' Hrun.
  - cbn in Hrun. destruct Hrun as [H|H]; [|discriminate]. now injection H as <- <-.
  - cbn [EssentialBCs.for_outcome] in Hrun. unfold cache_step at 1 3 in Hrun.
    cbn [fst snd EssentialBCs.cache_marker] in Hrun.
    destruct (EssentialBCs.hermes_any_set lo).
    { destruct Hrun as [H|H]; [discriminate|]. now injection H as <- <-. }
    destruct (String.eqb m ANY).
    + destruct (EssentialBCs.any_set lo).
      { destruct Hrun as [H|H]; [discriminate|]. now injection H as <- <-. }
      apply IH in Hrun. exact Hrun.
    + destruct (EssentialBCs.scan_markers fuel (EssentialBCs.markers s) m 0) as [[k|]|].
      * destruct Hrun as [H|H]; [discriminate|]. now injection H as <- <-.
      * apply IH in Hrun. exact Hrun.
      * destruct Hrun; discriminate.
Qed.

(** The loops do not read [all] or [HermesAnyBC]: from two containers
    with the same [markers] and [BCs], a run that throws throws in both. *)
Lemma cache_loop_throws_again (ANY : string) (fuel : nat)
    (ps : list (EssentialBoundaryCondition.t * string)) :
  forall lo s1 s2 lo' s1',
    EssentialBCs.markers s1 = EssentialBCs.markers s2 ->
    EssentialBCs.BCs s1 = EssentialBCs.BCs s2 ->
    EssentialBCs.for_outcome (cache_step ANY fuel) (lo, s1) ps = Throws (lo', s1') ->
    exists s2', EssentialBCs.for_outcome (cache_step ANY fuel) (lo, s2) ps = Throws (lo', s2').
Proof.
  induction ps as [|[bc m] ps IH]; intros lo s1 s2 lo' s1' Hm Hb Hrun; [discriminate|].
  cbn [EssentialBCs.for_outcome] in Hrun |- *. unfold cache_step at 1 in Hrun.
  unfold cache_step at 1.
  cbn [fst snd EssentialBCs.cache_marker] in Hrun |- *.
  destruct (EssentialBCs.hermes_any_set lo).
  { injection Hrun as <- <-. eauto. }
  destruct (String.eqb m ANY).
  - destruct (EssentialBCs.any_set lo).
    { injection Hrun as <- <-. eauto. }
    eapply IH; [| |exact Hrun]; [exact Hm|exact Hb].
  - rewrite <- Hm.
    destruct (EssentialBCs.scan_markers fuel (EssentialBCs.markers s1) m 0) as [[k|]|];
      [|eapply IH; [| |exact Hrun]; cbn; congruence|discriminate].
    injection Hrun as <- <-. eauto.
Qed.

(** X24 (one by one or all at once).  After a constructor call that
    returned, [add_boundary_conditions] ends as the constructor does on
    the conditions of both calls together: with the same container when it
    returns, with the same exception state when it throws. *)
Theorem add_boundary_conditions_as_one_construct (ANY : string) (fuel : nat)
    (bcs1 bcs2 : list EssentialBoundaryCondition.t) (s1 : EssentialBCs.t) :
  EssentialBCs.construct ANY fuel bcs1 = Returns s1 ->
  EssentialBCs.add_boundary_conditions ANY fuel s1 bcs2
  = EssentialBCs.construct ANY fuel (bcs1 ++ bcs2).
Proof.
  intros Hc.
  assert (Hall : EssentialBCs.all s1 = bcs1).
  { revert Hc. unfold EssentialBCs.construct, EssentialBCs.add_boundary_conditions,
      EssentialBCs.create_marker_cache.
    cbn [EssentialBCs.all EssentialBCs.empty EssentialBCs.HermesAnyBC app].
    rewrite nested_loops_flat.
    destruct (EssentialBCs.for_outcome (cache_step ANY fuel) _ (marker_pairs bcs1))
      as [[lo' s']| [? ?] |] eqn:Hrun; [|discriminate|discriminate].
    intros [= <-].
    apply (cache_loop_keeps_all ANY fuel _ _ _ lo' s' (or_introl Hrun)). }
  apply construct_returns in Hc.
  unfold EssentialBCs.construct, EssentialBCs.add_boundary_conditions,
    EssentialBCs.create_marker_cache.
  cbn [EssentialBCs.all EssentialBCs.empty EssentialBCs.HermesAnyBC app].
  rewrite Hall.
  destruct Hc as [(_ & _ & _ & Hany & _)|(bc & Hps & Hany)]; rewrite Hany; [reflexivity|].
  rewrite !nested_loops_flat, marker_pairs_app, Hps.
  cbn [app EssentialBCs.for_outcome]. unfold cache_step at 1 3.
  cbn [fst snd EssentialBCs.cache_marker EssentialBCs.hermes_any_set EssentialBCs.any_set].
  rewrite String.eqb_refl. reflexivity.
Qed.

(** X25 (a rejected condition stays).  When [add_boundary_conditions]
    throws, the container has kept the conditions of the call in [all];
    every later [add_boundary_conditions] on it, whatever it adds, throws
    as well. *)
Theorem rejected_conditions_stay (ANY : string) (fuel : nat) (s s' : EssentialBCs.t)
    (boundary_conditions : list EssentialBoundaryCondition.t) :
  EssentialBCs.add_boundary_conditions ANY fuel s boundary_conditions = Throws s' ->
  EssentialBCs.all s' = EssentialBCs.all s ++ boundary_conditions /\
  forall later, exists s'',
    EssentialBCs.add_boundary_conditions ANY fuel s' later = Throws s''.
Proof.
  unfold EssentialBCs.add_boundary_conditions, EssentialBCs.create_marker_cache.
  cbn [EssentialBCs.all EssentialBCs.HermesAnyBC].
  rewrite nested_loops_flat.
  destruct (EssentialBCs.for_outcome (cache_step ANY fuel) _
              (marker_pairs (EssentialBCs.all s ++ boundary_conditions)))
    as [[lo1 t1]|[lo1 t1]|] eqn:Hrun; [discriminate| |discriminate].
  intros [= ->].
  assert (Hall : EssentialBCs.all s' = EssentialBCs.all s ++ boundary_conditions).
  { apply (cache_loop_keeps_all ANY fuel _ _ _ lo1 s' (or_intror Hrun)). }
  split; [exact Hall|]. intros later.
  rewrite nested_loops_flat, Hall, marker_pairs_app, for_outcome_app.
  eapply cache_loop_throws_again in Hrun as [s2' ->]; [eexists; reflexivity| |]; reflexivity.
Qed.


Lemma add_boundary_conditions_as_one_construct_witness :
  EssentialBCs.construct any_demo 5 [EssentialBoundaryCondition.mk 0 ["wall"%string]]
  = Returns bcs_demo /\
  EssentialBCs.add_boundary_conditions any_demo 5 bcs_demo
    [EssentialBoundaryCondition.mk 1 ["inlet"%string]]
  = EssentialBCs.construct any_demo 5
      ([EssentialBoundaryCondition.mk 0 ["wall"%string]]
         ++ [EssentialBoundaryCondition.mk 1 ["inlet"%string]]).
Proof.
  assert (H : EssentialBCs.construct any_demo 5
                [EssentialBoundaryCondition.mk 0 ["wall"%string]] = Returns bcs_demo)
    by reflexivity.
  split; [exact H|].
  exact (add_boundary_conditions_as_one_construct any_demo 5 _ _ _ H).
Defined.

Lemma rejected_conditions_stay_witness :
  EssentialBCs.add_boundary_conditions any_demo 5 bcs_demo
    [EssentialBoundaryCondition.mk 1 ["wall"%string]]
  = Throws (EssentialBCs.mk
              [EssentialBoundaryCondition.mk 0 ["wall"%string];
               EssentialBoundaryCondition.mk 1 ["wall"%string]]
              ["wall"%string] [EssentialBoundaryCondition.mk 0 ["wall"%string]] None) /\
  forall later, exists s'',
    EssentialBCs.add_boundary_conditions any_demo 5
      (EssentialBCs.mk
         [EssentialBoundaryCondition.mk 0 ["wall"%string];
          EssentialBoundaryCondition.mk 1 ["wall"%string]]
         ["wall"%string] [EssentialBoundaryCondition.mk 0 ["wall"%string]] None) later
    = Throws s''.
Proof.
  assert (H : EssentialBCs.add_boundary_conditions any_demo 5 bcs_demo
                [EssentialBoundaryCondition.mk 1 ["wall"%string]]
              = Throws (EssentialBCs.mk
                          [EssentialBoundaryCondition.mk 0 ["wall"%string];
                           EssentialBoundaryCondition.mk 1 ["wall"%string]]
                          ["wall"%string] [EssentialBoundaryCondition.mk 0 ["wall"%string]]
                          None)) by reflexivity.
  split; [exact H|].
  exact (proj2 (rejected_conditions_stay any_demo 5 _ _ _ H)).
Defined.

